(** * Dancing Links exact-cover solver (day12/simulator.py)

    A shallow embedding of [DancingLinksMatrix] and [DLXSolver] and the
    verification of their cover/uncover protocol, column selection,
    backtracking search and row insertion.

    Python integers are [Z]; the two object lists ([nodes], [columns])
    are Rocq lists whose elements are updated in place by position; list
    subscripts follow Python (a negative subscript counts from the end,
    anything else out of range raises [IndexError]).  Methods are
    computations in a state-and-exception monad; [while] loops and the
    recursion of [search] are bounded by explicit fuel.  The [trace]
    flag only guards [print] calls, which are not modelled. *)

From Stdlib Require Import ZArith Lia Ascii.
From stdpp Require Import base tactics option list numbers sets strings gmap.

Local Open Scope Z_scope.

Set Warnings "-clear-no-such-hyp".

(* ================================================================= *)
(** ** Data model *)

Module DLXNode.
(** [@dataclass DLXNode]: every field defaults to [-1]. *)
Record t := mk {
  left : Z; right : Z; up : Z; down : Z; column : Z; row : Z
}.
Definition default : t := mk (-1) (-1) (-1) (-1) (-1) (-1).
Definition set_left (v : Z) (n : t) : t :=
  mk v (right n) (up n) (down n) (column n) (row n).
Definition set_right (v : Z) (n : t) : t :=
  mk (left n) v (up n) (down n) (column n) (row n).
Definition set_up (v : Z) (n : t) : t :=
  mk (left n) (right n) v (down n) (column n) (row n).
Definition set_down (v : Z) (n : t) : t :=
  mk (left n) (right n) (up n) v (column n) (row n).
End DLXNode.

Module DLXColumn.
(** [@dataclass DLXColumn]: [size = 0], links [-1], [name = 0]. *)
Record t := mk {
  size : Z; left : Z; right : Z; first : Z; name : Z
}.
Definition default : t := mk 0 (-1) (-1) (-1) 0.
Definition set_size (v : Z) (c : t) : t :=
  mk v (left c) (right c) (first c) (name c).
Definition set_left (v : Z) (c : t) : t :=
  mk (size c) v (right c) (first c) (name c).
Definition set_right (v : Z) (c : t) : t :=
  mk (size c) (left c) v (first c) (name c).
Definition set_first (v : Z) (c : t) : t :=
  mk (size c) (left c) (right c) v (name c).
End DLXColumn.

#[global] Instance DLXNode_inhabited : Inhabited DLXNode.t :=
  populate DLXNode.default.
#[global] Instance DLXColumn_inhabited : Inhabited DLXColumn.t :=
  populate DLXColumn.default.

Record DancingLinksMatrix := mkMatrix {
  num_columns : Z;
  nodes : list DLXNode.t;
  columns : list DLXColumn.t;
  header_idx : Z
}.

Record DLXSolver := mkSolver {
  matrix : DancingLinksMatrix;
  trace : bool;
  solution : list Z;
  solutions : list (list Z);
  operations : Z
}.

(* ================================================================= *)
(** ** State and exception monad *)

Inductive exn := IndexError.

(** What running a method yields: a value and the new state, an
    exception together with the state the mutations so far left behind,
    or nothing because the fuel ran out. *)
Inductive outcome (S A : Type) :=
| Ret (a : A) (s : S)
| Raise (e : exn) (s : S)
| Timeout.
Arguments Ret {S A} a s.
Arguments Raise {S A} e s.
Arguments Timeout {S A}.

Definition M (S A : Type) : Type := S -> outcome S A.

Definition ret {S A} (a : A) : M S A := fun s => Ret a s.
Definition bind {S A B} (c : M S A) (k : A -> M S B) : M S B :=
  fun s => match c s with
           | Ret a s' => k a s'
           | Raise e s' => Raise e s'
           | Timeout => Timeout
           end.
Definition raise {S A} (e : exn) : M S A := fun s => Raise e s.
Definition timeout {S A} : M S A := fun _ => Timeout.
Definition gets {S A} (f : S -> A) : M S A := fun s => Ret (f s) s.
Definition modify {S} (f : S -> S) : M S unit := fun s => Ret tt (f s).

Notation "x <- c ;; k" := (bind c (fun x => k))
  (at level 100, c at next level, k at level 200, right associativity).
Notation "c ;; k" := (bind c (fun _ => k))
  (at level 100, k at level 200, right associativity).

(** [for x in l: body(x)] *)
Fixpoint for_each {S A} (l : list A) (body : A -> M S unit) : M S unit :=
  match l with
  | [] => ret tt
  | x :: l' => body x ;; for_each l' body
  end.

(** [for x in l: acc = body(acc, x)], for a loop that carries locals. *)
Fixpoint for_fold {S A B} (l : list A) (body : B -> A -> M S B) (acc : B)
  : M S B :=
  match l with
  | [] => ret acc
  | x :: l' => acc' <- body acc x ;; for_fold l' body acc'
  end.

(** [while x != stop: x = body(x)] where [body] runs the loop body and
    yields the next value of the loop variable. *)
Fixpoint while_ne {S} (fuel : nat) (stop : Z) (body : Z -> M S Z) (x : Z)
  : M S unit :=
  match fuel with
  | O => timeout
  | S fuel' =>
      if decide (x = stop) then ret tt
      else x' <- body x ;; while_ne fuel' stop body x'
  end.

(* ================================================================= *)
(** ** Python list subscripts *)

(** Position denoted by subscript [i] in a list of length [len]. *)
Definition py_index (len : nat) (i : Z) : option nat :=
  if decide (0 <= i < Z.of_nat len) then Some (Z.to_nat i)
  else if decide (- Z.of_nat len <= i < 0) then Some (Z.to_nat (Z.of_nat len + i))
  else None.

(** [l[i]] *)
Definition getitem {S A} (proj : S -> list A) (i : Z) : M S A :=
  fun s => match py_index (length (proj s)) i with
           | Some p => match proj s !! p with
                       | Some a => Ret a s
                       | None => Raise IndexError s
                       end
           | None => Raise IndexError s
           end.

(** [l[i].attr = v], written as [l[i] = f(l[i])] since the elements of
    the two lists are distinct objects. *)
Definition setitem {S A} (proj : S -> list A) (inj : list A -> S -> S)
    (i : Z) (f : A -> A) : M S unit :=
  fun s => match py_index (length (proj s)) i with
           | Some p => Ret tt (inj (alter f p (proj s)) s)
           | None => Raise IndexError s
           end.

Definition with_nodes (l : list DLXNode.t) (m : DancingLinksMatrix) :=
  mkMatrix (num_columns m) l (columns m) (header_idx m).
Definition with_columns (l : list DLXColumn.t) (m : DancingLinksMatrix) :=
  mkMatrix (num_columns m) (nodes m) l (header_idx m).

(** [self.nodes[i]] (the object; raises when [i] is out of range) *)
Definition node_at (i : Z) : M DancingLinksMatrix DLXNode.t :=
  getitem nodes i.
(** [self.nodes[i].attr] *)
Definition node_get (attr : DLXNode.t -> Z) (i : Z) : M DancingLinksMatrix Z :=
  n <- node_at i ;; ret (attr n).
(** [self.nodes[i].attr = v] *)
Definition node_set (set : Z -> DLXNode.t -> DLXNode.t) (i v : Z)
  : M DancingLinksMatrix unit :=
  setitem nodes with_nodes i (set v).
(** [self.columns[i]] *)
Definition column_at (i : Z) : M DancingLinksMatrix DLXColumn.t :=
  getitem columns i.
Definition column_get (attr : DLXColumn.t -> Z) (i : Z)
  : M DancingLinksMatrix Z :=
  c <- column_at i ;; ret (attr c).
Definition column_set (set : Z -> DLXColumn.t -> DLXColumn.t) (i v : Z)
  : M DancingLinksMatrix unit :=
  setitem columns with_columns i (set v).
(** [self.columns[i].size += d] *)
Definition column_add_size (i d : Z) : M DancingLinksMatrix unit :=
  sz <- column_get DLXColumn.size i ;;
  column_set DLXColumn.set_size i (sz + d).

(* ================================================================= *)
(** ** DancingLinksMatrix *)

(** The object before [__init__] has run. *)
Definition blank : DancingLinksMatrix := mkMatrix 0 [] [] 0.

(** First loop of [__init__]: one header node and one column record. *)
Definition init_alloc (i : Z) : M DancingLinksMatrix unit :=
  col_idx <- gets (fun m => Z.of_nat (length (nodes m))) ;;
  modify (fun m => with_nodes
    (nodes m ++ [DLXNode.mk (-1) (-1) (-1) (-1) col_idx (-1)]) m) ;;
  modify (fun m => with_columns
    (columns m ++ [DLXColumn.mk 0 (-1) (-1) (-1) i]) m).

(** Second loop of [__init__], for [i, col in enumerate(self.columns)]. *)
Definition init_link (num_columns : Z) (i : Z) : M DancingLinksMatrix unit :=
  let node_idx := i + 1 in
  column_set DLXColumn.set_left i
    (if decide (i > 0) then (i - 1) `mod` num_columns + 1 else num_columns) ;;
  column_set DLXColumn.set_right i
    (if decide (i < num_columns - 1) then (i + 1) `mod` num_columns + 1
     else 1) ;;
  column_set DLXColumn.set_first i node_idx ;;
  l <- column_get DLXColumn.left i ;;
  node_set DLXNode.set_left node_idx l ;;
  r <- column_get DLXColumn.right i ;;
  node_set DLXNode.set_right node_idx r ;;
  node_set DLXNode.set_up node_idx node_idx ;;
  node_set DLXNode.set_down node_idx node_idx.

(** [DancingLinksMatrix.__init__(self, num_columns)] *)
Definition init (n : Z) : M DancingLinksMatrix unit :=
  modify (fun _ => mkMatrix n [] [] 0) ;;
  modify (fun m => with_nodes (nodes m ++ [DLXNode.default]) m) ;;
  for_each (seqZ 0 n) init_alloc ;;
  ncols <- gets (fun m => Z.of_nat (length (columns m))) ;;
  for_each (seqZ 0 ncols) (init_link n) ;;
  node_set DLXNode.set_right 0 1 ;;
  node_set DLXNode.set_left 0 n ;;
  node_set DLXNode.set_left 1 0 ;;
  node_set DLXNode.set_right n 0.

(** [DancingLinksMatrix(num_columns)] *)
Definition create (n : Z) : outcome DancingLinksMatrix unit := init n blank.

(** Body of the [for col_idx in columns] loop of [add_row]; the locals
    [first_node_idx] and [prev_node_idx] are [None] together, hence one
    optional pair. *)
Definition add_row_step (row_id : Z) (acc : option (Z * Z)) (col_idx : Z)
  : M DancingLinksMatrix (option (Z * Z)) :=
  node_idx <- gets (fun m => Z.of_nat (length (nodes m))) ;;
  modify (fun m => with_nodes
    (nodes m ++ [DLXNode.mk (-1) (-1) (-1) (-1) (col_idx + 1) row_id]) m) ;;
  let col_header_idx := col_idx + 1 in
  column_at col_idx ;;
  last_in_col <- node_get DLXNode.up col_header_idx ;;
  node_set DLXNode.set_up node_idx last_in_col ;;
  node_set DLXNode.set_down node_idx col_header_idx ;;
  node_set DLXNode.set_down last_in_col node_idx ;;
  node_set DLXNode.set_up col_header_idx node_idx ;;
  column_add_size col_idx 1 ;;
  match acc with
  | None => ret (Some (node_idx, node_idx))
  | Some (first_node_idx, prev_node_idx) =>
      node_set DLXNode.set_right prev_node_idx node_idx ;;
      node_set DLXNode.set_left node_idx prev_node_idx ;;
      ret (Some (first_node_idx, node_idx))
  end.

(** [DancingLinksMatrix.add_row(self, row_id, columns)] *)
Definition add_row (row_id : Z) (cols : list Z) : M DancingLinksMatrix unit :=
  match cols with
  | [] => ret tt
  | _ =>
      acc <- for_fold cols (add_row_step row_id) None ;;
      match acc with
      | Some (first_node_idx, prev_node_idx) =>
          node_set DLXNode.set_right prev_node_idx first_node_idx ;;
          node_set DLXNode.set_left first_node_idx prev_node_idx
      | None => ret tt
      end
  end.

(** A matrix under construction: [create] followed by [add_row] calls
    that returned normally. *)
Fixpoint add_rows (rows : list (Z * list Z)) : M DancingLinksMatrix unit :=
  match rows with
  | [] => ret tt
  | (row_id, cols) :: rows' => add_row row_id cols ;; add_rows rows'
  end.

Definition build (n : Z) (rows : list (Z * list Z))
  : outcome DancingLinksMatrix unit :=
  (init n ;; add_rows rows) blank.

(* ================================================================= *)
(** ** DLXSolver *)

Definition with_matrix (m : DancingLinksMatrix) (s : DLXSolver) : DLXSolver :=
  mkSolver m (trace s) (solution s) (solutions s) (operations s).

(** Run a computation on [self.matrix]. *)
Definition on_matrix {A} (c : M DancingLinksMatrix A) : M DLXSolver A :=
  fun s => match c (matrix s) with
           | Ret a m => Ret a (with_matrix m s)
           | Raise e m => Raise e (with_matrix m s)
           | Timeout => Timeout
           end.

(** [self.operations += 1] *)
Definition tick : M DLXSolver unit :=
  modify (fun s => mkSolver (matrix s) (trace s) (solution s) (solutions s)
                            (operations s + 1)).

(** [DLXSolver(matrix, trace)] *)
Definition new_solver (m : DancingLinksMatrix) (tr : bool) : DLXSolver :=
  mkSolver m tr [] [] 0.

(** Body of the inner loop of [cover], for the node [node_idx]. *)
Definition cover_node (node_idx : Z) : M DLXSolver Z :=
  on_matrix (node_at node_idx) ;;
  d <- on_matrix (node_get DLXNode.down node_idx) ;;
  u <- on_matrix (node_get DLXNode.up node_idx) ;;
  on_matrix (node_set DLXNode.set_down u d) ;;
  u <- on_matrix (node_get DLXNode.up node_idx) ;;
  d <- on_matrix (node_get DLXNode.down node_idx) ;;
  on_matrix (node_set DLXNode.set_up d u) ;;
  c <- on_matrix (node_get DLXNode.column node_idx) ;;
  on_matrix (column_add_size (c - 1) (-1)) ;;
  tick ;;
  on_matrix (node_get DLXNode.right node_idx).

(** Body of the outer loop of [cover], for the row through [row_node_idx]. *)
Definition cover_row (lf : nat) (row_node_idx : Z) : M DLXSolver Z :=
  on_matrix (node_at row_node_idx) ;;
  node_idx <- on_matrix (node_get DLXNode.right row_node_idx) ;;
  while_ne lf row_node_idx cover_node node_idx ;;
  on_matrix (node_get DLXNode.down row_node_idx).

(** [DLXSolver.cover(self, col_idx)] *)
Definition cover (lf : nat) (col_idx : Z) : M DLXSolver unit :=
  tick ;;
  on_matrix (column_at col_idx) ;;
  let col_node_idx := col_idx + 1 in
  on_matrix (node_at col_node_idx) ;;
  r <- on_matrix (node_get DLXNode.right col_node_idx) ;;
  l <- on_matrix (node_get DLXNode.left col_node_idx) ;;
  on_matrix (node_set DLXNode.set_right l r) ;;
  l <- on_matrix (node_get DLXNode.left col_node_idx) ;;
  r <- on_matrix (node_get DLXNode.right col_node_idx) ;;
  on_matrix (node_set DLXNode.set_left r l) ;;
  row_node_idx <- on_matrix (node_get DLXNode.down col_node_idx) ;;
  while_ne lf col_node_idx (cover_row lf) row_node_idx.

(** Body of the inner loop of [uncover]. *)
Definition uncover_node (node_idx : Z) : M DLXSolver Z :=
  on_matrix (node_at node_idx) ;;
  u <- on_matrix (node_get DLXNode.up node_idx) ;;
  on_matrix (node_set DLXNode.set_down u node_idx) ;;
  d <- on_matrix (node_get DLXNode.down node_idx) ;;
  on_matrix (node_set DLXNode.set_up d node_idx) ;;
  c <- on_matrix (node_get DLXNode.column node_idx) ;;
  on_matrix (column_add_size (c - 1) 1) ;;
  tick ;;
  on_matrix (node_get DLXNode.left node_idx).

(** Body of the outer loop of [uncover]. *)
Definition uncover_row (lf : nat) (row_node_idx : Z) : M DLXSolver Z :=
  on_matrix (node_at row_node_idx) ;;
  node_idx <- on_matrix (node_get DLXNode.left row_node_idx) ;;
  while_ne lf row_node_idx uncover_node node_idx ;;
  on_matrix (node_get DLXNode.up row_node_idx).

(** [DLXSolver.uncover(self, col_idx)] *)
Definition uncover (lf : nat) (col_idx : Z) : M DLXSolver unit :=
  tick ;;
  on_matrix (column_at col_idx) ;;
  let col_node_idx := col_idx + 1 in
  on_matrix (node_at col_node_idx) ;;
  row_node_idx <- on_matrix (node_get DLXNode.up col_node_idx) ;;
  while_ne lf col_node_idx (uncover_row lf) row_node_idx ;;
  l <- on_matrix (node_get DLXNode.left col_node_idx) ;;
  on_matrix (node_set DLXNode.set_right l col_node_idx) ;;
  r <- on_matrix (node_get DLXNode.right col_node_idx) ;;
  on_matrix (node_set DLXNode.set_left r col_node_idx).

(** [size < min_size], where [min_size = None] stands for [float('inf')]. *)
Definition below (size : Z) (min_size : option Z) : bool :=
  match min_size with
  | None => true
  | Some ms => bool_decide (size < ms)
  end.

(** The scan of [choose_column]. *)
Fixpoint choose_scan (fuel : nat) (min_size best_col : option Z)
    (col_node_idx : Z) : M DLXSolver (option Z) :=
  match fuel with
  | O => timeout
  | S fuel' =>
      if decide (col_node_idx = 0) then ret best_col
      else
        let col_idx := col_node_idx - 1 in
        ncols <- gets (fun s => Z.of_nat (length (columns (matrix s)))) ;;
        acc <- (if decide (col_idx < ncols) then
                  sz <- on_matrix (column_get DLXColumn.size col_idx) ;;
                  if below sz min_size
                  then ret (Some sz, Some col_idx)
                  else ret (min_size, best_col)
                else ret (min_size, best_col)) ;;
        next <- on_matrix (node_get DLXNode.right col_node_idx) ;;
        choose_scan fuel' acc.1 acc.2 next
  end.

(** [DLXSolver.choose_column(self)] *)
Definition choose_column (lf : nat) : M DLXSolver (option Z) :=
  tick ;;
  r <- on_matrix (node_get DLXNode.right 0) ;;
  if decide (r = 0) then ret None
  else
    col_node_idx <- on_matrix (node_get DLXNode.right 0) ;;
    choose_scan lf None None col_node_idx.

(** [self.solution.append(row_id)] *)
Definition solution_append (row_id : Z) : M DLXSolver unit :=
  modify (fun s => mkSolver (matrix s) (trace s) (solution s ++ [row_id])
                            (solutions s) (operations s)).

(** [self.solution.pop()] *)
Definition solution_pop : M DLXSolver unit :=
  fun s => match solution s with
           | [] => Raise IndexError s
           | _ => Ret tt (mkSolver (matrix s) (trace s)
                            (removelast (solution s)) (solutions s)
                            (operations s))
           end.

(** [self.solutions.append(list(self.solution))] *)
Definition record_solution : M DLXSolver unit :=
  modify (fun s => mkSolver (matrix s) (trace s) (solution s)
                            (solutions s ++ [solution s]) (operations s)).

(** How the [while] loop of [search] is left: by its condition, with the
    local [found], or by the [return True] inside it. *)
Inductive loop_exit := Fallthrough (found : bool) | Returned (v : bool).

(** The [while row_node_idx != col_node_idx] loop of [search]; [recurse]
    is the call [self.search(depth + 1, find_all)]. *)
Fixpoint search_rows (lf : nat) (recurse : M DLXSolver bool)
    (find_all : bool) (col_node_idx : Z) (fuel : nat) (found : bool)
    (row_node_idx : Z) : M DLXSolver loop_exit :=
  match fuel with
  | O => timeout
  | S fuel' =>
      if decide (row_node_idx = col_node_idx) then ret (Fallthrough found)
      else
        on_matrix (node_at row_node_idx) ;;
        row_id <- on_matrix (node_get DLXNode.row row_node_idx) ;;
        solution_append row_id ;;
        node_idx <- on_matrix (node_get DLXNode.right row_node_idx) ;;
        while_ne lf row_node_idx
          (fun node_idx =>
             on_matrix (node_at node_idx) ;;
             c <- on_matrix (node_get DLXNode.column node_idx) ;;
             cover lf (c - 1) ;;
             on_matrix (node_get DLXNode.right node_idx))
          node_idx ;;
        b <- recurse ;;
        if b && negb find_all then ret (Returned true)
        else
          let found := if b then true else found in
          solution_pop ;;
          node_idx <- on_matrix (node_get DLXNode.left row_node_idx) ;;
          while_ne lf row_node_idx
            (fun node_idx =>
               on_matrix (node_at node_idx) ;;
               c <- on_matrix (node_get DLXNode.column node_idx) ;;
               uncover lf (c - 1) ;;
               on_matrix (node_get DLXNode.left node_idx))
            node_idx ;;
          next <- on_matrix (node_get DLXNode.down row_node_idx) ;;
          search_rows lf recurse find_all col_node_idx fuel' found next
  end.

(** [DLXSolver.search(self, depth, find_all)].  [calls] bounds the
    nesting of recursive calls (it drops by one at each recursive call
    and nowhere else); [lf] bounds the iterations of each [while]. *)
Fixpoint search (calls : nat) (lf : nat) (depth : Z) (find_all : bool)
  : M DLXSolver bool :=
  match calls with
  | O => timeout
  | S calls' =>
      on_matrix (node_at 0) ;;
      r <- on_matrix (node_get DLXNode.right 0) ;;
      if decide (r = 0) then record_solution ;; ret true
      else
        best <- choose_column lf ;;
        match best with
        | None => ret false
        | Some col_idx =>
            sz <- on_matrix (column_get DLXColumn.size col_idx) ;;
            if decide (sz = 0) then ret false
            else
              cover lf col_idx ;;
              let col_node_idx := col_idx + 1 in
              row_node_idx <- on_matrix (node_get DLXNode.down col_node_idx) ;;
              ex <- search_rows lf (search calls' lf (depth + 1) find_all)
                      find_all col_node_idx lf false row_node_idx ;;
              match ex with
              | Returned v => ret v
              | Fallthrough found => uncover lf col_idx ;; ret found
              end
        end
  end.

(** [DLXSolver.solve(self, find_all)] *)
Definition solve (calls lf : nat) (find_all : bool)
  : M DLXSolver (list (list Z)) :=
  modify (fun s => mkSolver (matrix s) (trace s) [] [] 0) ;;
  search calls lf 0 find_all ;;
  gets solutions.

(* ================================================================= *)
(** ** Statistics *)

(** [DancingLinksMatrix.get_memory_stats(self)]: the [dict] it builds. *)
Definition get_memory_stats (m : DancingLinksMatrix) : gmap string Z :=
  let num_nodes := Z.of_nat (length (nodes m)) in
  <["total_bram_bits" := num_nodes * 60 + num_columns m * 50]>
  (<["total_column_bits" := num_columns m * 50]>
  (<["bits_per_column" := 50]>
  (<["total_node_bits" := num_nodes * 60]>
  (<["bits_per_node" := 60]>
  (<["num_columns" := num_columns m]>
  (<["num_nodes" := num_nodes]> ∅)))))).

(** [max(len(s) for s in sols)] for the solutions [s0 :: sols], at
    least one. *)
Definition max_len (s0 : list Z) (sols : list (list Z)) : Z :=
  foldl (fun acc s => if decide (Z.of_nat (length s) > acc)
                      then Z.of_nat (length s) else acc)
        (Z.of_nat (length s0)) sols.

(** [DLXSolver.get_stats(self)] *)
Definition get_stats (s : DLXSolver) : gmap string Z :=
  <["max_recursion_depth" :=
      match solutions s with
      | [] => 0
      | s0 :: sols => max_len s0 sols
      end]>
  (<["total_operations" := operations s]>
  (<["solutions_found" := Z.of_nat (length (solutions s))]> ∅)).

(* ================================================================= *)
(** ** Polyomino packing as exact cover *)

(** The [for dx, dy in piece] loop of [create_polyomino_matrix] at
    position [(x, y)]: the locals [valid] and [cells] when it is left,
    by exhaustion or by [break]. *)
Fixpoint place_cells (grid_size x y : Z) (piece : list (Z * Z))
    (cells : list Z) : bool * list Z :=
  match piece with
  | [] => (true, cells)
  | (dx, dy) :: piece' =>
      let nx := x + dx in
      let ny := y + dy in
      if decide (0 <= nx < grid_size /\ 0 <= ny < grid_size)
      then place_cells grid_size x y piece' (cells ++ [ny * grid_size + nx])
      else (false, cells)
  end.

(** The body of the innermost [for x] loop; the locals [row_map] and
    [row_id] are carried as a pair. *)
Definition place_piece (grid_size num_cells piece_idx : Z)
    (piece : list (Z * Z)) (y : Z) (acc : gmap Z (Z * Z * Z) * Z) (x : Z)
  : M DancingLinksMatrix (gmap Z (Z * Z * Z) * Z) :=
  let '(valid, cells) := place_cells grid_size x y piece [] in
  if valid && bool_decide (length (remove_dups cells) = length cells)
  then
    let cols := cells ++ [num_cells + piece_idx] in
    add_row acc.2 cols ;;
    ret (<[acc.2 := (piece_idx, x, y)]> acc.1, acc.2 + 1)
  else ret acc.

(** [create_polyomino_matrix(grid_size, pieces)], as a computation on
    the matrix it creates that yields [row_map]. *)
Definition create_polyomino_matrix (grid_size : Z)
    (pieces : list (list (Z * Z)))
  : M DancingLinksMatrix (gmap Z (Z * Z * Z)) :=
  let num_cells := grid_size * grid_size in
  let num_pieces := Z.of_nat (length pieces) in
  let num_cols := num_cells + num_pieces in
  init num_cols ;;
  acc <- for_fold (zip (seqZ 0 num_pieces) pieces)
           (fun acc pp =>
              for_fold (seqZ 0 grid_size)
                (fun acc y =>
                   for_fold (seqZ 0 grid_size)
                     (place_piece grid_size num_cells pp.1 pp.2 y) acc)
                acc)
           (∅, 0) ;;
  ret acc.1.

(* ================================================================= *)
(** ** Display of a packing *)

(** [visualize_solution] subscripts a dict as well as lists: a missing
    key raises [KeyError]. *)
Inductive lookup_exn := KeyError | ListExn (e : exn).

(** What a function without a matrix to work on yields. *)
Inductive result (A : Type) :=
| Ok (a : A)
| Err (e : lookup_exn).
Arguments Ok {A} a.
Arguments Err {A} e.

Definition piece_chars : list ascii :=
  String.list_ascii_of_string "ABCDEFGHIJKLMNOPQRSTUVWXYZ".

(** [l[i]] for a local list or string. *)
Definition subscript {A} (l : list A) (i : Z) : result A :=
  match py_index (length l) i with
  | Some p => match l !! p with
              | Some a => Ok a
              | None => Err (ListExn IndexError)
              end
  | None => Err (ListExn IndexError)
  end.

(** [grid[i][j] = ch]: the row [grid[i]] is a list of its own, changed
    in place. *)
Definition grid_set (grid : list (list ascii)) (i j : Z) (ch : ascii)
  : result (list (list ascii)) :=
  match py_index (length grid) i with
  | Some r =>
      match grid !! r with
      | Some row =>
          match py_index (length row) j with
          | Some c => Ok (<[r := <[c := ch]> row]> grid)
          | None => Err (ListExn IndexError)
          end
      | None => Err (ListExn IndexError)
      end
  | None => Err (ListExn IndexError)
  end.

(** [for dx, dy in piece: grid[y + dy][x + dx] = char] *)
Fixpoint draw_piece (x y : Z) (char : ascii) (piece : list (Z * Z))
    (grid : list (list ascii)) : result (list (list ascii)) :=
  match piece with
  | [] => Ok grid
  | (dx, dy) :: piece' =>
      match grid_set grid (y + dy) (x + dx) char with
      | Ok grid' => draw_piece x y char piece' grid'
      | Err e => Err e
      end
  end.

(** [for row_id in solution: ...] *)
Fixpoint draw_rows (pieces : list (list (Z * Z)))
    (row_map : gmap Z (Z * Z * Z)) (solution : list Z)
    (grid : list (list ascii)) : result (list (list ascii)) :=
  match solution with
  | [] => Ok grid
  | row_id :: solution' =>
      match row_map !! row_id with
      | None => Err KeyError
      | Some (piece_idx, x, y) =>
          match subscript pieces piece_idx with
          | Err e => Err e
          | Ok piece =>
              match subscript piece_chars
                      (piece_idx `mod` Z.of_nat (length piece_chars)) with
              | Err e => Err e
              | Ok char =>
                  match draw_piece x y char piece grid with
                  | Err e => Err e
                  | Ok grid' => draw_rows pieces row_map solution' grid'
                  end
              end
          end
      end
  end.

(** [visualize_solution(grid_size, pieces, solution, row_map)] *)
Definition visualize_solution (grid_size : Z) (pieces : list (list (Z * Z)))
    (solution : list Z) (row_map : gmap Z (Z * Z * Z))
  : result (list string) :=
  let grid := replicate (Z.to_nat grid_size)
                (replicate (Z.to_nat grid_size) "."%char) in
  match draw_rows pieces row_map solution grid with
  | Ok grid' => Ok (map String.string_of_list_ascii grid')
  | Err e => Err e
  end.

(* ================================================================= *)
(** ** Reading a matrix: fields as functions of the node index *)

Definition nnodes (m : DancingLinksMatrix) : Z := Z.of_nat (length (nodes m)).
Definition ncols (m : DancingLinksMatrix) : Z := Z.of_nat (length (columns m)).

Definition nd (m : DancingLinksMatrix) (x : Z) : DLXNode.t :=
  nodes m !!! Z.to_nat x.
Definition cl (m : DancingLinksMatrix) (c : Z) : DLXColumn.t :=
  columns m !!! Z.to_nat c.

Definition Lf m x := DLXNode.left (nd m x).
Definition Rt m x := DLXNode.right (nd m x).
Definition Up m x := DLXNode.up (nd m x).
Definition Dn m x := DLXNode.down (nd m x).
Definition Col m x := DLXNode.column (nd m x).
Definition Rw m x := DLXNode.row (nd m x).
Definition size_of m c := DLXColumn.size (cl m c).

(** In-place updates at a position known to be within range. *)
Definition upd_node (f : DLXNode.t -> DLXNode.t) (x : Z)
    (m : DancingLinksMatrix) : DancingLinksMatrix :=
  with_nodes (alter f (Z.to_nat x) (nodes m)) m.
Definition upd_col (f : DLXColumn.t -> DLXColumn.t) (c : Z)
    (m : DancingLinksMatrix) : DancingLinksMatrix :=
  with_columns (alter f (Z.to_nat c) (columns m)) m.
Definition add_size (c d : Z) (m : DancingLinksMatrix) : DancingLinksMatrix :=
  upd_col (DLXColumn.set_size (size_of m c + d)) c m.

(** What one iteration of the inner loops of [cover] and [uncover] does
    to the matrix, and what the two header assignments do. *)
Definition unlink_v (j : Z) (m : DancingLinksMatrix) : DancingLinksMatrix :=
  let m1 := upd_node (DLXNode.set_down (Dn m j)) (Up m j) m in
  let m2 := upd_node (DLXNode.set_up (Up m1 j)) (Dn m1 j) m1 in
  add_size (Col m2 j - 1) (-1) m2.
Definition relink_v (j : Z) (m : DancingLinksMatrix) : DancingLinksMatrix :=
  let m1 := upd_node (DLXNode.set_down j) (Up m j) m in
  let m2 := upd_node (DLXNode.set_up j) (Dn m1 j) m1 in
  add_size (Col m2 j - 1) 1 m2.
Definition unlink_h (h : Z) (m : DancingLinksMatrix) : DancingLinksMatrix :=
  let m1 := upd_node (DLXNode.set_right (Rt m h)) (Lf m h) m in
  upd_node (DLXNode.set_left (Lf m1 h)) (Rt m1 h) m1.
Definition relink_h (h : Z) (m : DancingLinksMatrix) : DancingLinksMatrix :=
  let m1 := upd_node (DLXNode.set_right h) (Lf m h) m in
  upd_node (DLXNode.set_left h) (Rt m1 h) m1.

(** The solver after work on its matrix that cost [k] operations. *)
Definition upd_solver (m : DancingLinksMatrix) (k : Z) (s : DLXSolver)
  : DLXSolver :=
  mkSolver m (trace s) (solution s) (solutions s) (operations s + k).

(* ================================================================= *)
(** ** Doubly linked paths *)

(** [dl nx pv a l b]: following [nx] from [a] runs through [l] and
    arrives at [b], and [pv] leads back the same way. *)
Fixpoint dl (nx pv : Z -> Z) (a : Z) (l : list Z) (b : Z) : Prop :=
  match l with
  | [] => nx a = b /\ pv b = a
  | x :: l' => nx a = x /\ pv x = a /\ dl nx pv x l' b
  end.

(** A doubly linked cycle through the nodes of [xs], in that order. *)
Definition cyc (nx pv : Z -> Z) (xs : list Z) : Prop :=
  match xs with
  | [] => True
  | a :: l => dl nx pv a l a
  end.

(** A function changed at one argument. *)
Definition fupd (f : Z -> Z) (k v : Z) : Z -> Z :=
  fun y => if decide (y = k) then v else f y.

(** The part of a list before and after the first occurrence of [i]. *)
Fixpoint before (i : Z) (xs : list Z) : list Z :=
  match xs with
  | [] => []
  | x :: r => if decide (x = i) then [] else x :: before i r
  end.
Fixpoint after (i : Z) (xs : list Z) : list Z :=
  match xs with
  | [] => []
  | x :: r => if decide (x = i) then r else after i r
  end.
(** The other nodes of a cyclic list, in the order met when walking on
    from [i]. *)
Definition others (i : Z) (xs : list Z) : list Z := after i xs ++ before i xs.

(* ================================================================= *)
(** ** The shape of a well-built matrix *)

(** A row as the matrix stores it: its identifier and its cells, each a
    node index paired with the index of the column the node lies in. *)
Definition grow : Type := Z * list (Z * Z).

Definition cells (G : list grow) : list (Z * Z) := concat (map snd G).
Definition row_nodes (g : grow) : list Z := map fst (snd g).
Definition row_cols (g : grow) : list Z := map snd (snd g).

(** The nodes of column [c], top to bottom. *)
Definition colnodes (G : list grow) (c : Z) : list Z :=
  map fst (filter (fun p => p.2 = c) (cells G)).

(** The nodes of the row that node [i] lies in. *)
Definition row_of (G : list grow) (i : Z) : list Z :=
  match filter (fun g => i ∈ row_nodes g) G with
  | g :: _ => row_nodes g
  | [] => []
  end.

(** What never changes once the rows are in: sizes of the two lists,
    the column and row number of every node. *)
Record StaticV (n : Z) (G : list grow) (m : DancingLinksMatrix) : Prop := {
  st_n : 1 <= n;
  st_num : num_columns m = n;
  st_ncols : ncols m = n;
  st_nnodes : n + 1 <= nnodes m;
  st_hdr : forall h, 1 <= h <= n -> Col m h = h;
  st_cell : forall g x c, g ∈ G -> (x, c) ∈ g.2 ->
    n + 1 <= x < nnodes m /\ 0 <= c < n /\ Col m x = c + 1 /\ Rw m x = g.1;
  st_cols : forall g, g ∈ G -> NoDup (row_cols g);
  st_nodup : NoDup (map fst (cells G))
}.

(** The nodes of each row form a horizontal cycle. *)
Definition StaticH (G : list grow) (m : DancingLinksMatrix) : Prop :=
  forall g, g ∈ G -> g.2 <> [] /\ cyc (Rt m) (Lf m) (row_nodes g).

(** The header list holds, in ascending order, the columns not in [K]. *)
Definition HS (n : Z) (K : list Z) (m : DancingLinksMatrix) : Prop :=
  dl (Rt m) (Lf m) 0 (filter (fun h => h - 1 ∉ K) (seqZ 1 n)) 0.

(** The vertical list of each column holds, top to bottom, its nodes
    not in [H], and the column's size counts them. *)
Definition VS (n : Z) (G : list grow) (H : list Z) (m : DancingLinksMatrix)
  : Prop :=
  forall c, 0 <= c < n ->
    dl (Dn m) (Up m) (c + 1) (filter (fun x => x ∉ H) (colnodes G c)) (c + 1)
    /\ size_of m c = Z.of_nat (length (filter (fun x => x ∉ H) (colnodes G c))).

(** [H] holds no node of a row that avoids the covered columns [K], and
    every node that a row meeting [K] has in an uncovered column. *)
Definition RowInv (G : list grow) (K H : list Z) : Prop :=
  forall g x c, g ∈ G -> (x, c) ∈ g.2 ->
    (x ∈ H -> exists c', c' ∈ row_cols g /\ c' ∈ K) /\
    (c ∉ K -> (exists c', c' ∈ row_cols g /\ c' ∈ K) -> x ∈ H).

Record Inv (n : Z) (G : list grow) (K H : list Z) (m : DancingLinksMatrix)
  : Prop := {
  inv_sv : StaticV n G m;
  inv_sh : StaticH G m;
  inv_hs : HS n K m;
  inv_vs : VS n G H m;
  inv_rows : RowInv G K H;
  inv_K : NoDup K;
  inv_Kr : forall c, c ∈ K -> 0 <= c < n
}.

(** The other nodes of the rows through the nodes [L], row by row. *)
Definition hide_rows (G : list grow) (L : list Z) : list Z :=
  concat (map (fun i => others i (row_of G i)) L).

(** The nodes [cover] unlinks for column [c], in the order it does. *)
Definition trace_of (G : list grow) (H : list Z) (c : Z) : list Z :=
  hide_rows G (filter (fun x => x ∉ H) (colnodes G c)).

Definition unlinks (X : list Z) (m : DancingLinksMatrix) : DancingLinksMatrix :=
  foldl (fun m j => unlink_v j m) m X.

(** The matrix after [cover c]. *)
Definition covered (G : list grow) (H : list Z) (c : Z)
    (m : DancingLinksMatrix) : DancingLinksMatrix :=
  unlinks (trace_of G H c) (unlink_h (c + 1) m).

(** The rows a caller may add to a matrix of [n] columns: column
    indices within range, none twice in a row. *)
Definition valid_rows (n : Z) (rows : list (Z * list Z)) : Prop :=
  Forall (fun r => NoDup r.2 /\ Forall (fun c => 0 <= c < n) r.2) rows.

(** The stored rows are the caller's rows, those without columns left
    out. *)
Definition ghost_of (rows : list (Z * list Z)) (G : list grow) : Prop :=
  map (fun g => (g.1, row_cols g)) G = filter (fun r => r.2 <> []) rows.

(** A matrix as [build] leaves it. *)
Definition Built (n : Z) (rows : list (Z * list Z))
    (m : DancingLinksMatrix) : Prop :=
  exists G, Inv n G [] [] m /\ ghost_of rows G.

(** What the scan of [choose_column] computes over the header list [l]:
    the first column whose size is below all sizes seen before it. *)
Fixpoint scan_min (size : Z -> Z) (l : list Z) (min_size best_col : option Z)
  : option Z :=
  match l with
  | [] => best_col
  | h :: l' =>
      if below (size (h - 1)) min_size
      then scan_min size l' (Some (size (h - 1))) (Some (h - 1))
      else scan_min size l' min_size best_col
  end.

(** The header list of a matrix whose covered columns are [K]. *)
Definition active (n : Z) (K : list Z) : list Z :=
  filter (fun h => h - 1 ∉ K) (seqZ 1 n).

(** [cover] applied to the columns [Ks], one after the other. *)
Fixpoint covers (lf : nat) (Ks : list Z) : M DLXSolver unit :=
  match Ks with
  | [] => ret tt
  | c :: Ks' => cover lf c ;; covers lf Ks'
  end.

(* ================================================================= *)
(** ** What an operation on one kind of link leaves alone *)

(** Two matrices that differ at most in vertical links and sizes. *)
Record vframe (m m' : DancingLinksMatrix) : Prop := {
  vf_num : num_columns m' = num_columns m;
  vf_hdr : header_idx m' = header_idx m;
  vf_nnodes : nnodes m' = nnodes m;
  vf_ncols : ncols m' = ncols m;
  vf_lf : forall x, 0 <= x -> Lf m' x = Lf m x;
  vf_rt : forall x, 0 <= x -> Rt m' x = Rt m x;
  vf_col : forall x, 0 <= x -> Col m' x = Col m x;
  vf_rw : forall x, 0 <= x -> Rw m' x = Rw m x
}.

(** Two matrices that differ at most in horizontal links. *)
Record hframe (m m' : DancingLinksMatrix) : Prop := {
  hf_num : num_columns m' = num_columns m;
  hf_hdr : header_idx m' = header_idx m;
  hf_nnodes : nnodes m' = nnodes m;
  hf_ncols : ncols m' = ncols m;
  hf_up : forall x, 0 <= x -> Up m' x = Up m x;
  hf_dn : forall x, 0 <= x -> Dn m' x = Dn m x;
  hf_col : forall x, 0 <= x -> Col m' x = Col m x;
  hf_rw : forall x, 0 <= x -> Rw m' x = Rw m x;
  hf_size : forall c, size_of m' c = size_of m c
}.

(* ================================================================= *)
(** ** Stages of construction *)

Definition hdr_node (i : Z) : DLXNode.t :=
  DLXNode.mk (-1) (-1) (-1) (-1) (i + 1) (-1).

Definition hdr_col (i : Z) : DLXColumn.t := DLXColumn.mk 0 (-1) (-1) (-1) i.

(** The header nodes [1..k] are linked as the second loop leaves them. *)
Definition linked_upto (n k : Z) (m : DancingLinksMatrix) : Prop :=
  num_columns m = n /\ header_idx m = 0 /\ nnodes m = n + 1 /\ ncols m = n /\
  nd m 0 = DLXNode.default /\
  (forall h, 1 <= h <= n -> Col m h = h /\ Rw m h = -1) /\
  (forall i, 0 <= i < n -> size_of m i = 0) /\
  (forall h, 1 <= h <= k ->
     Lf m h = (if decide (h - 1 > 0) then (h - 2) `mod` n + 1 else n) /\
     Rt m h = (if decide (h - 1 < n - 1) then h `mod` n + 1 else 1) /\
     Up m h = h /\ Dn m h = h).

Definition append_node (a : DLXNode.t) (m : DancingLinksMatrix) :=
  with_nodes (nodes m ++ [a]) m.

(* ================================================================= *)
(** ** Subscripts and what [add_row] needs of a matrix *)

(** The position a subscript [i] within [-len, len) denotes. *)
Definition wrap (len i : Z) : Z := if decide (0 <= i) then i else len + i.

(** What [add_row] needs of a matrix to run: the column records are
    there, every header has a node, and every [up] field is a valid
    subscript of [nodes]. *)
Record addable (n : Z) (m : DancingLinksMatrix) : Prop := {
  ad_n : 1 <= n;
  ad_ncols : ncols m = n;
  ad_nnodes : n + 1 <= nnodes m;
  ad_up : forall x, 0 <= x < nnodes m -> -1 <= Up m x < nnodes m
}.

(** The local pair [first_node_idx, prev_node_idx] names nodes. *)
Definition acc_ok (m : DancingLinksMatrix) (acc : option (Z * Z)) : Prop :=
  forall f p, acc = Some (f, p) -> 0 <= f < nnodes m /\ 0 <= p < nnodes m.

(** How often the column list increments the size of column [k]. *)
Definition hits (n : Z) (cols : list Z) (k : Z) : Z :=
  Z.of_nat (length (filter (fun c => wrap n c = k) cols)).

(* ================================================================= *)
(** ** What [search] promises *)

(** Work on the matrix leaves the rest of the solver alone. *)
Definition evolves (s s' : DLXSolver) : Prop :=
  trace s' = trace s /\ solution s' = solution s /\
  solutions s' = solutions s.

(** The hidden nodes and the matrix after covering the columns [Ks] one
    after the other. *)
Fixpoint covereds (G : list grow) (Ks : list Z) (H : list Z)
    (m : DancingLinksMatrix) : list Z * DancingLinksMatrix :=
  match Ks with
  | [] => (H, m)
  | c :: Ks' => covereds G Ks' (trace_of G H c ++ H) (covered G H c m)
  end.

(** The rows [P], all of the matrix, have the identifiers [sol] and
    between them exactly the columns [K], each once. *)
Definition chosen (G : list grow) (K : list Z) (P : list grow)
    (sol : list Z) : Prop :=
  Forall (fun g => g ∈ G) P /\ map fst P = sol /\
  concat (map row_cols P) ≡ₚ K.

(** [sol] names rows of the matrix that cover each of the [n] columns
    exactly once. *)
Definition exact_in (G : list grow) (n : Z) (sol : list Z) : Prop :=
  exists P, chosen G (seqZ 0 n) P sol.

(** [sol] names rows handed to [add_row] whose column lists, put
    together, hold each of the columns [0 .. n-1] exactly once. *)
Definition exact_cover (n : Z) (rows : list (Z * list Z)) (sol : list Z)
  : Prop :=
  exists picks, Forall (fun r => r ∈ rows) picks /\ map fst picks = sol /\
                concat (map snd picks) ≡ₚ seqZ 0 n.

(** What a call of [search] on the matrix [m] promises: the solutions
    it adds are exact covers, and unless it stops at a first solution
    the matrix and the partial solution are as before the call. *)
Definition search_post (find_all : bool) (n : Z) (G : list grow)
    (m : DancingLinksMatrix) (s : DLXSolver) (b : bool) (s' : DLXSolver)
  : Prop :=
  trace s' = trace s /\
  (exists new, solutions s' = solutions s ++ new /\
               Forall (exact_in G n) new) /\
  (b = false \/ find_all = true ->
   matrix s' = m /\ solution s' = solution s).

(* ================================================================= *)
(** ** Worked examples *)

Definition ex_rows : list (Z * list Z) := [(0, [0]); (1, [1]); (2, [0; 1])].

Definition ex_matrix : DancingLinksMatrix :=
  Eval vm_compute in
    match build 2 ex_rows with Ret _ m => m | _ => blank end.

(** The solver on [ex_matrix] after [cover 0]. *)
Definition ex_state : DLXSolver :=
  Eval vm_compute in
    match covers 10 [0] (new_solver ex_matrix false) with
    | Ret _ s => s
    | _ => new_solver blank false
    end.

(** One column and the one row that covers it. *)
Definition one_matrix : DancingLinksMatrix :=
  Eval vm_compute in
    match build 1 [(0, [0])] with Ret _ m => m | _ => blank end.

(** The solver after [solve(find_all=False)] on [one_matrix]. *)
Definition one_solved : DLXSolver :=
  Eval vm_compute in
    match solve 2 10 false (new_solver one_matrix false) with
    | Ret _ s => s
    | _ => new_solver blank false
    end.

(** Three columns; after [cover 0] the row over columns 1 and 2 is still
    in place, so that covering column 1 unlinks a node of column 2. *)
Definition ex3_rows : list (Z * list Z) :=
  [(0, [0]); (1, [1; 2]); (2, [0; 2]); (3, [1]); (4, [2])].

Definition ex3_matrix : DancingLinksMatrix :=
  Eval vm_compute in
    match build 3 ex3_rows with Ret _ m => m | _ => blank end.

(** The solver on [ex3_matrix] after [cover 0]. *)
Definition ex3_state : DLXSolver :=
  Eval vm_compute in
    match covers 20 [0] (new_solver ex3_matrix false) with
    | Ret _ s => s
    | _ => new_solver blank false
    end.

Definition dup_rows : list (Z * list Z) := [(0, [0; 0])].
Definition dup2_rows : list (Z * list Z) := [(0, [0; 0]); (1, [0])].

Definition dup_matrix : DancingLinksMatrix :=
  Eval vm_compute in
    match build 1 dup_rows with Ret _ m => m | _ => blank end.
Definition dup2_matrix : DancingLinksMatrix :=
  Eval vm_compute in
    match build 1 dup2_rows with Ret _ m => m | _ => blank end.

(* ================================================================= *)
(** ** Sequences of uncovers *)

(** [uncover] applied to the columns [Ks], one after the other. *)
Fixpoint uncovers (lf : nat) (Ks : list Z) : M DLXSolver unit :=
  match Ks with
  | [] => ret tt
  | c :: Ks' => uncover lf c ;; uncovers lf Ks'
  end.

(* ================================================================= *)
(** ** What [search] finds *)

(** The rows [R], all of the matrix, have between them exactly the
    columns not in [K], each once. *)
Definition completes (G : list grow) (n : Z) (K : list Z) (R : list grow)
  : Prop :=
  Forall (fun g => g ∈ G) R /\ concat (map row_cols R) ++ K ≡ₚ seqZ 0 n.

(** No two members of the list are rearrangements of one another. *)
Fixpoint distinct_perm {A} (l : list (list A)) : Prop :=
  match l with
  | [] => True
  | x :: l' => (forall y, y ∈ l' -> ~ x ≡ₚ y) /\ distinct_perm l'
  end.

(** What a call of [search] with the columns [K] covered does in full:
    the solutions it adds are the partial solution followed by the
    rows [R], for the selections [Rs] of rows that complete [K]; every
    such selection is among them when all solutions are asked for, one
    is when only the first is; none comes twice. *)
Definition search_post2 (find_all : bool) (n : Z) (G : list grow)
    (K : list Z) (m : DancingLinksMatrix) (s : DLXSolver) (b : bool)
    (s' : DLXSolver) : Prop :=
  trace s' = trace s /\
  (b = false \/ find_all = true ->
   matrix s' = m /\ solution s' = solution s) /\
  exists Rs : list (list grow),
    solutions s'
    = solutions s ++ map (fun R => solution s ++ map fst R) Rs /\
    Forall (completes G n K) Rs /\
    distinct_perm Rs /\
    (b = true <-> Rs <> []) /\
    (find_all = false -> (length Rs <= 1)%nat) /\
    (forall R, completes G n K R ->
       Rs <> [] /\ (find_all = true -> exists R', R' ∈ Rs /\ R' ≡ₚ R)).

(* ================================================================= *)
(** ** The placements of polyomino packing *)

(** A placement: piece index and position, and the columns of its row. *)
Definition placement : Type := (Z * Z * Z) * list Z.

(** The cell numbers that [piece] occupies when put at [(x, y)]. *)
Definition piece_cells (g x y : Z) (piece : list (Z * Z)) : list Z :=
  map (fun d => (y + d.2) * g + (x + d.1)) piece.

(** [piece] put at [(x, y)] stays within the grid. *)
Definition fits (g x y : Z) (piece : list (Z * Z)) : Prop :=
  Forall (fun d => 0 <= x + d.1 < g /\ 0 <= y + d.2 < g) piece.

(** The row that one run of the innermost loop body adds, if any. *)
Definition try_place (g p : Z) (piece : list (Z * Z)) (y x : Z)
  : list placement :=
  let '(valid, cells) := place_cells g x y piece [] in
  if valid && bool_decide (length (remove_dups cells) = length cells)
  then [((p, x, y), cells ++ [g * g + p])]
  else [].

(** The rows added for the numbered pieces [pps], in the order of the
    three nested loops. *)
Definition placements_of (g : Z) (pps : list (Z * list (Z * Z)))
  : list placement :=
  concat (map (fun pp =>
    concat (map (fun y =>
      concat (map (fun x => try_place g pp.1 pp.2 y x) (seqZ 0 g)))
      (seqZ 0 g))) pps).

Definition placements (g : Z) (pieces : list (list (Z * Z)))
  : list placement :=
  placements_of g (zip (seqZ 0 (Z.of_nat (length pieces))) pieces).

(** The rows given to [add_row], numbered from 0 as [row_id] counts. *)
Definition number_rows (L : list placement) : list (Z * list Z) :=
  imap (fun i pl => (Z.of_nat i, pl.2)) L.

(** The [row_map] after the placements [L] have been entered. *)
Definition row_map_of (L : list placement) : gmap Z (Z * Z * Z) :=
  list_to_map (imap (fun i pl => (Z.of_nat i, pl.1)) L).

Definition poly_rows (g : Z) (pieces : list (list (Z * Z)))
  : list (Z * list Z) :=
  number_rows (placements g pieces).

(** The two dominoes, one lying and one standing. *)
Definition ex_pieces : list (list (Z * Z)) :=
  [[(0, 0); (1, 0)]; [(0, 0); (0, 1)]].

(** The cells that the placement [(p, x, y)] of [row_map] occupies. *)
Definition placed_cells (g : Z) (pieces : list (list (Z * Z)))
    (pl : Z * Z * Z) : list Z :=
  piece_cells g pl.1.2 pl.2 (pieces !!! Z.to_nat pl.1.1).

(** The matrix for the two dominoes on the 2 by 2 grid. *)
Definition ex_poly_matrix : DancingLinksMatrix :=
  Eval vm_compute in
    match create_polyomino_matrix 2 ex_pieces blank with
    | Ret _ m => m
    | _ => blank
    end.

(* ================================================================= *)
(** ** The picture of a solution *)

(** Character [c] of line [r] of a picture. *)
Definition char_at (out : list string) (r c : Z) : option ascii :=
  s ← out !! Z.to_nat r; String.get (Z.to_nat c) s.

(** The item that the Python subscript [i] denotes in [l], if any. *)
Definition item {A} (l : list A) (i : Z) : option A :=
  if decide (- Z.of_nat (length l) <= i < Z.of_nat (length l))
  then l !! Z.to_nat (wrap (Z.of_nat (length l)) i)
  else None.

(** [row_id] can be drawn on a grid of side [g]: it is a key of
    [row_map], its piece index is a subscript of [pieces], and so is
    every cell of the piece in the grid, negative subscripts included. *)
Definition drawable (g : Z) (pieces : list (list (Z * Z)))
    (row_map : gmap Z (Z * Z * Z)) (row_id : Z) : Prop :=
  exists p x y piece,
    row_map !! row_id = Some (p, x, y) /\
    item pieces p = Some piece /\
    Forall (fun d => (- g <= y + d.2 < g) /\ (- g <= x + d.1 < g)) piece.

(** Drawing [row_id] writes the letter [ch] into column [c] of line [r]. *)
Definition paints (g : Z) (pieces : list (list (Z * Z)))
    (row_map : gmap Z (Z * Z * Z)) (row_id r c : Z) (ch : ascii) : Prop :=
  exists p x y piece d,
    row_map !! row_id = Some (p, x, y) /\
    item pieces p = Some piece /\
    d ∈ piece /\ wrap g (y + d.2) = r /\ wrap g (x + d.1) = c /\
    piece_chars !! Z.to_nat (p `mod` 26) = Some ch.

(** A grid of [G] lines of [G] characters, and one of its characters. *)
Definition shaped (G : nat) (grid : list (list ascii)) : Prop :=
  length grid = G /\ Forall (fun row => length row = G) grid.

Definition cell (grid : list (list ascii)) (r c : nat) : option ascii :=
  row ← grid !! r; row !! c.

(** The cells of [piece] at [(x, y)] are subscripts of the grid. *)
Definition inside (G : nat) (x y : Z) (piece : list (Z * Z)) : Prop :=
  Forall (fun d => (- Z.of_nat G <= y + d.2 < Z.of_nat G) /\
                   (- Z.of_nat G <= x + d.1 < Z.of_nat G)) piece.

(** [piece] at [(x, y)] has a cell at line [r], column [c]. *)
Definition touches (G : nat) (x y : Z) (piece : list (Z * Z)) (r c : nat)
  : Prop :=
  Exists (fun d => r = Z.to_nat (wrap (Z.of_nat G) (y + d.2)) /\
                   c = Z.to_nat (wrap (Z.of_nat G) (x + d.1))) piece.

#[global] Instance inside_dec G x y piece : Decision (inside G x y piece).
Proof. unfold inside. apply _. Defined.
#[global] Instance touches_dec G x y piece r c :
  Decision (touches G x y piece r c).
Proof. unfold touches. apply _. Defined.

(** Two lying dominoes, which fill the 2 by 2 grid in two ways. *)
Definition ex_bars : list (list (Z * Z)) :=
  [[(0, 0); (1, 0)]; [(0, 0); (1, 0)]].

Definition ex_bars_matrix : DancingLinksMatrix :=
  Eval vm_compute in
    match create_polyomino_matrix 2 ex_bars blank with
    | Ret _ m => m
    | _ => blank
    end.

(* ================================================================= *)
(** ** Running computations *)

Lemma bind_Ret {S A B} (c : M S A) (k : A -> M S B) s a s' :
  c s = Ret a s' -> bind c k s = k a s'.
Proof. unfold bind. intros ->. reflexivity. Qed.

Lemma bind_Raise {S A B} (c : M S A) (k : A -> M S B) s e s' :
  c s = Raise e s' -> bind c k s = Raise e s'.
Proof. unfold bind. intros ->. reflexivity. Qed.

Lemma with_matrix_id s : with_matrix (matrix s) s = s.
Proof. destruct s; reflexivity. Qed.

Lemma on_matrix_Ret {A} (c : M DancingLinksMatrix A) s a m :
  c (matrix s) = Ret a m -> on_matrix c s = Ret a (with_matrix m s).
Proof. unfold on_matrix. intros ->. reflexivity. Qed.

Lemma on_matrix_Raise {A} (c : M DancingLinksMatrix A) s e m :
  c (matrix s) = Raise e m -> on_matrix c s = Raise e (with_matrix m s).
Proof. unfold on_matrix. intros ->. reflexivity. Qed.

Lemma py_index_nonneg len i :
  0 <= i < Z.of_nat len -> py_index len i = Some (Z.to_nat i).
Proof. intros H. unfold py_index. rewrite decide_True by done. done. Qed.

Lemma py_index_neg len i :
  - Z.of_nat len <= i < 0 -> py_index len i = Some (Z.to_nat (Z.of_nat len + i)).
Proof.
  intros H. unfold py_index.
  rewrite decide_False by lia. rewrite decide_True by done. done.
Qed.

Lemma py_index_out len i :
  i < - Z.of_nat len \/ Z.of_nat len <= i -> py_index len i = None.
Proof.
  intros H. unfold py_index.
  rewrite decide_False by lia. rewrite decide_False by lia. done.
Qed.

Lemma py_index_lt len i p : py_index len i = Some p -> (p < len)%nat.
Proof.
  unfold py_index. repeat case_decide; intros; simplify_eq; lia.
Qed.

(** *** Subscripts within range *)

Lemma node_at_ok m i :
  0 <= i < nnodes m -> node_at i m = Ret (nd m i) m.
Proof.
  intros H. unfold node_at, getitem, nnodes in *.
  rewrite py_index_nonneg by done.
  destruct (lookup_lt_is_Some_2 (nodes m) (Z.to_nat i)) as [a Ha]; [lia|].
  rewrite Ha. unfold nd. by rewrite (list_lookup_total_correct _ _ _ Ha).
Qed.

Lemma node_get_ok attr m i :
  0 <= i < nnodes m -> node_get attr i m = Ret (attr (nd m i)) m.
Proof.
  intros H. unfold node_get. by rewrite (bind_Ret _ _ _ _ _ (node_at_ok m i H)).
Qed.

Lemma node_set_ok set m i v :
  0 <= i < nnodes m -> node_set set i v m = Ret tt (upd_node (set v) i m).
Proof.
  intros H. unfold node_set, setitem, nnodes in *.
  by rewrite py_index_nonneg.
Qed.

Lemma column_at_ok m c :
  0 <= c < ncols m -> column_at c m = Ret (cl m c) m.
Proof.
  intros H. unfold column_at, getitem, ncols in *.
  rewrite py_index_nonneg by done.
  destruct (lookup_lt_is_Some_2 (columns m) (Z.to_nat c)) as [a Ha]; [lia|].
  rewrite Ha. unfold cl. by rewrite (list_lookup_total_correct _ _ _ Ha).
Qed.

Lemma column_get_ok attr m c :
  0 <= c < ncols m -> column_get attr c m = Ret (attr (cl m c)) m.
Proof.
  intros H. unfold column_get.
  by rewrite (bind_Ret _ _ _ _ _ (column_at_ok m c H)).
Qed.

Lemma column_set_ok set m c v :
  0 <= c < ncols m -> column_set set c v m = Ret tt (upd_col (set v) c m).
Proof.
  intros H. unfold column_set, setitem, ncols in *.
  by rewrite py_index_nonneg.
Qed.

Lemma column_add_size_ok m c d :
  0 <= c < ncols m -> column_add_size c d m = Ret tt (add_size c d m).
Proof.
  intros H. unfold column_add_size.
  rewrite (bind_Ret _ _ _ _ _ (column_get_ok _ m c H)).
  by rewrite column_set_ok.
Qed.

(** The same, for the solver's matrix. *)

Lemma s_node_at s i :
  0 <= i < nnodes (matrix s) ->
  on_matrix (node_at i) s = Ret (nd (matrix s) i) s.
Proof.
  intros H. rewrite (on_matrix_Ret _ _ _ _ (node_at_ok _ _ H)).
  by rewrite with_matrix_id.
Qed.

Lemma s_node_get attr s i :
  0 <= i < nnodes (matrix s) ->
  on_matrix (node_get attr i) s = Ret (attr (nd (matrix s) i)) s.
Proof.
  intros H. rewrite (on_matrix_Ret _ _ _ _ (node_get_ok _ _ _ H)).
  by rewrite with_matrix_id.
Qed.

Lemma s_node_set set s i v :
  0 <= i < nnodes (matrix s) ->
  on_matrix (node_set set i v) s
  = Ret tt (with_matrix (upd_node (set v) i (matrix s)) s).
Proof. intros H. by rewrite (on_matrix_Ret _ _ _ _ (node_set_ok _ _ _ _ H)). Qed.

Lemma s_column_at s c :
  0 <= c < ncols (matrix s) ->
  on_matrix (column_at c) s = Ret (cl (matrix s) c) s.
Proof.
  intros H. rewrite (on_matrix_Ret _ _ _ _ (column_at_ok _ _ H)).
  by rewrite with_matrix_id.
Qed.

Lemma s_column_get attr s c :
  0 <= c < ncols (matrix s) ->
  on_matrix (column_get attr c) s = Ret (attr (cl (matrix s) c)) s.
Proof.
  intros H. rewrite (on_matrix_Ret _ _ _ _ (column_get_ok _ _ _ H)).
  by rewrite with_matrix_id.
Qed.

Lemma s_column_add_size s c d :
  0 <= c < ncols (matrix s) ->
  on_matrix (column_add_size c d) s
  = Ret tt (with_matrix (add_size c d (matrix s)) s).
Proof.
  intros H. by rewrite (on_matrix_Ret _ _ _ _ (column_add_size_ok _ _ _ H)).
Qed.

(** *** Effect of the in-place updates on the readings *)

Lemma nnodes_upd_node f x m : nnodes (upd_node f x m) = nnodes m.
Proof. unfold nnodes, upd_node. simpl. by rewrite length_alter. Qed.
Lemma ncols_upd_node f x m : ncols (upd_node f x m) = ncols m.
Proof. reflexivity. Qed.
Lemma nnodes_upd_col f c m : nnodes (upd_col f c m) = nnodes m.
Proof. reflexivity. Qed.
Lemma ncols_upd_col f c m : ncols (upd_col f c m) = ncols m.
Proof. unfold ncols, upd_col. simpl. by rewrite length_alter. Qed.

Lemma nd_upd_col f c m x : nd (upd_col f c m) x = nd m x.
Proof. reflexivity. Qed.
Lemma cl_upd_node f x m c : cl (upd_node f x m) c = cl m c.
Proof. reflexivity. Qed.

Lemma nd_upd_node f i m x :
  0 <= i < nnodes m -> 0 <= x ->
  nd (upd_node f i m) x = if decide (x = i) then f (nd m x) else nd m x.
Proof.
  intros Hi Hx. unfold nd, upd_node, nnodes in *. simpl.
  case_decide as E.
  - subst x.
    destruct (lookup_lt_is_Some_2 (nodes m) (Z.to_nat i)) as [a Ha]; [lia|].
    rewrite (list_lookup_total_correct _ _ _ Ha).
    apply list_lookup_total_correct.
    rewrite list_lookup_alter_eq, Ha. done.
  - apply list_lookup_total_alter_ne. lia.
Qed.

Lemma cl_upd_col f i m c :
  0 <= i < ncols m -> 0 <= c ->
  cl (upd_col f i m) c = if decide (c = i) then f (cl m c) else cl m c.
Proof.
  intros Hi Hx. unfold cl, upd_col, ncols in *. simpl.
  case_decide as E.
  - subst c.
    destruct (lookup_lt_is_Some_2 (columns m) (Z.to_nat i)) as [a Ha]; [lia|].
    rewrite (list_lookup_total_correct _ _ _ Ha).
    apply list_lookup_total_correct.
    rewrite list_lookup_alter_eq, Ha. done.
  - apply list_lookup_total_alter_ne. lia.
Qed.

(** Two matrices with the same readings are the same matrix. *)
Lemma matrix_ext m m' :
  num_columns m = num_columns m' -> header_idx m = header_idx m' ->
  nnodes m = nnodes m' -> ncols m = ncols m' ->
  (forall x, 0 <= x < nnodes m -> nd m x = nd m' x) ->
  (forall c, 0 <= c < ncols m -> cl m c = cl m' c) ->
  m = m'.
Proof.
  destruct m as [n ns cs h], m' as [n' ns' cs' h'].
  unfold nnodes, ncols, nd, cl. simpl. intros -> -> Hn Hc Hnd Hcl.
  f_equal.
  - apply list_eq_same_length with (length ns); [lia|done|].
    intros i x y Hi Hx Hy.
    specialize (Hnd (Z.of_nat i)). rewrite Nat2Z.id in Hnd.
    rewrite (list_lookup_total_correct _ _ _ Hx) in Hnd.
    rewrite (list_lookup_total_correct _ _ _ Hy) in Hnd.
    apply Hnd. lia.
  - apply list_eq_same_length with (length cs); [lia|done|].
    intros i x y Hi Hx Hy.
    specialize (Hcl (Z.of_nat i)). rewrite Nat2Z.id in Hcl.
    rewrite (list_lookup_total_correct _ _ _ Hx) in Hcl.
    rewrite (list_lookup_total_correct _ _ _ Hy) in Hcl.
    apply Hcl. lia.
Qed.

(* ================================================================= *)
(** ** Loop rules *)

(** A [while] loop that walks the list [xs]: the invariant is indexed
    by what remains to be visited. *)
Lemma while_ne_list {S} (I : list Z -> S -> Prop) stop (body : Z -> M S Z) :
  (forall x rest s, I (x :: rest) s ->
     x <> stop /\ exists s', body x s = Ret (hd stop rest) s' /\ I rest s') ->
  forall xs s fuel, I xs s -> (length xs < fuel)%nat ->
    exists s', while_ne fuel stop body (hd stop xs) s = Ret tt s' /\ I [] s'.
Proof.
  intros Hstep xs. induction xs as [|x rest IH]; intros s fuel HI Hfuel.
  - destruct fuel; [simpl in Hfuel; lia|]. simpl.
    rewrite decide_True by done. eauto.
  - destruct fuel; [simpl in Hfuel; lia|]. simpl in *.
    destruct (Hstep _ _ _ HI) as (Hne & s' & Hb & HI').
    rewrite decide_False by done.
    rewrite (bind_Ret _ _ _ _ _ Hb).
    apply IH; [done|lia].
Qed.

Lemma for_each_inv {S A} (I : list A -> S -> Prop) (body : A -> M S unit) :
  (forall x rest s, I (x :: rest) s ->
     exists s', body x s = Ret tt s' /\ I rest s') ->
  forall l s, I l s -> exists s', for_each l body s = Ret tt s' /\ I [] s'.
Proof.
  intros Hstep l. induction l as [|x rest IH]; intros s HI.
  - simpl. eauto.
  - simpl. destruct (Hstep _ _ _ HI) as (s' & Hb & HI').
    rewrite (bind_Ret _ _ _ _ _ Hb). by apply IH.
Qed.

Lemma for_fold_inv {S A B} (I : list A -> B -> S -> Prop)
    (body : B -> A -> M S B) :
  (forall x rest acc s, I (x :: rest) acc s ->
     exists acc' s', body acc x s = Ret acc' s' /\ I rest acc' s') ->
  forall l acc s, I l acc s ->
    exists acc' s', for_fold l body acc s = Ret acc' s' /\ I [] acc' s'.
Proof.
  intros Hstep l. induction l as [|x rest IH]; intros acc s HI.
  - simpl. eauto.
  - simpl. destruct (Hstep _ _ _ _ HI) as (acc' & s' & Hb & HI').
    rewrite (bind_Ret _ _ _ _ _ Hb). by apply IH.
Qed.

(* ================================================================= *)
(** ** Doubly linked paths and cycles *)

Section Paths.
Implicit Types (nx pv : Z -> Z) (l : list Z).

Lemma dl_hd nx pv a l b : dl nx pv a l b -> nx a = hd b l.
Proof. destruct l; simpl; tauto. Qed.

Lemma dl_tail nx pv a x l b : dl nx pv a (x :: l) b -> dl nx pv x l b.
Proof. simpl; tauto. Qed.

Lemma dl_app nx pv a l1 x l2 b :
  dl nx pv a (l1 ++ x :: l2) b <-> dl nx pv a l1 x /\ dl nx pv x l2 b.
Proof.
  revert a. induction l1 as [|y l1 IH]; intros a; simpl.
  - tauto.
  - rewrite IH. tauto.
Qed.

Lemma dl_snoc nx pv a l x b :
  dl nx pv a (l ++ [x]) b <-> dl nx pv a l x /\ nx x = b /\ pv b = x.
Proof. rewrite dl_app. simpl. tauto. Qed.

Lemma dl_ext nx pv nx' pv' a l b :
  (forall y, y ∈ a :: l -> nx' y = nx y) ->
  (forall y, y ∈ l ++ [b] -> pv' y = pv y) ->
  dl nx pv a l b -> dl nx' pv' a l b.
Proof.
  revert a. induction l as [|x l IH]; intros a Hn Hp; simpl.
  - intros [H1 H2]. rewrite Hn, Hp by set_solver. done.
  - intros (H1 & H2 & H3). rewrite Hn, Hp by set_solver.
    split_and!; [done..|].
    apply IH; [| |done]; intros y Hy.
    + apply Hn. set_solver.
    + apply Hp. set_solver.
Qed.

Lemma dl_pv_end nx pv a l b : dl nx pv a l b -> pv b ∈ a :: l.
Proof.
  revert a. induction l as [|x l IH]; intros a; simpl.
  - intros [_ ->]. set_solver.
  - intros (_ & _ & H). apply IH in H. set_solver.
Qed.

Lemma dl_nx_start nx pv a l b : dl nx pv a l b -> nx a ∈ l ++ [b].
Proof. intros H. rewrite (dl_hd _ _ _ _ _ H). destruct l; set_solver. Qed.

Lemma dl_rev nx pv a l b : dl nx pv a l b -> dl pv nx b (rev l) a.
Proof.
  revert a. induction l as [|x l IH]; intros a; simpl.
  - tauto.
  - intros (H1 & H2 & H3). apply dl_snoc. auto.
Qed.

(** Each node of a path is where its two neighbours point. *)
Lemma dl_linked nx pv a l b x :
  dl nx pv a l b -> x ∈ l -> nx (pv x) = x /\ pv (nx x) = x.
Proof.
  intros H Hx. apply list_elem_of_split in Hx as (l1 & l2 & ->).
  apply dl_app in H as [H1 H2].
  split.
  - destruct l1 as [|y l1 _] using rev_ind.
    + simpl in H1. destruct H1 as [? ->]. done.
    + apply dl_snoc in H1 as (_ & ? & ->). done.
  - destruct l2 as [|y l2]; simpl in H2.
    + destruct H2 as [-> ?]. done.
    + destruct H2 as (-> & ? & _). done.
Qed.

Lemma dl_neighbours nx pv a l b x :
  dl nx pv a l b -> x ∈ l -> pv x ∈ a :: l /\ nx x ∈ l ++ [b].
Proof.
  intros H Hx. apply list_elem_of_split in Hx as (l1 & l2 & ->).
  apply dl_app in H as [H1 H2].
  apply dl_pv_end in H1. apply dl_nx_start in H2. set_solver.
Qed.

(** Let the path end at [y] instead of [x]. *)
Lemma dl_retarget nx pv a l x y :
  dl nx pv a l x -> NoDup (a :: l) -> y ∉ l ->
  dl (fupd nx (pv x) y) (fupd pv y (pv x)) a l y.
Proof.
  revert a. induction l as [|z l IH]; intros a; simpl.
  - intros [H1 H2] _ _. unfold fupd. rewrite H2.
    rewrite !decide_True by done. done.
  - intros (H1 & H2 & H3) Hnd Hy.
    assert (Hu : pv x ∈ z :: l) by (eapply dl_pv_end; eauto).
    apply NoDup_cons in Hnd as [Ha Hnd].
    split_and!.
    + unfold fupd. rewrite decide_False; [done|]. intros ->. done.
    + unfold fupd. rewrite decide_False; [done|]. set_solver.
    + apply IH; [done..|]. set_solver.
Qed.

(** Taking [x] out of a path by redirecting its two neighbours. *)
Lemma dl_remove nx pv a l1 x l2 b :
  dl nx pv a (l1 ++ x :: l2) b ->
  NoDup (a :: l1 ++ x :: l2) -> NoDup (l1 ++ x :: l2 ++ [b]) ->
  dl (fupd nx (pv x) (nx x)) (fupd pv (nx x) (pv x)) a (l1 ++ l2) b.
Proof.
  intros H Hnd1 Hnd2. apply dl_app in H as [H1 H2].
  assert (Hu : pv x ∈ a :: l1) by (eapply dl_pv_end; eauto).
  assert (NoDup (a :: l1)).
  { change (a :: l1 ++ x :: l2) with ((a :: l1) ++ x :: l2) in Hnd1.
    by apply NoDup_app in Hnd1 as (? & _ & _). }
  destruct l2 as [|y l2]; simpl in H2.
  - destruct H2 as [H2 H3]. rewrite H2, app_nil_r.
    apply dl_retarget; [done..|].
    apply NoDup_app in Hnd2 as (_ & Hd & _). intros Hb.
    apply (Hd _ Hb). set_solver.
  - destruct H2 as (H2 & H3 & H4). rewrite H2.
    apply dl_app. split.
    + apply dl_retarget; [done..|].
      apply NoDup_app in Hnd2 as (_ & Hd & _). intros Hb.
      apply (Hd _ Hb). set_solver.
    + eapply dl_ext; [| |exact H4]; intros z Hz; unfold fupd.
      * rewrite decide_False; [done|]. intros ->.
        change (a :: l1 ++ x :: y :: l2) with ((a :: l1) ++ x :: y :: l2)
          in Hnd1.
        apply NoDup_app in Hnd1 as (_ & Hd & _).
        apply (Hd _ Hu). set_solver.
      * rewrite decide_False; [done|]. intros ->.
        apply NoDup_app in Hnd2 as (_ & _ & Hd).
        apply NoDup_cons in Hd as [_ Hd].
        simpl in Hd. apply NoDup_cons in Hd as [Hd _]. done.
Qed.

(** Hanging a fresh node [x] at the end of a cycle through [h]. *)
Lemma dl_append nx pv h l x :
  dl nx pv h l h -> NoDup (h :: l) -> x ∉ h :: l ->
  dl (fupd (fupd nx x h) (pv h) x) (fupd (fupd pv x (pv h)) h x)
     h (l ++ [x]) h.
Proof.
  intros H Hnd Hx.
  assert (Hu : pv h ∈ h :: l) by (eapply dl_pv_end; eauto).
  apply dl_snoc. split_and!.
  - eapply dl_ext; [| |apply (dl_retarget nx pv h l h x)]; try done.
    + intros y Hy. unfold fupd. case_decide; [done|].
      rewrite decide_False; [done|]. intros ->. done.
    + intros y Hy. unfold fupd. rewrite decide_False; [done|].
      intros ->. apply NoDup_cons in Hnd as [Hh _]. set_solver.
    + set_solver.
  - unfold fupd. rewrite decide_False by (intros ->; done).
    by rewrite decide_True.
  - unfold fupd. by rewrite decide_True.
Qed.

Lemma cyc_rot nx pv l1 l2 : cyc nx pv (l1 ++ l2) -> cyc nx pv (l2 ++ l1).
Proof.
  destruct l1 as [|a l1]; [by rewrite app_nil_r|].
  destruct l2 as [|b l2]; [by rewrite app_nil_r|].
  simpl. rewrite !dl_app. tauto.
Qed.

Lemma split_at i xs : i ∈ xs -> xs = before i xs ++ i :: after i xs.
Proof.
  induction xs as [|x xs IH]; [set_solver|].
  intros Hi. simpl. case_decide as E.
  - by subst.
  - simpl. f_equal. apply IH. set_solver.
Qed.

Lemma before_not_in i xs : i ∉ before i xs.
Proof.
  induction xs as [|x xs IH]; simpl; [set_solver|].
  case_decide; set_solver.
Qed.

Lemma others_perm i xs : i ∈ xs -> xs ≡ₚ i :: others i xs.
Proof.
  intros Hi. rewrite (split_at i xs Hi) at 1. unfold others.
  rewrite <- Permutation_middle. apply Permutation_skip.
  apply Permutation_app_comm.
Qed.

Lemma others_elem i xs y :
  NoDup xs -> i ∈ xs -> y ∈ others i xs <-> y ∈ xs /\ y <> i.
Proof.
  intros Hnd Hi. pose proof (others_perm i xs Hi) as Hp.
  rewrite Hp in Hnd. apply NoDup_cons in Hnd as [Hni _].
  assert (Hiff : y ∈ xs <-> y ∈ i :: others i xs) by (by rewrite <- Hp).
  set_solver.
Qed.

Lemma others_NoDup i xs : NoDup xs -> i ∈ xs -> NoDup (others i xs).
Proof.
  intros Hnd Hi. rewrite (others_perm i xs Hi) in Hnd.
  by apply NoDup_cons in Hnd as [_ ?].
Qed.

(** Walking a cycle on from one of its nodes. *)
Lemma cyc_others nx pv xs i :
  cyc nx pv xs -> i ∈ xs -> dl nx pv i (others i xs) i.
Proof.
  intros H Hi. rewrite (split_at i xs Hi) in H.
  apply cyc_rot in H. exact H.
Qed.

End Paths.

(* ================================================================= *)
(** ** Readings after an update *)

Lemma attr_upd_other (attr : DLXNode.t -> Z) f i m x :
  (forall a, attr (f a) = attr a) -> 0 <= i < nnodes m -> 0 <= x ->
  attr (nd (upd_node f i m) x) = attr (nd m x).
Proof.
  intros Hf Hi Hx. rewrite nd_upd_node by done. case_decide; auto.
Qed.

Lemma attr_upd_same (attr : DLXNode.t -> Z) f i m x v :
  (forall a, attr (f a) = v) -> 0 <= i < nnodes m -> 0 <= x ->
  attr (nd (upd_node f i m) x) = fupd (fun y => attr (nd m y)) i v x.
Proof.
  intros Hf Hi Hx. rewrite nd_upd_node by done. unfold fupd.
  case_decide; auto.
Qed.

Lemma vframe_refl m : vframe m m.
Proof. by split. Qed.

Lemma vframe_trans m1 m2 m3 : vframe m1 m2 -> vframe m2 m3 -> vframe m1 m3.
Proof.
  intros H1 H2. split; intros.
  - rewrite (vf_num _ _ H2). apply H1.
  - rewrite (vf_hdr _ _ H2). apply H1.
  - rewrite (vf_nnodes _ _ H2). apply H1.
  - rewrite (vf_ncols _ _ H2). apply H1.
  - rewrite (vf_lf _ _ H2) by done. by apply H1.
  - rewrite (vf_rt _ _ H2) by done. by apply H1.
  - rewrite (vf_col _ _ H2) by done. by apply H1.
  - rewrite (vf_rw _ _ H2) by done. by apply H1.
Qed.

Lemma size_of_add_size m c d c' :
  0 <= c < ncols m -> 0 <= c' ->
  size_of (add_size c d m) c'
  = if decide (c' = c) then size_of m c + d else size_of m c'.
Proof.
  intros Hc Hc'. unfold size_of, add_size. rewrite cl_upd_col by done.
  case_decide; [subst|]; done.
Qed.

Lemma vframe_add_size m c d : vframe m (add_size c d m).
Proof. split; try done. apply ncols_upd_col. Qed.

Lemma nd_add_size c d m x : nd (add_size c d m) x = nd m x.
Proof. reflexivity. Qed.
Lemma nnodes_add_size c d m : nnodes (add_size c d m) = nnodes m.
Proof. reflexivity. Qed.

Lemma node_eta (a b : DLXNode.t) :
  DLXNode.left a = DLXNode.left b -> DLXNode.right a = DLXNode.right b ->
  DLXNode.up a = DLXNode.up b -> DLXNode.down a = DLXNode.down b ->
  DLXNode.column a = DLXNode.column b -> DLXNode.row a = DLXNode.row b ->
  a = b.
Proof. destruct a, b; simpl; congruence. Qed.

Section Unlink.
Context (m : DancingLinksMatrix) (j : Z).
Hypothesis Hj : 0 <= j.
Hypothesis Hu : 0 <= Up m j < nnodes m.
Hypothesis Hd : 0 <= Dn m j < nnodes m.
Hypothesis Hc : 0 <= Col m j - 1 < ncols m.

Lemma unlink_v_reads :
  Up (upd_node (DLXNode.set_down (Dn m j)) (Up m j) m) j = Up m j /\
  Dn (upd_node (DLXNode.set_down (Dn m j)) (Up m j) m) j = Dn m j.
Proof using Hj Hu Hd Hc.
  split.
  - unfold Up at 1. by rewrite attr_upd_other.
  - unfold Dn at 1. rewrite (attr_upd_same _ _ _ _ _ (Dn m j)) by done.
    unfold fupd. by case_decide.
Qed.

Lemma unlink_v_eq :
  unlink_v j m
  = add_size (Col m j - 1) (-1)
      (upd_node (DLXNode.set_up (Up m j)) (Dn m j)
         (upd_node (DLXNode.set_down (Dn m j)) (Up m j) m)).
Proof using Hj Hu Hd Hc.
  unfold unlink_v. cbv zeta. destruct unlink_v_reads as [-> ->].
  f_equal. unfold Col.
  rewrite !attr_upd_other; rewrite ?nnodes_upd_node; done.
Qed.

Lemma unlink_v_dn x :
  0 <= x -> Dn (unlink_v j m) x = fupd (Dn m) (Up m j) (Dn m j) x.
Proof using Hj Hu Hd Hc.
  intros Hx. rewrite unlink_v_eq. unfold Dn at 1. rewrite nd_add_size.
  rewrite attr_upd_other; [|done|by rewrite nnodes_upd_node|done].
  by rewrite (attr_upd_same _ _ _ _ _ (Dn m j)).
Qed.

Lemma unlink_v_up x :
  0 <= x -> Up (unlink_v j m) x = fupd (Up m) (Dn m j) (Up m j) x.
Proof using Hj Hu Hd Hc.
  intros Hx. rewrite unlink_v_eq. unfold Up at 1. rewrite nd_add_size.
  rewrite (attr_upd_same _ _ _ _ _ (Up m j));
    [|done|by rewrite nnodes_upd_node|done].
  unfold fupd. case_decide; [done|].
  by rewrite attr_upd_other.
Qed.

Lemma unlink_v_vframe : vframe m (unlink_v j m).
Proof using Hj Hu Hd Hc.
  rewrite unlink_v_eq.
  eapply vframe_trans; [|apply vframe_add_size].
  split; try done.
  - by rewrite !nnodes_upd_node.
  - intros x Hx. unfold Lf.
    rewrite !attr_upd_other; rewrite ?nnodes_upd_node; done.
  - intros x Hx. unfold Rt.
    rewrite !attr_upd_other; rewrite ?nnodes_upd_node; done.
  - intros x Hx. unfold Col.
    rewrite !attr_upd_other; rewrite ?nnodes_upd_node; done.
  - intros x Hx. unfold Rw.
    rewrite !attr_upd_other; rewrite ?nnodes_upd_node; done.
Qed.

Lemma unlink_v_size c :
  0 <= c ->
  size_of (unlink_v j m) c
  = if decide (c = Col m j - 1) then size_of m c - 1 else size_of m c.
Proof using Hj Hu Hd Hc.
  intros Hc'. rewrite unlink_v_eq.
  rewrite size_of_add_size; [|done|done].
  case_decide; [subst|]; done.
Qed.

Lemma unlink_v_cl c :
  0 <= c ->
  cl (unlink_v j m) c
  = if decide (c = Col m j - 1)
    then DLXColumn.set_size (size_of m c - 1) (cl m c) else cl m c.
Proof using Hj Hu Hd Hc.
  intros Hc'. rewrite unlink_v_eq. unfold add_size.
  rewrite cl_upd_col; [|done|done].
  case_decide; [subst|]; done.
Qed.

(** Relinking a node right after unlinking it gives the matrix back,
    provided the node was where its two neighbours pointed. *)
Lemma relink_unlink :
  0 <= j < nnodes m ->
  Dn m (Up m j) = j -> Up m (Dn m j) = j ->
  relink_v j (unlink_v j m) = m.
Proof using Hj Hu Hd Hc.
  intros Hjn Hlu Hld.
  pose proof unlink_v_vframe as Hvf.
  pose proof unlink_v_dn as HD. pose proof unlink_v_up as HU.
  pose proof unlink_v_cl as HC. pose proof unlink_v_size as HS.
  set (m' := unlink_v j m) in *.
  assert (Hu' : Up m' j = Up m j).
  { rewrite HU by done. unfold fupd. case_decide; congruence. }
  assert (Hd' : Dn m' j = Dn m j).
  { rewrite HD by done. unfold fupd. case_decide; congruence. }
  assert (Hn' : nnodes m' = nnodes m) by apply Hvf.
  unfold relink_v. cbv zeta.
  rewrite Hu'.
  set (m1 := upd_node (DLXNode.set_down j) (Up m j) m').
  assert (Hd1 : Dn m1 j = Dn m j).
  { unfold m1, Dn at 1.
    rewrite (attr_upd_same _ _ _ _ _ j); [|done|lia|done].
    unfold fupd. fold (Dn m' j). case_decide; congruence. }
  rewrite Hd1.
  set (m2 := upd_node (DLXNode.set_up j) (Dn m j) m1).
  assert (Hn1 : nnodes m1 = nnodes m).
  { unfold m1. rewrite nnodes_upd_node. done. }
  assert (Hn2 : nnodes m2 = nnodes m).
  { unfold m2. rewrite nnodes_upd_node. done. }
  assert (Hc2 : Col m2 j = Col m j).
  { unfold m2, m1, Col at 1.
    rewrite !attr_upd_other; rewrite ?nnodes_upd_node; try done; try lia.
    by apply Hvf. }
  rewrite Hc2.
  assert (Hnc : ncols m2 = ncols m) by apply Hvf.
  apply matrix_ext.
  - apply Hvf.
  - apply Hvf.
  - done.
  - unfold add_size. rewrite ncols_upd_col. done.
  - intros x [Hx0 Hx]. rewrite nd_add_size.
    assert (Hup : Up m2 x = Up m x).
    { unfold m2, Up at 1.
      rewrite (attr_upd_same _ _ _ _ _ j); [|done|lia|done].
      unfold fupd. case_decide; [congruence|].
      unfold m1. rewrite attr_upd_other; [|done|lia|done].
      fold (Up m' x). rewrite HU by done. unfold fupd.
      by rewrite decide_False. }
    assert (Hdn : Dn m2 x = Dn m x).
    { unfold m2, Dn at 1.
      rewrite attr_upd_other; [|done|lia|done].
      unfold m1. rewrite (attr_upd_same _ _ _ _ _ j); [|done|lia|done].
      unfold fupd. case_decide; [congruence|].
      fold (Dn m' x). rewrite HD by done. unfold fupd.
      by rewrite decide_False. }
    assert (Hoth : forall attr : DLXNode.t -> Z,
               (forall v a, attr (DLXNode.set_up v a) = attr a) ->
               (forall v a, attr (DLXNode.set_down v a) = attr a) ->
               attr (nd m2 x) = attr (nd m' x)).
    { intros attr H1 H2. unfold m2.
      rewrite attr_upd_other; [|apply H1|lia|done].
      unfold m1. rewrite attr_upd_other; [done|apply H2|lia|done]. }
    apply node_eta.
    + rewrite Hoth by done. by apply Hvf.
    + rewrite Hoth by done. by apply Hvf.
    + done.
    + done.
    + rewrite Hoth by done. by apply Hvf.
    + rewrite Hoth by done. by apply Hvf.
  - intros c [Hc0 Hcr]. unfold add_size.
    rewrite cl_upd_col; [|lia|lia].
    change (cl m2 c) with (cl m' c).
    change (size_of m2 (Col m j - 1)) with (size_of m' (Col m j - 1)).
    rewrite HC by done. rewrite HS by lia.
    rewrite (decide_True (P := Col m j - 1 = Col m j - 1)) by done.
    case_decide; [subst c|done].
    unfold size_of.
    destruct (cl m (Col m j - 1)) eqn:E; unfold DLXColumn.set_size; simpl.
    f_equal. lia.
Qed.

End Unlink.

(* ================================================================= *)
(** ** The shape of the rows *)

Lemma elem_of_concat {A} (x : A) (ls : list (list A)) :
  x ∈ concat ls <-> exists l, x ∈ l /\ l ∈ ls.
Proof.
  induction ls as [|l ls IH]; simpl.
  - split; [by intros ?%elem_of_nil|]. by intros (l & _ & ?%elem_of_nil).
  - rewrite elem_of_app, IH. split.
    + intros [?|(l' & ? & ?)]; [exists l|exists l']; set_solver.
    + intros (l' & ? & [->|?]%elem_of_cons); eauto.
Qed.

Lemma filter_ext_in {A} (P Q : A -> Prop)
    `{forall y, Decision (P y)} `{forall y, Decision (Q y)} (l : list A) :
  Forall (fun x => P x <-> Q x) l -> filter P l = filter Q l.
Proof.
  induction 1 as [|x l Hx Hl IH]; [done|].
  rewrite !filter_cons. rewrite IH.
  destruct (decide (P x)) as [HP|HP].
  - by rewrite decide_True by tauto.
  - by rewrite decide_False by tauto.
Qed.

Lemma elem_cells G p : p ∈ cells G <-> exists g, g ∈ G /\ p ∈ g.2.
Proof.
  unfold cells. rewrite elem_of_concat. split.
  - intros (l & Hp & Hl). apply list_elem_of_fmap in Hl as (g & -> & Hg). eauto.
  - intros (g & Hg & Hp). exists g.2. split; [done|].
    apply list_elem_of_fmap. eauto.
Qed.

Lemma elem_colnodes G c x : x ∈ colnodes G c <-> (x, c) ∈ cells G.
Proof.
  unfold colnodes. rewrite list_elem_of_fmap. split.
  - intros ([y c'] & -> & Hp). apply list_elem_of_filter in Hp as [Hc Hp].
    simpl in *. by subst.
  - intros Hp. exists (x, c). split; [done|].
    apply list_elem_of_filter. done.
Qed.

Lemma NoDup_colnodes G c : NoDup (map fst (cells G)) -> NoDup (colnodes G c).
Proof.
  unfold colnodes. generalize (cells G). intros l.
  induction l as [|[x c'] l IH]; simpl; [constructor|].
  intros Hnd. apply NoDup_cons in Hnd as [Hx Hnd].
  rewrite filter_cons. simpl. case_decide.
  - simpl. apply NoDup_cons. split; [|auto].
    intros Hin. apply Hx. apply list_elem_of_fmap in Hin as (p & -> & Hp).
    apply list_elem_of_filter in Hp as [_ Hp].
    apply list_elem_of_fmap. eauto.
  - auto.
Qed.

Lemma cell_col_unique G x c c' :
  NoDup (map fst (cells G)) -> (x, c) ∈ cells G -> (x, c') ∈ cells G -> c = c'.
Proof.
  generalize (cells G). intros l Hnd H1 H2.
  induction l as [|[y d] l IH]; [set_solver|].
  simpl in Hnd. apply NoDup_cons in Hnd as [Hy Hnd].
  apply elem_of_cons in H1 as [H1|H1], H2 as [H2|H2]; simplify_eq; auto.
  - exfalso. apply Hy. apply list_elem_of_fmap. by exists (y, c').
  - exfalso. apply Hy. apply list_elem_of_fmap. by exists (y, c).
Qed.

Lemma StaticV_ext n G m m' :
  num_columns m' = num_columns m -> ncols m' = ncols m ->
  nnodes m' = nnodes m ->
  (forall x, 0 <= x -> Col m' x = Col m x) ->
  (forall x, 0 <= x -> Rw m' x = Rw m x) ->
  StaticV n G m -> StaticV n G m'.
Proof.
  intros H1 H2 H3 H4 H5 [Sn Snum Snc Snn Shd Scell Scols Snd].
  split; try done; try congruence.
  - intros h Hh. rewrite H4 by lia. auto.
  - intros g x c Hg Hx. destruct (Scell g x c Hg Hx) as (?&?&?&?).
    rewrite H3, H4, H5 by lia. done.
Qed.

Lemma StaticV_vframe n G m m' : vframe m m' -> StaticV n G m -> StaticV n G m'.
Proof. intros []. by apply StaticV_ext. Qed.

Lemma StaticV_hframe n G m m' : hframe m m' -> StaticV n G m -> StaticV n G m'.
Proof. intros []. by apply StaticV_ext. Qed.

Lemma cell_node n G m x c :
  StaticV n G m -> (x, c) ∈ cells G ->
  n + 1 <= x < nnodes m /\ 0 <= c < n /\ Col m x = c + 1.
Proof.
  intros Hs Hx. apply elem_cells in Hx as (g & Hg & Hx).
  destruct (st_cell _ _ _ Hs g x c Hg Hx) as (?&?&?&?). done.
Qed.

Lemma row_nodes_elem g x : x ∈ row_nodes g <-> exists c, (x, c) ∈ g.2.
Proof.
  unfold row_nodes. rewrite list_elem_of_fmap. split.
  - intros ([y c] & -> & H). eauto.
  - intros (c & H). by exists (x, c).
Qed.

Lemma row_cols_elem g c : c ∈ row_cols g <-> exists x, (x, c) ∈ g.2.
Proof.
  unfold row_cols. rewrite list_elem_of_fmap. split.
  - intros ([y c'] & -> & H). eauto.
  - intros (x & H). by exists (x, c).
Qed.

Lemma StaticH_ext n G m m' :
  StaticV n G m ->
  (forall x, n + 1 <= x -> Lf m' x = Lf m x /\ Rt m' x = Rt m x) ->
  StaticH G m -> StaticH G m'.
Proof.
  intros Hs Hf Hh g Hg. destruct (Hh g Hg) as [Hne Hcyc].
  split; [done|]. unfold cyc in *.
  destruct (row_nodes g) as [|a l] eqn:E; [done|].
  assert (Hall : forall y, y ∈ a :: l -> n + 1 <= y).
  { intros y Hy. rewrite <- E in Hy. apply row_nodes_elem in Hy as (c & Hy).
    destruct (st_cell _ _ _ Hs g y c Hg Hy) as (?&?&?&?). lia. }
  eapply dl_ext; [| |exact Hcyc]; intros y Hy; apply Hf, Hall; set_solver.
Qed.

Lemma StaticH_vframe n G m m' :
  StaticV n G m -> vframe m m' -> StaticH G m -> StaticH G m'.
Proof.
  intros Hs Hf. pose proof (st_n _ _ _ Hs). apply (StaticH_ext n); [done|].
  intros x Hx. split; apply Hf; lia.
Qed.

Lemma elem_seqZ_filter (P : Z -> Prop) `{forall h, Decision (P h)} n h :
  h ∈ filter P (seqZ 1 n) <-> P h /\ 1 <= h <= n.
Proof. rewrite list_elem_of_filter, elem_of_seqZ. intuition lia. Qed.

Lemma HS_vframe n K m m' : vframe m m' -> HS n K m -> HS n K m'.
Proof.
  intros Hf Hh. unfold HS in *.
  eapply dl_ext; [| |exact Hh]; intros y Hy; apply Hf.
  - apply elem_of_cons in Hy as [->|Hy]; [done|].
    apply elem_seqZ_filter in Hy. lia.
  - apply elem_of_app in Hy as [Hy|Hy].
    + apply elem_seqZ_filter in Hy. lia.
    + apply list_elem_of_singleton in Hy. lia.
Qed.

Lemma VS_hframe n G H m m' :
  StaticV n G m -> hframe m m' -> VS n G H m -> VS n G H m'.
Proof.
  intros Hs Hf Hv c Hc. destruct (Hv c Hc) as [Hdl Hsz]. split.
  - assert (Hall : forall y, y ∈ filter (fun x => x ∉ H) (colnodes G c) -> 0 <= y).
    { intros y Hy. apply list_elem_of_filter in Hy as [_ Hy].
      apply elem_colnodes in Hy.
      destruct (cell_node _ _ _ _ _ Hs Hy) as (?&?&?).
      pose proof (st_n _ _ _ Hs). lia. }
    eapply dl_ext; [| |exact Hdl]; intros y Hy.
    + apply Hf. apply elem_of_cons in Hy as [->|Hy]; [lia|auto].
    + apply Hf. apply elem_of_app in Hy as [Hy|Hy]; [auto|].
      apply list_elem_of_singleton in Hy. lia.
  - rewrite <- Hsz. apply Hf.
Qed.

(** Removing one element from a filtered list without duplicates. *)
Lemma filter_split_remove (P Q : Z -> Prop)
    `{forall y, Decision (P y)} `{forall y, Decision (Q y)} l x :
  NoDup l -> x ∈ l -> P x -> (forall y, Q y <-> P y /\ y <> x) ->
  exists l1 l2, filter P l = l1 ++ x :: l2 /\ filter Q l = l1 ++ l2.
Proof.
  intros Hnd Hx HP HQ. induction l as [|y l IH]; [set_solver|].
  apply NoDup_cons in Hnd as [Hy Hnd].
  destruct (decide (y = x)) as [->|Hne].
  - exists [], (filter P l). rewrite !filter_cons.
    rewrite decide_True by done.
    rewrite decide_False by (rewrite HQ; tauto).
    split; [done|]. simpl. apply filter_ext_in.
    apply Forall_forall. intros z Hz. rewrite HQ.
    split; [tauto|]. intros HPz. split; [done|]. by intros ->.
  - apply elem_of_cons in Hx as [?|Hx]; [congruence|].
    destruct (IH Hnd Hx) as (l1 & l2 & E1 & E2).
    rewrite !filter_cons. destruct (decide (P y)) as [HPy|HPy].
    + rewrite decide_True by (rewrite HQ; tauto).
      exists (y :: l1), l2. simpl. by rewrite E1, E2.
    + rewrite decide_False by (rewrite HQ; tauto).
      eauto.
Qed.

Lemma filter_not_in_cons (H : list Z) j (l : list Z) :
  j ∉ l -> filter (fun x => x ∉ j :: H) l = filter (fun x => x ∉ H) l.
Proof.
  intros Hj. apply filter_ext_in. apply Forall_forall.
  intros z Hz. rewrite not_elem_of_cons. split; [tauto|].
  intros ?. split; [|done]. by intros ->.
Qed.

(* ================================================================= *)
(** ** Unlinking one node from its column *)

Lemma chain_disjoint n G m c c' y u :
  StaticV n G m -> 0 <= c < n -> 0 <= c' < n -> c <> c' ->
  y ∈ (c' + 1) :: colnodes G c' -> u ∈ (c + 1) :: colnodes G c -> y <> u.
Proof.
  intros Hs Hc Hc' Hne Hy Hu ->.
  apply elem_of_cons in Hy as [Hy|Hy], Hu as [Hu|Hu].
  - lia.
  - apply elem_colnodes in Hu. destruct (cell_node _ _ _ _ _ Hs Hu). lia.
  - apply elem_colnodes in Hy. destruct (cell_node _ _ _ _ _ Hs Hy). lia.
  - apply elem_colnodes in Hy, Hu.
    apply Hne. eapply cell_col_unique; eauto. apply Hs.
Qed.

Lemma chain_range n G (H : list Z) m c y :
  StaticV n G m -> 0 <= c < n ->
  y ∈ (c + 1) :: filter (fun x => x ∉ H) (colnodes G c) ->
  1 <= y < nnodes m /\ y ∈ (c + 1) :: colnodes G c.
Proof.
  intros Hs Hc Hy. pose proof (st_nnodes _ _ _ Hs).
  apply elem_of_cons in Hy as [->|Hy].
  - split; [lia|set_solver].
  - apply list_elem_of_filter in Hy as [_ Hy]. split; [|set_solver].
    apply elem_colnodes in Hy. destruct (cell_node _ _ _ _ _ Hs Hy). lia.
Qed.

Lemma chain_NoDup n G (H : list Z) m c :
  StaticV n G m -> 0 <= c < n ->
  NoDup ((c + 1) :: filter (fun x => x ∉ H) (colnodes G c)).
Proof.
  intros Hs Hc. apply NoDup_cons. split.
  - intros Hy. apply list_elem_of_filter in Hy as [_ Hy].
    apply elem_colnodes in Hy. destruct (cell_node _ _ _ _ _ Hs Hy). lia.
  - apply NoDup_filter, NoDup_colnodes, Hs.
Qed.

(** A node outside [H] sits properly in the list of its column. *)
Lemma linked_node n G H m j c :
  StaticV n G m -> VS n G H m -> (j, c) ∈ cells G -> j ∉ H ->
  let L := filter (fun x => x ∉ H) (colnodes G c) in
  Up m j ∈ (c + 1) :: L /\ Dn m j ∈ (c + 1) :: L /\
  0 <= Up m j < nnodes m /\ 0 <= Dn m j < nnodes m /\
  0 <= Col m j - 1 < ncols m /\ 0 <= j < nnodes m /\
  Dn m (Up m j) = j /\ Up m (Dn m j) = j.
Proof.
  intros Hs Hv Hj HjH L.
  destruct (cell_node _ _ _ _ _ Hs Hj) as (Hjr & Hc & Hcol).
  destruct (Hv c Hc) as [Hdl _]. fold L in Hdl.
  assert (HjL : j ∈ L).
  { apply list_elem_of_filter. split; [done|]. by apply elem_colnodes. }
  destruct (dl_neighbours _ _ _ _ _ _ Hdl HjL) as [Hu Hd].
  assert (Hd' : Dn m j ∈ (c + 1) :: L) by set_solver.
  destruct (dl_linked _ _ _ _ _ _ Hdl HjL) as [Hl1 Hl2].
  destruct (chain_range _ _ _ _ _ _ Hs Hc Hu) as [? _].
  destruct (chain_range _ _ _ _ _ _ Hs Hc Hd') as [? _].
  pose proof (st_ncols _ _ _ Hs). pose proof (st_n _ _ _ Hs).
  split_and!; try done; lia.
Qed.

Lemma unlink_VS n G H m j c :
  StaticV n G m -> VS n G H m -> (j, c) ∈ cells G -> j ∉ H ->
  VS n G (j :: H) (unlink_v j m).
Proof.
  intros Hs Hv Hj HjH.
  destruct (linked_node _ _ _ _ _ _ Hs Hv Hj HjH)
    as (Hu & Hd & Hur & Hdr & Hcr & Hjr & Hl1 & Hl2).
  destruct (cell_node _ _ _ _ _ Hs Hj) as (_ & Hc & Hcol).
  assert (Hj0 : 0 <= j) by lia.
  pose proof (unlink_v_dn m j Hj0 Hur Hdr Hcr) as HD.
  pose proof (unlink_v_up m j Hj0 Hur Hdr Hcr) as HU.
  pose proof (unlink_v_size m j Hj0 Hur Hdr Hcr) as HS.
  intros c' Hc'. destruct (Hv c' Hc') as [Hdl Hsz].
  destruct (decide (c' = c)) as [->|Hne].
  - assert (HjL : j ∈ colnodes G c) by (by apply elem_colnodes).
    destruct (filter_split_remove (fun x => x ∉ H) (fun x => x ∉ j :: H)
                (colnodes G c) j) as (l1 & l2 & E1 & E2);
      [apply NoDup_colnodes, Hs|done|done| |].
    { intros y. rewrite not_elem_of_cons. tauto. }
    pose proof (chain_NoDup n G H m c Hs Hc) as Hnd.
    rewrite E1 in Hdl, Hnd, Hsz. rewrite E2. split.
    + eapply dl_ext; [| |apply (dl_remove _ _ _ _ _ _ _ Hdl)].
      * intros y Hy. apply HD.
        assert (y ∈ (c + 1) :: filter (fun x => x ∉ H) (colnodes G c))
          by (rewrite E1; set_solver).
        destruct (chain_range _ _ _ _ _ _ Hs Hc H0). lia.
      * intros y Hy. apply HU.
        assert (y ∈ (c + 1) :: filter (fun x => x ∉ H) (colnodes G c))
          by (rewrite E1; set_solver).
        destruct (chain_range _ _ _ _ _ _ Hs Hc H0). lia.
      * done.
      * apply NoDup_cons in Hnd as [Hh Hnd].
        replace (l1 ++ j :: l2 ++ [c + 1]) with ((l1 ++ j :: l2) ++ [c + 1])
          by (by rewrite <- app_assoc).
        apply NoDup_app. split_and!; [done| |apply NoDup_singleton].
        intros y Hy ->%list_elem_of_singleton. done.
    + rewrite HS by lia. rewrite decide_True by lia. rewrite Hsz.
      rewrite !length_app. simpl. lia.
  - assert (HjL : j ∉ colnodes G c').
    { intros Hin%elem_colnodes. apply Hne.
      eapply cell_col_unique; eauto. apply Hs. }
    rewrite filter_not_in_cons by done. split.
    + eapply dl_ext; [| |exact Hdl].
      * intros y Hy. destruct (chain_range _ _ _ _ _ _ Hs Hc' Hy) as [? Hy'].
        rewrite HD by lia. unfold fupd. rewrite decide_False; [done|].
        destruct (chain_range _ _ _ _ _ _ Hs Hc Hu) as [? Hu'].
        apply (chain_disjoint n G m c c' y (Up m j)); auto.
      * intros y Hy.
        assert (Hy2 : y ∈ (c' + 1) :: filter (fun x => x ∉ H) (colnodes G c'))
          by set_solver.
        destruct (chain_range _ _ _ _ _ _ Hs Hc' Hy2) as [? Hy'].
        rewrite HU by lia. unfold fupd. rewrite decide_False; [done|].
        destruct (chain_range _ _ _ _ _ _ Hs Hc Hd) as [? Hd'].
        apply (chain_disjoint n G m c c' y (Dn m j)); auto.
    + rewrite HS by lia. rewrite decide_False by lia. done.
Qed.

Lemma unlink_vframe n G H m j c :
  StaticV n G m -> VS n G H m -> (j, c) ∈ cells G -> j ∉ H ->
  vframe m (unlink_v j m).
Proof.
  intros Hs Hv Hj HjH.
  destruct (linked_node _ _ _ _ _ _ Hs Hv Hj HjH)
    as (Hu & Hd & Hur & Hdr & Hcr & Hjr & Hl1 & Hl2).
  apply unlink_v_vframe; try done; lia.
Qed.

Lemma relink_unlink_VS n G H m j c :
  StaticV n G m -> VS n G H m -> (j, c) ∈ cells G -> j ∉ H ->
  relink_v j (unlink_v j m) = m.
Proof.
  intros Hs Hv Hj HjH.
  destruct (linked_node _ _ _ _ _ _ Hs Hv Hj HjH)
    as (Hu & Hd & Hur & Hdr & Hcr & Hjr & Hl1 & Hl2).
  apply relink_unlink; try done; lia.
Qed.

(** A whole sequence of nodes. *)
Lemma unlinks_app X Y m : unlinks (X ++ Y) m = unlinks Y (unlinks X m).
Proof. unfold unlinks. by rewrite foldl_app. Qed.

Lemma unlinks_snoc X j m : unlinks (X ++ [j]) m = unlink_v j (unlinks X m).
Proof. by rewrite unlinks_app. Qed.

Lemma unlinks_VS n G H m X :
  StaticV n G m -> VS n G H m -> NoDup X ->
  (forall j, j ∈ X -> (j ∉ H) /\ (exists c, (j, c) ∈ cells G)) ->
  StaticV n G (unlinks X m) /\ VS n G (X ++ H) (unlinks X m) /\
  vframe m (unlinks X m).
Proof.
  intros Hs Hv Hnd HX. induction X as [|j X IH] using rev_ind.
  - simpl. split_and!; [done|done|apply vframe_refl].
  - apply NoDup_app in Hnd as (Hnd & Hdisj & _).
    destruct IH as (Hs' & Hv' & Hf'); [done|set_solver|].
    destruct (HX j) as (HjH & c & Hj); [set_solver|].
    assert (HjXH : j ∉ X ++ H).
    { intros [?|?]%elem_of_app; [|done]. apply (Hdisj j); set_solver. }
    pose proof (unlink_VS _ _ _ _ _ _ Hs' Hv' Hj HjXH) as Hv2.
    pose proof (unlink_vframe _ _ _ _ _ _ Hs' Hv' Hj HjXH) as Hf2.
    rewrite unlinks_snoc. split_and!.
    + eapply StaticV_vframe; eauto.
    + intros c' Hc'. destruct (Hv2 c' Hc') as [Hdl Hsz].
      assert (E : filter (fun x => x ∉ (X ++ [j]) ++ H) (colnodes G c')
                  = filter (fun x => x ∉ j :: X ++ H) (colnodes G c')).
      { apply filter_ext_in, Forall_forall. intros z _. set_solver. }
      rewrite E. done.
    + eapply vframe_trans; eauto.
Qed.

(* ================================================================= *)
(** ** Unlinking a column header from the header list *)

Section UnlinkH.
Context (m : DancingLinksMatrix) (h : Z).
Hypothesis Hh : 0 <= h.
Hypothesis Hl : 0 <= Lf m h < nnodes m.
Hypothesis Hr : 0 <= Rt m h < nnodes m.

Lemma unlink_h_eq :
  unlink_h h m
  = upd_node (DLXNode.set_left (Lf m h)) (Rt m h)
      (upd_node (DLXNode.set_right (Rt m h)) (Lf m h) m).
Proof using Hh Hl Hr.
  unfold unlink_h. cbv zeta.
  assert (Lf (upd_node (DLXNode.set_right (Rt m h)) (Lf m h) m) h = Lf m h)
    as ->.
  { unfold Lf at 1. by rewrite attr_upd_other. }
  assert (Rt (upd_node (DLXNode.set_right (Rt m h)) (Lf m h) m) h = Rt m h)
    as ->.
  { unfold Rt at 1. rewrite (attr_upd_same _ _ _ _ _ (Rt m h)) by done.
    unfold fupd. by case_decide. }
  done.
Qed.

Lemma unlink_h_rt x :
  0 <= x -> Rt (unlink_h h m) x = fupd (Rt m) (Lf m h) (Rt m h) x.
Proof using Hh Hl Hr.
  intros Hx. rewrite unlink_h_eq. unfold Rt at 1.
  rewrite attr_upd_other; [|done|by rewrite nnodes_upd_node|done].
  by rewrite (attr_upd_same _ _ _ _ _ (Rt m h)).
Qed.

Lemma unlink_h_lf x :
  0 <= x -> Lf (unlink_h h m) x = fupd (Lf m) (Rt m h) (Lf m h) x.
Proof using Hh Hl Hr.
  intros Hx. rewrite unlink_h_eq. unfold Lf at 1.
  rewrite (attr_upd_same _ _ _ _ _ (Lf m h));
    [|done|by rewrite nnodes_upd_node|done].
  unfold fupd. case_decide; [done|].
  by rewrite attr_upd_other.
Qed.

Lemma unlink_h_hframe : hframe m (unlink_h h m).
Proof using Hh Hl Hr.
  rewrite unlink_h_eq.
  split; try done.
  - by rewrite !nnodes_upd_node.
  - intros x Hx. unfold Up.
    rewrite !attr_upd_other; rewrite ?nnodes_upd_node; done.
  - intros x Hx. unfold Dn.
    rewrite !attr_upd_other; rewrite ?nnodes_upd_node; done.
  - intros x Hx. unfold Col.
    rewrite !attr_upd_other; rewrite ?nnodes_upd_node; done.
  - intros x Hx. unfold Rw.
    rewrite !attr_upd_other; rewrite ?nnodes_upd_node; done.
Qed.

Lemma relink_unlink_h :
  Rt m (Lf m h) = h -> Lf m (Rt m h) = h ->
  relink_h h (unlink_h h m) = m.
Proof using Hh Hl Hr.
  intros Hlu Hld.
  pose proof unlink_h_hframe as Hhf.
  pose proof unlink_h_rt as HR. pose proof unlink_h_lf as HL.
  set (m' := unlink_h h m) in *.
  assert (Hl' : Lf m' h = Lf m h).
  { rewrite HL by done. unfold fupd. case_decide; congruence. }
  assert (Hr' : Rt m' h = Rt m h).
  { rewrite HR by done. unfold fupd. case_decide; congruence. }
  assert (Hn' : nnodes m' = nnodes m) by apply Hhf.
  unfold relink_h. cbv zeta.
  rewrite Hl'.
  set (m1 := upd_node (DLXNode.set_right h) (Lf m h) m').
  assert (Hr1 : Rt m1 h = Rt m h).
  { unfold m1, Rt at 1.
    rewrite (attr_upd_same _ _ _ _ _ h); [|done|lia|done].
    unfold fupd. fold (Rt m' h). case_decide; congruence. }
  rewrite Hr1.
  set (m2 := upd_node (DLXNode.set_left h) (Rt m h) m1).
  assert (Hn1 : nnodes m1 = nnodes m).
  { unfold m1. rewrite nnodes_upd_node. done. }
  apply matrix_ext.
  - apply Hhf.
  - apply Hhf.
  - unfold m2. rewrite nnodes_upd_node. done.
  - apply Hhf.
  - intros x [Hx0 Hx].
    assert (Hlf : Lf m2 x = Lf m x).
    { unfold m2, Lf at 1.
      rewrite (attr_upd_same _ _ _ _ _ h); [|done|lia|done].
      unfold fupd. case_decide; [congruence|].
      unfold m1. rewrite attr_upd_other; [|done|lia|done].
      fold (Lf m' x). rewrite HL by done. unfold fupd.
      by rewrite decide_False. }
    assert (Hrt : Rt m2 x = Rt m x).
    { unfold m2, Rt at 1.
      rewrite attr_upd_other; [|done|lia|done].
      unfold m1. rewrite (attr_upd_same _ _ _ _ _ h); [|done|lia|done].
      unfold fupd. case_decide; [congruence|].
      fold (Rt m' x). rewrite HR by done. unfold fupd.
      by rewrite decide_False. }
    assert (Hoth : forall attr : DLXNode.t -> Z,
               (forall v a, attr (DLXNode.set_left v a) = attr a) ->
               (forall v a, attr (DLXNode.set_right v a) = attr a) ->
               attr (nd m2 x) = attr (nd m' x)).
    { intros attr H1 H2. unfold m2.
      rewrite attr_upd_other; [|apply H1|lia|done].
      unfold m1. rewrite attr_upd_other; [done|apply H2|lia|done]. }
    apply node_eta.
    + done.
    + done.
    + rewrite Hoth by done. by apply Hhf.
    + rewrite Hoth by done. by apply Hhf.
    + rewrite Hoth by done. by apply Hhf.
    + rewrite Hoth by done. by apply Hhf.
  - intros c Hc. change (cl m2 c) with (cl m' c).
    unfold m'. rewrite unlink_h_eq. done.
Qed.

End UnlinkH.

Lemma VS_size_hframe m m' : hframe m m' -> forall c, size_of m' c = size_of m c.
Proof. intros []. done. Qed.

Lemma header_NoDup n (K : list Z) :
  NoDup (0 :: filter (fun h => h - 1 ∉ K) (seqZ 1 n)).
Proof.
  apply NoDup_cons. split.
  - intros Hy%elem_seqZ_filter. lia.
  - apply NoDup_filter, NoDup_seqZ.
Qed.

Lemma header_range n (K : list Z) y :
  0 <= n ->
  y ∈ 0 :: filter (fun h => h - 1 ∉ K) (seqZ 1 n) -> 0 <= y <= n.
Proof.
  intros Hn [->|Hy%elem_seqZ_filter]%elem_of_cons; lia.
Qed.

(** An uncovered column's header sits properly in the header list. *)
Lemma linked_header n G K m c :
  StaticV n G m -> HS n K m -> 0 <= c < n -> c ∉ K ->
  0 <= Lf m (c + 1) <= n /\ 0 <= Rt m (c + 1) <= n /\
  Rt m (Lf m (c + 1)) = c + 1 /\ Lf m (Rt m (c + 1)) = c + 1.
Proof.
  intros Hs Hh Hc HcK. unfold HS in Hh.
  assert (Hin : c + 1 ∈ filter (fun h => h - 1 ∉ K) (seqZ 1 n)).
  { apply elem_seqZ_filter. split; [|lia].
    by replace (c + 1 - 1) with c by lia. }
  destruct (dl_neighbours _ _ _ _ _ _ Hh Hin) as [Hl Hr].
  destruct (dl_linked _ _ _ _ _ _ Hh Hin) as [Hl1 Hl2].
  apply header_range in Hl; [|lia].
  assert (Hr' : Rt m (c + 1) ∈ 0 :: filter (fun h => h - 1 ∉ K) (seqZ 1 n))
    by set_solver.
  apply header_range in Hr'; [|lia]. done.
Qed.

Lemma unlink_HS n G K m c :
  StaticV n G m -> HS n K m -> 0 <= c < n -> c ∉ K ->
  HS n (c :: K) (unlink_h (c + 1) m).
Proof.
  intros Hs Hh Hc HcK.
  destruct (linked_header _ _ _ _ _ Hs Hh Hc HcK) as (Hl & Hr & Hl1 & Hl2).
  pose proof (st_nnodes _ _ _ Hs) as Hnn.
  assert (Hh0 : 0 <= c + 1) by lia.
  assert (Hlr : 0 <= Lf m (c + 1) < nnodes m) by lia.
  assert (Hrr : 0 <= Rt m (c + 1) < nnodes m) by lia.
  pose proof (unlink_h_rt m (c + 1) Hh0 Hlr Hrr) as HR.
  pose proof (unlink_h_lf m (c + 1) Hh0 Hlr Hrr) as HL.
  unfold HS in *.
  destruct (filter_split_remove (fun h => h - 1 ∉ K) (fun h => h - 1 ∉ c :: K)
              (seqZ 1 n) (c + 1)) as (l1 & l2 & E1 & E2).
  { apply NoDup_seqZ. }
  { apply elem_of_seqZ. lia. }
  { by replace (c + 1 - 1) with c by lia. }
  { intros y. rewrite not_elem_of_cons. split; [|intros [? ?]; split; [lia|done]].
    intros [? ?]. split; [done|lia]. }
  pose proof (header_NoDup n K) as Hnd.
  assert (Hrange : forall y, y ∈ 0 :: l1 ++ (c + 1) :: l2 -> 0 <= y).
  { intros y Hy. rewrite <- E1 in Hy. apply header_range in Hy; lia. }
  rewrite E1 in Hh, Hnd. rewrite E2.
  eapply dl_ext; [| |apply (dl_remove _ _ _ _ _ _ _ Hh)].
  - intros y Hy. apply HR. apply Hrange. set_solver.
  - intros y Hy. apply HL. apply Hrange. set_solver.
  - done.
  - apply NoDup_cons in Hnd as [Hh' Hnd].
    replace (l1 ++ (c + 1) :: l2 ++ [0]) with ((l1 ++ (c + 1) :: l2) ++ [0])
      by (by rewrite <- app_assoc).
    apply NoDup_app. split_and!; [done| |apply NoDup_singleton].
    intros y Hy ->%list_elem_of_singleton. done.
Qed.

Lemma unlink_header_hframe n G K m c :
  StaticV n G m -> HS n K m -> 0 <= c < n -> c ∉ K ->
  hframe m (unlink_h (c + 1) m) /\
  (forall x, n + 1 <= x ->
     Lf (unlink_h (c + 1) m) x = Lf m x /\ Rt (unlink_h (c + 1) m) x = Rt m x) /\
  relink_h (c + 1) (unlink_h (c + 1) m) = m.
Proof.
  intros Hs Hh Hc HcK.
  destruct (linked_header _ _ _ _ _ Hs Hh Hc HcK) as (Hl & Hr & Hl1 & Hl2).
  pose proof (st_nnodes _ _ _ Hs) as Hnn.
  assert (Hh0 : 0 <= c + 1) by lia.
  assert (Hlr : 0 <= Lf m (c + 1) < nnodes m) by lia.
  assert (Hrr : 0 <= Rt m (c + 1) < nnodes m) by lia.
  split_and!.
  - by apply unlink_h_hframe.
  - intros x Hx. rewrite unlink_h_lf, unlink_h_rt by (done || lia).
    unfold fupd. rewrite !decide_False by lia. done.
  - by apply relink_unlink_h.
Qed.

(* ================================================================= *)
(** ** One iteration of the loops of [cover] and [uncover] *)

Lemma upd_solver_matrix m k s : matrix (upd_solver m k s) = m.
Proof. reflexivity. Qed.

Lemma upd_solver_upd m1 k1 m2 k2 s :
  upd_solver m2 k2 (upd_solver m1 k1 s) = upd_solver m2 (k1 + k2) s.
Proof. unfold upd_solver. simpl. f_equal. lia. Qed.

Lemma upd_solver_id s : upd_solver (matrix s) 0 s = s.
Proof. destruct s. unfold upd_solver. simpl. f_equal. lia. Qed.

Ltac msimpl := cbv beta; cbn [matrix with_matrix upd_solver].
Ltac range_tac :=
  msimpl;
  repeat first [rewrite nnodes_upd_node | rewrite nnodes_add_size
               | rewrite ncols_upd_node | rewrite ncols_upd_col];
  first [done | lia
        | unfold Up, Dn, Lf, Rt, Col, Rw, size_of in *; msimpl; lia].

Ltac mstep_by lem tac := erewrite bind_Ret; [|apply lem; msimpl; tac]; msimpl.
Ltac mstep lem := mstep_by lem range_tac.
Ltac mtick := erewrite bind_Ret; [|reflexivity]; msimpl.

Lemma cover_node_ok s j :
  let m := matrix s in
  0 <= j < nnodes m -> 0 <= Up m j < nnodes m -> 0 <= Dn m j < nnodes m ->
  0 <= Col m j - 1 < ncols m ->
  cover_node j s = Ret (Rt m j) (upd_solver (unlink_v j m) 1 s).
Proof.
  intros m Hj Hu Hd Hc. subst m. unfold cover_node.
  assert (Hj0 : 0 <= j) by lia.
  destruct (unlink_v_reads (matrix s) j Hj0 Hu Hd Hc) as [E1 E2].
  mstep s_node_at. mstep s_node_get. mstep s_node_get.
  mstep s_node_set.
  mstep s_node_get. mstep s_node_get.
  mstep_by s_node_set
    ltac:(fold (Dn (matrix s) j) (Up (matrix s) j);
          match goal with
          | |- context [DLXNode.down (nd ?m1 j)] => fold (Dn m1 j)
          end; rewrite E2, nnodes_upd_node; exact Hd).
  mstep s_node_get.
  mstep_by s_column_add_size
    ltac:(match goal with
          | |- context [DLXNode.column (nd ?m2 j)] =>
              replace (DLXNode.column (nd m2 j)) with (Col (matrix s) j)
          end;
          [exact Hc
          |unfold Col; rewrite !attr_upd_other; rewrite ?nnodes_upd_node;
           try done; fold (Dn (matrix s) j) (Up (matrix s) j);
           match goal with
           | |- context [DLXNode.down (nd ?m1 j)] => fold (Dn m1 j)
           end; rewrite ?E2; done]).
  mtick.
  rewrite s_node_get by range_tac. msimpl.
  unfold Rt. f_equal.
  rewrite nd_add_size.
  rewrite !attr_upd_other; rewrite ?nnodes_upd_node; try done.
  fold (Dn (matrix s) j) (Up (matrix s) j).
  match goal with
  | |- context [DLXNode.down (nd ?m1 j)] => fold (Dn m1 j)
  end. rewrite E2. done.
Qed.

Lemma unlink_v_self m j :
  0 <= j -> 0 <= Up m j < nnodes m -> 0 <= Dn m j < nnodes m ->
  0 <= Col m j - 1 < ncols m ->
  Up (unlink_v j m) j = Up m j /\ Dn (unlink_v j m) j = Dn m j /\
  Col (unlink_v j m) j = Col m j /\ nnodes (unlink_v j m) = nnodes m /\
  ncols (unlink_v j m) = ncols m.
Proof.
  intros Hj Hu Hd Hc.
  pose proof (unlink_v_vframe m j Hj Hu Hd Hc) as Hvf.
  rewrite (unlink_v_up m j Hj Hu Hd Hc), (unlink_v_dn m j Hj Hu Hd Hc) by done.
  unfold fupd. split_and!.
  - by case_decide.
  - by case_decide.
  - by apply Hvf.
  - apply Hvf.
  - apply Hvf.
Qed.

Lemma uncover_node_ok s j :
  let m := matrix s in
  0 <= j < nnodes m -> 0 <= Up m j < nnodes m -> 0 <= Dn m j < nnodes m ->
  0 <= Col m j - 1 < ncols m ->
  uncover_node j s = Ret (Lf m j) (upd_solver (relink_v j m) 1 s).
Proof.
  intros m Hj Hu Hd Hc. subst m. unfold uncover_node.
  set (m1 := upd_node (DLXNode.set_down j) (Up (matrix s) j) (matrix s)).
  assert (E2 : Dn m1 j = if decide (j = Up (matrix s) j) then j
                         else Dn (matrix s) j).
  { unfold m1, Dn at 1. rewrite (attr_upd_same _ _ _ _ _ j) by (done || lia).
    done. }
  assert (Hd1 : 0 <= Dn m1 j < nnodes m1).
  { rewrite E2. unfold m1. rewrite nnodes_upd_node. by case_decide. }
  set (m2 := upd_node (DLXNode.set_up j) (Dn m1 j) m1).
  assert (Hc2 : Col m2 j = Col (matrix s) j).
  { unfold m2, m1, Col.
    rewrite !attr_upd_other; (done || lia || apply Hd1). }
  mstep s_node_at. mstep s_node_get.
  mstep s_node_set.
  mstep s_node_get.
  mstep_by s_node_set ltac:(apply Hd1).
  mstep s_node_get.
  mstep_by s_column_add_size
    ltac:(change (0 <= Col m2 j - 1 < ncols (matrix s)); rewrite Hc2; exact Hc).
  mtick.
  rewrite s_node_get by range_tac. msimpl.
  unfold Lf. f_equal.
  rewrite nd_add_size.
  rewrite !attr_upd_other; (done || lia || apply Hd1).
Qed.

(** The two assignments that take a column header out of the header
    list, and the two that put it back. *)
Lemma cover_header_ok {A} (rest : M DLXSolver A) s h :
  let m := matrix s in
  0 <= h < nnodes m -> 0 <= Lf m h < nnodes m -> 0 <= Rt m h < nnodes m ->
  (r <- on_matrix (node_get DLXNode.right h) ;;
   l <- on_matrix (node_get DLXNode.left h) ;;
   on_matrix (node_set DLXNode.set_right l r) ;;
   l <- on_matrix (node_get DLXNode.left h) ;;
   r <- on_matrix (node_get DLXNode.right h) ;;
   on_matrix (node_set DLXNode.set_left r l) ;;
   rest) s
  = rest (upd_solver (unlink_h h m) 0 s).
Proof.
  intros m Hh Hl Hr. subst m.
  set (m1 := upd_node (DLXNode.set_right (Rt (matrix s) h)) (Lf (matrix s) h)
               (matrix s)).
  assert (Er1 : Rt m1 h = Rt (matrix s) h).
  { unfold m1. unfold Rt at 1.
    rewrite (attr_upd_same _ _ _ _ _ (Rt (matrix s) h)) by (done || lia).
    unfold fupd. by case_decide. }
  assert (Hr1 : 0 <= Rt m1 h < nnodes m1).
  { rewrite Er1. unfold m1. by rewrite nnodes_upd_node. }
  mstep s_node_get. mstep s_node_get. mstep s_node_set.
  mstep s_node_get. mstep s_node_get.
  mstep_by s_node_set ltac:(apply Hr1).
  f_equal. destruct s. unfold upd_solver, with_matrix. simpl.
  f_equal. lia.
Qed.

Lemma uncover_header_ok s h :
  let m := matrix s in
  0 <= h < nnodes m -> 0 <= Lf m h < nnodes m -> 0 <= Rt m h < nnodes m ->
  (l <- on_matrix (node_get DLXNode.left h) ;;
   on_matrix (node_set DLXNode.set_right l h) ;;
   r <- on_matrix (node_get DLXNode.right h) ;;
   on_matrix (node_set DLXNode.set_left r h)) s
  = Ret tt (upd_solver (relink_h h m) 0 s).
Proof.
  intros m Hh Hl Hr. subst m.
  set (m1 := upd_node (DLXNode.set_right h) (Lf (matrix s) h) (matrix s)).
  assert (Er1 : Rt m1 h = if decide (h = Lf (matrix s) h) then h
                          else Rt (matrix s) h).
  { unfold m1. unfold Rt at 1.
    rewrite (attr_upd_same _ _ _ _ _ h) by (done || lia). done. }
  assert (Hr1 : 0 <= Rt m1 h < nnodes m1).
  { rewrite Er1. unfold m1. rewrite nnodes_upd_node. by case_decide. }
  mstep s_node_get. mstep s_node_set. mstep s_node_get.
  rewrite s_node_set by (msimpl; apply Hr1). msimpl.
  f_equal. destruct s. unfold upd_solver, with_matrix. simpl.
  f_equal. lia.
Qed.

(* ================================================================= *)
(** ** The nodes that [cover] unlinks *)

Lemma NoDup_fmap_eq {A B} (f : A -> B) (l : list A) x y :
  NoDup (map f l) -> x ∈ l -> y ∈ l -> f x = f y -> x = y.
Proof.
  induction l as [|a l IH]; simpl; [by intros _ ?%elem_of_nil|].
  intros [Ha Hnd]%NoDup_cons [->|Hx]%elem_of_cons [->|Hy]%elem_of_cons E;
    auto.
  - exfalso. apply Ha. rewrite E. apply list_elem_of_fmap. eauto.
  - exfalso. apply Ha. rewrite <- E. apply list_elem_of_fmap. eauto.
Qed.

Lemma row_nodes_cells G g x :
  g ∈ G -> x ∈ row_nodes g -> x ∈ map fst (cells G).
Proof.
  intros Hg (c & Hx)%row_nodes_elem. apply list_elem_of_fmap.
  exists (x, c). split; [done|]. apply elem_cells. eauto.
Qed.

Lemma row_unique G g g' x :
  NoDup (map fst (cells G)) -> g ∈ G -> g' ∈ G ->
  x ∈ row_nodes g -> x ∈ row_nodes g' -> g = g'.
Proof.
  induction G as [|a G IH]; [by intros _ ?%elem_of_nil|].
  unfold cells. simpl. rewrite map_app. fold (cells G). fold (row_nodes a).
  intros (Hnd1 & Hd & Hnd2)%NoDup_app [->|Hg]%elem_of_cons
    [->|Hg']%elem_of_cons Hx Hx'; auto.
  - exfalso. eapply Hd; eauto using row_nodes_cells.
  - exfalso. eapply Hd; eauto using row_nodes_cells.
Qed.

Lemma row_NoDup G g :
  NoDup (map fst (cells G)) -> g ∈ G -> NoDup (row_nodes g).
Proof.
  induction G as [|a G IH]; [by intros _ ?%elem_of_nil|].
  unfold cells. simpl. rewrite map_app. fold (cells G). fold (row_nodes a).
  intros (Hnd1 & Hd & Hnd2)%NoDup_app [->|Hg]%elem_of_cons; auto.
Qed.

Lemma row_of_eq G g i :
  NoDup (map fst (cells G)) -> g ∈ G -> i ∈ row_nodes g ->
  row_of G i = row_nodes g.
Proof.
  intros Hnd Hg Hi. unfold row_of.
  destruct (filter (fun g => i ∈ row_nodes g) G) as [|g0 l] eqn:E.
  - assert (g ∈ filter (fun g => i ∈ row_nodes g) G)
      by (by apply list_elem_of_filter).
    rewrite E in H. by apply elem_of_nil in H.
  - assert (Hg0 : g0 ∈ filter (fun g => i ∈ row_nodes g) G)
      by (rewrite E; set_solver).
    apply list_elem_of_filter in Hg0 as [Hi0 Hg0].
    by rewrite (row_unique G g0 g i).
Qed.

Lemma elem_hide_rows G L j :
  j ∈ hide_rows G L <-> exists i, i ∈ L /\ j ∈ others i (row_of G i).
Proof.
  unfold hide_rows. rewrite elem_of_concat. split.
  - intros (l & Hj & (i & -> & Hi)%list_elem_of_fmap). eauto.
  - intros (i & Hi & Hj). eexists. split; [done|].
    apply list_elem_of_fmap. eauto.
Qed.

Lemma hide_rows_app G L1 L2 :
  hide_rows G (L1 ++ L2) = hide_rows G L1 ++ hide_rows G L2.
Proof. unfold hide_rows. by rewrite map_app, concat_app. Qed.

Lemma hide_rows_cons G i L :
  hide_rows G (i :: L) = others i (row_of G i) ++ hide_rows G L.
Proof. reflexivity. Qed.

Section Trace.
Context (n : Z) (G : list grow) (K H : list Z) (m : DancingLinksMatrix).
Context (c : Z).
Hypothesis HI : Inv n G K H m.
Hypothesis Hc : 0 <= c < n.
Hypothesis HcK : c ∉ K.

Let Lc := filter (fun x => x ∉ H) (colnodes G c).

(** A node in the list of an uncovered column lies in a row none of
    whose nodes is hidden. *)
Lemma live_row i :
  i ∈ Lc ->
  exists g, g ∈ G /\ (i, c) ∈ g.2 /\ row_of G i = row_nodes g /\
    NoDup (row_nodes g) /\
    forall x cx, (x, cx) ∈ g.2 -> (x ∉ H) /\ (cx ∉ K).
Proof using HI Hc HcK.
  intros [HiH Hi]%list_elem_of_filter.
  apply elem_colnodes, elem_cells in Hi as (g & Hg & Hi).
  pose proof (st_nodup _ _ _ (inv_sv _ _ _ _ _ HI)) as Hnd.
  exists g. split_and!; [done|done| | |].
  - apply row_of_eq; [done..|]. apply row_nodes_elem. eauto.
  - by apply (row_NoDup G).
  - assert (Hlive : ~ exists c', c' ∈ row_cols g /\ c' ∈ K).
    { intros Hex. apply HiH.
      by apply (inv_rows _ _ _ _ _ HI g i c Hg Hi). }
    intros x cx Hx. split.
    + intros HxH. apply Hlive.
      by apply (inv_rows _ _ _ _ _ HI g x cx Hg Hx).
    + intros HK. apply Hlive. exists cx. split; [|done].
      apply row_cols_elem. eauto.
Qed.

Lemma trace_elem i j :
  i ∈ Lc -> j ∈ others i (row_of G i) ->
  exists g cj, g ∈ G /\ (i, c) ∈ g.2 /\ (j, cj) ∈ g.2 /\
    cj <> c /\ (j ∉ H) /\ (cj ∉ K).
Proof using HI Hc HcK.
  intros Hi Hj. destruct (live_row i Hi) as (g & Hg & Hic & Er & Hnd & Hl).
  rewrite Er in Hj.
  assert (Hir : i ∈ row_nodes g) by (apply row_nodes_elem; eauto).
  apply others_elem in Hj as [Hj Hne]; [|done..].
  apply row_nodes_elem in Hj as (cj & Hj).
  exists g, cj. destruct (Hl j cj Hj). split_and!; try done.
  intros ->. apply Hne.
  pose proof (st_cols _ _ _ (inv_sv _ _ _ _ _ HI) g Hg) as Hndc.
  assert (E : (j, c) = (i, c)); [|by inversion E].
  by apply (NoDup_fmap_eq snd g.2).
Qed.

Lemma trace_disjoint i i' j :
  i ∈ Lc -> i' ∈ Lc -> j ∈ row_of G i -> j ∈ others i' (row_of G i') ->
  i = i'.
Proof using HI Hc HcK.
  intros Hi Hi' Hj Hj'.
  destruct (live_row i Hi) as (g & Hg & Hic & Er & Hnd & Hl).
  destruct (live_row i' Hi') as (g' & Hg' & Hic' & Er' & Hnd' & Hl').
  rewrite Er in Hj. rewrite Er' in Hj'.
  assert (Hir : i' ∈ row_nodes g') by (apply row_nodes_elem; eauto).
  apply others_elem in Hj' as [Hj' _]; [|done..].
  pose proof (st_nodup _ _ _ (inv_sv _ _ _ _ _ HI)) as Hndc.
  assert (g = g') as <- by (by apply (row_unique G g g' j)).
  pose proof (st_cols _ _ _ (inv_sv _ _ _ _ _ HI) g Hg) as Hndg.
  assert (E : (i, c) = (i', c)); [|by inversion E].
  by apply (NoDup_fmap_eq snd g.2).
Qed.

Lemma others_sub i j : j ∈ others i (row_of G i) -> j ∈ row_of G i.
Proof.
  unfold others. intros [Hj|Hj]%elem_of_app.
  - clear -Hj. induction (row_of G i) as [|x r IH]; simpl in *; [done|].
    case_decide; set_solver.
  - clear -Hj. induction (row_of G i) as [|x r IH]; simpl in *; [done|].
    case_decide; set_solver.
Qed.

Lemma hide_rows_NoDup L :
  NoDup L -> (forall i, i ∈ L -> i ∈ Lc) -> NoDup (hide_rows G L).
Proof using HI Hc HcK.
  induction L as [|i L IH]; [constructor|].
  intros [Hi Hnd]%NoDup_cons HL. rewrite hide_rows_cons.
  apply NoDup_app. split_and!.
  - destruct (live_row i) as (g & Hg & Hic & Er & Hndg & Hl); [set_solver|].
    rewrite Er. apply others_NoDup; [done|]. apply row_nodes_elem. eauto.
  - intros j Hj (i' & Hi' & Hj')%elem_hide_rows.
    apply Hi. rewrite (trace_disjoint i i' j); [done|set_solver..| |done].
    by apply others_sub.
  - apply IH; [done|set_solver].
Qed.

Lemma trace_NoDup : NoDup (trace_of G H c).
Proof using HI Hc HcK.
  apply hide_rows_NoDup; [|done].
  apply NoDup_filter, NoDup_colnodes, HI.
Qed.

Lemma trace_cells j :
  j ∈ trace_of G H c ->
  (j ∉ H) /\ (exists cj, (j, cj) ∈ cells G /\ cj <> c /\ (cj ∉ K)) /\
  j ∉ colnodes G c.
Proof using HI Hc HcK.
  intros (i & Hi & Hj)%elem_hide_rows.
  destruct (trace_elem i j Hi Hj) as (g & cj & Hg & Hic & Hjc & Hne & HjH & HK).
  assert ((j, cj) ∈ cells G) by (apply elem_cells; eauto).
  split_and!; [done|eauto|].
  intros Hin%elem_colnodes. apply Hne.
  eapply cell_col_unique; eauto. apply HI.
Qed.

End Trace.

Lemma length_bound (l : list Z) a b :
  a <= b ->
  NoDup l -> (forall x, x ∈ l -> a <= x < b) -> Z.of_nat (length l) <= b - a.
Proof.
  intros Hab Hnd Hl.
  assert (Hsub : l ⊆+ seqZ a (b - a)).
  { apply NoDup_submseteq; [done|]. intros x Hx. apply elem_of_seqZ.
    specialize (Hl x Hx). lia. }
  apply submseteq_length in Hsub. rewrite length_seqZ in Hsub. lia.
Qed.

Lemma dl_next nx pv a l1 x l2 b :
  dl nx pv a (l1 ++ x :: l2) b -> nx x = hd b l2.
Proof. intros [_ H]%dl_app. by apply dl_hd in H. Qed.

(* ================================================================= *)
(** ** [cover] on a well-formed matrix *)

Section Cover.
Context (n : Z) (G : list grow) (K H : list Z) (m : DancingLinksMatrix).
Context (c : Z).
Hypothesis HI : Inv n G K H m.
Hypothesis Hc : 0 <= c < n.
Hypothesis HcK : c ∉ K.

Let Lc := filter (fun x => x ∉ H) (colnodes G c).
Let m0 := unlink_h (c + 1) m.

Lemma m0_facts :
  StaticV n G m0 /\ StaticH G m0 /\ VS n G H m0 /\ HS n (c :: K) m0 /\
  hframe m m0 /\
  (forall x, n + 1 <= x -> Lf m0 x = Lf m x /\ Rt m0 x = Rt m x) /\
  relink_h (c + 1) m0 = m.
Proof using HI Hc HcK.
  destruct HI as [Hsv Hsh Hhs Hvs Hri HK HKr].
  destruct (unlink_header_hframe n G K m c) as (Hhf & Hlr & Hrel);
    [done..|].
  split_and!; try done.
  - by apply (StaticV_hframe n G m).
  - by apply (StaticH_ext n G m).
  - by apply (VS_hframe n G H m).
  - by apply (unlink_HS n G).
Qed.

Lemma prefix_state X1 X2 :
  trace_of G H c = X1 ++ X2 ->
  let m1 := unlinks X1 m0 in
  StaticV n G m1 /\ StaticH G m1 /\ VS n G (X1 ++ H) m1 /\ vframe m0 m1 /\
  dl (Dn m1) (Up m1) (c + 1) Lc (c + 1) /\
  (forall x, n + 1 <= x -> Lf m1 x = Lf m x /\ Rt m1 x = Rt m x) /\
  nnodes m1 = nnodes m.
Proof using HI Hc HcK.
  intros E m1.
  destruct m0_facts as (Hsv0 & Hsh0 & Hvs0 & Hhs0 & Hhf & Hlr & _).
  pose proof (trace_NoDup n G K H m c HI Hc HcK) as Hnd.
  rewrite E in Hnd. apply NoDup_app in Hnd as (Hnd1 & Hdisj & Hnd2).
  destruct (unlinks_VS n G H m0 X1) as (Hsv1 & Hvs1 & Hvf); [done..| |].
  { intros j Hj.
    destruct (trace_cells n G K H m c HI Hc HcK j) as (? & (cj & ? & _) & _).
    - rewrite E. set_solver.
    - eauto. }
  fold m1 in Hsv1, Hvs1, Hvf.
  split_and!; try done.
  - by apply (StaticH_vframe n G m0).
  - destruct (Hvs1 c Hc) as [Hdl _].
    replace Lc with (filter (fun x => x ∉ X1 ++ H) (colnodes G c)); [done|].
    apply filter_ext_in, Forall_forall. intros z Hz.
    rewrite not_elem_of_app. split; [tauto|]. intros HzH. split; [|done].
    intros Hz1.
    destruct (trace_cells n G K H m c HI Hc HcK z) as (_ & _ & Hnc);
      [rewrite E; set_solver|done].
  - intros x Hx. pose proof (st_n _ _ _ Hsv0).
    rewrite (vf_lf _ _ Hvf), (vf_rt _ _ Hvf) by lia. by apply Hlr.
  - rewrite (vf_nnodes _ _ Hvf). apply Hhf.
Qed.

Lemma covered_Inv : Inv n G (c :: K) (trace_of G H c ++ H) (covered G H c m).
Proof using HI Hc HcK.
  destruct m0_facts as (Hsv0 & Hsh0 & Hvs0 & Hhs0 & Hhf & Hlr & _).
  destruct (prefix_state (trace_of G H c) []) as
    (Hsv1 & Hsh1 & Hvs1 & Hvf1 & Hdl1 & Hlr1 & Hnn1);
    [by rewrite app_nil_r|].
  pose proof (st_nodup _ _ _ (inv_sv _ _ _ _ _ HI)) as Hnd.
  split; try done.
  - by apply (HS_vframe n (c :: K) m0).
  - intros g x cx Hg Hx. split.
    + intros [HxX|HxH]%elem_of_app.
      * apply elem_hide_rows in HxX as (i & Hi & Hxi).
        destruct (live_row n G K H m c HI Hc HcK i Hi)
          as (g' & Hg' & Hic & Er & Hndg & Hlive).
        apply others_sub in Hxi. rewrite Er in Hxi.
        assert (g' = g) as ->.
        { apply (row_unique G g' g x); try done.
          apply row_nodes_elem. eauto. }
        exists c. split; [|set_solver]. apply row_cols_elem. eauto.
      * destruct (inv_rows _ _ _ _ _ HI g x cx Hg Hx) as [H1 _].
        destruct (H1 HxH) as (c' & ? & ?). exists c'. set_solver.
    + intros HcxK (c' & Hc' & [->|Hc'K]%elem_of_cons).
      * destruct (decide (Exists (fun c'' => c'' ∈ K) (row_cols g)))
          as [Hex%Exists_exists|Hnex];
          [|rewrite Exists_exists in Hnex].
        { apply elem_of_app. right.
          apply (inv_rows _ _ _ _ _ HI g x cx Hg Hx); [set_solver|done]. }
        apply elem_of_app. left.
        apply row_cols_elem in Hc' as (i & Hi).
        assert (HiL : i ∈ Lc).
        { apply list_elem_of_filter. split.
          - intros HiH. apply Hnex.
            by apply (inv_rows _ _ _ _ _ HI g i c Hg Hi).
          - apply elem_colnodes, elem_cells. eauto. }
        apply elem_hide_rows. exists i. split; [done|].
        rewrite (row_of_eq G g i); [|done..|apply row_nodes_elem; eauto].
        apply others_elem.
        { by apply (row_NoDup G). }
        { apply row_nodes_elem; eauto. }
        split; [apply row_nodes_elem; eauto|].
        intros ->. apply HcxK.
        assert (cx = c) as ->; [|set_solver].
        eapply cell_col_unique; [done| |]; apply elem_cells; eauto.
      * apply elem_of_app. right.
        apply (inv_rows _ _ _ _ _ HI g x cx Hg Hx); [set_solver|eauto].
  - apply NoDup_cons. split; [done|apply HI].
  - intros c' [->|Hc']%elem_of_cons; [done|]. by apply HI.
Qed.

(** Unlinking the traced nodes leaves column [c] alone. *)
Lemma trace_frame X1 : forall X2,
  trace_of G H c = X1 ++ X2 ->
  (forall x, 0 <= x -> Col m x = c + 1 ->
     Up (unlinks X1 m0) x = Up m0 x /\ Dn (unlinks X1 m0) x = Dn m0 x) /\
  size_of (unlinks X1 m0) c = size_of m0 c.
Proof using HI Hc HcK.
  induction X1 as [|j X1 IH] using rev_ind; intros X2 E.
  - done.
  - rewrite <- app_assoc in E. simpl in E.
    destruct (IH _ E) as [IHud IHsz].
    destruct (prefix_state _ _ E)
      as (Hsv1 & Hsh1 & Hvs1 & Hvf1 & Hdl1 & Hlr1 & Hnn1).
    destruct (trace_cells n G K H m c HI Hc HcK j)
      as (HjH & (cj & Hjc & Hne & _) & _); [rewrite E; set_solver|].
    assert (HjX : j ∉ X1 ++ H).
    { pose proof (trace_NoDup n G K H m c HI Hc HcK) as Hnd.
      rewrite E in Hnd. apply NoDup_app in Hnd as (_ & Hdisj & _).
      intros [Hy1|Hy1]%elem_of_app; [|done].
      apply (Hdisj j Hy1). set_solver. }
    destruct (linked_node _ _ _ _ _ _ Hsv1 Hvs1 Hjc HjX)
      as (Hu & Hd & Hur & Hdr & Hcr & Hjr & _ & _).
    destruct (cell_node _ _ _ _ _ Hsv1 Hjc) as (Hjn & Hcj & Hcolj).
    rewrite unlinks_snoc.
    set (m1 := unlinks X1 m0) in *.
    assert (Hj0 : 0 <= j) by lia.
    destruct m0_facts as (Hsv0 & _ & _ & _ & Hhf & _ & _).
    assert (Hcolm : forall x, 0 <= x -> Col m1 x = Col m x).
    { intros x Hx. rewrite (vf_col _ _ Hvf1) by done. by apply Hhf. }
    assert (Hchain : forall y,
              y ∈ (cj + 1) :: filter (fun x => x ∉ X1 ++ H) (colnodes G cj) ->
              0 <= y /\ Col m y = cj + 1).
    { intros y [->|Hy]%elem_of_cons.
      - split; [lia|]. apply (st_hdr _ _ _ (inv_sv _ _ _ _ _ HI)). lia.
      - apply list_elem_of_filter in Hy as [_ Hy]. apply elem_colnodes in Hy.
        destruct (cell_node _ _ _ _ _ (inv_sv _ _ _ _ _ HI) Hy)
          as (? & ? & ?).
        pose proof (st_n _ _ _ Hsv0). split; [lia|done]. }
    split.
    + intros x Hx Hcol. destruct (IHud x Hx Hcol) as [<- <-].
      rewrite (unlink_v_up m1 j Hj0 Hur Hdr Hcr),
              (unlink_v_dn m1 j Hj0 Hur Hdr Hcr) by done.
      unfold fupd. rewrite !decide_False; [done| |].
      * intros ->. destruct (Hchain _ Hu) as [_ Hcu]. lia.
      * intros ->. destruct (Hchain _ Hd) as [_ Hcd]. lia.
    + rewrite (unlink_v_size m1 j Hj0 Hur Hdr Hcr) by lia.
      rewrite decide_False by lia. done.
Qed.

Lemma covered_frame :
  let m' := covered G H c m in
  nnodes m' = nnodes m /\ size_of m' c = size_of m c /\
  (forall x, 0 <= x -> Col m x = c + 1 ->
     Up m' x = Up m x /\ Dn m' x = Dn m x) /\
  Lf m' (c + 1) = Lf m (c + 1) /\ Rt m' (c + 1) = Rt m (c + 1) /\
  (forall x, 0 <= x -> x <> Rt m (c + 1) -> Lf m' x = Lf m x) /\
  (forall x, 0 <= x -> x <> Lf m (c + 1) -> Rt m' x = Rt m x) /\
  (forall x, 0 <= x -> Col m' x = Col m x /\ Rw m' x = Rw m x).
Proof using HI Hc HcK.
  intros m'. unfold m', covered. fold m0.
  destruct m0_facts as (Hsv0 & _ & _ & _ & Hhf & _ & _).
  destruct (prefix_state (trace_of G H c) [])
    as (Hsv1 & Hsh1 & Hvs1 & Hvf1 & Hdl1 & Hlr1 & Hnn1);
    [by rewrite app_nil_r|].
  destruct (trace_frame (trace_of G H c) []) as [Hud Hsz];
    [by rewrite app_nil_r|].
  pose proof (inv_sv _ _ _ _ _ HI) as Hsv.
  pose proof (st_nnodes _ _ _ Hsv) as Hnn.
  destruct (linked_header _ _ _ _ _ Hsv (inv_hs _ _ _ _ _ HI) Hc HcK)
    as (Hl & Hr & _ & _).
  assert (Hh0 : 0 <= c + 1) by lia.
  assert (Hlr' : 0 <= Lf m (c + 1) < nnodes m) by lia.
  assert (Hrr' : 0 <= Rt m (c + 1) < nnodes m) by lia.
  pose proof (unlink_h_lf m (c + 1) Hh0 Hlr' Hrr') as HL.
  pose proof (unlink_h_rt m (c + 1) Hh0 Hlr' Hrr') as HR.
  fold m0 in HL, HR.
  split_and!.
  - done.
  - rewrite Hsz. apply Hhf.
  - intros x Hx Hcol. destruct (Hud x Hx Hcol) as [-> ->].
    split; by apply Hhf.
  - rewrite (vf_lf _ _ Hvf1), HL by lia. unfold fupd. by case_decide.
  - rewrite (vf_rt _ _ Hvf1), HR by lia. unfold fupd.
    case_decide as E; [|done]. by rewrite E.
  - intros x Hx Hne. rewrite (vf_lf _ _ Hvf1), HL by lia. unfold fupd.
    by rewrite decide_False.
  - intros x Hx Hne. rewrite (vf_rt _ _ Hvf1), HR by lia. unfold fupd.
    by rewrite decide_False.
  - intros x Hx. rewrite (vf_col _ _ Hvf1), (vf_rw _ _ Hvf1) by done.
    split; by apply Hhf.
Qed.

Context (lf : nat).
Hypothesis Hlf : nnodes m <= Z.of_nat lf.

Lemma cover_row_ok done x rest s1 :
  Lc = done ++ x :: rest ->
  matrix s1 = unlinks (hide_rows G done) m0 ->
  exists k,
    cover_row lf x s1
    = Ret (hd (c + 1) rest)
          (upd_solver (unlinks (hide_rows G (done ++ [x])) m0) k s1).
Proof using HI Hc HcK Hlf.
  intros EL Es1.
  assert (HxL : x ∈ Lc) by (rewrite EL; set_solver).
  destruct (live_row n G K H m c HI Hc HcK x HxL)
    as (g & Hg & Hxc & Er & Hndg & Hlive).
  assert (Hxr : x ∈ row_nodes g) by (apply row_nodes_elem; eauto).
  assert (Etr : trace_of G H c
                = hide_rows G done ++ others x (row_nodes g)
                  ++ hide_rows G rest).
  { unfold trace_of. fold Lc. rewrite EL, hide_rows_app, hide_rows_cons.
    by rewrite Er. }
  pose proof (inv_sv _ _ _ _ _ HI) as Hsv.
  destruct (inv_sh _ _ _ _ _ HI g Hg) as [_ Hcyc].
  pose proof (cyc_others _ _ _ _ Hcyc Hxr) as Hrow.
  destruct (st_cell _ _ _ Hsv g x c Hg Hxc) as (Hxn & _ & _ & _).
  pose proof (st_n _ _ _ Hsv) as Hn1.
  destruct (prefix_state (hide_rows G done)
              (others x (row_nodes g) ++ hide_rows G rest) Etr)
    as (Hsv1 & Hsh1 & Hvs1 & Hvf1 & Hdl1 & Hlr1 & Hnn1).
  assert (Hns1 : nnodes (matrix s1) = nnodes m) by (by rewrite Es1).
  unfold cover_row.
  mstep s_node_at. mstep s_node_get.
  fold (Rt (matrix s1) x). rewrite Es1.
  rewrite (proj2 (Hlr1 x (proj1 Hxn))).
  rewrite (dl_hd _ _ _ _ _ Hrow).
  (* the inner loop *)
  destruct (while_ne_list
    (fun rest' st => exists d,
       others x (row_nodes g) = d ++ rest' /\
       st = upd_solver (unlinks (hide_rows G done ++ d) m0)
              (Z.of_nat (length d)) s1)
    x cover_node) with (xs := others x (row_nodes g)) (s := s1) (fuel := lf)
    as (s2 & Hrun & d & Ed & Es2).
  - intros y rest' st (d & Ed & Est).
    assert (Hy : y ∈ others x (row_nodes g)) by (rewrite Ed; set_solver).
    split; [by apply others_elem in Hy as [_ ?]|].
    assert (Etr' : trace_of G H c
                   = (hide_rows G done ++ d)
                     ++ (y :: rest' ++ hide_rows G rest)).
    { rewrite Etr, Ed. by rewrite <- !app_assoc. }
    destruct (prefix_state _ _ Etr')
      as (Hsv2 & Hsh2 & Hvs2 & Hvf2 & Hdl2 & Hlr2 & Hnn2).
    destruct (trace_cells n G K H m c HI Hc HcK y)
      as (HyH & (cy & Hyc & _) & _); [rewrite Etr'; set_solver|].
    assert (HyX : y ∉ (hide_rows G done ++ d) ++ H).
    { pose proof (trace_NoDup n G K H m c HI Hc HcK) as Hnd.
      rewrite Etr' in Hnd. apply NoDup_app in Hnd as (_ & Hdisj & _).
      intros [Hy1|Hy1]%elem_of_app; [|done].
      apply (Hdisj y Hy1). set_solver. }
    destruct (linked_node _ _ _ _ _ _ Hsv2 Hvs2 Hyc HyX)
      as (_ & _ & Hur & Hdr & Hcr & Hjr & _ & _).
    destruct (cell_node _ _ _ _ _ Hsv Hyc) as (Hyn & _ & _).
    eexists. split.
    + rewrite Est. rewrite cover_node_ok; msimpl; [|done..].
      rewrite upd_solver_upd. f_equal.
      rewrite (proj2 (Hlr2 y (proj1 Hyn))).
      apply (dl_next _ _ _ _ _ _ _ (eq_ind _ (fun l => dl _ _ x l x) Hrow _ Ed)).
    + exists (d ++ [y]). split; [by rewrite <- app_assoc|].
      rewrite length_app, app_assoc, unlinks_snoc. simpl.
      f_equal. lia.
  - exists []. split; [done|]. rewrite app_nil_r.
    rewrite <- Es1. by rewrite upd_solver_id.
  - assert (Z.of_nat (length (others x (row_nodes g))) <= nnodes m - (n + 1)).
    { pose proof (st_nnodes _ _ _ Hsv).
      apply length_bound; [lia|by apply others_NoDup|].
      intros y Hy%others_elem; [|done..]. destruct Hy as [Hy _].
      apply row_nodes_elem in Hy as (cy & Hy).
      destruct (st_cell _ _ _ Hsv g y cy Hg Hy) as (? & _). done. }
    lia.
  - rewrite app_nil_r in Ed. subst d.
    rewrite (bind_Ret _ _ _ _ _ Hrun). msimpl.
    assert (Etr' : trace_of G H c
                   = hide_rows G (done ++ [x]) ++ hide_rows G rest).
    { rewrite Etr, hide_rows_app, hide_rows_cons, Er. simpl.
      by rewrite app_nil_r, <- app_assoc. }
    destruct (prefix_state _ _ Etr')
      as (Hsv2 & Hsh2 & Hvs2 & Hvf2 & Hdl2 & Hlr2 & Hnn2).
    assert (Em : hide_rows G done ++ others x (row_nodes g)
                 = hide_rows G (done ++ [x])).
    { rewrite hide_rows_app, hide_rows_cons, Er. simpl.
      by rewrite app_nil_r. }
    rewrite Es2, Em.
    rewrite s_node_get by (msimpl; lia). msimpl.
    eexists. f_equal.
    fold (Dn (unlinks (hide_rows G (done ++ [x])) m0) x).
    rewrite EL in Hdl2. apply (dl_next _ _ _ _ _ _ _ Hdl2).
Qed.

Lemma cover_ok s :
  matrix s = m ->
  exists k, cover lf c s = Ret tt (upd_solver (covered G H c m) k s).
Proof using HI Hc HcK Hlf.
  intros Es.
  pose proof (inv_sv _ _ _ _ _ HI) as Hsv.
  pose proof (st_n _ _ _ Hsv) as Hn1.
  pose proof (st_nnodes _ _ _ Hsv) as Hnn.
  pose proof (st_ncols _ _ _ Hsv) as Hnc.
  destruct (linked_header _ _ _ _ _ Hsv (inv_hs _ _ _ _ _ HI) Hc HcK)
    as (Hl & Hr & _ & _).
  destruct m0_facts as (Hsv0 & Hsh0 & Hvs0 & Hhs0 & Hhf & Hlr & _).
  unfold cover.
  mtick. change (mkSolver (matrix s) (trace s) (solution s) (solutions s)
                   (operations s + 1)) with (upd_solver (matrix s) 1 s).
  rewrite Es.
  mstep s_column_at. mstep s_node_at.
  rewrite cover_header_ok by (msimpl; lia). msimpl.
  rewrite upd_solver_upd. fold m0.
  mstep_by s_node_get ltac:(rewrite (hf_nnodes _ _ Hhf); lia).
  fold (Dn m0 (c + 1)).
  destruct (Hvs0 c Hc) as [Hdl0 _]. fold Lc in Hdl0.
  rewrite (dl_hd _ _ _ _ _ Hdl0).
  destruct (while_ne_list
    (fun rest st => exists done k,
       Lc = done ++ rest /\
       st = upd_solver (unlinks (hide_rows G done) m0) k s)
    (c + 1) (cover_row lf)) with (xs := Lc)
    (s := upd_solver m0 (1 + 0) s) (fuel := lf)
    as (s2 & Hrun & done & k & Ed & Es2).
  - intros x rest st (done & k & Ed & Est).
    assert (HxL : x ∈ Lc) by (rewrite Ed; set_solver).
    split.
    { apply list_elem_of_filter in HxL as [_ HxL].
      apply elem_colnodes in HxL.
      destruct (cell_node _ _ _ _ _ Hsv HxL). lia. }
    destruct (cover_row_ok done x rest st Ed) as (k' & Hrow).
    { by rewrite Est. }
    rewrite Hrow. eexists. split; [done|].
    exists (done ++ [x]). eexists. split; [by rewrite <- app_assoc|].
    rewrite Est, upd_solver_upd. done.
  - exists [], (1 + 0). done.
  - assert (Z.of_nat (length Lc) <= nnodes m - (n + 1)); [|lia].
    apply length_bound; [lia|apply NoDup_filter, NoDup_colnodes, Hsv|].
    intros x [_ Hx]%list_elem_of_filter. apply elem_colnodes in Hx.
    destruct (cell_node _ _ _ _ _ Hsv Hx). done.
  - rewrite app_nil_r in Ed. subst done.
    rewrite Hrun. rewrite Es2. eauto.
Qed.

Lemma uncover_row_ok done x rest s1 :
  Lc = done ++ x :: rest ->
  matrix s1 = unlinks (hide_rows G (done ++ [x])) m0 ->
  exists k,
    uncover_row lf x s1
    = Ret (hd (c + 1) (rev done))
          (upd_solver (unlinks (hide_rows G done) m0) k s1).
Proof using HI Hc HcK Hlf.
  intros EL Es1.
  assert (HxL : x ∈ Lc) by (rewrite EL; set_solver).
  destruct (live_row n G K H m c HI Hc HcK x HxL)
    as (g & Hg & Hxc & Er & Hndg & Hlive).
  assert (Hxr : x ∈ row_nodes g) by (apply row_nodes_elem; eauto).
  assert (Etr : trace_of G H c
                = hide_rows G done ++ others x (row_nodes g)
                  ++ hide_rows G rest).
  { unfold trace_of. fold Lc. rewrite EL, hide_rows_app, hide_rows_cons.
    by rewrite Er. }
  assert (Em : hide_rows G (done ++ [x])
               = hide_rows G done ++ others x (row_nodes g)).
  { rewrite hide_rows_app, hide_rows_cons, Er. simpl.
    by rewrite app_nil_r. }
  pose proof (inv_sv _ _ _ _ _ HI) as Hsv.
  destruct (inv_sh _ _ _ _ _ HI g Hg) as [_ Hcyc].
  pose proof (dl_rev _ _ _ _ _ (cyc_others _ _ _ _ Hcyc Hxr)) as Hrow.
  destruct (st_cell _ _ _ Hsv g x c Hg Hxc) as (Hxn & _ & _ & _).
  pose proof (st_n _ _ _ Hsv) as Hn1.
  destruct (prefix_state (hide_rows G (done ++ [x])) (hide_rows G rest))
    as (Hsv1 & Hsh1 & Hvs1 & Hvf1 & Hdl1 & Hlr1 & Hnn1).
  { rewrite Em, Etr. by rewrite <- app_assoc. }
  assert (Hns1 : nnodes (matrix s1) = nnodes m) by (by rewrite Es1).
  unfold uncover_row.
  mstep s_node_at. mstep s_node_get.
  fold (Lf (matrix s1) x). rewrite Es1.
  rewrite (proj1 (Hlr1 x (proj1 Hxn))).
  rewrite (dl_hd _ _ _ _ _ Hrow).
  destruct (while_ne_list
    (fun rest' st => exists d,
       rev (others x (row_nodes g)) = d ++ rest' /\
       st = upd_solver (unlinks (hide_rows G done ++ rev rest') m0)
              (Z.of_nat (length d)) s1)
    x uncover_node) with (xs := rev (others x (row_nodes g)))
    (s := s1) (fuel := lf)
    as (s2 & Hrun & d & Ed & Es2).
  - intros y rest' st (d & Ed & Est).
    assert (Eo : others x (row_nodes g) = (rev rest' ++ [y]) ++ rev d).
    { rewrite <- (rev_involutive (others x (row_nodes g))), Ed.
      rewrite rev_app_distr. simpl. done. }
    assert (Hy : y ∈ others x (row_nodes g)) by (rewrite Eo; set_solver).
    split; [by apply others_elem in Hy as [_ ?]|].
    assert (Etr' : trace_of G H c
                   = (hide_rows G done ++ rev rest')
                     ++ (y :: rev d ++ hide_rows G rest)).
    { rewrite Etr, Eo. by rewrite <- !app_assoc. }
    destruct (prefix_state _ _ Etr')
      as (Hsv2 & Hsh2 & Hvs2 & Hvf2 & Hdl2 & Hlr2 & Hnn2).
    destruct (trace_cells n G K H m c HI Hc HcK y)
      as (HyH & (cy & Hyc & _) & _); [rewrite Etr'; set_solver|].
    assert (HyX : y ∉ (hide_rows G done ++ rev rest') ++ H).
    { pose proof (trace_NoDup n G K H m c HI Hc HcK) as Hnd.
      rewrite Etr' in Hnd. apply NoDup_app in Hnd as (_ & Hdisj & _).
      intros [Hy1|Hy1]%elem_of_app; [|done].
      apply (Hdisj y Hy1). set_solver. }
    destruct (linked_node _ _ _ _ _ _ Hsv2 Hvs2 Hyc HyX)
      as (_ & _ & Hur & Hdr & Hcr & Hjr & _ & _).
    destruct (cell_node _ _ _ _ _ Hsv Hyc) as (Hyn & _ & _).
    set (mp := unlinks (hide_rows G done ++ rev rest') m0) in *.
    assert (Ecur : unlinks (hide_rows G done ++ rev (y :: rest')) m0
                   = unlink_v y mp).
    { simpl. rewrite app_assoc. apply unlinks_snoc. }
    destruct (unlink_v_self mp y) as (Eu & Ed' & Ec' & En' & Enc');
      [lia|done..|].
    eexists. split.
    + rewrite Est, Ecur.
      rewrite uncover_node_ok; msimpl;
        rewrite ?Eu, ?Ed', ?Ec', ?En', ?Enc'; [|done..].
      rewrite upd_solver_upd. f_equal.
      assert (Hlfy : Lf (unlink_v y mp) y = Lf m y).
      { assert (Hvf : vframe mp (unlink_v y mp)).
        { by eapply (unlink_vframe n G _ mp y cy). }
        rewrite (vf_lf _ _ Hvf) by lia. apply Hlr2. lia. }
      rewrite Hlfy.
      apply (dl_next _ _ _ _ _ _ _
               (eq_ind _ (fun l => dl _ _ x l x) Hrow _ Ed)).
    + exists (d ++ [y]). split; [by rewrite <- app_assoc|].
      erewrite (relink_unlink_VS n G _ mp y cy) by done.
      rewrite length_app. simpl. f_equal. lia.
  - exists []. split; [done|]. rewrite rev_involutive, <- Em.
    rewrite <- Es1. by rewrite upd_solver_id.
  - rewrite length_rev.
    assert (Z.of_nat (length (others x (row_nodes g))) <= nnodes m - (n + 1)).
    { pose proof (st_nnodes _ _ _ Hsv).
      apply length_bound; [lia|by apply others_NoDup|].
      intros y Hy%others_elem; [|done..]. destruct Hy as [Hy _].
      apply row_nodes_elem in Hy as (cy & Hy).
      destruct (st_cell _ _ _ Hsv g y cy Hg Hy) as (? & _). done. }
    lia.
  - rewrite (bind_Ret _ _ _ _ _ Hrun). msimpl.
    simpl in Es2. rewrite app_nil_r in Es2.
    destruct (prefix_state (hide_rows G done)
                (others x (row_nodes g) ++ hide_rows G rest) Etr)
      as (Hsv2 & Hsh2 & Hvs2 & Hvf2 & Hdl2 & Hlr2 & Hnn2).
    rewrite Es2.
    rewrite s_node_get by (msimpl; lia). msimpl.
    eexists. f_equal.
    fold (Up (unlinks (hide_rows G done) m0) x).
    apply dl_rev in Hdl2. rewrite EL, rev_app_distr in Hdl2. simpl in Hdl2.
    rewrite <- app_assoc in Hdl2. simpl in Hdl2.
    apply (dl_next _ _ _ _ _ _ _ Hdl2).
Qed.

Lemma uncover_ok s :
  matrix s = covered G H c m ->
  exists k, uncover lf c s = Ret tt (upd_solver m k s).
Proof using HI Hc HcK Hlf.
  intros Es.
  pose proof (inv_sv _ _ _ _ _ HI) as Hsv.
  pose proof (st_n _ _ _ Hsv) as Hn1.
  pose proof (st_nnodes _ _ _ Hsv) as Hnn.
  pose proof (st_ncols _ _ _ Hsv) as Hnc.
  destruct (linked_header _ _ _ _ _ Hsv (inv_hs _ _ _ _ _ HI) Hc HcK)
    as (Hl & Hr & _ & _).
  destruct m0_facts as (Hsv0 & Hsh0 & Hvs0 & Hhs0 & Hhf & Hlr & Hrel).
  destruct (prefix_state (trace_of G H c) []) as
    (Hsv1 & Hsh1 & Hvs1 & Hvf1 & Hdl1 & Hlr1 & Hnn1);
    [by rewrite app_nil_r|].
  unfold covered in Es. fold m0 in Es.
  assert (Hns : nnodes (matrix s) = nnodes m) by (by rewrite Es).
  assert (Hncs : ncols (matrix s) = n).
  { rewrite Es. apply Hsv1. }
  unfold uncover.
  mtick. change (mkSolver (matrix s) (trace s) (solution s) (solutions s)
                   (operations s + 1)) with (upd_solver (matrix s) 1 s).
  mstep s_column_at. mstep s_node_at. mstep s_node_get.
  rewrite Es.
  change (DLXNode.up (nd (unlinks (trace_of G H c) m0) (c + 1)))
    with (Up (unlinks (trace_of G H c) m0) (c + 1)).
  apply dl_rev in Hdl1. rewrite (dl_hd _ _ _ _ _ Hdl1).
  destruct (while_ne_list
    (fun rest st => exists d k,
       rev Lc = d ++ rest /\
       st = upd_solver (unlinks (hide_rows G (rev rest)) m0) k s)
    (c + 1) (uncover_row lf)) with (xs := rev Lc)
    (s := upd_solver (unlinks (trace_of G H c) m0) 1 s) (fuel := lf)
    as (s2 & Hrun & d & k & Ed & Es2).
  - intros x rest st (d & k & Ed & Est).
    assert (EL : Lc = rev rest ++ x :: rev d).
    { rewrite <- (rev_involutive Lc), Ed, rev_app_distr. simpl.
      by rewrite <- app_assoc. }
    assert (HxL : x ∈ Lc) by (rewrite EL; set_solver).
    split.
    { apply list_elem_of_filter in HxL as [_ HxL].
      apply elem_colnodes in HxL.
      destruct (cell_node _ _ _ _ _ Hsv HxL). lia. }
    destruct (uncover_row_ok (rev rest) x (rev d) st EL) as (k' & Hrow).
    { by rewrite Est. }
    rewrite Hrow. rewrite rev_involutive. eexists. split; [done|].
    exists (d ++ [x]). eexists. split; [by rewrite <- app_assoc|].
    rewrite Est, upd_solver_upd. done.
  - exists [], 1. split; [done|]. by rewrite rev_involutive.
  - rewrite length_rev.
    assert (Z.of_nat (length Lc) <= nnodes m - (n + 1)); [|lia].
    apply length_bound; [lia|apply NoDup_filter, NoDup_colnodes, Hsv|].
    intros x [_ Hx]%list_elem_of_filter. apply elem_colnodes in Hx.
    destruct (cell_node _ _ _ _ _ Hsv Hx). done.
  - rewrite (bind_Ret _ _ _ _ _ Hrun). msimpl.
    change (unlinks (hide_rows G (rev [])) m0) with m0 in Es2.
    rewrite Es2.
    assert (Hh0 : 0 <= c + 1) by lia.
    assert (Hlr' : 0 <= Lf m (c + 1) < nnodes m) by lia.
    assert (Hrr' : 0 <= Rt m (c + 1) < nnodes m) by lia.
    assert (El0 : Lf m0 (c + 1) = Lf m (c + 1)).
    { unfold m0. rewrite unlink_h_lf by done. unfold fupd.
      by case_decide. }
    assert (Er0 : Rt m0 (c + 1) = Rt m (c + 1)).
    { unfold m0. rewrite unlink_h_rt by done. unfold fupd.
      case_decide; [|done]. congruence. }
    rewrite uncover_header_ok; msimpl;
      rewrite ?El0, ?Er0, ?(hf_nnodes _ _ Hhf); [|lia..].
    rewrite upd_solver_upd, Hrel. eauto.
Qed.

End Cover.

(* ================================================================= *)
(** ** [__init__] *)

Lemma seqZ_snoc (k : Z) : 0 <= k -> seqZ 0 (k + 1) = seqZ 0 k ++ [k].
Proof.
  intros Hk. by rewrite seqZ_app by lia.
Qed.

Lemma seqZ_step a k : 0 < k -> seqZ a k = a :: seqZ (a + 1) (k - 1).
Proof.
  intros Hk. rewrite seqZ_cons by lia. reflexivity.
Qed.

Lemma seqZ_inv_cons a k x rest :
  seqZ a k = x :: rest -> x = a /\ rest = seqZ (a + 1) (k - 1) /\ 0 < k.
Proof.
  intros E. destruct (decide (0 < k)) as [Hk|Hk].
  - rewrite seqZ_step in E by done. by inversion E.
  - rewrite seqZ_nil in E by lia. done.
Qed.

Lemma seqZ_nil_inv a k : seqZ a k = [] -> k <= 0.
Proof.
  intros E. destruct (decide (0 < k)) as [Hk|Hk]; [|lia].
  by rewrite seqZ_step in E.
Qed.

Lemma init_alloc_loop n :
  0 <= n ->
  for_each (seqZ 0 n) init_alloc (mkMatrix n [DLXNode.default] [] 0)
  = Ret tt (mkMatrix n (DLXNode.default :: map hdr_node (seqZ 0 n))
              (map hdr_col (seqZ 0 n)) 0).
Proof.
  intros Hn.
  destruct (for_each_inv
    (fun rest m => exists k, 0 <= k <= n /\ rest = seqZ k (n - k) /\
       m = mkMatrix n (DLXNode.default :: map hdr_node (seqZ 0 k))
             (map hdr_col (seqZ 0 k)) 0)
    init_alloc) with (l := seqZ 0 n)
    (s := mkMatrix n [DLXNode.default] [] 0) as (m' & Hrun & k & Hk & Ek & Em).
  - intros x rest m (k & Hk & Ek & ->).
    symmetry in Ek. apply seqZ_inv_cons in Ek as (-> & -> & Hlt).
    eexists. split.
    + unfold init_alloc. erewrite bind_Ret by reflexivity. cbv beta.
      erewrite bind_Ret by reflexivity. reflexivity.
    + exists (k + 1). split; [lia|]. split; [f_equal; lia|].
      unfold with_columns, with_nodes. simpl.
      rewrite seqZ_snoc, !map_app by lia. simpl.
      rewrite length_map, length_seqZ. unfold hdr_node.
      repeat f_equal. lia.
  - exists 0. split; [lia|]. split; [f_equal; lia|done].
  - symmetry in Ek. apply seqZ_nil_inv in Ek.
    assert (k = n) as -> by lia. by rewrite Hrun, Em.
Qed.

Ltac mrange :=
  cbv beta;
  repeat first [rewrite nnodes_upd_node | rewrite nnodes_add_size
               | rewrite ncols_upd_node | rewrite ncols_upd_col
               | rewrite nnodes_upd_col];
  first [done | lia].
Ltac xstep lem := erewrite bind_Ret; [|apply lem; mrange]; cbv beta.

Lemma nd_alloc n h :
  1 <= h <= n ->
  nd (mkMatrix n (DLXNode.default :: map hdr_node (seqZ 0 n))
        (map hdr_col (seqZ 0 n)) 0) h = hdr_node (h - 1).
Proof.
  intros Hh. unfold nd. simpl.
  replace (Z.to_nat h) with (S (Z.to_nat (h - 1))) by lia. simpl.
  apply list_lookup_total_correct.
  rewrite list_lookup_fmap, lookup_seqZ_lt by lia. simpl.
  f_equal. f_equal. lia.
Qed.

Lemma cl_alloc n i :
  0 <= i < n ->
  cl (mkMatrix n (DLXNode.default :: map hdr_node (seqZ 0 n))
        (map hdr_col (seqZ 0 n)) 0) i = hdr_col i.
Proof.
  intros Hi. unfold cl. simpl.
  apply list_lookup_total_correct.
  rewrite list_lookup_fmap, lookup_seqZ_lt by lia. simpl.
  f_equal. f_equal. lia.
Qed.

Lemma linked_upto_alloc n :
  0 <= n ->
  linked_upto n 0 (mkMatrix n (DLXNode.default :: map hdr_node (seqZ 0 n))
                     (map hdr_col (seqZ 0 n)) 0).
Proof.
  intros Hn. unfold linked_upto. split_and!; try done.
  - unfold nnodes. simpl. rewrite length_map, length_seqZ. lia.
  - unfold ncols. simpl. rewrite length_map, length_seqZ. lia.
  - intros h Hh. unfold Col, Rw. rewrite nd_alloc by done. simpl.
    split; [lia|done].
  - intros i Hi. unfold size_of. by rewrite cl_alloc.
  - intros h Hh. lia.
Qed.

Lemma size_of_upd_col_other f i m c :
  (forall a, DLXColumn.size (f a) = DLXColumn.size a) ->
  0 <= i < ncols m -> 0 <= c ->
  size_of (upd_col f i m) c = size_of m c.
Proof.
  intros Hf Hi Hc. unfold size_of. rewrite cl_upd_col by done.
  case_decide; auto.
Qed.

Lemma init_link_ok n k m :
  0 <= k < n -> linked_upto n k m ->
  exists m', init_link n k m = Ret tt m' /\ linked_upto n (k + 1) m'.
Proof.
  intros Hk (Hnum & Hhd & Hnn & Hnc & Hroot & Hcol & Hsz & Hlk).
  set (lv := if decide (k > 0) then (k - 1) `mod` n + 1 else n).
  set (rv := if decide (k < n - 1) then (k + 1) `mod` n + 1 else 1).
  set (c1 := upd_col (DLXColumn.set_left lv) k m).
  set (c2 := upd_col (DLXColumn.set_right rv) k c1).
  set (c3 := upd_col (DLXColumn.set_first (k + 1)) k c2).
  assert (Hl3 : DLXColumn.left (cl c3 k) = lv).
  { unfold c3, c2, c1. rewrite !cl_upd_col; rewrite ?ncols_upd_col; try lia.
    rewrite !decide_True by done. done. }
  assert (Hr3 : DLXColumn.right (cl c3 k) = rv).
  { unfold c3, c2, c1. rewrite !cl_upd_col; rewrite ?ncols_upd_col; try lia.
    rewrite !decide_True by done. done. }
  assert (Hnn3 : nnodes c3 = n + 1) by done.
  assert (Hnc3 : ncols c3 = n).
  { unfold c3, c2, c1. by rewrite !ncols_upd_col. }
  set (m1 := upd_node (DLXNode.set_left lv) (k + 1) c3).
  set (m2 := upd_node (DLXNode.set_right rv) (k + 1) m1).
  set (m3 := upd_node (DLXNode.set_up (k + 1)) (k + 1) m2).
  set (m4 := upd_node (DLXNode.set_down (k + 1)) (k + 1) m3).
  exists m4. split.
  - unfold init_link.
    xstep column_set_ok. xstep column_set_ok. xstep column_set_ok.
    xstep column_get_ok. fold lv rv c1 c2 c3. rewrite Hl3.
    xstep node_set_ok. xstep column_get_ok.
    change (cl (upd_node (DLXNode.set_left lv) (k + 1) c3) k) with (cl c3 k).
    rewrite Hr3.
    xstep node_set_ok. xstep node_set_ok.
    rewrite node_set_ok by mrange. done.
  - assert (Hattr : forall (attr : DLXNode.t -> Z) x, 0 <= x ->
              x <> k + 1 -> attr (nd m4 x) = attr (nd m x)).
    { intros attr x Hx Hne. unfold m4, m3, m2, m1.
      rewrite !nd_upd_node; rewrite ?nnodes_upd_node; try lia.
      rewrite !decide_False by done. done. }
    assert (Hsz4 : forall i, 0 <= i -> size_of m4 i = size_of m i).
    { intros i Hi. change (size_of m4 i) with (size_of c3 i).
      unfold c3, c2, c1.
      rewrite !size_of_upd_col_other; rewrite ?ncols_upd_col; try done; lia. }
    unfold linked_upto. split_and!; try done.
    + unfold m4, m3, m2, m1. by rewrite !nnodes_upd_node.
    + rewrite <- Hroot. unfold m4, m3, m2, m1.
      rewrite !nd_upd_node; rewrite ?nnodes_upd_node; try lia.
      rewrite !decide_False by lia. done.
    + intros h Hh. destruct (Hcol h Hh) as [Hc Hr].
      unfold Col, Rw, m4, m3, m2, m1.
      rewrite !attr_upd_other; rewrite ?nnodes_upd_node; try done; lia.
    + intros i Hi. rewrite Hsz4 by lia. auto.
    + intros h Hh. destruct (decide (h = k + 1)) as [->|Hne].
      * unfold Lf, Rt, Up, Dn, m4, m3, m2, m1.
        rewrite !nd_upd_node; rewrite ?nnodes_upd_node; try lia.
        rewrite !decide_True by done. simpl.
        unfold lv, rv.
        replace (k + 1 - 1) with k by lia.
        replace (k + 1 - 2) with (k - 1) by lia. done.
      * unfold Lf, Rt, Up, Dn. rewrite !Hattr by lia.
        apply Hlk. lia.
Qed.

Lemma init_link_loop n m :
  0 <= n -> linked_upto n 0 m ->
  exists m', for_each (seqZ 0 n) (init_link n) m = Ret tt m' /\
             linked_upto n n m'.
Proof.
  intros Hn Hm.
  destruct (for_each_inv
    (fun rest m => exists k, 0 <= k <= n /\ rest = seqZ k (n - k) /\
       linked_upto n k m)
    (init_link n)) with (l := seqZ 0 n) (s := m)
    as (m' & Hrun & k & Hk & Ek & Hm').
  - intros x rest m1 (k & Hk & Ek & Hm1).
    symmetry in Ek. apply seqZ_inv_cons in Ek as (-> & -> & Hlt).
    destruct (init_link_ok n k m1) as (m2 & Hrun & Hm2); [lia|done|].
    exists m2. split; [done|]. exists (k + 1).
    split; [lia|]. split; [f_equal; lia|done].
  - exists 0. split; [lia|]. split; [f_equal; lia|done].
  - symmetry in Ek. apply seqZ_nil_inv in Ek.
    assert (k = n) as -> by lia. eauto.
Qed.

Lemma dl_seq nx pv k : 0 <= k -> forall a b,
  (forall x, a <= x < a + k -> nx x = x + 1 /\ pv (x + 1) = x) ->
  nx (a + k) = b -> pv b = a + k ->
  dl nx pv a (seqZ (a + 1) k) b.
Proof.
  intros Hk. pattern k. apply natlike_ind; [| |done]; clear k Hk.
  - intros a b _ Hn Hp. simpl. rewrite Z.add_0_r in *. done.
  - intros k Hk IH a b Hstep Hn Hp.
    rewrite seqZ_step by lia. simpl.
    destruct (Hstep a) as [H1 H2]; [lia|]. split_and!; [done..|].
    replace (Z.succ k - 1) with k by lia.
    apply IH.
    + intros x Hx. apply Hstep. lia.
    + rewrite <- Hn. f_equal. lia.
    + rewrite Hp. lia.
Qed.

Lemma filter_all {A} (P : A -> Prop) `{forall x, Decision (P x)} (l : list A) :
  (forall x, x ∈ l -> P x) -> filter P l = l.
Proof.
  induction l as [|x l IH]; [done|]. intros Hall.
  rewrite filter_cons, decide_True by set_solver.
  f_equal. apply IH. set_solver.
Qed.

(** What [__init__] builds for at least one column. *)
Lemma init_ok n :
  1 <= n ->
  exists m, create n = Ret tt m /\ Inv n [] [] [] m /\
    nnodes m = n + 1 /\ (forall h, 0 <= h <= n -> -1 <= Up m h <= n) /\
    (forall c, 0 <= c < n -> size_of m c = 0).
Proof.
  intros Hn. unfold create, init.
  erewrite bind_Ret by reflexivity. cbv beta.
  erewrite bind_Ret by reflexivity. cbv beta.
  unfold with_nodes. simpl.
  rewrite (bind_Ret _ _ _ _ _ (init_alloc_loop n ltac:(lia))).
  erewrite bind_Ret by reflexivity. cbv beta.
  simpl. rewrite length_map, length_seqZ, Z2Nat.id by lia.
  destruct (init_link_loop n _ ltac:(lia) (linked_upto_alloc n ltac:(lia)))
    as (lm & Hrun & Hnum & Hhd & Hnn & Hnc & Hroot & Hcol & Hsz & Hlk).
  rewrite (bind_Ret _ _ _ _ _ Hrun).
  assert (Hup0 : Up lm 0 = -1).
  { unfold Up. by rewrite Hroot. }
  set (m1 := upd_node (DLXNode.set_right 1) 0 lm).
  set (m2 := upd_node (DLXNode.set_left n) 0 m1).
  set (m3 := upd_node (DLXNode.set_left 0) 1 m2).
  set (m4 := upd_node (DLXNode.set_right 0) n m3).
  exists m4.
  assert (Hrt : forall x, 0 <= x ->
            Rt m4 x = if decide (x = n) then 0
                      else if decide (x = 0) then 1 else Rt lm x).
  { intros x Hx. unfold Rt, m4, m3, m2, m1.
    rewrite !nd_upd_node; rewrite ?nnodes_upd_node; try lia.
    repeat case_decide; subst; simpl; try done; lia. }
  assert (Hlf : forall x, 0 <= x ->
            Lf m4 x = if decide (x = 1) then 0
                      else if decide (x = 0) then n else Lf lm x).
  { intros x Hx. unfold Lf, m4, m3, m2, m1.
    rewrite !nd_upd_node; rewrite ?nnodes_upd_node; try lia.
    repeat case_decide; subst; simpl; try done; lia. }
  assert (Hoth : forall (attr : DLXNode.t -> Z) x, 0 <= x ->
            (forall v a, attr (DLXNode.set_left v a) = attr a) ->
            (forall v a, attr (DLXNode.set_right v a) = attr a) ->
            attr (nd m4 x) = attr (nd lm x)).
  { intros attr x Hx H1 H2. unfold m4, m3, m2, m1.
    rewrite !attr_upd_other; rewrite ?nnodes_upd_node; try done; lia. }
  assert (Hnn4 : nnodes m4 = n + 1).
  { unfold m4, m3, m2, m1. by rewrite !nnodes_upd_node. }
  split_and!.
  - xstep node_set_ok. xstep node_set_ok. xstep node_set_ok.
    rewrite node_set_ok by mrange. done.
  - split.
    + split; try done.
      * lia.
      * intros h Hh. unfold Col. rewrite Hoth by (done || lia).
        by apply Hcol.
      * intros g x c Hg. by apply elem_of_nil in Hg.
      * intros g Hg. by apply elem_of_nil in Hg.
      * constructor.
    + intros g Hg. by apply elem_of_nil in Hg.
    + unfold HS. rewrite filter_all by (intros; apply not_elem_of_nil).
      apply dl_seq; [lia| | |].
      * intros x Hx. rewrite Hrt, Hlf by lia.
        rewrite (decide_False (P := x = n)) by lia.
        destruct (decide (x = 0)) as [->|Hx0].
        { by rewrite decide_True. }
        rewrite !decide_False by lia.
        destruct (Hlk x) as (_ & -> & _); [lia|].
        destruct (Hlk (x + 1)) as (-> & _); [lia|].
        rewrite !decide_True by lia.
        replace (x + 1 - 2) with (x - 1) by lia.
        rewrite !Z.mod_small by lia. lia.
      * rewrite Hrt by lia. by rewrite decide_True by lia.
      * rewrite Hlf by lia. rewrite decide_False by lia.
        rewrite decide_True by lia. lia.
    + intros c Hc. simpl. split.
      * unfold Dn, Up. rewrite !Hoth by (done || lia).
        destruct (Hlk (c + 1)) as (_ & _ & ? & ?); [lia|]. done.
      * change (size_of m4 c) with (size_of lm c). by apply Hsz.
    + intros g x c Hg. by apply elem_of_nil in Hg.
    + constructor.
    + intros c Hc. by apply elem_of_nil in Hc.
  - done.
  - intros h Hh. unfold Up. rewrite Hoth by (done || lia).
    destruct (decide (h = 0)) as [->|Hh0].
    + fold (Up lm 0). rewrite Hup0. lia.
    + destruct (Hlk h) as (_ & _ & Hu & _); [lia|].
      unfold Up in Hu. rewrite Hu. lia.
  - intros c Hc. change (size_of m4 c) with (size_of lm c). by apply Hsz.
Qed.

(* ================================================================= *)
(** ** [add_row] *)

Lemma nnodes_append a m : nnodes (append_node a m) = nnodes m + 1.
Proof. unfold nnodes, append_node. simpl. rewrite length_app. simpl. lia. Qed.

Lemma nd_append a m y :
  0 <= y ->
  nd (append_node a m) y = if decide (y = nnodes m) then a else nd m y.
Proof.
  intros Hy. unfold nd, append_node, nnodes. simpl.
  case_decide as E.
  - subst y. rewrite Nat2Z.id. apply list_lookup_total_correct.
    rewrite lookup_app_r by lia. by rewrite Nat.sub_diag.
  - destruct (decide (y < Z.of_nat (length (nodes m)))).
    + apply lookup_total_app_l. lia.
    + rewrite !list_lookup_total_alt.
      rewrite !lookup_ge_None_2; [done|lia|].
      rewrite length_app. simpl. lia.
Qed.

Lemma add_row_step_views rid acc x m1 :
  0 <= x < ncols m1 -> x + 1 < nnodes m1 ->
  0 <= Up m1 (x + 1) < nnodes m1 ->
  (forall f p, acc = Some (f, p) -> 0 <= p < nnodes m1) ->
  let N1 := nnodes m1 in
  let last := Up m1 (x + 1) in
  exists m',
    add_row_step rid acc x m1
    = Ret (Some (match acc with None => N1 | Some (f, _) => f end, N1)) m' /\
    nnodes m' = N1 + 1 /\ ncols m' = ncols m1 /\
    num_columns m' = num_columns m1 /\
    (forall y, 0 <= y -> Dn m' y = fupd (fupd (Dn m1) N1 (x + 1)) last N1 y) /\
    (forall y, 0 <= y -> Up m' y = fupd (fupd (Up m1) N1 last) (x + 1) N1 y) /\
    (forall y, 0 <= y -> Col m' y = fupd (Col m1) N1 (x + 1) y /\
                         Rw m' y = fupd (Rw m1) N1 rid y) /\
    (forall y, 0 <= y -> y <> N1 -> (forall f p, acc = Some (f, p) -> y <> p) ->
       Rt m' y = Rt m1 y) /\
    (forall f p, acc = Some (f, p) -> Rt m' p = N1 /\ Lf m' N1 = p) /\
    (forall y, 0 <= y -> y <> N1 -> Lf m' y = Lf m1 y) /\
    (forall c, 0 <= c ->
       size_of m' c = if decide (c = x) then size_of m1 c + 1
                      else size_of m1 c).
Proof.
  intros Hx Hx1 Hlast Hacc N1 last.
  set (a0 := append_node (DLXNode.mk (-1) (-1) (-1) (-1) (x + 1) rid) m1).
  assert (Hn0 : nnodes a0 = N1 + 1) by apply nnodes_append.
  assert (Hlast0 : Up a0 (x + 1) = last).
  { unfold Up, a0. rewrite nd_append by lia. by rewrite decide_False by lia. }
  set (a1 := upd_node (DLXNode.set_up last) N1 a0).
  set (a2 := upd_node (DLXNode.set_down (x + 1)) N1 a1).
  set (a3 := upd_node (DLXNode.set_down N1) last a2).
  set (a4 := upd_node (DLXNode.set_up N1) (x + 1) a3).
  set (a5 := add_size x 1 a4).
  assert (Hn5 : nnodes a5 = N1 + 1).
  { unfold a5, a4, a3, a2, a1. rewrite nnodes_add_size, !nnodes_upd_node.
    done. }
  assert (Hnc5 : ncols a5 = ncols m1).
  { unfold a5, add_size. rewrite ncols_upd_col. done. }
  assert (Hnd5 : forall y, 0 <= y ->
            nd a5 y = (if decide (y = x + 1) then DLXNode.set_up N1 else id)
                      ((if decide (y = last) then DLXNode.set_down N1 else id)
                       ((if decide (y = N1)
                         then fun _ => DLXNode.mk (-1) (-1) last (x + 1)
                                         (x + 1) rid
                         else id) (nd m1 y)))).
  { intros y Hy. unfold a5. rewrite nd_add_size. unfold a4, a3, a2, a1.
    rewrite !nd_upd_node; rewrite ?nnodes_upd_node; try lia.
    unfold a0. rewrite nd_append by lia. fold N1.
    repeat case_decide; subst; try lia; done. }
  assert (Hsz5 : forall c, 0 <= c ->
            size_of a5 c = if decide (c = x) then size_of m1 c + 1
                           else size_of m1 c).
  { intros c Hc. unfold a5. rewrite size_of_add_size; [|done|done].
    case_decide; [subst|]; done. }
  assert (Hrun5 : forall B (k : Z -> M DancingLinksMatrix B),
    (node_idx <- gets (fun m => Z.of_nat (length (nodes m))) ;;
     modify (fun m => with_nodes
       (nodes m ++ [DLXNode.mk (-1) (-1) (-1) (-1) (x + 1) rid]) m) ;;
     column_at x ;;
     last_in_col <- node_get DLXNode.up (x + 1) ;;
     node_set DLXNode.set_up node_idx last_in_col ;;
     node_set DLXNode.set_down node_idx (x + 1) ;;
     node_set DLXNode.set_down last_in_col node_idx ;;
     node_set DLXNode.set_up (x + 1) node_idx ;;
     column_add_size x 1 ;; k node_idx) m1 = k N1 a5).
  { intros B k.
    erewrite bind_Ret by reflexivity. cbv beta.
    erewrite bind_Ret by reflexivity. cbv beta.
    fold (append_node (DLXNode.mk (-1) (-1) (-1) (-1) (x + 1) rid) m1).
    fold a0. fold (nnodes m1). fold N1.
    erewrite bind_Ret; [|apply column_at_ok; done]. cbv beta.
    erewrite bind_Ret; [|apply node_get_ok; lia]. cbv beta.
    fold (Up a0 (x + 1)). rewrite Hlast0.
    xstep node_set_ok. xstep node_set_ok. xstep node_set_ok.
    xstep node_set_ok.
    erewrite bind_Ret; [|apply column_add_size_ok; done]. done. }
  destruct acc as [[f p]|].
  - specialize (Hacc f p eq_refl).
    set (a6 := upd_node (DLXNode.set_right N1) p a5).
    set (a7 := upd_node (DLXNode.set_left p) N1 a6).
    assert (Hnd7 : forall y, 0 <= y ->
              nd a7 y = (if decide (y = N1) then DLXNode.set_left p else id)
                        ((if decide (y = p) then DLXNode.set_right N1 else id)
                         (nd a5 y))).
    { intros y Hy. unfold a7, a6.
      rewrite !nd_upd_node; rewrite ?nnodes_upd_node; try lia.
      repeat case_decide; done. }
    exists a7. split_and!.
    + unfold add_row_step. rewrite Hrun5.
      xstep node_set_ok. xstep node_set_ok. done.
    + unfold a7, a6. by rewrite !nnodes_upd_node.
    + done.
    + done.
    + intros y Hy. unfold Dn, fupd. rewrite Hnd7, Hnd5 by done.
      repeat case_decide; subst; simpl; try done; lia.
    + intros y Hy. unfold Up, fupd. rewrite Hnd7, Hnd5 by done.
      repeat case_decide; subst; simpl; try done; lia.
    + intros y Hy. unfold Col, Rw, fupd. rewrite Hnd7, Hnd5 by done.
      repeat case_decide; subst; simpl; try done; lia.
    + intros y Hy Hne Hp. specialize (Hp f p eq_refl).
      unfold Rt. rewrite Hnd7, Hnd5 by done.
      repeat case_decide; subst; simpl; try done; lia.
    + intros f' p' [= <- <-]. unfold Rt, Lf. rewrite !Hnd7, !Hnd5 by lia.
      repeat case_decide; subst; simpl; try done; lia.
    + intros y Hy Hne. unfold Lf. rewrite Hnd7, Hnd5 by done.
      repeat case_decide; subst; simpl; try done; lia.
    + done.
  - exists a5. split_and!; try done.
    + unfold add_row_step. rewrite Hrun5. done.
    + intros y Hy. unfold Dn, fupd. rewrite Hnd5 by done.
      repeat case_decide; subst; simpl; try done; lia.
    + intros y Hy. unfold Up, fupd. rewrite Hnd5 by done.
      repeat case_decide; subst; simpl; try done; lia.
    + intros y Hy. unfold Col, Rw, fupd. rewrite Hnd5 by done.
      repeat case_decide; subst; simpl; try done; lia.
    + intros y Hy Hne _. unfold Rt. rewrite Hnd5 by done.
      repeat case_decide; subst; simpl; try done; lia.
    + intros y Hy Hne. unfold Lf. rewrite Hnd5 by done.
      repeat case_decide; subst; simpl; try done; lia.
Qed.

(** *** Ghost rows while a row is being added *)

Lemma cells_snoc G g : cells (G ++ [g]) = cells G ++ g.2.
Proof. unfold cells. rewrite map_app, concat_app. simpl. by rewrite app_nil_r. Qed.

Lemma zip_seqZ_snoc N (pre : list Z) x :
  zip (seqZ N (Z.of_nat (length (pre ++ [x])))) (pre ++ [x])
  = zip (seqZ N (Z.of_nat (length pre))) pre
    ++ [(N + Z.of_nat (length pre), x)].
Proof.
  rewrite length_app. simpl.
  replace (Z.of_nat (length pre + 1)) with (Z.of_nat (length pre) + 1) by lia.
  rewrite seqZ_app by lia.
  rewrite zip_with_app by (by rewrite length_seqZ, Nat2Z.id).
  f_equal.
Qed.

Lemma row_nodes_zip rid N (cols : list Z) :
  row_nodes (rid, zip (seqZ N (Z.of_nat (length cols))) cols)
  = seqZ N (Z.of_nat (length cols)).
Proof.
  unfold row_nodes. simpl. apply fst_zip.
  rewrite length_seqZ. lia.
Qed.

Lemma row_cols_zip rid N (cols : list Z) :
  row_cols (rid, zip (seqZ N (Z.of_nat (length cols))) cols) = cols.
Proof.
  unfold row_cols. simpl. apply snd_zip.
  rewrite length_seqZ. lia.
Qed.

Lemma elem_zip_seqZ N (cols : list Z) y c :
  (y, c) ∈ zip (seqZ N (Z.of_nat (length cols))) cols ->
  N <= y < N + Z.of_nat (length cols) /\ c ∈ cols.
Proof.
  intros Hin. split.
  - apply elem_of_zip_l in Hin. apply elem_of_seqZ in Hin. lia.
  - by apply elem_of_zip_r in Hin.
Qed.

Lemma colnodes_snoc_cell G rid l y x c :
  colnodes (G ++ [(rid, l ++ [(y, x)])]) c
  = colnodes (G ++ [(rid, l)]) c ++ (if decide (x = c) then [y] else []).
Proof.
  unfold colnodes. rewrite !cells_snoc. simpl.
  rewrite app_assoc, filter_app, map_app. f_equal.
  rewrite filter_cons, filter_nil. simpl. by case_decide.
Qed.

Lemma filter_not_nil (l : list Z) : filter (fun x => x ∉ []) l = l.
Proof. apply filter_all. intros. apply not_elem_of_nil. Qed.

Lemma StaticH_ext_cells G m m' :
  (forall g x c, g ∈ G -> (x, c) ∈ g.2 -> Lf m' x = Lf m x /\ Rt m' x = Rt m x) ->
  StaticH G m -> StaticH G m'.
Proof.
  intros Hf Hh g Hg. destruct (Hh g Hg) as [Hne Hcyc].
  split; [done|]. unfold cyc in *.
  destruct (row_nodes g) as [|a l] eqn:E; [done|].
  assert (Hall : forall y, y ∈ a :: l -> Lf m' y = Lf m y /\ Rt m' y = Rt m y).
  { intros y Hy. rewrite <- E in Hy. apply row_nodes_elem in Hy as (c & Hy).
    eauto. }
  eapply dl_ext; [| |exact Hcyc]; intros y Hy; apply Hall; set_solver.
Qed.

Lemma HS_ext n K m m' :
  0 <= n ->
  (forall x, 0 <= x <= n -> Lf m' x = Lf m x /\ Rt m' x = Rt m x) ->
  HS n K m -> HS n K m'.
Proof.
  intros Hn Hf Hh. unfold HS in *.
  eapply dl_ext; [| |exact Hh]; intros y Hy; apply Hf;
    apply (header_range n K); try done; set_solver.
Qed.

Section AddRow.
Context (n : Z) (G : list grow) (m : DancingLinksMatrix).
Context (rid : Z) (cols : list Z).
Hypothesis HI : Inv n G [] [] m.
Hypothesis Hcols : NoDup cols.
Hypothesis Hrange : forall c, c ∈ cols -> 0 <= c < n.

Let N := nnodes m.

(** The row built so far from the columns [pre]. *)
Definition partial_row (pre : list Z) : grow :=
  (rid, zip (seqZ N (Z.of_nat (length pre))) pre).

(** State of the loop of [add_row] after the columns [pre]. *)
Definition adding (pre : list Z) (acc : option (Z * Z))
    (m1 : DancingLinksMatrix) : Prop :=
  StaticV n (G ++ [partial_row pre]) m1 /\ StaticH G m1 /\ HS n [] m1 /\
  VS n (G ++ [partial_row pre]) [] m1 /\
  nnodes m1 = N + Z.of_nat (length pre) /\
  acc = (if decide (pre = []) then None
         else Some (N, N + Z.of_nat (length pre) - 1)) /\
  (forall k, 0 <= k -> k + 1 < Z.of_nat (length pre) ->
     Rt m1 (N + k) = N + k + 1 /\ Lf m1 (N + k + 1) = N + k).

Lemma old_cell_lt g x c : g ∈ G -> (x, c) ∈ g.2 -> n + 1 <= x < N.
Proof using HI.
  intros Hg Hx.
  destruct (st_cell _ _ _ (inv_sv _ _ _ _ _ HI) g x c Hg Hx) as (? & _).
  done.
Qed.

Lemma adding_start : adding [] None m.
Proof using HI.
  destruct HI as [Hsv Hsh Hhs Hvs _ _ _].
  unfold adding. split_and!; try done.
  - destruct Hsv as [Sn Snum Snc Snn Shd Scell Scols Snd].
    split; try done.
    + intros g x c [Hg|Hg%list_elem_of_singleton]%elem_of_app Hx.
      * eauto.
      * subst g. by apply elem_of_nil in Hx.
    + intros g [Hg|Hg%list_elem_of_singleton]%elem_of_app; [eauto|].
      subst g. constructor.
    + rewrite cells_snoc. simpl. by rewrite app_nil_r.
  - intros c Hc. destruct (Hvs c Hc) as [Hdl Hsz].
    unfold colnodes in *. rewrite cells_snoc. simpl. rewrite app_nil_r.
    done.
  - simpl. lia.
  - intros k Hk Hk'. simpl in Hk'. lia.
Qed.

Lemma adding_step pre x rest acc m1 :
  cols = pre ++ x :: rest -> adding pre acc m1 ->
  exists acc' m', add_row_step rid acc x m1 = Ret acc' m' /\
                  adding (pre ++ [x]) acc' m'.
Proof using HI Hcols Hrange.
  intros Ec (Hsv & Hsh & Hhs & Hvs & Hnn & Hacc & Hlinks).
  set (p := Z.of_nat (length pre)) in *.
  assert (Hxr : 0 <= x < n) by (apply Hrange; rewrite Ec; set_solver).
  assert (Hxpre : x ∉ pre).
  { rewrite Ec in Hcols. apply NoDup_app in Hcols as (_ & Hd & _).
    intros Hin. apply (Hd x Hin). set_solver. }
  pose proof (st_n _ _ _ Hsv) as Hn1.
  pose proof (st_nnodes _ _ _ (inv_sv _ _ _ _ _ HI)) as HnN. fold N in HnN.
  pose proof (st_ncols _ _ _ Hsv) as Hnc.
  destruct (Hvs x Hxr) as [Hdlx Hszx]. rewrite filter_not_nil in Hdlx, Hszx.
  assert (Hlast : Up m1 (x + 1) ∈ (x + 1)
                    :: filter (fun y => y ∉ []) 
                         (colnodes (G ++ [partial_row pre]) x)).
  { rewrite filter_not_nil. eapply dl_pv_end; eauto. }
  destruct (chain_range _ _ _ _ _ _ Hsv Hxr Hlast) as [Hlr Hlast'].
  destruct (add_row_step_views rid acc x m1) as
    (m' & Hrun & Hnn' & Hnc' & Hnum' & HD & HU & HCR & HR & HRL & HL & HS');
    [lia|lia|lia| |].
  { intros f q ->. destruct (decide (pre = [])); [done|].
    inversion Hacc; subst. 
    assert (0 < p) by (unfold p; destruct pre; simpl; [done|lia]). lia. }
  rewrite Hnn in *.
  set (N1 := N + p) in *.
  eexists _, m'. split; [exact Hrun|].
  assert (Epart : partial_row (pre ++ [x])
                  = (rid, (partial_row pre).2 ++ [(N1, x)])).
  { unfold partial_row. simpl. by rewrite zip_seqZ_snoc. }
  assert (Hfresh : forall y c, (y, c) ∈ cells (G ++ [partial_row pre]) ->
            n + 1 <= y < N1).
  { intros y c Hy. destruct (cell_node _ _ _ _ _ Hsv Hy) as (? & _).
    lia. }
  unfold adding. rewrite Epart.
  assert (Hsv' : StaticV n (G ++ [(rid, (partial_row pre).2 ++ [(N1, x)])]) m').
  { destruct Hsv as [Sn Snum Snc Snn Shd Scell Scols Snd].
    split; try done; try lia; try congruence.
    - intros h Hh. destruct (HCR h) as [-> _]; [lia|].
      unfold fupd. rewrite decide_False by lia. auto.
    - intros g y c Hg Hy.
      assert (Hcase : (exists g0, g0 ∈ G ++ [partial_row pre] /\
                         (y, c) ∈ g0.2 /\ g0.1 = g.1)
                      \/ (y = N1 /\ c = x /\ g.1 = rid)).
      { apply elem_of_app in Hg as [Hg|Hg%list_elem_of_singleton].
        - left. exists g. set_solver.
        - subst g. simpl in Hy.
          apply elem_of_app in Hy as [Hy|Hy%list_elem_of_singleton].
          + left. exists (partial_row pre). set_solver.
          + right. by inversion Hy. }
      destruct Hcase as [(g0 & Hg0 & Hy0 & Eg)|(-> & -> & Eg)].
      + destruct (Scell g0 y c Hg0 Hy0) as (Hyr & Hcr & Hcol & Hrw).
        destruct (HCR y) as [-> ->]; [lia|].
        unfold fupd. rewrite !decide_False by lia.
        split_and!; try done; try lia; congruence.
      + destruct (HCR N1) as [-> ->]; [lia|].
        unfold fupd. rewrite !decide_True by done.
        split_and!; try done; lia.
    - intros g [Hg|Hg%list_elem_of_singleton]%elem_of_app.
      + apply Scols. set_solver.
      + subst g. unfold row_cols. simpl. rewrite map_app. simpl.
        rewrite snd_zip by (rewrite length_seqZ; lia).
        apply NoDup_app. split_and!.
        * rewrite Ec in Hcols. by apply NoDup_app in Hcols as (? & _).
        * intros y Hy ->%list_elem_of_singleton. done.
        * apply NoDup_singleton.
    - rewrite cells_snoc.
      change ((rid, (partial_row pre).2 ++ [(N1, x)]).2)
        with ((partial_row pre).2 ++ [(N1, x)]).
      rewrite app_assoc, <- cells_snoc.
      rewrite map_app. simpl. apply NoDup_app. split_and!; [done| |].
      + intros y Hy ->%list_elem_of_singleton.
        apply list_elem_of_fmap in Hy as ([y c] & -> & Hy).
        specialize (Hfresh _ _ Hy). simpl in *. lia.
      + apply NoDup_singleton. }
  assert (Hprev : forall f q, acc = Some (f, q) -> q = N1 - 1 /\ 0 < p).
  { intros f q ->. destruct (decide (pre = [])); [done|].
    inversion Hacc; subst.
    assert (0 < p) by (unfold p; destruct pre; simpl; [done|lia]).
    split; [unfold N1|]; lia. }
  split_and!.
  - done.
  - apply (StaticH_ext_cells G m1); [|done].
    intros g y c Hg Hy. destruct (old_cell_lt g y c Hg Hy).
    split.
    + apply HL; lia.
    + apply HR; [lia|lia|]. intros f q Hq. destruct (Hprev f q Hq). lia.
  - apply (HS_ext n [] m1); [lia| |done].
    intros y Hy. split.
    + apply HL; lia.
    + apply HR; [lia|lia|]. intros f q Hq. destruct (Hprev f q Hq). lia.
  - intros c Hc. rewrite filter_not_nil.
    change ((rid, (partial_row pre).2 ++ [(N1, x)]))
      with ((partial_row pre).1, (partial_row pre).2 ++ [(N1, x)]).
    rewrite colnodes_snoc_cell.
    replace ((partial_row pre).1, (partial_row pre).2) with (partial_row pre)
      by (by destruct (partial_row pre)).
    destruct (Hvs c Hc) as [Hdl Hsz]. rewrite filter_not_nil in Hdl, Hsz.
    destruct (decide (x = c)) as [->|Hne].
    + split.
      * eapply dl_ext; [| |apply (dl_append _ _ _ _ N1 Hdl)].
        -- intros y Hy. apply HD.
           apply elem_of_cons in Hy as [->|Hy]; [lia|].
           apply elem_of_app in Hy as [Hy|Hy%list_elem_of_singleton]; [|lia].
           apply elem_colnodes, Hfresh in Hy. lia.
        -- intros y Hy. apply HU.
           rewrite <- app_assoc in Hy.
           apply elem_of_app in Hy as [Hy|Hy].
           ++ apply elem_colnodes, Hfresh in Hy. lia.
           ++ assert (y = N1 \/ y = c + 1) as [->| ->] by set_solver; lia.
        -- pose proof (chain_NoDup n _ [] m1 c Hsv Hc) as Hnd.
           by rewrite filter_not_nil in Hnd.
        -- intros [?|Hy]%elem_of_cons; [lia|].
           apply elem_colnodes, Hfresh in Hy. lia.
      * rewrite HS' by lia. rewrite decide_True by done.
        rewrite length_app, Nat2Z.inj_add. cbn [length]. rewrite Hsz.
        reflexivity.
    + rewrite app_nil_r. split.
      * eapply dl_ext; [| |exact Hdl].
        -- intros y Hy. rewrite HD.
           2:{ apply elem_of_cons in Hy as [->|Hy]; [lia|].
               apply elem_colnodes, Hfresh in Hy. lia. }
           unfold fupd. rewrite !decide_False; [done| |].
           ++ apply elem_of_cons in Hy as [->|Hy]; [lia|].
              apply elem_colnodes, Hfresh in Hy. lia.
           ++ apply (chain_disjoint n (G ++ [partial_row pre]) m1 x c y
                       (Up m1 (x + 1))); try done.
        -- intros y Hy. rewrite HU.
           2:{ apply elem_of_app in Hy as [Hy|Hy%list_elem_of_singleton];
                 [|lia].
               apply elem_colnodes, Hfresh in Hy. lia. }
           unfold fupd. rewrite !decide_False; [done| |].
           ++ apply elem_of_app in Hy as [Hy|Hy%list_elem_of_singleton];
                [|lia].
              apply elem_colnodes, Hfresh in Hy. lia.
           ++ apply elem_of_app in Hy as [Hy|Hy%list_elem_of_singleton];
                [|lia].
              apply elem_colnodes, Hfresh in Hy. lia.
      * rewrite HS' by lia. rewrite decide_False by done. done.
  - rewrite Hnn', length_app. simpl. unfold N1, p. lia.
  - rewrite decide_False by (by destruct pre).
    rewrite length_app. simpl. f_equal. f_equal.
    + destruct acc as [[f q]|].
      * destruct (decide (pre = [])); [done|]. by inversion Hacc.
      * destruct (decide (pre = [])) as [->|]; [|done].
        unfold N1, p. simpl. lia.
    + unfold N1, p. lia.
  - intros k Hk Hk'. rewrite length_app in Hk'. simpl in Hk'.
    destruct (decide (k + 1 < p)) as [Hlt|Hge].
    + destruct (Hlinks k Hk Hlt) as [E1 E2]. split.
      * etrans; [|exact E1]. apply HR; [lia|unfold N1; lia|].
        intros f q Hq. destruct (Hprev f q Hq). unfold N1 in *. lia.
      * etrans; [|exact E2]. apply HL; [lia|unfold N1; lia].
    + assert (Ek : k = p - 1) by (unfold p in *; lia).
      destruct acc as [[f q]|].
      * destruct (Hprev f q eq_refl) as [-> _].
        destruct (HRL f (N1 - 1) eq_refl) as [HR1 HL1].
        replace (N + k) with (N1 - 1) by (unfold N1; lia).
        replace (N1 - 1 + 1) with N1 by lia. done.
      * destruct (decide (pre = [])) as [->|]; [|done].
        unfold p in *. simpl in *. lia.
Qed.

(** The ghost row that [add_row rid cols] adds. *)
Definition new_row : grow := partial_row cols.

Lemma add_row_nonempty :
  cols <> [] ->
  exists m', add_row rid cols m = Ret tt m' /\
             Inv n (G ++ [new_row]) [] [] m' /\
             nnodes m' = N + Z.of_nat (length cols).
Proof using HI Hcols Hrange.
  intros Hne.
  destruct (for_fold_inv
    (fun rest acc m1 => exists pre, cols = pre ++ rest /\ adding pre acc m1)
    (add_row_step rid)) with (l := cols) (acc := @None (Z * Z)) (s := m)
    as (acc & m1 & Hrun & pre & Epre & Hadd).
  - intros x rest acc m1 (pre & Ec & Hadd).
    destruct (adding_step pre x rest acc m1 Ec Hadd) as (acc' & m' & Hr & Ha).
    exists acc', m'. split; [done|]. exists (pre ++ [x]).
    split; [by rewrite <- app_assoc|done].
  - exists []. split; [done|apply adding_start].
  - rewrite app_nil_r in Epre. subst pre.
    destruct Hadd as (Hsv & Hsh & Hhs & Hvs & Hnn & Hacc & Hlinks).
    rewrite decide_False in Hacc by done. subst acc.
    set (q := Z.of_nat (length cols)) in *.
    assert (Hq : 0 < q) by (unfold q; destruct cols; simpl; [done|lia]).
    pose proof (st_n _ _ _ Hsv) as Hn1.
    pose proof (st_nnodes _ _ _ (inv_sv _ _ _ _ _ HI)) as HnN. fold N in HnN.
    set (m2 := upd_node (DLXNode.set_right N) (N + q - 1) m1).
    set (m3 := upd_node (DLXNode.set_left (N + q - 1)) N m2).
    assert (Hnd3 : forall y, 0 <= y ->
              nd m3 y = (if decide (y = N)
                         then DLXNode.set_left (N + q - 1) else id)
                        ((if decide (y = N + q - 1)
                          then DLXNode.set_right N else id) (nd m1 y))).
    { intros y Hy. unfold m3, m2.
      rewrite !nd_upd_node; rewrite ?nnodes_upd_node; try lia.
      repeat case_decide; done. }
    assert (Hnn3 : nnodes m3 = N + q).
    { unfold m3, m2. by rewrite !nnodes_upd_node. }
    assert (Hhf : hframe m1 m3).
    { split; try done.
      - by rewrite Hnn3.
      - intros y Hy. unfold Up. rewrite Hnd3 by done.
        repeat case_decide; done.
      - intros y Hy. unfold Dn. rewrite Hnd3 by done.
        repeat case_decide; done.
      - intros y Hy. unfold Col. rewrite Hnd3 by done.
        repeat case_decide; done.
      - intros y Hy. unfold Rw. rewrite Hnd3 by done.
        repeat case_decide; done. }
    assert (Hrt3 : forall y, 0 <= y ->
              Rt m3 y = fupd (Rt m1) (N + q - 1) N y).
    { intros y Hy. unfold Rt, fupd. rewrite Hnd3 by done.
      repeat case_decide; done. }
    assert (Hlf3 : forall y, 0 <= y ->
              Lf m3 y = fupd (Lf m1) N (N + q - 1) y).
    { intros y Hy. unfold Lf, fupd. rewrite Hnd3 by done.
      repeat case_decide; done. }
    exists m3. split_and!.
    + unfold add_row. destruct cols as [|c0 cs] eqn:Ecols; [done|].
      rewrite <- Ecols in *.
      rewrite (bind_Ret _ _ _ _ _ Hrun).
      xstep node_set_ok. rewrite node_set_ok by mrange. done.
    + unfold new_row. split.
      * by apply (StaticV_hframe n _ m1).
      * intros g [Hg|Hg%list_elem_of_singleton]%elem_of_app.
        -- destruct (Hsh g Hg) as [Hgne Hcyc]. split; [done|].
           apply (StaticH_ext_cells G m1); try done.
           intros g' y c Hg' Hy. destruct (old_cell_lt g' y c Hg' Hy).
           rewrite Hrt3, Hlf3 by lia. unfold fupd.
           rewrite !decide_False by lia. done.
        -- subst g. split.
           { unfold partial_row. simpl. destruct cols; [done|].
             simpl length. rewrite seqZ_step by lia. done. }
           unfold partial_row. rewrite row_nodes_zip. fold q.
           rewrite seqZ_step by lia. simpl.
           apply dl_seq; [lia| | |].
           ++ intros y Hy. rewrite Hrt3, Hlf3 by lia. unfold fupd.
              rewrite !decide_False by lia.
              destruct (Hlinks (y - N)) as [E1 E2]; [lia|lia|].
              replace (N + (y - N)) with y in * by lia. done.
           ++ rewrite Hrt3 by lia. unfold fupd.
              rewrite decide_True by lia. done.
           ++ rewrite Hlf3 by lia. unfold fupd.
              rewrite decide_True by lia. lia.
      * apply (HS_ext n [] m1); [lia| |done].
        intros y Hy. rewrite Hrt3, Hlf3 by lia. unfold fupd.
        rewrite !decide_False by lia. done.
      * by apply (VS_hframe n _ [] m1).
      * intros g y c _ _. split.
        -- by intros ?%elem_of_nil.
        -- intros _ (c' & _ & ?%elem_of_nil). done.
      * constructor.
      * by intros c ?%elem_of_nil.
    + done.
Qed.

Lemma add_row_empty : cols = [] -> add_row rid cols m = Ret tt m.
Proof. intros ->. reflexivity. Qed.

End AddRow.

(* ================================================================= *)
(** ** Building a matrix *)

Lemma add_rows_ok n rows : forall G m,
  Inv n G [] [] m -> valid_rows n rows ->
  exists m' G', add_rows rows m = Ret tt m' /\ Inv n (G ++ G') [] [] m' /\
                ghost_of rows G'.
Proof.
  induction rows as [|[rid cols] rows IH]; intros G m HI Hv.
  - exists m, []. rewrite app_nil_r. split_and!; done.
  - apply Forall_cons in Hv as [[Hnd Hr] Hv']. simpl in Hnd, Hr.
    rewrite Forall_forall in Hr.
    destruct (decide (cols = [])) as [->|Hne].
    + destruct (IH G m HI Hv') as (m' & G' & Hrun & HI' & Hg).
      exists m', G'. split_and!; [|done|].
      * simpl. erewrite bind_Ret by reflexivity. done.
      * unfold ghost_of in *. rewrite filter_cons. simpl. done.
    + destruct (add_row_nonempty n G m rid cols HI Hnd Hr Hne)
        as (m1 & Hrun1 & HI1 & _).
      destruct (IH _ m1 HI1 Hv') as (m' & G' & Hrun & HI' & Hg).
      exists m', (new_row m rid cols :: G'). split_and!.
      * simpl. rewrite (bind_Ret _ _ _ _ _ Hrun1). done.
      * by rewrite <- app_assoc in HI'.
      * unfold ghost_of in *. rewrite filter_cons. simpl.
        rewrite decide_True by done. rewrite <- Hg. f_equal.
        unfold new_row, partial_row. by rewrite row_cols_zip.
Qed.

Lemma build_ok n rows :
  1 <= n -> valid_rows n rows ->
  exists m, build n rows = Ret tt m /\ Built n rows m.
Proof.
  intros Hn Hv. destruct (init_ok n Hn) as (m0 & Hc & HI0 & _).
  destruct (add_rows_ok n rows [] m0 HI0 Hv) as (m & G & Hrun & HI & Hg).
  exists m. split.
  - unfold build. unfold create in Hc. rewrite (bind_Ret _ _ _ _ _ Hc). done.
  - exists G. done.
Qed.

(* ================================================================= *)
(** ** [choose_column] *)

(** What [scan_min] returns: a column of the list, minimal in size,
    with only larger columns before it. *)
Lemma scan_min_spec size l : forall min_size best_col,
  match min_size, best_col with
  | Some ms, Some b => ms = size b
  | None, None => True
  | _, _ => False
  end ->
  match scan_min size l min_size best_col with
  | Some c =>
      (best_col = Some c /\ (forall h, h ∈ l -> size c <= size (h - 1)))
      \/ (exists l1 l2, l = l1 ++ (c + 1) :: l2 /\
            (forall h, h ∈ l1 -> size c < size (h - 1)) /\
            (forall h, h ∈ l2 -> size c <= size (h - 1)) /\
            match min_size with Some ms => size c < ms | None => True end)
  | None => l = [] /\ best_col = None
  end.
Proof.
  induction l as [|h l IH]; intros min_size best_col Hacc; simpl.
  - destruct best_col as [b|]; [left; split; [done|]|done].
    intros h Hh. by apply elem_of_nil in Hh.
  - destruct (below (size (h - 1)) min_size) eqn:Eb.
    + specialize (IH (Some (size (h - 1))) (Some (h - 1)) eq_refl).
      destruct (scan_min size l (Some (size (h - 1))) (Some (h - 1))) as [c|];
        [|by destruct IH].
      right. destruct IH as [[[= <-] Hle]|(l1 & l2 & -> & H1 & H2 & Hlt)].
      * exists [], l. replace (h - 1 + 1) with h by lia.
        split_and!; [done| |done|].
        -- intros ? ?%elem_of_nil. done.
        -- destruct min_size as [ms|]; [|done]. simpl in Eb.
           by apply bool_decide_eq_true in Eb.
      * exists (h :: l1), l2. split_and!; [done| |done|].
        -- intros h' [->|Hh']%elem_of_cons; [done|auto].
        -- destruct min_size as [ms|]; [|done]. simpl in Eb.
           apply bool_decide_eq_true in Eb. lia.
    + destruct min_size as [ms|]; [|done]. simpl in Eb.
      apply bool_decide_eq_false in Eb.
      destruct best_col as [b|]; [|done]. subst ms.
      specialize (IH (Some (size b)) (Some b) eq_refl).
      destruct (scan_min size l (Some (size b)) (Some b)) as [c|];
        [|by destruct IH].
      destruct IH as [[[= <-] Hle]|(l1 & l2 & -> & H1 & H2 & Hlt)].
      * left. split; [done|]. intros h' [->|Hh']%elem_of_cons; [lia|auto].
      * right. exists (h :: l1), l2. split_and!; [done| |done|done].
        intros h' [->|Hh']%elem_of_cons; [lia|auto].
Qed.

Section Choose.
Context (n : Z) (G : list grow) (K H : list Z) (m : DancingLinksMatrix).
Hypothesis HI : Inv n G K H m.

Lemma choose_scan_ok s : matrix s = m ->
  forall l2 l1 fuel min_size best_col,
  active n K = l1 ++ l2 -> (length l2 < fuel)%nat ->
  choose_scan fuel min_size best_col (hd 0 l2) s
  = Ret (scan_min (size_of m) l2 min_size best_col) s.
Proof using HI.
  intros Es.
  pose proof (inv_sv _ _ _ _ _ HI) as Hsv.
  pose proof (st_n _ _ _ Hsv) as Hn1.
  pose proof (st_nnodes _ _ _ Hsv) as Hnn.
  pose proof (st_ncols _ _ _ Hsv) as Hnc.
  pose proof (inv_hs _ _ _ _ _ HI) as Hhs. unfold HS in Hhs.
  fold (active n K) in Hhs.
  induction l2 as [|h l2 IH]; intros l1 fuel min_size best_col El Hf.
  - destruct fuel; [simpl in Hf; lia|]. done.
  - destruct fuel; [simpl in Hf; lia|]. simpl in Hf.
    assert (Hh : 1 <= h <= n).
    { assert (Hin : h ∈ active n K) by (rewrite El; set_solver).
      apply elem_seqZ_filter in Hin. lia. }
    cbn [choose_scan hd scan_min]. rewrite decide_False by lia.
    erewrite bind_Ret by reflexivity. cbv beta.
    fold (ncols (matrix s)). rewrite Es, Hnc.
    rewrite decide_True by lia.
    assert (Hstep : forall acc,
      (sz <- on_matrix (column_get DLXColumn.size (h - 1)) ;;
       (if below sz min_size then ret (Some sz, Some (h - 1))
        else ret (min_size, best_col))) s = Ret acc s ->
      (acc <- (sz <- on_matrix (column_get DLXColumn.size (h - 1)) ;;
               (if below sz min_size then ret (Some sz, Some (h - 1))
                else ret (min_size, best_col))) ;;
       next <- on_matrix (node_get DLXNode.right h) ;;
       choose_scan fuel acc.1 acc.2 next) s
      = choose_scan fuel acc.1 acc.2 (hd 0 l2) s).
    { intros acc Hacc. rewrite (bind_Ret _ _ _ _ _ Hacc).
      erewrite bind_Ret; [|apply s_node_get; rewrite Es; lia].
      cbv beta. rewrite Es. fold (Rt m h).
      rewrite El in Hhs. by rewrite (dl_next _ _ _ _ _ _ _ Hhs). }
    assert (Hsz : on_matrix (column_get DLXColumn.size (h - 1)) s
                  = Ret (size_of m (h - 1)) s).
    { rewrite s_column_get by (rewrite Es; lia). by rewrite Es. }
    destruct (below (size_of m (h - 1)) min_size) eqn:Eb.
    + rewrite (Hstep (Some (size_of m (h - 1)), Some (h - 1))).
      * apply (IH (l1 ++ [h])); [by rewrite <- app_assoc|lia].
      * rewrite (bind_Ret _ _ _ _ _ Hsz). by rewrite Eb.
    + rewrite (Hstep (min_size, best_col)).
      * apply (IH (l1 ++ [h])); [by rewrite <- app_assoc|lia].
      * rewrite (bind_Ret _ _ _ _ _ Hsz). by rewrite Eb.
Qed.

Lemma active_length : Z.of_nat (length (active n K)) <= n.
Proof using HI.
  pose proof (st_n _ _ _ (inv_sv _ _ _ _ _ HI)).
  unfold active.
  pose proof (length_filter (fun h => h - 1 ∉ K) (seqZ 1 n)) as Hl.
  rewrite length_seqZ in Hl. lia.
Qed.

Lemma root_right : Rt m 0 = hd 0 (active n K).
Proof using HI.
  pose proof (inv_hs _ _ _ _ _ HI) as Hhs. by apply dl_hd in Hhs.
Qed.

Lemma choose_column_ok lf s :
  matrix s = m -> nnodes m <= Z.of_nat lf ->
  choose_column lf s
  = Ret (scan_min (size_of m) (active n K) None None) (upd_solver m 1 s).
Proof using HI.
  intros Es Hlf.
  pose proof (inv_sv _ _ _ _ _ HI) as Hsv.
  pose proof (st_n _ _ _ Hsv) as Hn1.
  pose proof (st_nnodes _ _ _ Hsv) as Hnn.
  unfold choose_column.
  erewrite bind_Ret by reflexivity. cbv beta.
  change (mkSolver (matrix s) (trace s) (solution s) (solutions s)
            (operations s + 1)) with (upd_solver (matrix s) 1 s).
  rewrite Es.
  erewrite bind_Ret; [|apply s_node_get; simpl; lia]. cbv beta.
  rewrite upd_solver_matrix. fold (Rt m 0). rewrite root_right.
  destruct (active n K) as [|h l] eqn:Ea.
  - done.
  - assert (Hh : 1 <= h <= n).
    { assert (Hin : h ∈ active n K) by (rewrite Ea; set_solver).
      apply elem_seqZ_filter in Hin. lia. }
    cbn [hd]. rewrite decide_False by lia.
    erewrite bind_Ret; [|apply s_node_get; simpl; lia]. cbv beta.
    rewrite upd_solver_matrix. fold (Rt m 0). rewrite root_right, Ea.
    cbn [hd].
    rewrite <- Ea.
    replace h with (hd 0 (active n K)) by (by rewrite Ea).
    apply (choose_scan_ok (upd_solver m 1 s) (upd_solver_matrix m 1 s)
             (active n K) []); [done|].
    pose proof active_length. lia.
Qed.

End Choose.


Lemma elem_of_rev (x : Z) l : x ∈ rev l <-> x ∈ l.
Proof. rewrite !list_elem_of_In. symmetry. apply in_rev. Qed.

(* ================================================================= *)
(** ** Matrices reached by nested covers *)

Lemma create_nonpos n : n <= 0 -> exists m, create n = Raise IndexError m.
Proof.
  intros Hn. unfold create, init.
  erewrite bind_Ret by reflexivity. cbv beta.
  erewrite bind_Ret by reflexivity. cbv beta.
  rewrite seqZ_nil by done. simpl for_each.
  erewrite bind_Ret by reflexivity. cbv beta.
  erewrite bind_Ret by reflexivity. cbv beta.
  simpl. eexists. reflexivity.
Qed.

Lemma build_pos n rows m : build n rows = Ret tt m -> 1 <= n.
Proof.
  intros Hb. destruct (decide (1 <= n)) as [|Hn]; [done|].
  destruct (create_nonpos n) as (m' & Hc); [lia|].
  unfold build in Hb. unfold create in Hc.
  by rewrite (bind_Raise _ _ _ _ _ Hc) in Hb.
Qed.

Lemma build_Built n rows m :
  valid_rows n rows -> build n rows = Ret tt m -> Built n rows m.
Proof.
  intros Hv Hb. pose proof (build_pos _ _ _ Hb) as Hn.
  destruct (build_ok n rows Hn Hv) as (m' & Hb' & HB).
  rewrite Hb in Hb'. by inversion Hb'.
Qed.

Lemma covers_ok n G lf : forall Ks K H m s,
  Inv n G K H m -> matrix s = m -> NoDup (Ks ++ K) ->
  Forall (fun c => 0 <= c < n) Ks -> nnodes m <= Z.of_nat lf ->
  exists H' k m', covers lf Ks s = Ret tt (upd_solver m' k s) /\
                  Inv n G (rev Ks ++ K) H' m' /\ nnodes m' = nnodes m.
Proof.
  induction Ks as [|c Ks IH]; intros K H m s HI Es Hnd Hr Hlf.
  - exists H, 0, m. split_and!; try done.
    simpl. rewrite <- Es. by rewrite upd_solver_id.
  - apply Forall_cons in Hr as [Hc Hr]. simpl in Hnd.
    apply NoDup_cons in Hnd as [HcK Hnd].
    assert (HcK' : c ∉ K) by set_solver.
    destruct (cover_ok n G K H m c HI Hc HcK' lf Hlf s Es) as (k1 & Hrun1).
    pose proof (covered_Inv n G K H m c HI Hc HcK') as HI1.
    destruct (covered_frame n G K H m c HI Hc HcK') as (Hnn1 & _).
    destruct (IH (c :: K) _ _ (upd_solver (covered G H c m) k1 s) HI1)
      as (H' & k & m' & Hrun & HI' & Hnn'); try done.
    + apply NoDup_app in Hnd as (Hn1 & Hd & Hn2).
      apply NoDup_app. split_and!; [done| |by apply NoDup_cons].
      intros x Hx [->|HxK]%elem_of_cons; [set_solver|]. by apply (Hd x).
    + by rewrite Hnn1.
    + exists H', (k1 + k), m'. split_and!.
      * simpl. rewrite (bind_Ret _ _ _ _ _ Hrun1), Hrun.
        by rewrite upd_solver_upd.
      * simpl. by rewrite <- app_assoc.
      * by rewrite Hnn', Hnn1.
Qed.

(** The state a solver is in after [build] and nested covers of the
    distinct columns [Ks]. *)
Lemma reached_Inv n rows m tr lf Ks s :
  valid_rows n rows -> build n rows = Ret tt m ->
  NoDup Ks -> Forall (fun c => 0 <= c < n) Ks ->
  nnodes m <= Z.of_nat lf ->
  covers lf Ks (new_solver m tr) = Ret tt s ->
  exists G H, ghost_of rows G /\ Inv n G (rev Ks) H (matrix s) /\
              nnodes (matrix s) = nnodes m.
Proof.
  intros Hv Hb Hnd Hr Hlf Hcov.
  destruct (build_Built n rows m Hv Hb) as (G & HI & Hg).
  destruct (covers_ok n G lf Ks [] [] m (new_solver m tr) HI eq_refl)
    as (H & k & m' & Hrun & HI' & Hnn); try done.
  { by rewrite app_nil_r. }
  rewrite Hrun in Hcov. inversion Hcov; subst s. simpl.
  rewrite app_nil_r in HI'. eauto.
Qed.

(* ================================================================= *)
(** ** A worked example: two columns, three rows *)

Lemma ex_rows_valid : valid_rows 2 ex_rows.
Proof. unfold valid_rows, ex_rows. compute_done. Defined.

Lemma ex3_rows_valid : valid_rows 3 ex3_rows.
Proof. unfold valid_rows, ex3_rows. compute_done. Defined.

(* ================================================================= *)
(** ** Cover and uncover on reachable states *)




(** C9: on such a state, [cover c] returns and leaves alone the size of
    column [c], the up and down links of every node of column [c] (its
    header included), and the left and right links of the header of
    [c]; among left links only that of the header's right neighbour can
    change, among right links only that of its left neighbour; no
    node changes its column or row. *)
Theorem cover_keeps_own_column n rows m tr lf Ks c s :
  valid_rows n rows -> build n rows = Ret tt m ->
  NoDup (c :: Ks) -> Forall (fun k => 0 <= k < n) (c :: Ks) ->
  nnodes m <= Z.of_nat lf ->
  covers lf Ks (new_solver m tr) = Ret tt s ->
  exists s1, cover lf c s = Ret tt s1 /\
    size_of (matrix s1) c = size_of (matrix s) c /\
    (forall x, 0 <= x -> Col (matrix s) x = c + 1 ->
       Up (matrix s1) x = Up (matrix s) x /\
       Dn (matrix s1) x = Dn (matrix s) x) /\
    Lf (matrix s1) (c + 1) = Lf (matrix s) (c + 1) /\
    Rt (matrix s1) (c + 1) = Rt (matrix s) (c + 1) /\
    (forall x, 0 <= x -> x <> Rt (matrix s) (c + 1) ->
       Lf (matrix s1) x = Lf (matrix s) x) /\
    (forall x, 0 <= x -> x <> Lf (matrix s) (c + 1) ->
       Rt (matrix s1) x = Rt (matrix s) x) /\
    (forall x, 0 <= x -> Col (matrix s1) x = Col (matrix s) x /\
                         Rw (matrix s1) x = Rw (matrix s) x).
Proof.
  intros Hv Hb Hnd Hr Hlf Hcov.
  apply NoDup_cons in Hnd as [HcK Hnd]. apply Forall_cons in Hr as [Hc Hr].
  destruct (reached_Inv n rows m tr lf Ks s Hv Hb Hnd Hr Hlf Hcov)
    as (G & H & _ & HI & Hnn).
  assert (HcK' : c ∉ rev Ks) by (by rewrite elem_of_rev).
  assert (Hlf' : nnodes (matrix s) <= Z.of_nat lf) by lia.
  destruct (cover_ok n G _ H _ c HI Hc HcK' lf Hlf' s eq_refl) as (k1 & Hrun1).
  destruct (covered_frame n G _ H _ c HI Hc HcK')
    as (_ & Hsz & Hud & Hl & Hr' & Hlo & Hro & Hcr).
  eexists. split; [exact Hrun1|]. simpl. split_and!; done.
Qed.

Lemma cover_keeps_own_column_witness :
  exists s1, cover 20 1 ex3_state = Ret tt s1 /\
    size_of (matrix s1) 1 = size_of (matrix ex3_state) 1 /\
    (forall x, 0 <= x -> Col (matrix ex3_state) x = 1 + 1 ->
       Up (matrix s1) x = Up (matrix ex3_state) x /\
       Dn (matrix s1) x = Dn (matrix ex3_state) x) /\
    Lf (matrix s1) (1 + 1) = Lf (matrix ex3_state) (1 + 1) /\
    Rt (matrix s1) (1 + 1) = Rt (matrix ex3_state) (1 + 1) /\
    (forall x, 0 <= x -> x <> Rt (matrix ex3_state) (1 + 1) ->
       Lf (matrix s1) x = Lf (matrix ex3_state) x) /\
    (forall x, 0 <= x -> x <> Lf (matrix ex3_state) (1 + 1) ->
       Rt (matrix s1) x = Rt (matrix ex3_state) x) /\
    (forall x, 0 <= x -> Col (matrix s1) x = Col (matrix ex3_state) x /\
                         Rw (matrix s1) x = Rw (matrix ex3_state) x).
Proof.
  apply (cover_keeps_own_column 3 ex3_rows ex3_matrix false 20 [0] 1
           ex3_state).
  - exact ex3_rows_valid.
  - vm_compute. reflexivity.
  - compute_done.
  - compute_done.
  - vm_compute. discriminate.
  - vm_compute. reflexivity.
Defined.

(** C9 as stated, for every built matrix, fails: [add_row] accepts the
    row [[0, 0]] on one column, and [cover 0] on the matrix built
    changes column 0 itself: its size from 2 to 1, the [up] link of its
    header (node 1) from 3 to 2, and the [down] link of its node 2 from
    3 to 1. *)
Lemma cover_changes_own_column :
  build 1 dup_rows = Ret tt dup_matrix /\
  Rt dup_matrix 0 = 1 /\
  exists s1,
    cover 20 0 (new_solver dup_matrix false) = Ret tt s1 /\
    size_of dup_matrix 0 = 2 /\ size_of (matrix s1) 0 = 1 /\
    Col dup_matrix 1 = 0 + 1 /\
    Up dup_matrix 1 = 3 /\ Up (matrix s1) 1 = 2 /\
    Col dup_matrix 2 = 0 + 1 /\
    Dn dup_matrix 2 = 3 /\ Dn (matrix s1) 2 = 1.
Proof.
  split; [vm_compute; reflexivity|]. split; [reflexivity|].
  eexists. split; [vm_compute; reflexivity|].
  split_and!; reflexivity.
Qed.



(* ================================================================= *)
(** ** [add_row] on arbitrary column lists *)

Lemma wrap_range len i : - len <= i < len -> 0 <= wrap len i < len.
Proof. unfold wrap. case_decide; lia. Qed.

Lemma py_index_wrap len i :
  - Z.of_nat len <= i < Z.of_nat len ->
  py_index len i = py_index len (wrap (Z.of_nat len) i).
Proof.
  intros H. unfold wrap. case_decide; [done|].
  rewrite py_index_neg by lia. by rewrite py_index_nonneg by lia.
Qed.

Lemma node_get_py attr m i :
  - nnodes m <= i < nnodes m ->
  node_get attr i m = Ret (attr (nd m (wrap (nnodes m) i))) m.
Proof.
  intros H. rewrite <- node_get_ok by (by apply wrap_range).
  unfold node_get, node_at, getitem, bind.
  unfold nnodes in *. by rewrite py_index_wrap.
Qed.

Lemma node_set_py set m i v :
  - nnodes m <= i < nnodes m ->
  node_set set i v m = Ret tt (upd_node (set v) (wrap (nnodes m) i) m).
Proof.
  intros H. rewrite <- node_set_ok by (by apply wrap_range).
  unfold node_set, setitem. unfold nnodes in *. by rewrite py_index_wrap.
Qed.

Lemma column_at_py m c :
  - ncols m <= c < ncols m ->
  column_at c m = Ret (cl m (wrap (ncols m) c)) m.
Proof.
  intros H. rewrite <- column_at_ok by (by apply wrap_range).
  unfold column_at, getitem. unfold ncols in *. by rewrite py_index_wrap.
Qed.

Lemma column_at_out m c :
  c < - ncols m \/ ncols m <= c -> column_at c m = Raise IndexError m.
Proof.
  intros H. unfold column_at, getitem. unfold ncols in *.
  by rewrite py_index_out.
Qed.

Lemma column_get_py attr m c :
  - ncols m <= c < ncols m ->
  column_get attr c m = Ret (attr (cl m (wrap (ncols m) c))) m.
Proof.
  intros H. unfold column_get.
  by rewrite (bind_Ret _ _ _ _ _ (column_at_py m c H)).
Qed.

Lemma column_set_py set m c v :
  - ncols m <= c < ncols m ->
  column_set set c v m = Ret tt (upd_col (set v) (wrap (ncols m) c) m).
Proof.
  intros H. rewrite <- column_set_ok by (by apply wrap_range).
  unfold column_set, setitem. unfold ncols in *. by rewrite py_index_wrap.
Qed.

Lemma column_add_size_py m c d :
  - ncols m <= c < ncols m ->
  column_add_size c d m = Ret tt (add_size (wrap (ncols m) c) d m).
Proof.
  intros H. unfold column_add_size.
  rewrite (bind_Ret _ _ _ _ _ (column_get_py _ m c H)).
  by rewrite column_set_py.
Qed.

Lemma Up_upd_node_down v i m x :
  0 <= i < nnodes m -> 0 <= x ->
  Up (upd_node (DLXNode.set_down v) i m) x = Up m x.
Proof.
  intros Hi Hx. unfold Up. rewrite nd_upd_node by done.
  by case_decide.
Qed.

Lemma Up_upd_node_right v i m x :
  0 <= i < nnodes m -> 0 <= x ->
  Up (upd_node (DLXNode.set_right v) i m) x = Up m x.
Proof.
  intros Hi Hx. unfold Up. rewrite nd_upd_node by done.
  by case_decide.
Qed.

Lemma Up_upd_node_left v i m x :
  0 <= i < nnodes m -> 0 <= x ->
  Up (upd_node (DLXNode.set_left v) i m) x = Up m x.
Proof.
  intros Hi Hx. unfold Up. rewrite nd_upd_node by done.
  by case_decide.
Qed.

Lemma Up_upd_node_up v i m x :
  0 <= i < nnodes m -> 0 <= x ->
  Up (upd_node (DLXNode.set_up v) i m) x = if decide (x = i) then v else Up m x.
Proof.
  intros Hi Hx. unfold Up. rewrite nd_upd_node by done.
  by case_decide.
Qed.

Lemma Up_append a m x :
  0 <= x ->
  Up (append_node a m) x
  = if decide (x = nnodes m) then DLXNode.up a else Up m x.
Proof. intros Hx. unfold Up. rewrite nd_append by done. by case_decide. Qed.

Lemma ncols_append a m : ncols (append_node a m) = ncols m.
Proof. reflexivity. Qed.

Lemma size_of_append a m k : size_of (append_node a m) k = size_of m k.
Proof. reflexivity. Qed.

Lemma size_of_upd_node f i m k : size_of (upd_node f i m) k = size_of m k.
Proof. reflexivity. Qed.

Lemma addable_upd n m m' :
  addable n m -> nnodes m' = nnodes m -> ncols m' = ncols m ->
  (forall x, 0 <= x < nnodes m -> Up m' x = Up m x) ->
  addable n m'.
Proof.
  intros [H1 H2 H3 H4] Hn Hc Hu. split; [done|congruence|lia|].
  intros x Hx. rewrite Hn in *. rewrite Hu by done. auto.
Qed.

(** One iteration of the loop of [add_row], for a subscript that
    [self.columns] accepts. *)
Lemma add_row_step_in n rid acc c m :
  addable n m -> - n <= c < n -> acc_ok m acc ->
  exists m' f,
    add_row_step rid acc c m = Ret (Some (f, nnodes m)) m' /\
    addable n m' /\ acc_ok m' (Some (f, nnodes m)) /\
    nnodes m' = nnodes m + 1 /\
    (forall k, 0 <= k < n ->
       size_of m' k = size_of m k + if decide (wrap n c = k) then 1 else 0).
Proof.
  intros [Hn Hnc Hnn Hup] Hc Hacc.
  set (N := nnodes m) in *.
  set (a0 := append_node (DLXNode.mk (-1) (-1) (-1) (-1) (c + 1) rid) m).
  assert (Hn0 : nnodes a0 = N + 1) by apply nnodes_append.
  assert (Hup0 : forall x, 0 <= x < N + 1 -> -1 <= Up a0 x < N + 1).
  { intros x Hx. unfold a0. rewrite Up_append by lia. fold N.
    case_decide; [simpl; lia|]. specialize (Hup x). lia. }
  set (h := wrap (N + 1) (c + 1)).
  assert (Hh : 0 <= h < N + 1) by (apply wrap_range; lia).
  set (last := Up a0 h).
  assert (Hlast : -1 <= last < N + 1) by (apply Hup0; done).
  set (lw := wrap (N + 1) last).
  assert (Hlw : 0 <= lw < N + 1) by (apply wrap_range; lia).
  set (a1 := upd_node (DLXNode.set_up last) N a0).
  set (a2 := upd_node (DLXNode.set_down (c + 1)) N a1).
  set (a3 := upd_node (DLXNode.set_down N) lw a2).
  set (a4 := upd_node (DLXNode.set_up N) h a3).
  set (a5 := add_size (wrap n c) 1 a4).
  assert (Hn4 : nnodes a4 = N + 1).
  { unfold a4, a3, a2, a1. by rewrite !nnodes_upd_node. }
  assert (Hn5 : nnodes a5 = N + 1) by done.
  assert (Hnc4 : ncols a4 = n) by done.
  assert (Hnc5 : ncols a5 = n).
  { unfold a5, add_size. by rewrite ncols_upd_col. }
  assert (Hup5 : forall x, 0 <= x < N + 1 -> -1 <= Up a5 x < N + 1).
  { intros x Hx. unfold a5, Up. rewrite nd_add_size. fold (Up a4 x).
    unfold a4. rewrite Up_upd_node_up;
      [|unfold a3, a2, a1; rewrite !nnodes_upd_node; lia|lia].
    case_decide; [lia|].
    unfold a3. rewrite Up_upd_node_down;
      [|unfold a2, a1; rewrite !nnodes_upd_node; lia|lia].
    unfold a2. rewrite Up_upd_node_down;
      [|unfold a1; rewrite !nnodes_upd_node; lia|lia].
    unfold a1. rewrite Up_upd_node_up by lia.
    case_decide; [lia|]. by apply Hup0. }
  assert (Hsz5 : forall k, 0 <= k < n ->
            size_of a5 k = size_of m k + if decide (wrap n c = k) then 1 else 0).
  { intros k Hk. unfold a5.
    assert (Hw : 0 <= wrap n c < n) by (by apply wrap_range).
    rewrite size_of_add_size; [|by rewrite Hnc4|lia].
    destruct (decide (k = wrap n c)) as [->|Hne].
    - rewrite decide_True by done. reflexivity.
    - rewrite decide_False by done. change (size_of a4 k) with (size_of m k).
      lia. }
  assert (Hrun5 : forall B (k : Z -> M DancingLinksMatrix B),
    (node_idx <- gets (fun m => Z.of_nat (length (nodes m))) ;;
     modify (fun m => with_nodes
       (nodes m ++ [DLXNode.mk (-1) (-1) (-1) (-1) (c + 1) rid]) m) ;;
     column_at c ;;
     last_in_col <- node_get DLXNode.up (c + 1) ;;
     node_set DLXNode.set_up node_idx last_in_col ;;
     node_set DLXNode.set_down node_idx (c + 1) ;;
     node_set DLXNode.set_down last_in_col node_idx ;;
     node_set DLXNode.set_up (c + 1) node_idx ;;
     column_add_size c 1 ;; k node_idx) m = k N a5).
  { intros B k.
    erewrite bind_Ret by reflexivity. cbv beta.
    erewrite bind_Ret by reflexivity. cbv beta.
    fold (append_node (DLXNode.mk (-1) (-1) (-1) (-1) (c + 1) rid) m).
    fold a0. fold (nnodes m). fold N.
    erewrite bind_Ret;
      [|apply column_at_py; change (ncols a0) with (ncols m); lia].
    cbv beta.
    erewrite bind_Ret; [|apply node_get_py; lia]. cbv beta.
    rewrite Hn0. fold h. fold (Up a0 h). fold last.
    erewrite bind_Ret; [|apply node_set_ok; lia]. cbv beta. fold a1.
    erewrite bind_Ret;
      [|apply node_set_ok; unfold a1; rewrite nnodes_upd_node; lia].
    cbv beta. fold a2.
    erewrite bind_Ret;
      [|apply node_set_py; unfold a2, a1; rewrite !nnodes_upd_node; lia].
    cbv beta. unfold a2 at 1, a1 at 1. rewrite !nnodes_upd_node, Hn0.
    fold a1. fold a2. fold lw. fold a3.
    erewrite bind_Ret;
      [|apply node_set_py; unfold a3, a2, a1; rewrite !nnodes_upd_node; lia].
    cbv beta. unfold a3 at 1, a2 at 1, a1 at 1.
    rewrite !nnodes_upd_node, Hn0.
    fold a1. fold a2. fold a3. fold h. fold a4.
    erewrite bind_Ret;
      [|apply column_add_size_py; rewrite Hnc4; lia].
    cbv beta. rewrite Hnc4. reflexivity. }
  destruct acc as [[f p]|].
  - destruct (Hacc f p eq_refl) as [Hf Hp]. fold N in Hf, Hp.
    set (a6 := upd_node (DLXNode.set_right N) p a5).
    set (a7 := upd_node (DLXNode.set_left p) N a6).
    exists a7, f. split_and!.
    + unfold add_row_step. rewrite Hrun5.
      erewrite bind_Ret; [|apply node_set_ok; lia]. cbv beta. fold a6.
      erewrite bind_Ret;
        [|apply node_set_ok; unfold a6; rewrite nnodes_upd_node; lia].
      reflexivity.
    + split; [done| |unfold a7, a6; rewrite !nnodes_upd_node; lia|].
      * unfold a7, a6. by rewrite !ncols_upd_node.
      * intros x. unfold a7, a6. rewrite !nnodes_upd_node, Hn5. intros Hx.
        rewrite Up_upd_node_left, Up_upd_node_right;
          rewrite ?nnodes_upd_node; try lia. by apply Hup5.
    + intros f' p' [= <- <-]. unfold a7, a6. rewrite !nnodes_upd_node. lia.
    + unfold a7, a6. by rewrite !nnodes_upd_node.
    + intros k Hk. unfold a7, a6. rewrite !size_of_upd_node. by apply Hsz5.
  - exists a5, N. split_and!.
    + unfold add_row_step. rewrite Hrun5. reflexivity.
    + split; [done|done|lia|]. intros x. rewrite Hn5. apply Hup5.
    + intros f' p' [= <- <-]. lia.
    + done.
    + done.
Qed.

(** One iteration for a subscript that [self.columns] rejects: the node
    has been appended when the exception is raised. *)
Lemma add_row_step_out n rid acc c m :
  addable n m -> c < - n \/ n <= c ->
  add_row_step rid acc c m
  = Raise IndexError
      (append_node (DLXNode.mk (-1) (-1) (-1) (-1) (c + 1) rid) m).
Proof.
  intros [Hn Hnc Hnn Hup] Hc. unfold add_row_step.
  erewrite bind_Ret by reflexivity. cbv beta.
  erewrite bind_Ret by reflexivity. cbv beta.
  fold (append_node (DLXNode.mk (-1) (-1) (-1) (-1) (c + 1) rid) m).
  erewrite bind_Raise; [reflexivity|].
  apply column_at_out. rewrite ncols_append. lia.
Qed.

Lemma hits_nil n k : hits n [] k = 0.
Proof. reflexivity. Qed.

Lemma hits_cons n c cols k :
  hits n (c :: cols) k
  = (if decide (wrap n c = k) then 1 else 0) + hits n cols k.
Proof.
  unfold hits. rewrite filter_cons. case_decide; simpl length; lia.
Qed.

Lemma add_row_fold_in n rid cols : forall acc m,
  addable n m -> acc_ok m acc -> Forall (fun c => - n <= c < n) cols ->
  exists m' acc',
    for_fold cols (add_row_step rid) acc m = Ret acc' m' /\
    addable n m' /\ acc_ok m' acc' /\
    (acc' = None -> acc = None /\ cols = []) /\
    nnodes m' = nnodes m + Z.of_nat (length cols) /\
    (forall k, 0 <= k < n -> size_of m' k = size_of m k + hits n cols k).
Proof.
  induction cols as [|c cols IH]; intros acc m Ha Hacc Hr.
  - exists m, acc. split_and!; try done.
    + simpl. lia.
    + intros k _. rewrite hits_nil. lia.
  - apply Forall_cons in Hr as [Hc Hr].
    destruct (add_row_step_in n rid acc c m Ha Hc Hacc)
      as (m1 & f & Hrun1 & Ha1 & Hacc1 & Hn1 & Hsz1).
    destruct (IH _ m1 Ha1 Hacc1 Hr)
      as (m' & acc' & Hrun & Ha' & Hacc' & Hnone & Hn' & Hsz').
    exists m', acc'. split_and!; try done.
    + simpl. by rewrite (bind_Ret _ _ _ _ _ Hrun1).
    + intros E. by destruct (Hnone E).
    + rewrite Hn', Hn1. simpl length. lia.
    + intros k Hk. rewrite Hsz', Hsz1, hits_cons by done. lia.
Qed.

Lemma add_row_fold_out n rid pre c rest : forall acc m,
  addable n m -> acc_ok m acc -> Forall (fun c => - n <= c < n) pre ->
  c < - n \/ n <= c ->
  exists m',
    for_fold (pre ++ c :: rest) (add_row_step rid) acc m
    = Raise IndexError m' /\
    nnodes m' = nnodes m + Z.of_nat (length pre) + 1 /\
    (forall k, 0 <= k < n -> size_of m' k = size_of m k + hits n pre k).
Proof.
  induction pre as [|d pre IH]; intros acc m Ha Hacc Hr Hc.
  - eexists. split_and!.
    + simpl. erewrite bind_Raise; [reflexivity|].
      by apply (add_row_step_out n).
    + rewrite nnodes_append. simpl. lia.
    + intros k _. rewrite size_of_append, hits_nil. lia.
  - apply Forall_cons in Hr as [Hd Hr].
    destruct (add_row_step_in n rid acc d m Ha Hd Hacc)
      as (m1 & f & Hrun1 & Ha1 & Hacc1 & Hn1 & Hsz1).
    destruct (IH _ m1 Ha1 Hacc1 Hr Hc) as (m' & Hrun & Hn' & Hsz').
    exists m'. split_and!.
    + simpl. by rewrite (bind_Ret _ _ _ _ _ Hrun1).
    + rewrite Hn', Hn1. simpl length. lia.
    + intros k Hk. rewrite Hsz', Hsz1, hits_cons by done. lia.
Qed.

(** [add_row] with every subscript within [-n, n) returns. *)
Lemma add_row_in n rid cols m :
  addable n m -> Forall (fun c => - n <= c < n) cols ->
  exists m',
    add_row rid cols m = Ret tt m' /\ addable n m' /\
    nnodes m' = nnodes m + Z.of_nat (length cols) /\
    (forall k, 0 <= k < n -> size_of m' k = size_of m k + hits n cols k).
Proof.
  intros Ha Hr. destruct cols as [|c cols].
  { exists m. split_and!; try done; [simpl; lia|].
    intros k _. rewrite hits_nil. lia. }
  set (cs := c :: cols) in *.
  destruct (add_row_fold_in n rid cs None m Ha) as
    (m1 & acc1 & Hrun & Ha1 & Hacc1 & Hnone & Hn1 & Hsz1); [by intros ? ?|done|].
  destruct acc1 as [[f p]|]; [|by destruct (Hnone eq_refl)].
  destruct (Hacc1 f p eq_refl) as [Hf Hp].
  set (m2 := upd_node (DLXNode.set_right f) p m1).
  set (m3 := upd_node (DLXNode.set_left p) f m2).
  exists m3. split_and!.
  - unfold add_row. fold cs. unfold cs at 1.
    rewrite (bind_Ret _ _ _ _ _ Hrun). cbv beta iota.
    erewrite bind_Ret; [|apply node_set_ok; lia]. cbv beta. fold m2.
    apply node_set_ok. unfold m2. rewrite nnodes_upd_node. lia.
  - apply (addable_upd n m1); [done|..].
    + unfold m3, m2. by rewrite !nnodes_upd_node.
    + done.
    + intros x Hx. unfold m3, m2.
      rewrite Up_upd_node_left, Up_upd_node_right;
        rewrite ?nnodes_upd_node; lia.
  - unfold m3, m2. by rewrite !nnodes_upd_node.
  - intros k Hk. unfold m3, m2. rewrite !size_of_upd_node. by apply Hsz1.
Qed.

(** [add_row] with a subscript outside [-n, n) raises, after the part
    of the row before it has gone in. *)
Lemma add_row_out n rid pre c rest m :
  addable n m -> Forall (fun c => - n <= c < n) pre -> c < - n \/ n <= c ->
  exists m',
    add_row rid (pre ++ c :: rest) m = Raise IndexError m' /\
    nnodes m' = nnodes m + Z.of_nat (length pre) + 1 /\
    (forall k, 0 <= k < n -> size_of m' k = size_of m k + hits n pre k).
Proof.
  intros Ha Hr Hc.
  destruct (add_row_fold_out n rid pre c rest None m Ha) as
    (m' & Hrun & Hn' & Hsz'); [by intros ? ?|done|done|].
  exists m'. split_and!; [|done..].
  assert (E : exists d l, pre ++ c :: rest = d :: l)
    by (destruct pre; simpl; eauto).
  destruct E as (d & l & E). rewrite E in *.
  unfold add_row. by rewrite (bind_Raise _ _ _ _ _ Hrun).
Qed.

Lemma first_bad (P : Z -> Prop) `{forall x, Decision (P x)} (l : list Z) :
  ~ Forall P l ->
  exists pre c rest, l = pre ++ c :: rest /\ Forall P pre /\ ~ P c.
Proof.
  induction l as [|x l IH]; intros Hn.
  - destruct Hn. constructor.
  - destruct (decide (P x)) as [Hx|Hx].
    + destruct IH as (pre & c & rest & -> & Hp & Hc).
      { intros Hl. apply Hn. by constructor. }
      exists (x :: pre), c, rest. split_and!; [done| |done]. by constructor.
    + exists [], x, l. split_and!; [done| |done]. constructor.
Qed.

(** If [add_row] returns, every subscript was within [-n, n). *)
Lemma add_row_Ret n rid cols m m' :
  addable n m -> add_row rid cols m = Ret tt m' ->
  Forall (fun c => - n <= c < n) cols /\ addable n m'.
Proof.
  intros Ha Hrun.
  destruct (decide (Forall (fun c => - n <= c < n) cols)) as [Hr|Hr].
  - destruct (add_row_in n rid cols m Ha Hr) as (m1 & Hrun1 & Ha1 & _).
    rewrite Hrun in Hrun1. inversion Hrun1; subst. done.
  - apply first_bad in Hr as (pre & c & rest & -> & Hp & Hc); [|apply _].
    destruct (add_row_out n rid pre c rest m Ha Hp) as (m1 & Hrun1 & _);
      [lia|]. by rewrite Hrun in Hrun1.
Qed.

Lemma add_rows_addable n rows : forall m m',
  addable n m -> add_rows rows m = Ret tt m' -> addable n m'.
Proof.
  induction rows as [|[rid cols] rows IH]; intros m m' Ha Hrun.
  - simpl in Hrun. inversion Hrun; by subst.
  - simpl in Hrun. unfold bind in Hrun.
    destruct (add_row rid cols m) as [[] m1| |] eqn:E; try done.
    apply (add_row_Ret n) in E as [_ Ha1]; [|done]. eauto.
Qed.

Lemma create_addable n m : create n = Ret tt m -> addable n m.
Proof.
  intros Hc.
  destruct (decide (1 <= n)) as [Hn|Hn].
  - destruct (init_ok n Hn) as (m' & Hc' & HI & Hnn & Hup & _).
    rewrite Hc in Hc'. inversion Hc'; subst m'.
    pose proof (inv_sv _ _ _ _ _ HI) as Hsv.
    split; [done|apply (st_ncols _ _ _ Hsv)|lia|].
    intros x Hx. specialize (Hup x). lia.
  - destruct (create_nonpos n) as (m' & Hc'); [lia|]. by rewrite Hc in Hc'.
Qed.

Lemma build_addable n rows m : build n rows = Ret tt m -> addable n m.
Proof.
  unfold build, bind. intros Hb.
  destruct (init n blank) as [[] m0| |] eqn:E; try done.
  apply (add_rows_addable n rows m0); [|done].
  by apply create_addable.
Qed.

Lemma hits_pos n cols c : c ∈ cols -> 1 <= hits n cols (wrap n c).
Proof.
  induction cols as [|d cols IH]; [by intros ?%elem_of_nil|].
  intros [->|Hc]%elem_of_cons; rewrite hits_cons.
  - rewrite decide_True by done. unfold hits. lia.
  - specialize (IH Hc). case_decide; lia.
Qed.

(* ================================================================= *)
(** ** What [add_row] and the constructor do with bad arguments *)

(** C10: on a matrix of [n] columns that [build] returned, [add_row]
    with column indices all within [-n, n) returns without an
    exception, appends one node per index, and adds to the size of each
    column [k] the number of indices that denote [k] as Python
    subscripts; so a negative index [c] increments the size of column
    [n + c]. *)
Theorem add_row_negative_index_wraps n rows m rid cols :
  build n rows = Ret tt m ->
  Forall (fun c => - n <= c < n) cols ->
  exists m', add_row rid cols m = Ret tt m' /\
    nnodes m' = nnodes m + Z.of_nat (length cols) /\
    (forall k, 0 <= k < n -> size_of m' k = size_of m k + hits n cols k) /\
    (forall c, c ∈ cols -> c < 0 -> size_of m (n + c) < size_of m' (n + c)).
Proof.
  intros Hb Hr. pose proof (build_addable n rows m Hb) as Ha.
  destruct (add_row_in n rid cols m Ha Hr) as (m' & Hrun & _ & Hn & Hsz).
  exists m'. split_and!; try done.
  intros c Hc Hneg.
  assert (Hcr : - n <= c < n) by (by apply (proj1 (Forall_forall _ _) Hr)).
  pose proof (hits_pos n cols c Hc) as Hh.
  assert (Hw : wrap n c = n + c) by (unfold wrap; by rewrite decide_False by lia).
  rewrite Hw in Hh. rewrite Hsz by lia. lia.
Qed.

Lemma add_row_negative_index_wraps_witness :
  exists m', add_row 7 [-1; 0; -2] ex_matrix = Ret tt m' /\
    nnodes m' = nnodes ex_matrix + Z.of_nat (length [-1; 0; -2]) /\
    (forall k, 0 <= k < 2 ->
       size_of m' k = size_of ex_matrix k + hits 2 [-1; 0; -2] k) /\
    (forall c, c ∈ [-1; 0; -2] -> c < 0 ->
       size_of ex_matrix (2 + c) < size_of m' (2 + c)).
Proof.
  apply (add_row_negative_index_wraps 2 ex_rows ex_matrix 7 [-1; 0; -2]).
  - vm_compute. reflexivity.
  - compute_done.
Defined.

(** C3, as the code has it: on a matrix of [n] columns that [build]
    returned, [add_row] raises nothing when every index lies within
    [-n, n), duplicates or not: it appends a node per index and adds to
    the size of each column [k] the number of indices [c] with [c = k]
    or [n + c = k]; when the first index outside [-n, n) comes after the
    indices [pre], it raises [IndexError] with the nodes for [pre] and
    for the offending index appended and the sizes incremented for the
    indices of [pre]. *)
Theorem add_row_error_behaviour n rows m rid cols :
  build n rows = Ret tt m ->
  (Forall (fun c => - n <= c < n) cols ->
   exists m', add_row rid cols m = Ret tt m' /\
     nnodes m' = nnodes m + Z.of_nat (length cols) /\
     (forall k, 0 <= k < n -> size_of m' k = size_of m k + hits n cols k)) /\
  (forall pre c rest, cols = pre ++ c :: rest ->
   Forall (fun c => - n <= c < n) pre -> c < - n \/ n <= c ->
   exists m', add_row rid cols m = Raise IndexError m' /\
     nnodes m' = nnodes m + Z.of_nat (length pre) + 1 /\
     (forall k, 0 <= k < n -> size_of m' k = size_of m k + hits n pre k)).
Proof.
  intros Hb. pose proof (build_addable n rows m Hb) as Ha. split.
  - intros Hr.
    destruct (add_row_in n rid cols m Ha Hr) as (m' & Hrun & _ & Hn & Hsz).
    eauto.
  - intros pre c rest -> Hp Hc. by apply add_row_out.
Qed.

Lemma add_row_error_behaviour_witness :
  (Forall (fun c => - 2 <= c < 2) [0; 5] ->
   exists m', add_row 3 [0; 5] ex_matrix = Ret tt m' /\
     nnodes m' = nnodes ex_matrix + Z.of_nat (length [0; 5]) /\
     (forall k, 0 <= k < 2 ->
        size_of m' k = size_of ex_matrix k + hits 2 [0; 5] k)) /\
  (forall pre c rest, [0; 5] = pre ++ c :: rest ->
   Forall (fun c => - 2 <= c < 2) pre -> c < - 2 \/ 2 <= c ->
   exists m', add_row 3 [0; 5] ex_matrix = Raise IndexError m' /\
     nnodes m' = nnodes ex_matrix + Z.of_nat (length pre) + 1 /\
     (forall k, 0 <= k < 2 ->
        size_of m' k = size_of ex_matrix k + hits 2 pre k)).
Proof.
  apply (add_row_error_behaviour 2 ex_rows ex_matrix 3 [0; 5]).
  vm_compute. reflexivity.
Defined.

(** C3 as stated fails both ways: a row that names column 0 twice is
    spliced in without any error, and a row with the out-of-range index
    5 raises only after the matrix has been changed. *)
Lemma add_row_no_validation :
  (exists m', add_row 3 [0; 0] ex_matrix = Ret tt m' /\
     nnodes m' = nnodes ex_matrix + 2 /\ m' <> ex_matrix) /\
  (exists m', add_row 3 [0; 5] ex_matrix = Raise IndexError m' /\
     nnodes m' = nnodes ex_matrix + 2 /\ size_of m' 0 = size_of ex_matrix 0 + 1 /\
     m' <> ex_matrix).
Proof.
  split.
  - eexists. split; [vm_compute; reflexivity|]. split; [reflexivity|].
    intros E. apply (f_equal nnodes) in E. vm_compute in E. discriminate.
  - eexists. split; [vm_compute; reflexivity|]. split; [reflexivity|].
    split; [reflexivity|].
    intros E. apply (f_equal nnodes) in E. vm_compute in E. discriminate.
Qed.

(** C4: [DancingLinksMatrix(0)] raises [IndexError] at
    [self.nodes[1].left = 0], the root node being the only node; the
    two assignments to the root before it have taken place. *)
Theorem create_zero_raises :
  create 0
  = Raise IndexError (mkMatrix 0 [DLXNode.mk 0 1 (-1) (-1) (-1) (-1)] [] 0).
Proof. vm_compute. reflexivity. Qed.

(* ================================================================= *)
(** ** The search: specification *)

Lemma evolves_refl s : evolves s s.
Proof. done. Qed.

Lemma evolves_trans s1 s2 s3 : evolves s1 s2 -> evolves s2 s3 -> evolves s1 s3.
Proof. unfold evolves. intros (?&?&?) (?&?&?). split_and!; congruence. Qed.

Lemma evolves_upd m k s : evolves s (upd_solver m k s).
Proof. done. Qed.

Lemma cover_ev n G K H m c lf s :
  Inv n G K H m -> 0 <= c < n -> c ∉ K -> nnodes m <= Z.of_nat lf ->
  matrix s = m ->
  exists s', cover lf c s = Ret tt s' /\ matrix s' = covered G H c m /\
             evolves s s'.
Proof.
  intros HI Hc HcK Hlf Es.
  destruct (cover_ok n G K H m c HI Hc HcK lf Hlf s Es) as (k & Hrun).
  eexists. split; [exact Hrun|]. split; [done|apply evolves_upd].
Qed.

Lemma uncover_ev n G K H m c lf s :
  Inv n G K H m -> 0 <= c < n -> c ∉ K -> nnodes m <= Z.of_nat lf ->
  matrix s = covered G H c m ->
  exists s', uncover lf c s = Ret tt s' /\ matrix s' = m /\ evolves s s'.
Proof.
  intros HI Hc HcK Hlf Es.
  destruct (uncover_ok n G K H m c HI Hc HcK lf Hlf s Es) as (k & Hrun).
  eexists. split; [exact Hrun|]. split; [done|apply evolves_upd].
Qed.

Lemma covereds_app G Ks1 Ks2 : forall H m,
  covereds G (Ks1 ++ Ks2) H m
  = covereds G Ks2 (covereds G Ks1 H m).1 (covereds G Ks1 H m).2.
Proof. induction Ks1 as [|c Ks1 IH]; intros H m; simpl; [done|apply IH]. Qed.

Lemma covereds_Inv n G : forall Ks K H m,
  Inv n G K H m -> NoDup (Ks ++ K) -> Forall (fun c => 0 <= c < n) Ks ->
  Inv n G (rev Ks ++ K) (covereds G Ks H m).1 (covereds G Ks H m).2 /\
  nnodes (covereds G Ks H m).2 = nnodes m.
Proof.
  induction Ks as [|c Ks IH]; intros K H m HI Hnd Hr; [done|].
  apply Forall_cons in Hr as [Hc Hr]. simpl in Hnd.
  apply NoDup_cons in Hnd as [HcK Hnd].
  assert (HcK' : c ∉ K) by set_solver.
  pose proof (covered_Inv n G K H m c HI Hc HcK') as HI1.
  destruct (covered_frame n G K H m c HI Hc HcK') as (Hnn1 & _).
  destruct (IH (c :: K) _ _ HI1) as [HI' Hnn']; [|done|].
  { apply NoDup_app in Hnd as (Hn1 & Hd & Hn2).
    apply NoDup_app. split_and!; [done| |by apply NoDup_cons].
    intros x Hx [->|HxK]%elem_of_cons; [set_solver|]. by apply (Hd x). }
  simpl. rewrite <- app_assoc. split; [done|]. by rewrite Hnn', Hnn1.
Qed.

Lemma filter_length_lt (P Q : Z -> Prop) `{forall y, Decision (P y)}
    `{forall y, Decision (Q y)} (l : list Z) x :
  (forall y, Q y -> P y) -> x ∈ l -> P x -> ~ Q x ->
  (length (filter Q l) < length (filter P l))%nat.
Proof.
  intros HQP Hx HPx HQx.
  assert (Hle : forall l', (length (filter Q l') <= length (filter P l'))%nat).
  { induction l' as [|y l' IH]; [done|]. rewrite !filter_cons.
    destruct (decide (Q y)) as [Hq|Hq].
    - rewrite decide_True by auto. simpl. lia.
    - destruct (decide (P y)); simpl; lia. }
  induction l as [|y l IH]; [by apply elem_of_nil in Hx|].
  rewrite !filter_cons. apply elem_of_cons in Hx as [<-|Hx].
  - rewrite decide_False, decide_True by done. simpl.
    specialize (Hle l). lia.
  - specialize (IH Hx). destruct (decide (Q y)) as [Hq|Hq].
    + rewrite decide_True by auto. simpl. lia.
    + destruct (decide (P y)); simpl; lia.
Qed.

Lemma active_shrinks n K K' c :
  0 <= c < n -> c ∉ K -> c ∈ K' -> (forall k, k ∈ K -> k ∈ K') ->
  (length (active n K') < length (active n K))%nat.
Proof.
  intros Hc HcK HcK' Hsub. unfold active.
  apply (filter_length_lt _ _ _ (c + 1)).
  - intros y Hy Hin. apply Hy. auto.
  - apply elem_of_seqZ. lia.
  - by replace (c + 1 - 1) with c by lia.
  - replace (c + 1 - 1) with c by lia. auto.
Qed.

Lemma solution_pop_ok s l x :
  solution s = l ++ [x] ->
  solution_pop s
  = Ret tt (mkSolver (matrix s) (trace s) l (solutions s) (operations s)).
Proof.
  intros E. unfold solution_pop. rewrite E.
  destruct (l ++ [x]) eqn:E'; [by destruct l|].
  rewrite <- E'. by rewrite removelast_last.
Qed.

(* ================================================================= *)
(** ** Covering and uncovering the other columns of a row *)

Section Row.
Context (n : Z) (G : list grow).
Context (K H : list Z) (m : DancingLinksMatrix).
Context (g : grow) (r : Z).
Hypothesis HI : Inv n G K H m.
Hypothesis Hg : g ∈ G.
Hypothesis Hr : r ∈ row_nodes g.
Hypothesis Hfree : forall y cy, (y, cy) ∈ g.2 -> y <> r -> cy ∉ K.

Let xs := others r (row_nodes g).
Let colf := fun j => Col m j - 1.
Let Ks := map colf xs.

Lemma row_node_col y :
  y ∈ row_nodes g -> (y, colf y) ∈ g.2 /\ n + 1 <= y < nnodes m /\
                     0 <= colf y < n.
Proof using HI Hg.
  intros (cy & Hy)%row_nodes_elem.
  destruct (st_cell _ _ _ (inv_sv _ _ _ _ _ HI) g y cy Hg Hy)
    as (Hyr & Hcy & Hcol & _).
  unfold colf. rewrite Hcol. replace (cy + 1 - 1) with cy by lia. done.
Qed.

Lemma row_nodes_NoDup : NoDup (row_nodes g).
Proof using HI Hg. apply (row_NoDup G); [apply HI|done]. Qed.

Lemma xs_elem y : y ∈ xs <-> y ∈ row_nodes g /\ y <> r.
Proof using HI Hg Hr. apply others_elem; [apply row_nodes_NoDup|done]. Qed.

Lemma colf_inj y z :
  y ∈ row_nodes g -> z ∈ row_nodes g -> colf y = colf z -> y = z.
Proof using HI Hg.
  intros Hy Hz E.
  destruct (row_node_col y Hy) as [Hy2 _].
  destruct (row_node_col z Hz) as [Hz2 _].
  pose proof (st_cols _ _ _ (inv_sv _ _ _ _ _ HI) g Hg) as Hnd.
  assert (E2 : (y, colf y) = (z, colf z)).
  { apply (NoDup_fmap_eq snd g.2); done. }
  by inversion E2.
Qed.

Lemma Ks_NoDup : NoDup (Ks ++ K).
Proof using HI Hg Hr Hfree.
  apply NoDup_app. split_and!.
  - unfold Ks. apply NoDup_fmap_2_strong.
    + intros y z Hy%xs_elem Hz%xs_elem E. apply colf_inj; tauto.
    + apply others_NoDup; [apply row_nodes_NoDup|done].
  - intros k (y & -> & Hy)%list_elem_of_fmap. apply xs_elem in Hy as [Hy Hne].
    destruct (row_node_col y Hy) as [Hy2 _]. by apply (Hfree y).
  - apply HI.
Qed.

Lemma Ks_range : Forall (fun c => 0 <= c < n) Ks.
Proof using HI Hg Hr.
  apply Forall_forall. intros k (y & -> & Hy)%list_elem_of_fmap.
  apply xs_elem in Hy as [Hy _]. by destruct (row_node_col y Hy) as (_&_&?).
Qed.

(** The state after the columns of a first part of the row are
    covered. *)
Lemma row_prefix pre post :
  xs = pre ++ post ->
  let Hm := covereds G (map colf pre) H m in
  Inv n G (rev (map colf pre) ++ K) Hm.1 Hm.2 /\ nnodes Hm.2 = nnodes m /\
  (forall y, y ∈ row_nodes g -> Col Hm.2 y - 1 = colf y) /\
  dl (Rt Hm.2) (Lf Hm.2) r xs r /\
  (forall y, y ∈ post -> colf y ∉ rev (map colf pre) ++ K).
Proof using HI Hg Hr Hfree.
  intros E Hm.
  pose proof Ks_NoDup as Hnd. pose proof Ks_range as Hrg.
  unfold Ks in Hnd, Hrg. rewrite E, map_app in Hnd, Hrg.
  rewrite <- app_assoc in Hnd.
  apply Forall_app in Hrg as [Hrg _].
  destruct (covereds_Inv n G (map colf pre) K H m HI) as [HI' Hnn'];
    [|done|].
  { apply NoDup_app in Hnd as (Hn1 & Hd & Hn2).
    apply NoDup_app in Hn2 as (Hn2 & Hd2 & Hn3).
    apply NoDup_app. split_and!; [done| |done].
    intros k Hk HkK. apply (Hd k Hk). set_solver. }
  fold Hm in HI', Hnn'. split_and!; [done|done| | |].
  - intros y Hy. pose proof Hy as (cy & Hy2)%row_nodes_elem.
    destruct (st_cell _ _ _ (inv_sv _ _ _ _ _ HI') g y cy Hg Hy2)
      as (_ & _ & Hcol' & _).
    destruct (st_cell _ _ _ (inv_sv _ _ _ _ _ HI) g y cy Hg Hy2)
      as (_ & _ & Hcol & _).
    unfold colf. by rewrite Hcol, Hcol'.
  - destruct (inv_sh _ _ _ _ _ HI' g Hg) as [_ Hcyc].
    by apply cyc_others.
  - intros y Hy Hin. apply NoDup_app in Hnd as (_ & Hd & Hn2).
    apply elem_of_app in Hin as [Hin|Hin].
    + rewrite elem_of_rev in Hin. apply (Hd _ Hin).
      apply elem_of_app. left. apply list_elem_of_fmap. eauto.
    + apply NoDup_app in Hn2 as (_ & Hd2 & _).
      apply (Hd2 (colf y)); [|done]. apply list_elem_of_fmap. eauto.
Qed.

(** The columns of the row are that of [r] and those of the others. *)
Lemma row_cols_perm : row_cols g ≡ₚ colf r :: Ks.
Proof using HI Hg Hr.
  assert (E : row_cols g = map colf (row_nodes g)).
  { unfold row_cols, row_nodes. rewrite map_map.
    apply map_ext_in. intros [y cy] Hy. simpl.
    apply list_elem_of_In in Hy.
    destruct (st_cell _ _ _ (inv_sv _ _ _ _ _ HI) g y cy Hg Hy)
      as (_ & _ & Hcol & _).
    unfold colf. rewrite Hcol. lia. }
  rewrite E. unfold Ks.
  change (colf r :: map colf xs) with (map colf (r :: xs)).
  apply Permutation_map. by apply others_perm.
Qed.

Context (lf : nat).
Hypothesis Hlf : nnodes m <= Z.of_nat lf.

Lemma xs_length : (length xs < lf)%nat.
Proof using HI Hg Hr Hlf.
  pose proof (st_n _ _ _ (inv_sv _ _ _ _ _ HI)) as Hn.
  pose proof (st_nnodes _ _ _ (inv_sv _ _ _ _ _ HI)) as Hnn.
  assert (Z.of_nat (length xs) <= nnodes m - (n + 1)); [|lia].
  apply length_bound; [lia| |].
  - apply others_NoDup; [apply row_nodes_NoDup|done].
  - intros y [Hy _]%xs_elem. destruct (row_node_col y Hy) as (_&?&_). lia.
Qed.

(** The loop of [search] that covers the other columns of the row. *)
Lemma cover_others_ok s :
  matrix s = m ->
  exists s',
    while_ne lf r
      (fun node_idx =>
         on_matrix (node_at node_idx) ;;
         c <- on_matrix (node_get DLXNode.column node_idx) ;;
         cover lf (c - 1) ;;
         on_matrix (node_get DLXNode.right node_idx))
      (Rt m r) s = Ret tt s' /\
    matrix s' = (covereds G Ks H m).2 /\ evolves s s'.
Proof using HI Hg Hr Hfree Hlf.
  intros Es.
  destruct (row_prefix [] xs eq_refl) as (_ & _ & _ & Hdl0 & _).
  simpl in Hdl0. rewrite (dl_hd _ _ _ _ _ Hdl0).
  set (I := fun (rest : list Z) (s' : DLXSolver) =>
    exists pre, xs = pre ++ rest /\
      matrix s' = (covereds G (map colf pre) H m).2 /\ evolves s s').
  destruct (while_ne_list I r
    (fun node_idx =>
       on_matrix (node_at node_idx) ;;
       c <- on_matrix (node_get DLXNode.column node_idx) ;;
       cover lf (c - 1) ;;
       on_matrix (node_get DLXNode.right node_idx))) with
    (xs := xs) (s := s) (fuel := lf) as (s' & Hrun & pre & E & Em & Hev).
  - intros x rest s1 (pre & E & Em & Hev).
    assert (Hx : x ∈ xs) by (rewrite E; set_solver).
    apply xs_elem in Hx as [Hx Hne]. split; [done|].
    destruct (row_node_col x Hx) as (Hx2 & Hxr & Hcx).
    destruct (row_prefix pre (x :: rest) E)
      as (HI1 & Hnn1 & Hcol1 & _ & Hfresh).
    assert (E' : xs = (pre ++ [x]) ++ rest) by (by rewrite <- app_assoc).
    destruct (row_prefix (pre ++ [x]) rest E')
      as (HI2 & Hnn2 & _ & Hdl2 & _).
    rewrite map_app, covereds_app in HI2, Hnn2, Hdl2. simpl in HI2, Hnn2, Hdl2.
    set (Hm1 := covereds G (map colf pre) H m) in *.
    mstep_by s_node_at ltac:(rewrite Em, Hnn1; lia).
    mstep_by s_node_get ltac:(rewrite Em, Hnn1; lia).
    fold (Col (matrix s1) x). rewrite Em, (Hcol1 x Hx).
    destruct (cover_ev n G _ Hm1.1 Hm1.2 (colf x) lf s1 HI1 Hcx)
      as (s2 & Hrun2 & Em2 & Hev2); [apply Hfresh; set_solver|lia|done|].
    rewrite (bind_Ret _ _ _ _ _ Hrun2). cbv beta.
    exists s2. split.
    + rewrite s_node_get by (rewrite Em2, Hnn2; lia).
      f_equal. fold (Rt (matrix s2) x). rewrite Em2.
      rewrite E in Hdl2. by rewrite (dl_next _ _ _ _ _ _ _ Hdl2).
    + exists (pre ++ [x]). split_and!; [done| |by eapply evolves_trans].
      rewrite map_app, covereds_app. done.
  - exists []. done.
  - apply xs_length.
  - exists s'. split; [done|]. rewrite app_nil_r in E. subst pre.
    done.
Qed.

(** The loop of [search] that uncovers them, last one first. *)
Lemma uncover_others_ok s :
  matrix s = (covereds G Ks H m).2 ->
  exists s',
    while_ne lf r
      (fun node_idx =>
         on_matrix (node_at node_idx) ;;
         c <- on_matrix (node_get DLXNode.column node_idx) ;;
         uncover lf (c - 1) ;;
         on_matrix (node_get DLXNode.left node_idx))
      (Lf (matrix s) r) s = Ret tt s' /\
    matrix s' = m /\ evolves s s'.
Proof using HI Hg Hr Hfree Hlf.
  intros Es.
  destruct (row_prefix xs []) as (_ & _ & _ & Hdl0 & _);
    [by rewrite app_nil_r|].
  fold Ks in Hdl0. rewrite <- Es in Hdl0.
  apply dl_rev in Hdl0. rewrite (dl_hd _ _ _ _ _ Hdl0).
  set (I := fun (rest : list Z) (s' : DLXSolver) =>
    exists pre, rev xs = pre ++ rest /\
      matrix s' = (covereds G (map colf (rev rest)) H m).2 /\ evolves s s').
  destruct (while_ne_list I r
    (fun node_idx =>
       on_matrix (node_at node_idx) ;;
       c <- on_matrix (node_get DLXNode.column node_idx) ;;
       uncover lf (c - 1) ;;
       on_matrix (node_get DLXNode.left node_idx))) with
    (xs := rev xs) (s := s) (fuel := lf) as (s' & Hrun & pre & E & Em & Hev).
  - intros x rest s1 (pre & E & Em & Hev).
    assert (Exs : xs = rev rest ++ x :: rev pre).
    { rewrite <- (rev_involutive xs), E, rev_app_distr. simpl.
      by rewrite <- app_assoc. }
    assert (Hx : x ∈ xs) by (rewrite Exs; set_solver).
    apply xs_elem in Hx as [Hx Hne]. split; [done|].
    destruct (row_node_col x Hx) as (Hx2 & Hxr & Hcx).
    destruct (row_prefix (rev rest) (x :: rev pre) Exs)
      as (HI1 & Hnn1 & _ & Hdl1 & Hfresh).
    assert (E' : xs = (rev rest ++ [x]) ++ rev pre)
      by (by rewrite <- app_assoc).
    destruct (row_prefix (rev rest ++ [x]) (rev pre) E')
      as (HI2 & Hnn2 & Hcol2 & _ & _).
    simpl rev in Em.
    rewrite map_app, covereds_app in HI2, Hnn2, Hcol2, Em.
    simpl in HI2, Hnn2, Hcol2, Em.
    set (Hm1 := covereds G (map colf (rev rest)) H m) in *.
    mstep_by s_node_at ltac:(rewrite Em, Hnn2; lia).
    mstep_by s_node_get ltac:(rewrite Em, Hnn2; lia).
    fold (Col (matrix s1) x). rewrite Em, (Hcol2 x Hx).
    destruct (uncover_ev n G _ Hm1.1 Hm1.2 (colf x) lf s1 HI1 Hcx)
      as (s2 & Hrun2 & Em2 & Hev2); [apply Hfresh; set_solver|lia|done|].
    rewrite (bind_Ret _ _ _ _ _ Hrun2). cbv beta.
    exists s2. split.
    + rewrite s_node_get by (rewrite Em2, Hnn1; lia).
      f_equal. fold (Lf (matrix s2) x). rewrite Em2.
      apply dl_rev in Hdl1. rewrite E in Hdl1.
      by rewrite (dl_next _ _ _ _ _ _ _ Hdl1).
    + exists (pre ++ [x]). split_and!;
        [by rewrite <- app_assoc|done|by eapply evolves_trans].
  - exists []. split_and!; [done| |done].
    by rewrite rev_involutive.
  - rewrite length_rev. apply xs_length.
  - exists s'. split; [done|]. split; [|done].
    by rewrite Em.
Qed.

End Row.

(* ================================================================= *)
(** ** The loop over the rows of the chosen column *)

Section Rows.
Context (n : Z) (G : list grow) (lf : nat) (find_all : bool).
Context (K H : list Z) (m : DancingLinksMatrix) (c : Z).
Context (P : list grow) (sol0 : list Z) (recurse : M DLXSolver bool).
Hypothesis HI : Inv n G K H m.
Hypothesis Hc : 0 <= c < n.
Hypothesis HcK : c ∉ K.
Hypothesis Hlf : nnodes m <= Z.of_nat lf.
Hypothesis HP : chosen G K P sol0.
Hypothesis Hrec : forall K' H' m' s' P',
  Inv n G K' H' m' -> matrix s' = m' -> nnodes m' <= Z.of_nat lf ->
  (length (active n K') < length (active n K))%nat ->
  chosen G K' P' (solution s') ->
  exists b s'', recurse s' = Ret b s'' /\
                search_post find_all n G m' s' b s''.

Let Lc := filter (fun x => x ∉ H) (colnodes G c).
Let m1 := covered G H c m.
Let H1 := trace_of G H c ++ H.

Lemma rows_facts :
  Inv n G (c :: K) H1 m1 /\ nnodes m1 = nnodes m /\
  dl (Dn m1) (Up m1) (c + 1) Lc (c + 1).
Proof using HI Hc HcK.
  split_and!.
  - by apply covered_Inv.
  - by destruct (covered_frame n G K H m c HI Hc HcK) as (? & _).
  - destruct (prefix_state n G K H m c HI Hc HcK (trace_of G H c) [])
      as (_ & _ & _ & _ & Hdl & _); [by rewrite app_nil_r|]. exact Hdl.
Qed.

Lemma search_rows_ok : forall rest done fuel found s,
  Lc = done ++ rest -> matrix s = m1 -> solution s = sol0 ->
  (length rest < fuel)%nat ->
  exists ex s',
    search_rows lf recurse find_all (c + 1) fuel found (hd (c + 1) rest) s
    = Ret ex s' /\
    trace s' = trace s /\
    (exists new, solutions s' = solutions s ++ new /\
                 Forall (exact_in G n) new) /\
    match ex with
    | Fallthrough _ => matrix s' = m1 /\ solution s' = sol0
    | Returned v => v = true /\ find_all = false
    end.
Proof using HI Hc HcK Hlf HP Hrec.
  destruct rows_facts as (HI1 & Hnn1 & Hdl1).
  induction rest as [|x rest IH]; intros done fuel found s EL Em Esol Hfuel.
  { destruct fuel; [simpl in Hfuel; lia|]. simpl.
    rewrite decide_True by done. eexists _, _. split; [reflexivity|].
    split_and!; [done| |done|done]. exists []. by rewrite app_nil_r. }
  destruct fuel as [|fuel]; [simpl in Hfuel; lia|]. simpl in Hfuel.
  assert (HxL : x ∈ Lc) by (rewrite EL; set_solver).
  destruct (live_row n G K H m c HI Hc HcK x HxL)
    as (g & Hg & Hxc & Er & Hndg & Hlive).
  assert (Hxr : x ∈ row_nodes g) by (apply row_nodes_elem; eauto).
  destruct (st_cell _ _ _ (inv_sv _ _ _ _ _ HI1) g x c Hg Hxc)
    as (Hxrange & _ & Hcolx & Hrwx).
  assert (Hfree : forall y cy, (y, cy) ∈ g.2 -> y <> x -> cy ∉ c :: K).
  { intros y cy Hy Hne [->|HcyK]%elem_of_cons.
    - apply Hne.
      pose proof (st_cols _ _ _ (inv_sv _ _ _ _ _ HI) g Hg) as Hnd.
      assert (E2 : (y, c) = (x, c)) by (by apply (NoDup_fmap_eq snd g.2)).
      by inversion E2.
    - by destruct (Hlive y cy Hy). }
  set (Ks := map (fun j => Col m1 j - 1) (others x (row_nodes g))).
  destruct (covereds_Inv n G Ks (c :: K) H1 m1 HI1) as [HI2 Hnn2].
  { by apply (Ks_NoDup n G (c :: K) H1 m1 g x). }
  { by apply (Ks_range n G (c :: K) H1 m1 g x). }
  set (H2 := (covereds G Ks H1 m1).1) in *.
  set (m2 := (covereds G Ks H1 m1).2) in *.
  simpl hd. simpl search_rows.
  rewrite decide_False by lia.
  mstep_by s_node_at ltac:(rewrite Em; lia).
  mstep_by s_node_get ltac:(rewrite Em; lia).
  fold (Rw (matrix s) x). rewrite Em, Hrwx.
  mtick.
  set (s2 := mkSolver (matrix s) (trace s) (solution s ++ [g.1])
               (solutions s) (operations s)).
  assert (Em2 : matrix s2 = m1) by exact Em.
  mstep_by s_node_get ltac:(rewrite Em2; lia).
  fold (Rt (matrix s2) x). rewrite Em2.
  destruct (cover_others_ok n G (c :: K) H1 m1 g x HI1 Hg Hxr Hfree lf
              ltac:(lia) s2 Em2) as (s3 & Hrun3 & Em3 & Hev3).
  rewrite (bind_Ret _ _ _ _ _ Hrun3). cbv beta.
  fold Ks in Em3. fold m2 in Em3.
  destruct Hev3 as (Htr3 & Hsol3 & Hsols3). simpl in Htr3, Hsol3, Hsols3.
  destruct HP as (HPG & HPsol & HPK).
  destruct (Hrec (rev Ks ++ c :: K) H2 m2 s3 (P ++ [g]) HI2 Em3)
    as (b & s4 & Hrun4 & Htr4 & (new4 & Hsols4 & Hnew4) & Hrest4).
  { lia. }
  { apply (active_shrinks n K _ c); [done|done|set_solver|set_solver]. }
  { split_and!.
    - apply Forall_app. split; [done|]. by apply Forall_singleton.
    - rewrite map_app, Hsol3, Esol. by f_equal.
    - rewrite map_app, concat_app, HPK. simpl. rewrite app_nil_r.
      rewrite (row_cols_perm n G (c :: K) H1 m1 g x HI1 Hg Hxr).
      fold Ks. rewrite Hcolx. replace (c + 1 - 1) with c by lia.
      rewrite Permutation_app_comm. simpl.
      rewrite <- (Permutation_rev Ks). apply Permutation_middle. }
  rewrite (bind_Ret _ _ _ _ _ Hrun4). cbv beta.
  destruct (b && negb find_all) eqn:Eb.
  { eexists _, _. split; [reflexivity|].
    apply andb_true_iff in Eb as [-> Hfa%negb_true_iff].
    split_and!; [congruence| |done|done].
    exists new4. by rewrite Hsols4, Hsols3. }
  assert (Hcase : b = false \/ find_all = true).
  { destruct b, find_all; simpl in Eb; auto; discriminate. }
  destruct (Hrest4 Hcase) as [Em4 Esol4].
  rewrite Hsol3 in Esol4.
  rewrite (bind_Ret _ _ _ _ _ (solution_pop_ok s4 _ _ Esol4)). cbv beta.
  set (s5 := mkSolver (matrix s4) (trace s4) (solution s) (solutions s4)
               (operations s4)).
  assert (Em5 : matrix s5 = m2) by exact Em4.
  mstep_by s_node_get ltac:(rewrite Em5, Hnn2; lia).
  fold (Lf (matrix s5) x).
  destruct (uncover_others_ok n G (c :: K) H1 m1 g x HI1 Hg Hxr Hfree lf
              ltac:(lia) s5 Em5) as (s6 & Hrun6 & Em6 & Hev6).
  rewrite (bind_Ret _ _ _ _ _ Hrun6). cbv beta.
  destruct Hev6 as (Htr6 & Hsol6 & Hsols6). simpl in Htr6, Hsol6, Hsols6.
  mstep_by s_node_get ltac:(rewrite Em6; lia).
  fold (Dn (matrix s6) x). rewrite Em6.
  rewrite EL in Hdl1. rewrite (dl_next _ _ _ _ _ _ _ Hdl1).
  destruct (IH (done ++ [x]) fuel (if b then true else found) s6)
    as (ex & s7 & Hrun7 & Htr7 & (new7 & Hsols7 & Hnew7) & Hex7);
    [by rewrite <- app_assoc|done|congruence|lia|].
  exists ex, s7. split; [exact Hrun7|].
  split_and!; [congruence| |done].
  exists (new4 ++ new7). split; [|by apply Forall_app].
  rewrite Hsols7, Hsols6, Hsols4, Hsols3. by rewrite <- app_assoc.
Qed.
End Rows.

(* ================================================================= *)
(** ** [search] *)

Lemma active_elem n K h : h ∈ active n K <-> 1 <= h < 1 + n /\ h - 1 ∉ K.
Proof.
  unfold active. rewrite list_elem_of_filter, elem_of_seqZ. tauto.
Qed.

Lemma scan_min_active n K size :
  active n K <> [] ->
  exists c, scan_min size (active n K) None None = Some c /\
            0 <= c < n /\ c ∉ K.
Proof.
  intros Hne.
  pose proof (scan_min_spec size (active n K) None None I) as Hsp.
  destruct (scan_min size (active n K) None None) as [c|].
  - destruct Hsp as [[? _]|(l1 & l2 & El & _)]; [done|].
    assert (Hc : c + 1 ∈ active n K) by (rewrite El; set_solver).
    apply active_elem in Hc as [Hc1 Hc2].
    replace (c + 1 - 1) with c in Hc2 by lia.
    exists c. split_and!; [done|lia|lia|done].
  - by destruct Hsp.
Qed.

Lemma all_covered n G K H m :
  Inv n G K H m -> active n K = [] -> K ≡ₚ seqZ 0 n.
Proof.
  intros HI Ea. apply NoDup_Permutation; [apply HI|apply NoDup_seqZ|].
  intros x. rewrite elem_of_seqZ. split.
  - intros Hx. pose proof (inv_Kr _ _ _ _ _ HI x Hx). lia.
  - intros Hx. destruct (decide (x ∈ K)) as [|Hn]; [done|].
    assert (Hin : x + 1 ∈ active n K).
    { apply active_elem. split; [lia|]. by replace (x + 1 - 1) with x by lia. }
    rewrite Ea in Hin. by apply elem_of_nil in Hin.
Qed.

Lemma column_length n G K H m c lf :
  Inv n G K H m -> 0 <= c < n -> nnodes m <= Z.of_nat lf ->
  (length (filter (fun x => x ∉ H) (colnodes G c)) < lf)%nat.
Proof.
  intros HI Hc Hlf.
  pose proof (inv_sv _ _ _ _ _ HI) as Hsv.
  pose proof (st_nnodes _ _ _ Hsv) as Hnn.
  assert (Z.of_nat (length (filter (fun x => x ∉ H) (colnodes G c)))
          <= nnodes m - (n + 1)); [|lia].
  apply length_bound; [lia| |].
  - apply NoDup_filter, NoDup_colnodes, Hsv.
  - intros x [_ Hx]%list_elem_of_filter. apply elem_colnodes in Hx.
    destruct (cell_node _ _ _ _ _ Hsv Hx). lia.
Qed.

Lemma search_ok n G lf find_all : forall calls K H m s P depth,
  Inv n G K H m -> matrix s = m -> nnodes m <= Z.of_nat lf ->
  (length (active n K) < calls)%nat ->
  chosen G K P (solution s) ->
  exists b s', search calls lf depth find_all s = Ret b s' /\
               search_post find_all n G m s b s'.
Proof.
  induction calls as [|calls IH]; intros K H m s P depth HI Em Hlf Hcalls HP;
    [lia|].
  pose proof (inv_sv _ _ _ _ _ HI) as Hsv.
  pose proof (st_n _ _ _ Hsv) as Hn1.
  pose proof (st_nnodes _ _ _ Hsv) as Hnn.
  pose proof (st_ncols _ _ _ Hsv) as Hnc.
  simpl search.
  mstep_by s_node_at ltac:(rewrite Em; lia).
  mstep_by s_node_get ltac:(rewrite Em; lia).
  fold (Rt (matrix s) 0). rewrite Em, (root_right n G K H m HI).
  destruct (active n K) as [|h l] eqn:Ea.
  { simpl hd. rewrite decide_True by done.
    mtick. eexists _, _. split; [reflexivity|].
    split_and!; [done| |done].
    exists [solution s]. split; [done|].
    apply Forall_singleton. exists P.
    destruct HP as (HPG & HPsol & HPK). split_and!; [done..|].
    by rewrite HPK, (all_covered n G K H m HI Ea). }
  assert (Hh : h ∈ active n K) by (rewrite Ea; set_solver).
  apply active_elem in Hh as [Hh1 _].
  rewrite decide_False by (simpl; lia).
  rewrite (bind_Ret _ _ _ _ _ (choose_column_ok n G K H m HI lf s Em Hlf)).
  cbv beta.
  destruct (scan_min_active n K (size_of m)) as (c & Esc & Hc & HcK);
    [by rewrite Ea|].
  rewrite Esc.
  set (s0 := upd_solver m 1 s).
  assert (Em0 : matrix s0 = m) by done.
  mstep_by s_column_get ltac:(rewrite Em0; lia).
  fold (size_of (matrix s0) c). rewrite Em0.
  destruct (decide (size_of m c = 0)) as [Hz|Hz].
  { eexists _, _. split; [reflexivity|].
    split_and!; [done| |done]. exists []. by rewrite app_nil_r. }
  destruct (cover_ev n G K H m c lf s0 HI Hc HcK Hlf Em0)
    as (s1 & Hrun1 & Em1 & Htr1 & Hsol1 & Hsols1).
  simpl in Htr1, Hsol1, Hsols1.
  rewrite (bind_Ret _ _ _ _ _ Hrun1). cbv beta.
  destruct (rows_facts n G K H m c HI Hc HcK) as (HI1 & Hnn1 & Hdl1).
  mstep_by s_node_get ltac:(rewrite Em1, Hnn1; lia).
  fold (Dn (matrix s1) (c + 1)). rewrite Em1, (dl_hd _ _ _ _ _ Hdl1).
  destruct (search_rows_ok n G lf find_all K H m c P (solution s)
              (search calls lf (depth + 1) find_all) HI Hc HcK Hlf HP)
    with (rest := filter (fun x => x ∉ H) (colnodes G c))
         (done := @nil Z) (fuel := lf) (found := false) (s := s1)
    as (ex & s2 & Hrun2 & Htr2 & (new & Hsols2 & Hnew) & Hex).
  { intros K' H' m' s' P' HI' Em' Hlf' Hact HP'.
    apply (IH K' H' m' s' P' (depth + 1) HI' Em' Hlf'); [|done].
    rewrite Ea in Hact. clear -Hact Hcalls. simpl in Hact, Hcalls. lia. }
  { done. }
  { done. }
  { done. }
  { by apply (column_length n G K H m c lf). }
  rewrite (bind_Ret _ _ _ _ _ Hrun2). cbv beta.
  destruct ex as [found|v].
  - destruct Hex as [Em2 Esol2].
    destruct (uncover_ev n G K H m c lf s2 HI Hc HcK Hlf Em2)
      as (s3 & Hrun3 & Em3 & Htr3 & Hsol3 & Hsols3).
    rewrite (bind_Ret _ _ _ _ _ Hrun3). cbv beta.
    eexists _, _. split; [reflexivity|].
    split_and!; [congruence| |].
    + exists new. by rewrite Hsols3, Hsols2, Hsols1.
    + intros _. split; [done|congruence].
  - destruct Hex as [-> Hfa].
    eexists _, _. split; [reflexivity|].
    split_and!; [congruence| |].
    + exists new. by rewrite Hsols2, Hsols1.
    + intros [?|?]; [done|congruence].
Qed.

(* ================================================================= *)
(** ** [solve] on a built matrix *)

Lemma exact_in_cover n rows G sol :
  ghost_of rows G -> exact_in G n sol -> exact_cover n rows sol.
Proof.
  intros Hg (P & HPG & HPsol & HPK).
  exists (map (fun g => (g.1, row_cols g)) P). split_and!.
  - apply Forall_forall. intros r (g & -> & Hin)%list_elem_of_fmap.
    assert (Hr : (g.1, row_cols g) ∈ map (fun g => (g.1, row_cols g)) G).
    { apply list_elem_of_fmap. exists g. split; [done|].
      by apply (proj1 (Forall_forall _ _) HPG). }
    unfold ghost_of in Hg. rewrite Hg in Hr.
    by apply list_elem_of_filter in Hr as [_ ?].
  - rewrite map_map. simpl. exact HPsol.
  - rewrite map_map. simpl. exact HPK.
Qed.

Lemma solve_ok n rows m tr lf find_all :
  valid_rows n rows -> build n rows = Ret tt m ->
  nnodes m <= Z.of_nat lf ->
  exists b s',
    search (S (Z.to_nat n)) lf 0 find_all (new_solver m tr) = Ret b s' /\
    solve (S (Z.to_nat n)) lf find_all (new_solver m tr)
    = Ret (solutions s') s' /\
    trace s' = tr /\
    Forall (exact_cover n rows) (solutions s') /\
    (b = false \/ find_all = true -> matrix s' = m).
Proof.
  intros Hv Hb Hlf.
  destruct (build_Built n rows m Hv Hb) as (G & HI & Hg).
  pose proof (active_length n G [] [] m HI) as Hal.
  destruct (search_ok n G lf find_all (S (Z.to_nat n)) [] [] m
              (new_solver m tr) [] 0 HI eq_refl Hlf)
    as (b & s' & Hrun & Htr & (new & Hsols & Hnew) & Hrest); [lia|done|].
  exists b, s'. split_and!.
  - exact Hrun.
  - unfold solve. erewrite bind_Ret by reflexivity. cbv beta.
    change (mkSolver (matrix (new_solver m tr)) (trace (new_solver m tr))
              [] [] 0) with (new_solver m tr).
    by rewrite (bind_Ret _ _ _ _ _ Hrun).
  - done.
  - rewrite Hsols. simpl. eapply Forall_impl; [exact Hnew|].
    intros sol. by apply exact_in_cover.
  - intros Hcase. by destruct (Hrest Hcase).
Qed.

(** C6: on a matrix of [n] columns built from valid rows, [solve]
    with nesting bound [n + 1] returns, and every solution it returns
    names rows given to [add_row] whose column lists together hold
    each of the columns [0 .. n-1] exactly once. *)
Theorem solve_returns_exact_covers n rows m tr lf find_all :
  valid_rows n rows -> build n rows = Ret tt m ->
  nnodes m <= Z.of_nat lf ->
  exists sols s',
    solve (S (Z.to_nat n)) lf find_all (new_solver m tr) = Ret sols s' /\
    Forall (exact_cover n rows) sols.
Proof.
  intros Hv Hb Hlf.
  destruct (solve_ok n rows m tr lf find_all Hv Hb Hlf)
    as (b & s' & _ & Hrun & _ & Hex & _).
  eauto.
Qed.

Lemma solve_returns_exact_covers_witness :
  exists sols s',
    solve (S (Z.to_nat 2)) 10 true (new_solver ex_matrix false)
    = Ret sols s' /\
    Forall (exact_cover 2 ex_rows) sols.
Proof.
  apply (solve_returns_exact_covers 2 ex_rows ex_matrix false 10 true).
  - exact ex_rows_valid.
  - vm_compute. reflexivity.
  - vm_compute. discriminate.
Defined.

(** C8: on a matrix of [n] columns built from valid rows, [search]
    returns when its calls may nest [n + 1] deep, the outermost call
    included: no call is ever made at depth [n + 1]. *)
Theorem search_depth_bounded_by_columns n rows m tr lf find_all :
  valid_rows n rows -> build n rows = Ret tt m ->
  nnodes m <= Z.of_nat lf ->
  exists b s',
    search (S (Z.to_nat n)) lf 0 find_all (new_solver m tr) = Ret b s'.
Proof.
  intros Hv Hb Hlf.
  destruct (solve_ok n rows m tr lf find_all Hv Hb Hlf)
    as (b & s' & Hrun & _).
  eauto.
Qed.

Lemma search_depth_bounded_by_columns_witness :
  exists b s',
    search (S (Z.to_nat 2)) 10 0 false (new_solver ex_matrix false)
    = Ret b s'.
Proof.
  apply (search_depth_bounded_by_columns 2 ex_rows ex_matrix false 10 false).
  - exact ex_rows_valid.
  - vm_compute. reflexivity.
  - vm_compute. discriminate.
Defined.

(** C8 as stated, for every matrix, fails: [add_row] accepts the rows
    [[0, 0]] and [[0]] on one column, and on the matrix built the
    search does not get by with calls nested 2 or 3 deep; nested 4 deep
    it returns, with a solution of three row ids for the one column.
    Each loop runs at most 20 times here, which the last run shows to be
    enough. *)
Lemma search_nests_deeper_than_columns :
  build 1 dup2_rows = Ret tt dup2_matrix /\
  search 2 20 0 true (new_solver dup2_matrix false) = Timeout /\
  search 3 20 0 true (new_solver dup2_matrix false) = Timeout /\
  exists b s',
    search 4 20 0 true (new_solver dup2_matrix false) = Ret b s' /\
    [1; 1; 0] ∈ solutions s'.
Proof.
  split; [vm_compute; reflexivity|].
  split; [vm_compute; reflexivity|].
  split; [vm_compute; reflexivity|].
  eexists _, _. split; [vm_compute; reflexivity|].
  simpl. set_solver.
Qed.

(** With [find_all] set, [solve] leaves the matrix as it found it, and
    a second [solve] returns the same solutions. *)
Theorem solve_all_restores n rows m tr lf :
  valid_rows n rows -> build n rows = Ret tt m ->
  nnodes m <= Z.of_nat lf ->
  exists sols s',
    solve (S (Z.to_nat n)) lf true (new_solver m tr) = Ret sols s' /\
    matrix s' = m /\
    solve (S (Z.to_nat n)) lf true s' = Ret sols s'.
Proof.
  intros Hv Hb Hlf.
  destruct (solve_ok n rows m tr lf true Hv Hb Hlf)
    as (b & s' & _ & Hrun & Htr & _ & Hrest).
  pose proof (Hrest (or_intror eq_refl)) as Em.
  exists (solutions s'), s'. split_and!; [done|done|].
  rewrite <- Hrun. unfold solve, bind, modify. simpl.
  by rewrite Htr, Em.
Qed.

Lemma solve_all_restores_witness :
  exists sols s',
    solve (S (Z.to_nat 2)) 10 true (new_solver ex_matrix false)
    = Ret sols s' /\
    matrix s' = ex_matrix /\
    solve (S (Z.to_nat 2)) 10 true s' = Ret sols s'.
Proof.
  apply (solve_all_restores 2 ex_rows ex_matrix false 10).
  - exact ex_rows_valid.
  - vm_compute. reflexivity.
  - vm_compute. discriminate.
Defined.

(* ================================================================= *)
(** ** Stopping at the first solution *)

(** C1: on the matrix with one column and the row [0: [0]],
    [solve(find_all=False)] returns the solution [[0]] and leaves the
    matrix with column 0 covered: the root's right link is 0 where it
    was 1, so the header list is not what it was before the call. *)
Theorem solve_first_leaves_matrix_covered :
  build 1 [(0, [0])] = Ret tt one_matrix /\
  solve 2 10 false (new_solver one_matrix false) = Ret [[0]] one_solved /\
  Rt one_matrix 0 = 1 /\ Rt (matrix one_solved) 0 = 0 /\
  matrix one_solved <> one_matrix.
Proof.
  split_and!; try (vm_compute; reflexivity).
  intros E. apply (f_equal (fun m => Rt m 0)) in E. vm_compute in E.
  discriminate.
Qed.

(** C2: on the same matrix a second [solve(find_all=False)] returns the
    single empty solution, where the first returned [[0]]. *)
Theorem solve_first_twice_differs :
  build 1 [(0, [0])] = Ret tt one_matrix /\
  solve 2 10 false (new_solver one_matrix false) = Ret [[0]] one_solved /\
  exists s2, solve 2 10 false one_solved = Ret [[]] s2.
Proof.
  split_and!; try (vm_compute; reflexivity).
  eexists. vm_compute. reflexivity.
Qed.

(* ================================================================= *)
(** ** The constructor and [add_row], start to end *)

Lemma dl_seq_inv nx pv k : 0 <= k -> forall a b,
  dl nx pv a (seqZ (a + 1) k) b ->
  (forall x, a <= x < a + k -> nx x = x + 1 /\ pv (x + 1) = x) /\
  nx (a + k) = b /\ pv b = a + k.
Proof.
  intros Hk. pattern k. apply natlike_ind; [| |done]; clear k Hk.
  - intros a b [H1 H2]. rewrite Z.add_0_r. split_and!; [|done..].
    intros x Hx. lia.
  - intros k Hk IH a b Hdl.
    rewrite seqZ_step in Hdl by lia. simpl in Hdl.
    replace (Z.succ k - 1) with k in Hdl by lia.
    destruct Hdl as (H1 & H2 & Hdl).
    destruct (IH (a + 1) b Hdl) as (Hs & Hn & Hp).
    split_and!.
    + intros x Hx. destruct (decide (x = a)) as [->|Hne]; [done|].
      apply Hs. lia.
    + rewrite <- Hn. f_equal. lia.
    + rewrite Hp. lia.
Qed.

(** [DancingLinksMatrix(n)] returns exactly for [n >= 1].  The matrix
    it returns has the root and one header per column, linked in a ring
    in column order, every column empty; for [n <= 0] it raises
    [IndexError]. *)
Theorem create_shape n :
  (1 <= n ->
   exists m, create n = Ret tt m /\
     num_columns m = n /\ nnodes m = n + 1 /\ ncols m = n /\
     (forall c, 0 <= c < n -> size_of m c = 0) /\
     (forall h, 0 <= h < n -> Rt m h = h + 1 /\ Lf m (h + 1) = h) /\
     Rt m n = 0 /\ Lf m 0 = n /\
     (forall h, 1 <= h <= n -> Up m h = h /\ Dn m h = h /\ Col m h = h)) /\
  (n <= 0 -> exists m, create n = Raise IndexError m).
Proof.
  split; [|apply create_nonpos].
  intros Hn. destruct (init_ok n Hn) as (m & Hrun & HI & Hnn & _ & Hsz).
  exists m. pose proof (inv_sv _ _ _ _ _ HI) as Hsv.
  pose proof (inv_hs _ _ _ _ _ HI) as Hhs. unfold HS in Hhs.
  rewrite filter_all in Hhs by (intros x _; apply not_elem_of_nil).
  destruct (dl_seq_inv _ _ n ltac:(lia) 0 0 Hhs) as (Hring & Hlast & Hfirst).
  simpl in Hlast, Hfirst.
  split_and!; [done|apply Hsv|done|apply Hsv|done| |done|done|].
  - intros h Hh. apply Hring. lia.
  - intros h Hh.
    destruct (inv_vs _ _ _ _ _ HI (h - 1)) as [Hdl _]; [lia|].
    replace (h - 1 + 1) with h in Hdl by lia.
    unfold colnodes, cells in Hdl. simpl in Hdl. destruct Hdl as [Hd Hu].
    split_and!; [done|done|]. apply (st_hdr _ _ _ Hsv). lia.
Qed.

Lemma create_shape_witness :
  (exists m, create 2 = Ret tt m /\
     num_columns m = 2 /\ nnodes m = 2 + 1 /\ ncols m = 2 /\
     (forall c, 0 <= c < 2 -> size_of m c = 0) /\
     (forall h, 0 <= h < 2 -> Rt m h = h + 1 /\ Lf m (h + 1) = h) /\
     Rt m 2 = 0 /\ Lf m 0 = 2 /\
     (forall h, 1 <= h <= 2 -> Up m h = h /\ Dn m h = h /\ Col m h = h)) /\
  (exists m, create (-1) = Raise IndexError m).
Proof.
  split.
  - apply (proj1 (create_shape 2)). lia.
  - apply (proj2 (create_shape (-1))). lia.
Defined.

Lemma hits_app n l1 l2 k : hits n (l1 ++ l2) k = hits n l1 k + hits n l2 k.
Proof. unfold hits. rewrite filter_app, length_app. lia. Qed.

Lemma add_rows_in n rows : forall m,
  addable n m -> Forall (fun r => Forall (fun c => - n <= c < n) r.2) rows ->
  exists m', add_rows rows m = Ret tt m' /\ addable n m' /\
    nnodes m' = nnodes m + Z.of_nat (length (concat (map snd rows))) /\
    (forall k, 0 <= k < n ->
       size_of m' k = size_of m k + hits n (concat (map snd rows)) k).
Proof.
  induction rows as [|[rid cols] rows IH]; intros m Ha Hr.
  - exists m. split_and!; try done; [simpl; lia|].
    intros k _. simpl. rewrite hits_nil. lia.
  - apply Forall_cons in Hr as [Hc Hr]. simpl in Hc.
    destruct (add_row_in n rid cols m Ha Hc) as (m1 & Hrun1 & Ha1 & Hn1 & Hs1).
    destruct (IH m1 Ha1 Hr) as (m' & Hrun & Ha' & Hn' & Hs').
    exists m'. split_and!; [|done| |].
    + simpl. by rewrite (bind_Ret _ _ _ _ _ Hrun1).
    + simpl. rewrite length_app, Hn', Hn1. lia.
    + intros k Hk. simpl. rewrite hits_app, Hs', Hs1 by done. lia.
Qed.

Lemma add_rows_Ret n rows : forall m m',
  addable n m -> add_rows rows m = Ret tt m' ->
  Forall (fun r => Forall (fun c => - n <= c < n) r.2) rows.
Proof.
  induction rows as [|[rid cols] rows IH]; intros m m' Ha Hrun; [done|].
  simpl in Hrun. unfold bind in Hrun.
  destruct (add_row rid cols m) as [[] m1| |] eqn:E; try done.
  apply (add_row_Ret n) in E as [Hc Ha1]; [|done].
  apply Forall_cons. split; [done|]. by apply (IH m1 m').
Qed.

(** [build] returns exactly when there is at least one column and every
    column index of every row lies within [-n, n). *)
Theorem build_returns_iff n rows :
  (exists m, build n rows = Ret tt m) <->
  1 <= n /\ Forall (fun r => Forall (fun c => - n <= c < n) r.2) rows.
Proof.
  split.
  - intros (m & Hb). split; [by apply (build_pos n rows m)|].
    unfold build, bind in Hb.
    destruct (init n blank) as [[] m0| |] eqn:E; try done.
    apply (add_rows_Ret n rows m0 m); [|done]. by apply create_addable.
  - intros [Hn Hr]. destruct (init_ok n Hn) as (m0 & Hrun & _).
    destruct (add_rows_in n rows m0 (create_addable n m0 Hrun) Hr)
      as (m & Hrun' & _).
    exists m. unfold build. unfold create in Hrun.
    by rewrite (bind_Ret _ _ _ _ _ Hrun).
Qed.

(** After [build], the node list holds the root, the headers and one
    node per column index given, and the size of each column is the
    number of indices that denote it. *)
Theorem build_counts n rows m :
  build n rows = Ret tt m ->
  nnodes m = n + 1 + Z.of_nat (length (concat (map snd rows))) /\
  ncols m = n /\
  (forall k, 0 <= k < n -> size_of m k = hits n (concat (map snd rows)) k).
Proof.
  intros Hb. pose proof (build_pos n rows m Hb) as Hn.
  destruct (proj1 (build_returns_iff n rows)) as [_ Hr]; [eauto|].
  destruct (init_ok n Hn) as (m0 & Hrun & _ & Hnn0 & _ & Hsz0).
  destruct (add_rows_in n rows m0 (create_addable n m0 Hrun) Hr)
    as (m' & Hrun' & Ha' & Hnn' & Hsz').
  unfold build in Hb. unfold create in Hrun.
  rewrite (bind_Ret _ _ _ _ _ Hrun), Hrun' in Hb. inversion Hb; subst m'.
  split_and!.
  - rewrite Hnn', Hnn0. done.
  - apply Ha'.
  - intros k Hk. rewrite Hsz', Hsz0 by done. lia.
Qed.

Lemma build_counts_witness :
  nnodes ex_matrix = 2 + 1 + Z.of_nat (length (concat (map snd ex_rows))) /\
  ncols ex_matrix = 2 /\
  (forall k, 0 <= k < 2 ->
     size_of ex_matrix k = hits 2 (concat (map snd ex_rows)) k).
Proof.
  apply (build_counts 2 ex_rows ex_matrix). vm_compute. reflexivity.
Defined.

(* ================================================================= *)
(** ** Nested covers and their undoing *)

Lemma covers_ev n G lf : forall Ks K H m s,
  Inv n G K H m -> matrix s = m -> NoDup (Ks ++ K) ->
  Forall (fun c => 0 <= c < n) Ks -> nnodes m <= Z.of_nat lf ->
  exists s', covers lf Ks s = Ret tt s' /\
             matrix s' = (covereds G Ks H m).2 /\ evolves s s'.
Proof.
  induction Ks as [|c Ks IH]; intros K H m s HI Es Hnd Hr Hlf.
  - exists s. split_and!; done.
  - apply Forall_cons in Hr as [Hc Hr]. simpl in Hnd.
    apply NoDup_cons in Hnd as [HcK Hnd].
    assert (HcK' : c ∉ K) by set_solver.
    destruct (cover_ev n G K H m c lf s HI Hc HcK' Hlf Es)
      as (s1 & Hrun1 & Em1 & Hev1).
    pose proof (covered_Inv n G K H m c HI Hc HcK') as HI1.
    destruct (covered_frame n G K H m c HI Hc HcK') as (Hnn1 & _).
    destruct (IH (c :: K) _ _ s1 HI1 Em1) as (s' & Hrun & Em & Hev);
      [|done|by rewrite Hnn1|].
    { apply NoDup_app in Hnd as (Hn1 & Hd & Hn2).
      apply NoDup_app. split_and!; [done| |by apply NoDup_cons].
      intros x Hx [->|HxK]%elem_of_cons; [set_solver|]. by apply (Hd x). }
    exists s'. split_and!; [|done|by eapply evolves_trans].
    simpl. by rewrite (bind_Ret _ _ _ _ _ Hrun1).
Qed.

Lemma uncovers_app lf l1 l2 s :
  uncovers lf (l1 ++ l2) s = (uncovers lf l1 ;; uncovers lf l2) s.
Proof.
  revert s. induction l1 as [|c l1 IH]; intros s; [done|].
  simpl. unfold bind.
  destruct (uncover lf c s) as [[] s1|e s1|]; [|done|done].
  rewrite IH. reflexivity.
Qed.

Lemma uncovers_ev n G lf : forall Ks K H m s,
  Inv n G K H m -> NoDup (Ks ++ K) ->
  Forall (fun c => 0 <= c < n) Ks -> nnodes m <= Z.of_nat lf ->
  matrix s = (covereds G Ks H m).2 ->
  exists s', uncovers lf (rev Ks) s = Ret tt s' /\ matrix s' = m /\
             evolves s s'.
Proof.
  induction Ks as [|c Ks IH]; intros K H m s HI Hnd Hr Hlf Es.
  - exists s. split_and!; done.
  - apply Forall_cons in Hr as [Hc Hr]. simpl in Hnd.
    apply NoDup_cons in Hnd as [HcK Hnd].
    assert (HcK' : c ∉ K) by set_solver.
    pose proof (covered_Inv n G K H m c HI Hc HcK') as HI1.
    destruct (covered_frame n G K H m c HI Hc HcK') as (Hnn1 & _).
    destruct (IH (c :: K) _ _ s HI1) as (s1 & Hrun1 & Em1 & Hev1);
      [|done|by rewrite Hnn1|exact Es|].
    { apply NoDup_app in Hnd as (Hn1 & Hd & Hn2).
      apply NoDup_app. split_and!; [done| |by apply NoDup_cons].
      intros x Hx [->|HxK]%elem_of_cons; [set_solver|]. by apply (Hd x). }
    destruct (uncover_ev n G K H m c lf s1 HI Hc HcK' Hlf Em1)
      as (s2 & Hrun2 & Em2 & Hev2).
    exists s2. split_and!; [|done|by eapply evolves_trans].
    simpl rev. rewrite uncovers_app, (bind_Ret _ _ _ _ _ Hrun1).
    simpl. by rewrite (bind_Ret _ _ _ _ _ Hrun2).
Qed.

(** On a matrix built from valid rows, covering distinct columns one
    after the other and then uncovering them in the reverse order
    returns and gives back the matrix as built. *)
Theorem covers_uncovers_restore n rows m tr lf Ks :
  valid_rows n rows -> build n rows = Ret tt m ->
  NoDup Ks -> Forall (fun k => 0 <= k < n) Ks ->
  nnodes m <= Z.of_nat lf ->
  exists s1 s2, covers lf Ks (new_solver m tr) = Ret tt s1 /\
    uncovers lf (rev Ks) s1 = Ret tt s2 /\ matrix s2 = m.
Proof.
  intros Hv Hb Hnd Hr Hlf.
  destruct (build_Built n rows m Hv Hb) as (G & HI & _).
  assert (Hnd' : NoDup (Ks ++ [])) by (by rewrite app_nil_r).
  destruct (covers_ev n G lf Ks [] [] m (new_solver m tr) HI eq_refl Hnd' Hr Hlf)
    as (s1 & Hrun1 & Em1 & _).
  destruct (uncovers_ev n G lf Ks [] [] m s1 HI Hnd' Hr Hlf Em1)
    as (s2 & Hrun2 & Em2 & _).
  eauto.
Qed.

Lemma covers_uncovers_restore_witness :
  exists s1 s2, covers 10 [1; 0] (new_solver ex_matrix false) = Ret tt s1 /\
    uncovers 10 (rev [1; 0]) s1 = Ret tt s2 /\ matrix s2 = ex_matrix.
Proof.
  apply (covers_uncovers_restore 2 ex_rows ex_matrix false 10 [1; 0]).
  - exact ex_rows_valid.
  - vm_compute. reflexivity.
  - compute_done.
  - compute_done.
  - vm_compute. discriminate.
Defined.

(* ================================================================= *)
(** ** The shape of every state the search goes through *)

(** After nested covers of the distinct columns [Ks] on a matrix built
    from valid rows: the header list, read from the root, holds exactly
    the uncovered columns in ascending order, and the vertical list of
    every column is a ring through its header whose nodes are distinct
    nodes of that column, as many as the column's size says. *)
Theorem reached_state_shape n rows m tr lf Ks s :
  valid_rows n rows -> build n rows = Ret tt m ->
  NoDup Ks -> Forall (fun k => 0 <= k < n) Ks ->
  nnodes m <= Z.of_nat lf ->
  covers lf Ks (new_solver m tr) = Ret tt s ->
  dl (Rt (matrix s)) (Lf (matrix s)) 0
     (filter (fun h => h - 1 ∉ Ks) (seqZ 1 n)) 0 /\
  (forall c, 0 <= c < n ->
     exists L, dl (Dn (matrix s)) (Up (matrix s)) (c + 1) L (c + 1) /\
       size_of (matrix s) c = Z.of_nat (length L) /\ NoDup L /\
       (forall x, x ∈ L -> n + 1 <= x < nnodes (matrix s) /\
                           Col (matrix s) x = c + 1)).
Proof.
  intros Hv Hb Hnd Hr Hlf Hcov.
  destruct (reached_Inv n rows m tr lf Ks s Hv Hb Hnd Hr Hlf Hcov)
    as (G & H & _ & HI & Hnn).
  pose proof (inv_sv _ _ _ _ _ HI) as Hsv. split.
  - pose proof (inv_hs _ _ _ _ _ HI) as Hhs. unfold HS in Hhs.
    erewrite filter_ext_in; [exact Hhs|].
    apply Forall_forall. intros h _. simpl. by rewrite elem_of_rev.
  - intros c Hc. destruct (inv_vs _ _ _ _ _ HI c Hc) as [Hdl Hsz].
    eexists. split_and!; [exact Hdl|exact Hsz| |].
    + apply NoDup_filter, NoDup_colnodes, Hsv.
    + intros x [_ Hx]%list_elem_of_filter. apply elem_colnodes in Hx.
      destruct (cell_node _ _ _ _ _ Hsv Hx) as (? & _ & ?). done.
Qed.

Lemma reached_state_shape_witness :
  dl (Rt (matrix ex_state)) (Lf (matrix ex_state)) 0
     (filter (fun h => h - 1 ∉ [0]) (seqZ 1 2)) 0 /\
  (forall c, 0 <= c < 2 ->
     exists L, dl (Dn (matrix ex_state)) (Up (matrix ex_state)) (c + 1) L
                  (c + 1) /\
       size_of (matrix ex_state) c = Z.of_nat (length L) /\ NoDup L /\
       (forall x, x ∈ L -> 2 + 1 <= x < nnodes (matrix ex_state) /\
                           Col (matrix ex_state) x = c + 1)).
Proof.
  apply (reached_state_shape 2 ex_rows ex_matrix false 10 [0] ex_state).
  - exact ex_rows_valid.
  - vm_compute. reflexivity.
  - compute_done.
  - compute_done.
  - vm_compute. discriminate.
  - vm_compute. reflexivity.
Defined.

(** On such a state [choose_column] returns [None] exactly when every
    column is covered; it never changes the matrix. *)
Theorem choose_column_none_iff n rows m tr lf Ks s :
  valid_rows n rows -> build n rows = Ret tt m ->
  NoDup Ks -> Forall (fun k => 0 <= k < n) Ks ->
  nnodes m <= Z.of_nat lf ->
  covers lf Ks (new_solver m tr) = Ret tt s ->
  exists r s', choose_column lf s = Ret r s' /\ matrix s' = matrix s /\
    (r = None <-> forall c, 0 <= c < n -> c ∈ Ks).
Proof.
  intros Hv Hb Hnd Hr Hlf Hcov.
  destruct (reached_Inv n rows m tr lf Ks s Hv Hb Hnd Hr Hlf Hcov)
    as (G & H & _ & HI & Hnn).
  assert (Hlf' : nnodes (matrix s) <= Z.of_nat lf) by lia.
  pose proof (choose_column_ok n G _ H _ HI lf s eq_refl Hlf') as Hrun.
  eexists _, _. split; [exact Hrun|]. split; [done|].
  split.
  - intros En c Hc. destruct (decide (c ∈ Ks)) as [|Hn]; [done|].
    destruct (scan_min_active n (rev Ks) (size_of (matrix s)))
      as (c' & Esc & _); [|congruence].
    intros Ea.
    assert (Hin : c + 1 ∈ active n (rev Ks)).
    { apply active_elem. split; [lia|].
      replace (c + 1 - 1) with c by lia. by rewrite elem_of_rev. }
    rewrite Ea in Hin. by apply elem_of_nil in Hin.
  - intros Hall.
    assert (Ea : active n (rev Ks) = []).
    { apply elem_of_nil_inv. intros h [Hh Hk]%active_elem.
      apply Hk. rewrite elem_of_rev. apply Hall. lia. }
    by rewrite Ea.
Qed.

Lemma choose_column_none_iff_witness :
  exists r s', choose_column 10 ex_state = Ret r s' /\
    matrix s' = matrix ex_state /\
    (r = None <-> forall c, 0 <= c < 2 -> c ∈ [0]).
Proof.
  apply (choose_column_none_iff 2 ex_rows ex_matrix false 10 [0] ex_state).
  - exact ex_rows_valid.
  - vm_compute. reflexivity.
  - compute_done.
  - compute_done.
  - vm_compute. discriminate.
  - vm_compute. reflexivity.
Defined.

(* ================================================================= *)
(** ** Selections of rows that complete a partial cover *)

Lemma distinct_perm_app {A} (l1 l2 : list (list A)) :
  distinct_perm (l1 ++ l2) <->
  distinct_perm l1 /\ distinct_perm l2 /\
  (forall x y, x ∈ l1 -> y ∈ l2 -> ~ x ≡ₚ y).
Proof.
  induction l1 as [|a l1 IH]; simpl.
  - split; [intros ?; split_and!; [done|done|]|tauto].
    intros x y Hx. by apply elem_of_nil in Hx.
  - rewrite IH. split.
    + intros (Ha & H1 & H2 & H12). split_and!; [|done|done|].
      * intros y Hy. apply Ha. set_solver.
      * intros x y [->|Hx]%elem_of_cons Hy; [|by apply H12].
        apply Ha. set_solver.
    + intros ((Ha & H1) & H2 & H12). split_and!; [|done|done|].
      * intros y [Hy|Hy]%elem_of_app; [by apply Ha|].
        apply H12; [set_solver|done].
      * intros x y Hx Hy. apply H12; [set_solver|done].
Qed.

Lemma distinct_perm_cons_map {A} (g : A) (l : list (list A)) :
  distinct_perm l -> distinct_perm (map (cons g) l).
Proof.
  induction l as [|x l IH]; simpl; [done|].
  intros [Hx Hl]. split; [|auto].
  intros y (z & -> & Hz)%list_elem_of_fmap Hp.
  apply (Hx z Hz). by apply Permutation_cons_inv in Hp.
Qed.

Lemma completes_NoDup G n K R :
  completes G n K R -> NoDup (concat (map row_cols R) ++ K).
Proof. intros [_ Hp]. rewrite Hp. apply NoDup_seqZ. Qed.

Lemma completes_perm G n K R R' :
  R' ≡ₚ R -> completes G n K R -> completes G n K R'.
Proof.
  intros Hp [HG Hc]. split.
  - by rewrite Hp.
  - by rewrite Hp.
Qed.

Section Completes.
Context (n : Z) (G : list grow) (K H : list Z) (m : DancingLinksMatrix).
Hypothesis HI : Inv n G K H m.

(** With every column covered only the empty selection completes. *)
Lemma completes_full R :
  active n K = [] -> completes G n K R -> R = [].
Proof using HI.
  intros Ea [HG Hp].
  pose proof (all_covered n G K H m HI Ea) as HK.
  apply Permutation_length in Hp, HK.
  rewrite length_app in Hp.
  assert (Hl : length (concat (map row_cols R)) = 0%nat) by lia.
  destruct R as [|g R]; [done|]. exfalso.
  apply Forall_cons in HG as [Hg _].
  destruct (inv_sh _ _ _ _ _ HI g Hg) as [Hne _].
  simpl in Hl. rewrite length_app in Hl.
  unfold row_cols in Hl. rewrite length_map in Hl.
  destruct g.2; [done|]. simpl in Hl. lia.
Qed.

(** A selection that completes [K] has a row through every uncovered
    column, and that row's node in the column is still linked. *)
Lemma completes_find R c :
  completes G n K R -> 0 <= c < n -> c ∉ K ->
  exists g x, g ∈ R /\ g ∈ G /\ (x, c) ∈ g.2 /\
              x ∈ filter (fun x => x ∉ H) (colnodes G c).
Proof using HI.
  intros HR Hc HcK. pose proof (completes_NoDup _ _ _ _ HR) as Hnd.
  destruct HR as [HG Hp].
  assert (Hin : c ∈ concat (map row_cols R) ++ K).
  { rewrite Hp. apply elem_of_seqZ. lia. }
  apply elem_of_app in Hin as [Hin|Hin]; [|done].
  apply elem_of_concat in Hin as (l & Hcl & Hl).
  apply list_elem_of_fmap in Hl as (g & -> & Hg).
  pose proof (proj1 (Forall_forall _ _) HG g Hg) as HgG.
  apply row_cols_elem in Hcl as (x & Hx).
  exists g, x. split_and!; [done..|].
  apply list_elem_of_filter. split.
  - intros HxH.
    destruct (inv_rows _ _ _ _ _ HI g x c HgG Hx) as [Hhid _].
    destruct (Hhid HxH) as (c' & Hc' & Hc'K).
    apply NoDup_app in Hnd as (_ & Hd & _). apply (Hd c'); [|done].
    apply elem_of_concat. exists (row_cols g). split; [done|].
    apply list_elem_of_fmap. eauto.
  - apply elem_colnodes, elem_cells. exists g. split; [exact HgG|done].
Qed.
End Completes.

(** Choosing the row [g] through [x] and covering its columns turns
    the selections that complete the new cover into those that complete
    the old one and hold [g]. *)
Lemma completes_step n G K H1 m1 g x c R1 :
  Inv n G (c :: K) H1 m1 -> g ∈ G -> (x, c) ∈ g.2 ->
  let Ks := map (fun j => Col m1 j - 1) (others x (row_nodes g)) in
  completes G n (rev Ks ++ c :: K) R1 <-> completes G n K (g :: R1).
Proof.
  intros HI1 Hg Hxc Ks.
  assert (Hxr : x ∈ row_nodes g) by (apply row_nodes_elem; eauto).
  pose proof (row_cols_perm n G (c :: K) H1 m1 g x HI1 Hg Hxr) as Hrp.
  destruct (st_cell _ _ _ (inv_sv _ _ _ _ _ HI1) g x c Hg Hxc)
    as (_ & _ & Hcolx & _).
  cbv beta in Hrp.
  rewrite Hcolx in Hrp. replace (c + 1 - 1) with c in Hrp by lia.
  fold Ks in Hrp.
  assert (E : concat (map row_cols (g :: R1)) ++ K
              ≡ₚ concat (map row_cols R1) ++ rev Ks ++ c :: K).
  { transitivity (c :: Ks ++ concat (map row_cols R1) ++ K).
    { simpl. rewrite Hrp. simpl. by rewrite <- app_assoc. }
    rewrite <- (Permutation_rev Ks).
    rewrite (Permutation_app_comm (concat (map row_cols R1)) (Ks ++ c :: K)).
    rewrite <- app_assoc. simpl. rewrite <- Permutation_middle.
    apply Permutation_skip, Permutation_app_head, Permutation_app_comm. }
  unfold completes. rewrite E, Forall_cons. tauto.
Qed.

Lemma map_cons_solutions (sol0 : list Z) (g : grow) (Rs : list (list grow)) :
  map (fun R => sol0 ++ map fst R) (map (cons g) Rs)
  = map (fun R => (sol0 ++ [g.1]) ++ map fst R) Rs.
Proof.
  rewrite map_map. apply map_ext. intros R. simpl.
  by rewrite <- app_assoc.
Qed.

Lemma map_cons_nil {A} (g : A) (Rs : list (list A)) :
  map (cons g) Rs = [] <-> Rs = [].
Proof. destruct Rs; simpl; split; congruence. Qed.

(* ================================================================= *)
(** ** The loop over the rows of the chosen column, in full *)

Section Rows2.
Context (n : Z) (G : list grow) (lf : nat) (find_all : bool).
Context (K H : list Z) (m : DancingLinksMatrix) (c : Z).
Context (sol0 : list Z) (recurse : M DLXSolver bool).
Hypothesis HI : Inv n G K H m.
Hypothesis Hc : 0 <= c < n.
Hypothesis HcK : c ∉ K.
Hypothesis Hlf : nnodes m <= Z.of_nat lf.
Hypothesis Hrec : forall K' H' m' s',
  Inv n G K' H' m' -> matrix s' = m' -> nnodes m' <= Z.of_nat lf ->
  (length (active n K') < length (active n K))%nat ->
  exists b s'', recurse s' = Ret b s'' /\
                search_post2 find_all n G K' m' s' b s''.

Let Lc := filter (fun x => x ∉ H) (colnodes G c).
Let m1 := covered G H c m.
Let H1 := trace_of G H c ++ H.

(** What the loop has done when it is left, having started with the
    rows [rest] to go. *)
Definition rows_post (rest : list Z) (found : bool) (s : DLXSolver)
    (ex : loop_exit) (s' : DLXSolver) (Rs : list (list grow)) : Prop :=
  trace s' = trace s /\
  solutions s' = solutions s ++ map (fun R => sol0 ++ map fst R) Rs /\
  Forall (fun R => completes G n K R /\
            exists g x R1, R = g :: R1 /\ x ∈ rest /\ (x, c) ∈ g.2) Rs /\
  distinct_perm Rs /\
  (find_all = false -> (length Rs <= 1)%nat) /\
  (forall R g0 x0, completes G n K R -> g0 ∈ R -> (x0, c) ∈ g0.2 ->
     x0 ∈ rest ->
     Rs <> [] /\ (find_all = true -> exists R', R' ∈ Rs /\ R' ≡ₚ R)) /\
  match ex with
  | Fallthrough f =>
      matrix s' = m1 /\ solution s' = sol0 /\
      (f = true <-> found = true \/ Rs <> []) /\
      (find_all = false -> Rs = [])
  | Returned v => v = true /\ find_all = false /\ Rs <> []
  end.

Lemma search_rows_ok2 : forall rest done fuel found s,
  Lc = done ++ rest -> matrix s = m1 -> solution s = sol0 ->
  (length rest < fuel)%nat ->
  exists ex s' Rs,
    search_rows lf recurse find_all (c + 1) fuel found (hd (c + 1) rest) s
    = Ret ex s' /\
    rows_post rest found s ex s' Rs.
Proof using HI Hc HcK Hlf Hrec.
  destruct (rows_facts n G K H m c HI Hc HcK) as (HI1 & Hnn1 & Hdl1).
  fold m1 H1 Lc in HI1, Hnn1, Hdl1.
  assert (HndL : NoDup Lc).
  { apply NoDup_filter, NoDup_colnodes, HI. }
  induction rest as [|x rest IH]; intros done fuel found s EL Em Esol Hfuel.
  { destruct fuel; [simpl in Hfuel; lia|]. simpl.
    rewrite decide_True by done. eexists _, _, []. split; [reflexivity|].
    unfold rows_post. simpl. rewrite app_nil_r.
    split_and!; try done.
    - intros _. lia.
    - intros R g0 x0 _ _ _ Hx0. by apply elem_of_nil in Hx0.
    - split; [by left|]. by intros [?|?]. }
  destruct fuel as [|fuel]; [simpl in Hfuel; lia|]. simpl in Hfuel.
  assert (HxL : x ∈ Lc) by (rewrite EL; set_solver).
  assert (Hxrest : x ∉ rest).
  { rewrite EL in HndL. apply NoDup_app in HndL as (_ & _ & Hnd2).
    by apply NoDup_cons in Hnd2 as [? _]. }
  destruct (live_row n G K H m c HI Hc HcK x HxL)
    as (g & Hg & Hxc & Er & Hndg & Hlive).
  assert (Hxr : x ∈ row_nodes g) by (apply row_nodes_elem; eauto).
  destruct (st_cell _ _ _ (inv_sv _ _ _ _ _ HI1) g x c Hg Hxc)
    as (Hxrange & _ & Hcolx & Hrwx).
  pose proof (st_cols _ _ _ (inv_sv _ _ _ _ _ HI) g Hg) as Hndc.
  assert (Hfree : forall y cy, (y, cy) ∈ g.2 -> y <> x -> cy ∉ c :: K).
  { intros y cy Hy Hne [->|HcyK]%elem_of_cons.
    - apply Hne.
      assert (E2 : (y, c) = (x, c)) by (by apply (NoDup_fmap_eq snd g.2)).
      by inversion E2.
    - by destruct (Hlive y cy Hy). }
  set (Ks := map (fun j => Col m1 j - 1) (others x (row_nodes g))).
  destruct (covereds_Inv n G Ks (c :: K) H1 m1 HI1) as [HI2 Hnn2].
  { by apply (Ks_NoDup n G (c :: K) H1 m1 g x). }
  { by apply (Ks_range n G (c :: K) H1 m1 g x). }
  set (H2 := (covereds G Ks H1 m1).1) in *.
  set (m2 := (covereds G Ks H1 m1).2) in *.
  pose proof (completes_step n G K H1 m1 g x c) as Hstep.
  cbv zeta in Hstep. fold Ks in Hstep.
  simpl hd. simpl search_rows.
  rewrite decide_False by lia.
  mstep_by s_node_at ltac:(rewrite Em; lia).
  mstep_by s_node_get ltac:(rewrite Em; lia).
  fold (Rw (matrix s) x). rewrite Em, Hrwx.
  mtick.
  set (s2 := mkSolver (matrix s) (trace s) (solution s ++ [g.1])
               (solutions s) (operations s)).
  assert (Em2 : matrix s2 = m1) by exact Em.
  mstep_by s_node_get ltac:(rewrite Em2; lia).
  fold (Rt (matrix s2) x). rewrite Em2.
  destruct (cover_others_ok n G (c :: K) H1 m1 g x HI1 Hg Hxr Hfree lf
              ltac:(lia) s2 Em2) as (s3 & Hrun3 & Em3 & Hev3).
  rewrite (bind_Ret _ _ _ _ _ Hrun3). cbv beta.
  fold Ks in Em3. fold m2 in Em3.
  destruct Hev3 as (Htr3 & Hsol3 & Hsols3). simpl in Htr3, Hsol3, Hsols3.
  rewrite Esol in Hsol3.
  destruct (Hrec (rev Ks ++ c :: K) H2 m2 s3 HI2 Em3)
    as (b & s4 & Hrun4 & Htr4 & Hrest4 & Rs4 & Hsols4 & Hall4 & Hdis4 &
        Hb4 & Hlen4 & Hcomp4).
  { lia. }
  { apply (active_shrinks n K _ c); [done|done|set_solver|set_solver]. }
  rewrite Hsol3 in Hsols4. rewrite <- map_cons_solutions in Hsols4.
  set (RsA := map (cons g) Rs4) in *.
  assert (HallA : Forall (fun R => completes G n K R /\
            exists g x0 R1, R = g :: R1 /\ x0 ∈ x :: rest /\ (x0, c) ∈ g.2)
            RsA).
  { apply Forall_forall. intros R (R1 & -> & HR1)%list_elem_of_fmap.
    split.
    - apply Hstep; [done..|]. by apply (proj1 (Forall_forall _ _) Hall4).
    - exists g, x, R1. split_and!; [done|set_solver|done]. }
  assert (HdisA : distinct_perm RsA) by (by apply distinct_perm_cons_map).
  assert (HnilA : RsA = [] <-> Rs4 = []) by apply map_cons_nil.
  assert (HcompA : forall R g0, completes G n K R -> g0 ∈ R ->
            (x, c) ∈ g0.2 ->
            RsA <> [] /\ (find_all = true -> exists R', R' ∈ RsA /\ R' ≡ₚ R)).
  { intros R g0 HR Hg0 Hx0.
    assert (Hg0G : g0 ∈ G) by (by apply (proj1 (Forall_forall _ _) (proj1 HR))).
    assert (g0 = g); [|subst g0].
    { apply (row_unique G g0 g x); [apply HI|done|done| |done].
      apply row_nodes_elem. eauto. }
    apply elem_of_Permutation in Hg0 as (R1 & HpR).
    assert (HR1 : completes G n (rev Ks ++ c :: K) R1).
    { apply Hstep; [done..|]. apply (completes_perm G n K R); [|done].
      by symmetry. }
    destruct (Hcomp4 R1 HR1) as [Hne4 Hfind4]. split; [tauto|].
    intros Hfa. destruct (Hfind4 Hfa) as (R' & HR' & Hp').
    exists (g :: R'). split.
    - apply list_elem_of_fmap. eauto.
    - rewrite HpR. by apply Permutation_skip. }
  rewrite (bind_Ret _ _ _ _ _ Hrun4). cbv beta.
  destruct (b && negb find_all) eqn:Eb.
  { apply andb_true_iff in Eb as [-> Hfa%negb_true_iff].
    eexists _, _, RsA. split; [reflexivity|].
    assert (Hne : RsA <> []) by (rewrite HnilA; by apply Hb4).
    unfold rows_post. split_and!; try done.
    - congruence.
    - by rewrite Hsols4, Hsols3.
    - intros _. unfold RsA. rewrite length_map. auto.
    - intros R g0 x0 _ _ _ _. split; [done|congruence]. }
  assert (Hcase : b = false \/ find_all = true).
  { destruct b, find_all; simpl in Eb; auto; discriminate. }
  destruct (Hrest4 Hcase) as [Em4 Esol4].
  rewrite Hsol3 in Esol4.
  rewrite (bind_Ret _ _ _ _ _ (solution_pop_ok s4 _ _ Esol4)). cbv beta.
  set (s5 := mkSolver (matrix s4) (trace s4) sol0 (solutions s4)
               (operations s4)).
  assert (Em5 : matrix s5 = m2) by exact Em4.
  mstep_by s_node_get ltac:(rewrite Em5, Hnn2; lia).
  fold (Lf (matrix s5) x).
  destruct (uncover_others_ok n G (c :: K) H1 m1 g x HI1 Hg Hxr Hfree lf
              ltac:(lia) s5 Em5) as (s6 & Hrun6 & Em6 & Hev6).
  rewrite (bind_Ret _ _ _ _ _ Hrun6). cbv beta.
  destruct Hev6 as (Htr6 & Hsol6 & Hsols6). simpl in Htr6, Hsol6, Hsols6.
  mstep_by s_node_get ltac:(rewrite Em6; lia).
  fold (Dn (matrix s6) x). rewrite Em6.
  rewrite EL in Hdl1. rewrite (dl_next _ _ _ _ _ _ _ Hdl1).
  destruct (IH (done ++ [x]) fuel (if b then true else found) s6)
    as (ex & s7 & Rs7 & Hrun7 & Htr7 & Hsols7 & Hall7 & Hdis7 & Hlen7 &
        Hcomp7 & Hex7);
    [by rewrite <- app_assoc|done|done|lia|].
  assert (HnilA' : find_all = false -> RsA = []).
  { intros Hfa. apply HnilA. destruct Rs4 as [|R4 Rs4']; [done|].
    destruct Hcase as [Hbf|?]; [|congruence].
    assert (b = true) by (by apply Hb4). congruence. }
  exists ex, s7, (RsA ++ Rs7). split; [exact Hrun7|].
  unfold rows_post. split_and!.
  - congruence.
  - rewrite Hsols7, Hsols6. simpl. rewrite Hsols4, Hsols3.
    by rewrite map_app, <- app_assoc.
  - apply Forall_app. split; [done|].
    eapply Forall_impl; [exact Hall7|].
    intros R [HR (g' & x' & R1 & -> & Hx' & Hxc')]. split; [done|].
    exists g', x', R1. split_and!; [done|set_solver|done].
  - apply distinct_perm_app. split_and!; [done..|].
    intros a b' (R1 & -> & HR1)%list_elem_of_fmap Hb' Hp.
    destruct (proj1 (Forall_forall _ _) Hall7 b' Hb')
      as [HRb (g' & x' & R1' & -> & Hx' & Hxc')].
    assert (Hg' : g' ∈ g :: R1) by (rewrite Hp; set_solver).
    apply elem_of_cons in Hg' as [->|Hg'].
    + assert (E2 : (x', c) = (x, c)) by (by apply (NoDup_fmap_eq snd g.2)).
      inversion E2; subst x'. done.
    + pose proof (proj1 (Forall_forall _ _) Hall4 R1 HR1) as HR1c.
      pose proof (completes_NoDup _ _ _ _ HR1c) as Hnd.
      apply NoDup_app in Hnd as (_ & Hd & _). apply (Hd c).
      * apply elem_of_concat. exists (row_cols g'). split.
        -- apply row_cols_elem. eauto.
        -- apply list_elem_of_fmap. eauto.
      * set_solver.
  - intros Hfa. rewrite (HnilA' Hfa). simpl. auto.
  - intros R g0 x0 HR Hg0 Hx0 [->|Hx0r]%elem_of_cons.
    + destruct (HcompA R g0 HR Hg0 Hx0) as [Hne Hfind]. split.
      * destruct RsA; [done|]. done.
      * intros Hfa. destruct (Hfind Hfa) as (R' & HR' & Hp').
        exists R'. split; [set_solver|done].
    + destruct (Hcomp7 R g0 x0 HR Hg0 Hx0 Hx0r) as [Hne Hfind]. split.
      * intros E. apply app_eq_nil in E as [_ ?]. done.
      * intros Hfa. destruct (Hfind Hfa) as (R' & HR' & Hp').
        exists R'. split; [set_solver|done].
  - destruct ex as [f|v].
    + destruct Hex7 as (Em7 & Esol7 & Hf7 & Hnil7).
      split_and!; [done|done| |].
      * rewrite Hf7. destruct b.
        -- assert (Rs4 <> []) by (by apply Hb4).
           split; [intros _|auto]. right. intros E.
           apply app_eq_nil in E as [E _]. by apply HnilA in E.
        -- assert (RsA = []) as ->.
           { apply HnilA. destruct Rs4; [done|].
             assert (false = true) by (by apply Hb4). done. }
           done.
      * intros Hfa. by rewrite (HnilA' Hfa), (Hnil7 Hfa).
    + destruct Hex7 as (-> & Hfa & Hne7). split_and!; [done|done|].
      intros E. apply app_eq_nil in E as [_ ?]. done.
Qed.
End Rows2.

(* ================================================================= *)
(** ** [search], in full *)

Lemma search_ok2 n G lf find_all : forall calls K H m s depth,
  Inv n G K H m -> matrix s = m -> nnodes m <= Z.of_nat lf ->
  (length (active n K) < calls)%nat ->
  exists b s', search calls lf depth find_all s = Ret b s' /\
               search_post2 find_all n G K m s b s'.
Proof.
  induction calls as [|calls IH]; intros K H m s depth HI Em Hlf Hcalls;
    [lia|].
  pose proof (inv_sv _ _ _ _ _ HI) as Hsv.
  pose proof (st_n _ _ _ Hsv) as Hn1.
  pose proof (st_nnodes _ _ _ Hsv) as Hnn.
  pose proof (st_ncols _ _ _ Hsv) as Hnc.
  simpl search.
  mstep_by s_node_at ltac:(rewrite Em; lia).
  mstep_by s_node_get ltac:(rewrite Em; lia).
  fold (Rt (matrix s) 0). rewrite Em, (root_right n G K H m HI).
  destruct (active n K) as [|h l] eqn:Ea.
  { simpl hd. rewrite decide_True by done.
    mtick. eexists _, _. split; [reflexivity|].
    split_and!; [done|done|].
    exists [[]]. simpl. rewrite app_nil_r. split_and!; try done.
    - apply Forall_singleton. split; [done|]. simpl.
      by apply (all_covered n G K H m).
    - intros y Hy. by apply elem_of_nil in Hy.
    - intros R HR. split; [done|]. intros _. exists []. split; [set_solver|].
      by rewrite (completes_full n G K H m HI R Ea HR). }
  assert (Hh : h ∈ active n K) by (rewrite Ea; set_solver).
  apply active_elem in Hh as [Hh1 _].
  rewrite decide_False by (simpl; lia).
  rewrite (bind_Ret _ _ _ _ _ (choose_column_ok n G K H m HI lf s Em Hlf)).
  cbv beta.
  destruct (scan_min_active n K (size_of m)) as (c & Esc & Hc & HcK);
    [by rewrite Ea|].
  rewrite Esc.
  set (s0 := upd_solver m 1 s).
  assert (Em0 : matrix s0 = m) by done.
  mstep_by s_column_get ltac:(rewrite Em0; lia).
  fold (size_of (matrix s0) c). rewrite Em0.
  destruct (inv_vs _ _ _ _ _ HI c Hc) as [_ Hszc].
  destruct (decide (size_of m c = 0)) as [Hz|Hz].
  { eexists _, _. split; [reflexivity|].
    split_and!; [done|done|].
    exists []. simpl. rewrite app_nil_r. split_and!; try done.
    - intros _. lia.
    - intros R HR. exfalso.
      destruct (completes_find n G K H m HI R c HR Hc HcK)
        as (g & x & _ & _ & _ & Hx).
      rewrite Hz in Hszc.
      destruct (filter (fun x => x ∉ H) (colnodes G c)); [|done].
      by apply elem_of_nil in Hx. }
  destruct (cover_ev n G K H m c lf s0 HI Hc HcK Hlf Em0)
    as (s1 & Hrun1 & Em1 & Htr1 & Hsol1 & Hsols1).
  simpl in Htr1, Hsol1, Hsols1.
  rewrite (bind_Ret _ _ _ _ _ Hrun1). cbv beta.
  destruct (rows_facts n G K H m c HI Hc HcK) as (HI1 & Hnn1 & Hdl1).
  mstep_by s_node_get ltac:(rewrite Em1, Hnn1; lia).
  fold (Dn (matrix s1) (c + 1)). rewrite Em1, (dl_hd _ _ _ _ _ Hdl1).
  destruct (search_rows_ok2 n G lf find_all K H m c (solution s)
              (search calls lf (depth + 1) find_all) HI Hc HcK Hlf)
    with (rest := filter (fun x => x ∉ H) (colnodes G c))
         (done := @nil Z) (fuel := lf) (found := false) (s := s1)
    as (ex & s2 & Rs & Hrun2 & Htr2 & Hsols2 & Hall & Hdis & Hlen & Hcomp &
        Hex).
  { intros K' H' m' s' HI' Em' Hlf' Hact.
    apply (IH K' H' m' s' (depth + 1) HI' Em' Hlf').
    rewrite Ea in Hact. clear -Hact Hcalls. simpl in Hact, Hcalls. lia. }
  { done. }
  { done. }
  { done. }
  { by apply (column_length n G K H m c lf). }
  rewrite (bind_Ret _ _ _ _ _ Hrun2). cbv beta.
  assert (Hall' : Forall (completes G n K) Rs).
  { eapply Forall_impl; [exact Hall|]. by intros R [? _]. }
  assert (Hcomp' : forall R, completes G n K R ->
            Rs <> [] /\ (find_all = true -> exists R', R' ∈ Rs /\ R' ≡ₚ R)).
  { intros R HR.
    destruct (completes_find n G K H m HI R c HR Hc HcK)
      as (g & x & HgR & _ & Hxc & Hx).
    by apply (Hcomp R g x). }
  destruct ex as [found|v].
  - destruct Hex as (Em2 & Esol2 & Hf & Hnil).
    destruct (uncover_ev n G K H m c lf s2 HI Hc HcK Hlf Em2)
      as (s3 & Hrun3 & Em3 & Htr3 & Hsol3 & Hsols3).
    rewrite (bind_Ret _ _ _ _ _ Hrun3). cbv beta.
    eexists _, _. split; [reflexivity|].
    split_and!; [congruence| |].
    + intros _. split; [done|congruence].
    + exists Rs. split_and!; try done.
      * by rewrite Hsols3, Hsols2, Hsols1.
      * rewrite Hf. split; [by intros [?|?]|auto].
  - destruct Hex as (-> & Hfa & Hne).
    eexists _, _. split; [reflexivity|].
    split_and!; [congruence| |].
    + intros [?|?]; [done|congruence].
    + exists Rs. split_and!; try done.
      by rewrite Hsols2, Hsols1.
Qed.

(* ================================================================= *)
(** ** [solve]: which solutions it returns *)

Lemma completes_exact_in G n R :
  completes G n [] R -> exact_in G n (map fst R).
Proof.
  intros [HG Hp]. rewrite app_nil_r in Hp. exists R. done.
Qed.

Lemma concat_filter_nonempty (picks : list (Z * list Z)) :
  concat (map snd (filter (fun r => r.2 <> []) picks))
  = concat (map snd picks).
Proof.
  induction picks as [|[rid cols] picks IH]; [done|].
  rewrite filter_cons. simpl. destruct (decide (cols <> [])) as [Hne|He].
  - simpl. by rewrite IH.
  - assert (cols = []) as -> by (by destruct cols; [|destruct He]).
    simpl. exact IH.
Qed.

(** The rows of the matrix behind a selection of the caller's rows. *)
Lemma picks_ghost rows G picks :
  ghost_of rows G -> Forall (fun r => r ∈ rows) picks ->
  exists R, Forall (fun g => g ∈ G) R /\
    map (fun g => (g.1, row_cols g)) R = filter (fun r => r.2 <> []) picks.
Proof.
  intros Hg. induction 1 as [|r picks Hr _ IH]; [by exists []|].
  destruct IH as (R & HR & ER). rewrite filter_cons.
  destruct (decide (r.2 <> [])) as [Hne|He]; [|by exists R].
  assert (Hin : r ∈ map (fun g => (g.1, row_cols g)) G).
  { unfold ghost_of in Hg. rewrite Hg. by apply list_elem_of_filter. }
  apply list_elem_of_fmap in Hin as (g & -> & HgG).
  exists (g :: R). split; [by constructor|]. simpl. by rewrite ER.
Qed.

Lemma ghost_cols (R : list grow) :
  map snd (map (fun g : grow => (g.1, row_cols g)) R) = map row_cols R.
Proof. rewrite map_map. done. Qed.

Lemma ghost_ids (R : list grow) :
  map fst (map (fun g : grow => (g.1, row_cols g)) R) = map fst R.
Proof. rewrite map_map. done. Qed.

Lemma exact_cover_completes n rows G picks :
  ghost_of rows G -> Forall (fun r => r ∈ rows) picks ->
  concat (map snd picks) ≡ₚ seqZ 0 n ->
  exists R, completes G n [] R /\
            map fst R = map fst (filter (fun r => r.2 <> []) picks).
Proof.
  intros Hg Hin Hp. destruct (picks_ghost rows G picks Hg Hin) as (R & HR & ER).
  assert (E1 : map row_cols R
               = map snd (filter (fun r => r.2 <> []) picks)).
  { rewrite <- ER. symmetry. apply ghost_cols. }
  assert (E2 : map fst R = map fst (filter (fun r => r.2 <> []) picks)).
  { rewrite <- ER. symmetry. apply ghost_ids. }
  exists R. split; [|done].
  split; [done|]. rewrite app_nil_r, E1.
  by rewrite concat_filter_nonempty.
Qed.

Lemma solve_ok2 n rows m tr lf find_all :
  valid_rows n rows -> build n rows = Ret tt m ->
  nnodes m <= Z.of_nat lf ->
  exists G b s' Rs,
    ghost_of rows G /\ Inv n G [] [] m /\
    solve (S (Z.to_nat n)) lf find_all (new_solver m tr)
    = Ret (map (map fst) Rs) s' /\
    solutions s' = map (map fst) Rs /\
    Forall (completes G n []) Rs /\ distinct_perm Rs /\
    (b = true <-> Rs <> []) /\
    (find_all = false -> (length Rs <= 1)%nat) /\
    (forall R, completes G n [] R ->
       Rs <> [] /\ (find_all = true -> exists R', R' ∈ Rs /\ R' ≡ₚ R)).
Proof.
  intros Hv Hb Hlf.
  destruct (build_Built n rows m Hv Hb) as (G & HI & Hg).
  pose proof (active_length n G [] [] m HI) as Hal.
  destruct (search_ok2 n G lf find_all (S (Z.to_nat n)) [] [] m
              (new_solver m tr) 0 HI eq_refl Hlf)
    as (b & s' & Hrun & Htr & Hrest & Rs & Hsols & Hall & Hdis & Hbn & Hlen &
        Hcomp); [lia|].
  simpl in Hsols.
  exists G, b, s', Rs. split_and!; try done.
  unfold solve. erewrite bind_Ret by reflexivity. cbv beta.
  change (mkSolver (matrix (new_solver m tr)) (trace (new_solver m tr))
            [] [] 0) with (new_solver m tr).
  rewrite (bind_Ret _ _ _ _ _ Hrun). cbv beta. unfold gets.
  by rewrite Hsols.
Qed.

(** With [find_all] set, [solve] on a matrix built from valid rows
    returns every exact cover: for each selection of the caller's rows
    whose column lists together hold every column exactly once, the
    identifiers of its rows (those without columns left out) are, in
    some order, one of the solutions returned. *)
Theorem solve_all_finds_every_cover n rows m tr lf :
  valid_rows n rows -> build n rows = Ret tt m ->
  nnodes m <= Z.of_nat lf ->
  exists sols s',
    solve (S (Z.to_nat n)) lf true (new_solver m tr) = Ret sols s' /\
    forall picks, Forall (fun r => r ∈ rows) picks ->
      concat (map snd picks) ≡ₚ seqZ 0 n ->
      exists sol, sol ∈ sols /\
                  sol ≡ₚ map fst (filter (fun r => r.2 <> []) picks).
Proof.
  intros Hv Hb Hlf.
  destruct (solve_ok2 n rows m tr lf true Hv Hb Hlf)
    as (G & b & s' & Rs & Hg & _ & Hrun & _ & _ & _ & _ & _ & Hcomp).
  eexists _, _. split; [exact Hrun|].
  intros picks Hin Hp.
  destruct (exact_cover_completes n rows G picks Hg Hin Hp) as (R & HR & Eid).
  destruct (Hcomp R HR) as [_ Hfind].
  destruct (Hfind eq_refl) as (R' & HR' & Hp').
  exists (map fst R'). split.
  - apply list_elem_of_fmap. eauto.
  - rewrite <- Eid. by apply Permutation_map.
Qed.

Lemma solve_all_finds_every_cover_witness :
  exists sols s',
    solve (S (Z.to_nat 2)) 10 true (new_solver ex_matrix false)
    = Ret sols s' /\
    forall picks, Forall (fun r => r ∈ ex_rows) picks ->
      concat (map snd picks) ≡ₚ seqZ 0 2 ->
      exists sol, sol ∈ sols /\
                  sol ≡ₚ map fst (filter (fun r => r.2 <> []) picks).
Proof.
  apply (solve_all_finds_every_cover 2 ex_rows ex_matrix false 10).
  - exact ex_rows_valid.
  - vm_compute. reflexivity.
  - vm_compute. discriminate.
Defined.

(** [solve] on a matrix built from valid rows returns at least one
    solution exactly when the rows admit an exact cover; when only the
    first solution is asked for it returns at most one. *)
Theorem solve_finds_iff_cover_exists n rows m tr lf find_all :
  valid_rows n rows -> build n rows = Ret tt m ->
  nnodes m <= Z.of_nat lf ->
  exists sols s',
    solve (S (Z.to_nat n)) lf find_all (new_solver m tr) = Ret sols s' /\
    (sols <> [] <-> exists sol, exact_cover n rows sol) /\
    (find_all = false -> (length sols <= 1)%nat).
Proof.
  intros Hv Hb Hlf.
  destruct (solve_ok2 n rows m tr lf find_all Hv Hb Hlf)
    as (G & b & s' & Rs & Hg & _ & Hrun & _ & Hall & _ & _ & Hlen & Hcomp).
  eexists _, _. split; [exact Hrun|]. split.
  - split.
    + intros Hne. destruct Rs as [|R Rs']; [done|].
      apply Forall_cons in Hall as [HR _].
      exists (map fst R). apply (exact_in_cover n rows G); [done|].
      by apply completes_exact_in.
    + intros (sol & picks & Hin & _ & Hp).
      destruct (exact_cover_completes n rows G picks Hg Hin Hp)
        as (R & HR & _).
      destruct (Hcomp R HR) as [Hne _]. by destruct Rs.
  - intros Hfa. rewrite length_map. auto.
Qed.

Lemma solve_finds_iff_cover_exists_witness :
  exists sols s',
    solve (S (Z.to_nat 2)) 10 false (new_solver ex_matrix false)
    = Ret sols s' /\
    (sols <> [] <-> exists sol, exact_cover 2 ex_rows sol) /\
    (false = false -> (length sols <= 1)%nat).
Proof.
  apply (solve_finds_iff_cover_exists 2 ex_rows ex_matrix false 10 false).
  - exact ex_rows_valid.
  - vm_compute. reflexivity.
  - vm_compute. discriminate.
Defined.

(* ================================================================= *)
(** ** No solution twice, none longer than the columns *)

Lemma perm_map_inj {A B} (f : A -> B) (G : list A) : forall l1 l2,
  NoDup (map f G) ->
  Forall (fun x => x ∈ G) l1 -> Forall (fun x => x ∈ G) l2 ->
  map f l1 ≡ₚ map f l2 -> l1 ≡ₚ l2.
Proof.
  intros l1 l2 Hnd. revert l2.
  induction l1 as [|a l1 IH]; intros l2 H1 H2 Hp.
  - simpl in Hp. symmetry in Hp. apply Permutation_nil_r in Hp.
    apply fmap_nil_inv in Hp. by subst.
  - apply Forall_cons in H1 as [Ha H1].
    assert (Hin : f a ∈ map f l2) by (rewrite <- Hp; set_solver).
    apply list_elem_of_fmap in Hin as (b & Eb & Hb).
    assert (b = a); [|subst b].
    { apply (NoDup_fmap_eq f G); [done| |done|done].
      by apply (proj1 (Forall_forall _ _) H2). }
    apply elem_of_Permutation in Hb as (l2' & Hp2).
    rewrite Hp2. apply Permutation_skip. apply IH; [done| |].
    + rewrite Hp2 in H2. by apply Forall_cons in H2 as [_ ?].
    + rewrite Hp2 in Hp. simpl in Hp. by apply Permutation_cons_inv in Hp.
Qed.

Lemma ghost_ids_NoDup rows G :
  ghost_of rows G -> NoDup (map fst rows) -> NoDup (map fst G).
Proof.
  intros Hg Hnd. rewrite <- ghost_ids. unfold ghost_of in Hg.
  assert (E : map (fun g : grow => (g.1, row_cols g)) G
              = filter (fun r => r.2 <> []) rows) by exact Hg.
  rewrite E. apply (sublist_NoDup _ (map fst rows)); [done|].
  apply fmap_sublist, sublist_filter.
Qed.

Section Selection.
Context (n : Z) (G : list grow) (K H : list Z) (m : DancingLinksMatrix).
Hypothesis HI : Inv n G K H m.

Lemma completes_rows_NoDup R : completes G n K R -> NoDup R.
Proof using HI.
  intros HR. pose proof (completes_NoDup _ _ _ _ HR) as Hnd.
  destruct HR as [HG _].
  apply NoDup_app in Hnd as (Hnd & _ & _).
  induction R as [|g R IH]; [constructor|].
  apply Forall_cons in HG as [Hg HG]. simpl in Hnd.
  apply NoDup_app in Hnd as (_ & Hd & Hnd).
  apply NoDup_cons. split; [|auto].
  intros Hin. destruct (inv_sh _ _ _ _ _ HI g Hg) as [Hne _].
  destruct g.2 as [|[x c0] l] eqn:E; [done|].
  assert (Hc0 : c0 ∈ row_cols g).
  { unfold row_cols. rewrite E. simpl. set_solver. }
  apply (Hd c0 Hc0). apply elem_of_concat. exists (row_cols g).
  split; [done|]. apply list_elem_of_fmap. eauto.
Qed.

Lemma completes_length R :
  completes G n K R -> Z.of_nat (length R) <= n.
Proof using HI.
  intros [HG Hp]. apply Permutation_length in Hp.
  rewrite length_app, length_seqZ in Hp.
  pose proof (st_n _ _ _ (inv_sv _ _ _ _ _ HI)) as Hn.
  assert (Hle : (length R <= length (concat (map row_cols R)))%nat).
  { clear Hp. induction R as [|g R IH]; [done|].
    apply Forall_cons in HG as [Hg HG]. simpl.
    destruct (inv_sh _ _ _ _ _ HI g Hg) as [Hne _].
    rewrite length_app. specialize (IH HG).
    unfold row_cols at 1. rewrite length_map.
    destruct g.2; [done|]. simpl. lia. }
  lia.
Qed.
End Selection.

(** When the rows carry distinct identifiers, no row is named twice in
    a solution and no two of the solutions returned name the same rows:
    every exact cover is returned once. *)
Theorem solve_no_cover_twice n rows m tr lf find_all :
  valid_rows n rows -> build n rows = Ret tt m ->
  nnodes m <= Z.of_nat lf -> NoDup (map fst rows) ->
  exists sols s',
    solve (S (Z.to_nat n)) lf find_all (new_solver m tr) = Ret sols s' /\
    Forall (fun sol : list Z => NoDup sol) sols /\
    forall l1 sol1 l2 sol2 l3,
      sols = l1 ++ sol1 :: l2 ++ sol2 :: l3 -> ~ sol1 ≡ₚ sol2.
Proof.
  intros Hv Hb Hlf Hids.
  destruct (solve_ok2 n rows m tr lf find_all Hv Hb Hlf)
    as (G & b & s' & Rs & Hg & HI & Hrun & _ & Hall & Hdis & _).
  pose proof (ghost_ids_NoDup rows G Hg Hids) as HndG.
  eexists _, _. split; [exact Hrun|]. split.
  - apply Forall_forall. intros sol (R & -> & HR)%list_elem_of_fmap.
    pose proof (proj1 (Forall_forall _ _) Hall R HR) as HRc.
    apply NoDup_fmap_2_strong.
    + intros x y Hx Hy E. apply (NoDup_fmap_eq fst G); [done| | |done].
      * by apply (proj1 (Forall_forall _ _) (proj1 HRc)).
      * by apply (proj1 (Forall_forall _ _) (proj1 HRc)).
    + by apply (completes_rows_NoDup n G [] [] m HI).
  - intros l1 sol1 l2 sol2 l3 E Hp.
    apply fmap_app_inv in E as (Rs1 & Rs' & _ & E & ->).
    symmetry in E. apply fmap_cons_inv in E as (R1 & Rs'' & -> & E & ->).
    symmetry in E. apply fmap_app_inv in E as (Rs2 & Rs3 & _ & E & ->).
    symmetry in E. apply fmap_cons_inv in E as (R2 & Rs4 & -> & _ & ->).
    apply distinct_perm_app in Hdis as (_ & Hdis & _).
    destruct Hdis as [Hd _]. apply (Hd R2); [set_solver|].
    apply (perm_map_inj fst G); [done| | |done].
    + apply (proj1 (Forall_forall _ _) Hall R1). set_solver.
    + apply (proj1 (Forall_forall _ _) Hall R2). set_solver.
Qed.

Lemma solve_no_cover_twice_witness :
  exists sols s',
    solve (S (Z.to_nat 2)) 10 true (new_solver ex_matrix false)
    = Ret sols s' /\
    Forall (fun sol : list Z => NoDup sol) sols /\
    forall l1 sol1 l2 sol2 l3,
      sols = l1 ++ sol1 :: l2 ++ sol2 :: l3 -> ~ sol1 ≡ₚ sol2.
Proof.
  apply (solve_no_cover_twice 2 ex_rows ex_matrix false 10 true).
  - exact ex_rows_valid.
  - vm_compute. reflexivity.
  - vm_compute. discriminate.
  - compute_done.
Defined.

(* ================================================================= *)
(** ** Statistics of a built matrix and of a finished search *)

(** On a matrix built from valid rows [get_memory_stats] reports the
    root, the headers and one node per row entry, and the memory they
    take at 60 bits a node and 50 bits a column. *)
Theorem get_memory_stats_built n rows m :
  valid_rows n rows -> build n rows = Ret tt m ->
  let cells := Z.of_nat (length (concat (map snd rows))) in
  get_memory_stats m !! "num_nodes" = Some (n + 1 + cells) /\
  get_memory_stats m !! "num_columns" = Some n /\
  get_memory_stats m !! "total_bram_bits"
  = Some ((n + 1 + cells) * 60 + n * 50).
Proof.
  intros Hv Hb cells.
  destruct (build_Built n rows m Hv Hb) as (G & HI & _).
  pose proof (st_num _ _ _ (inv_sv _ _ _ _ _ HI)) as Hnum.
  destruct (build_counts n rows m Hb) as (Hnn & _).
  unfold nnodes in Hnn. fold cells in Hnn.
  unfold get_memory_stats. rewrite Hnn, Hnum.
  split_and!; reflexivity.
Qed.

Lemma get_memory_stats_built_witness :
  let cells := Z.of_nat (length (concat (map snd ex_rows))) in
  get_memory_stats ex_matrix !! "num_nodes" = Some (2 + 1 + cells) /\
  get_memory_stats ex_matrix !! "num_columns" = Some 2 /\
  get_memory_stats ex_matrix !! "total_bram_bits"
  = Some ((2 + 1 + cells) * 60 + 2 * 50).
Proof.
  apply (get_memory_stats_built 2 ex_rows ex_matrix).
  - exact ex_rows_valid.
  - vm_compute. reflexivity.
Defined.

Lemma max_len_bound (b : Z) (sols : list (list Z)) : forall (s0 : list Z),
  Z.of_nat (length s0) <= b ->
  Forall (fun s => Z.of_nat (length s) <= b) sols ->
  Z.of_nat (length s0) <= max_len s0 sols <= b.
Proof.
  unfold max_len. generalize (@nil Z).
  intros _ s0. generalize (Z.of_nat (length s0)). intros a Ha Hall.
  revert a Ha. induction Hall as [|s sols Hs _ IH]; intros a Ha; simpl; [lia|].
  case_decide.
  - specialize (IH (Z.of_nat (length s)) Hs). lia.
  - specialize (IH a Ha). lia.
Qed.

(** After [solve] on a matrix built from valid rows, [get_stats] counts
    the solutions returned, and the depth it reports is zero when there
    is none and otherwise between one row and the number of columns. *)
Theorem get_stats_after_solve n rows m tr lf find_all :
  valid_rows n rows -> build n rows = Ret tt m ->
  nnodes m <= Z.of_nat lf ->
  exists sols s' d,
    solve (S (Z.to_nat n)) lf find_all (new_solver m tr) = Ret sols s' /\
    get_stats s' !! "solutions_found" = Some (Z.of_nat (length sols)) /\
    get_stats s' !! "max_recursion_depth" = Some d /\
    (sols = [] -> d = 0) /\ (sols <> [] -> 1 <= d <= n).
Proof.
  intros Hv Hb Hlf.
  destruct (solve_ok2 n rows m tr lf find_all Hv Hb Hlf)
    as (G & b & s' & Rs & Hg & HI & Hrun & Hsols & Hall & _).
  assert (Hlen : Forall (fun s : list Z => 1 <= Z.of_nat (length s) <= n)
                   (map (map fst) Rs)).
  { apply Forall_forall. intros sol (R & -> & HR)%list_elem_of_fmap.
    pose proof (proj1 (Forall_forall _ _) Hall R HR) as HRc.
    rewrite length_map.
    pose proof (completes_length n G [] [] m HI R HRc).
    split; [|done]. destruct R as [|g R]; [|simpl; lia].
    destruct HRc as [_ Hp]. simpl in Hp. symmetry in Hp.
    apply Permutation_nil_r in Hp.
    pose proof (st_n _ _ _ (inv_sv _ _ _ _ _ HI)).
    rewrite seqZ_step in Hp by lia. done. }
  exists (map (map fst) Rs), s'.
  unfold get_stats. rewrite Hsols.
  destruct (map (map fst) Rs) as [|s0 sols] eqn:E.
  - exists 0. split; [exact Hrun|].
    split_and!; [reflexivity|reflexivity|done|done].
  - exists (max_len s0 sols). split; [exact Hrun|].
    split_and!; [reflexivity|reflexivity|done|].
    intros _. apply Forall_cons in Hlen as [H0 Hrest].
    destruct (max_len_bound n sols s0) as [H1 H2]; [lia| |lia].
    eapply Forall_impl; [exact Hrest|]. intros s. simpl. lia.
Qed.

Lemma get_stats_after_solve_witness :
  exists sols s' d,
    solve (S (Z.to_nat 2)) 10 true (new_solver ex_matrix false)
    = Ret sols s' /\
    get_stats s' !! "solutions_found" = Some (Z.of_nat (length sols)) /\
    get_stats s' !! "max_recursion_depth" = Some d /\
    (sols = [] -> d = 0) /\ (sols <> [] -> 1 <= d <= 2).
Proof.
  apply (get_stats_after_solve 2 ex_rows ex_matrix false 10 true).
  - exact ex_rows_valid.
  - vm_compute. reflexivity.
  - vm_compute. discriminate.
Defined.

(* ================================================================= *)
(** ** The rows of polyomino packing *)

Lemma remove_dups_length (l : list Z) :
  length (remove_dups l) = length l <-> NoDup l.
Proof.
  assert (Hle : forall l : list Z, (length (remove_dups l) <= length l)%nat).
  { clear l. induction l as [|x l IH]; simpl; [done|].
    case_decide; simpl; lia. }
  induction l as [|x l IH]; simpl.
  - split; [constructor|done].
  - destruct (decide_rel elem_of x l) as [Hin|Hin].
    + split.
      * intros E. specialize (Hle l). lia.
      * intros [? _]%NoDup_cons. done.
    + simpl. rewrite NoDup_cons. split.
      * intros E. split; [done|]. apply IH. lia.
      * intros [_ Hnd]. f_equal. by apply IH.
Qed.

Lemma place_cells_spec g x y piece : forall cells,
  place_cells g x y piece cells
  = if decide (fits g x y piece)
    then (true, cells ++ piece_cells g x y piece)
    else (false, (place_cells g x y piece cells).2).
Proof.
  unfold fits, piece_cells.
  induction piece as [|[dx dy] piece IH]; intros cells.
  - cbn [place_cells map].
    destruct (decide (Forall (fun d : Z * Z =>
                0 <= x + d.1 < g /\ 0 <= y + d.2 < g) [])) as [_|Hn].
    + by rewrite app_nil_r.
    + destruct Hn. constructor.
  - cbn [place_cells map]. cbv zeta.
    destruct (decide (0 <= x + dx < g /\ 0 <= y + dy < g)) as [Hin|Hout].
    + rewrite IH.
      destruct (decide (Forall (fun d : Z * Z =>
                  0 <= x + d.1 < g /\ 0 <= y + d.2 < g) piece)) as [Hf|Hf].
      * rewrite decide_True by (by constructor). by rewrite <- app_assoc.
      * rewrite decide_False; [done|]. by intros [_ ?]%Forall_cons.
    + rewrite decide_False; [done|]. by intros [? _]%Forall_cons.
Qed.

(** A row is added for a position exactly when the piece stays within
    the grid there and occupies distinct cells. *)
Lemma try_place_spec g p piece y x :
  try_place g p piece y x
  = if decide (fits g x y piece /\ NoDup (piece_cells g x y piece))
    then [((p, x, y), piece_cells g x y piece ++ [g * g + p])]
    else [].
Proof.
  unfold try_place. rewrite place_cells_spec.
  destruct (decide (fits g x y piece)) as [Hf|Hf].
  - simpl. destruct (decide (NoDup (piece_cells g x y piece))) as [Hnd|Hnd].
    + rewrite bool_decide_eq_true_2 by (by apply remove_dups_length).
      by rewrite decide_True.
    + rewrite bool_decide_eq_false_2 by (by rewrite remove_dups_length).
      rewrite decide_False; [done|]. tauto.
  - simpl. rewrite decide_False; [done|]. tauto.
Qed.

Lemma piece_cells_range g x y piece c :
  fits g x y piece -> c ∈ piece_cells g x y piece -> 0 <= c < g * g.
Proof.
  unfold fits, piece_cells. intros Hf (d & -> & Hd)%list_elem_of_fmap.
  pose proof (proj1 (Forall_forall _ _) Hf d Hd) as [H1 H2]. nia.
Qed.

Lemma add_rows_app rows1 rows2 m :
  add_rows (rows1 ++ rows2) m = (add_rows rows1 ;; add_rows rows2) m.
Proof.
  revert m. induction rows1 as [|[rid cols] rows1 IH]; intros m; [done|].
  simpl. unfold bind.
  destruct (add_row rid cols m) as [[] m1|e m1|]; [|done|done].
  rewrite IH. reflexivity.
Qed.

(** One more row on a matrix that [build] returned. *)
Lemma build_snoc n rows m rid cols :
  build n rows = Ret tt m -> Forall (fun c => - n <= c < n) cols ->
  exists m', add_row rid cols m = Ret tt m' /\
             build n (rows ++ [(rid, cols)]) = Ret tt m'.
Proof.
  intros Hb Hr. pose proof (build_addable n rows m Hb) as Ha.
  destruct (add_row_in n rid cols m Ha Hr) as (m' & Hrun & _).
  exists m'. split; [done|].
  unfold build in *. unfold bind in *.
  destruct (init n blank) as [[] m0|e m0|]; [|done|done].
  rewrite add_rows_app. unfold bind. rewrite Hb. simpl.
  unfold bind. by rewrite Hrun.
Qed.

Lemma number_rows_snoc L pl :
  number_rows (L ++ [pl])
  = number_rows L ++ [(Z.of_nat (length L), pl.2)].
Proof.
  unfold number_rows. rewrite imap_app. simpl.
  by rewrite Nat.add_0_r.
Qed.

Lemma row_map_of_lookup L (i : Z) :
  row_map_of L !! i
  = if decide (0 <= i) then fst <$> L !! Z.to_nat i else None.
Proof.
  unfold row_map_of.
  induction L as [|pl L IH] using rev_ind.
  - simpl. rewrite lookup_empty. by case_decide.
  - rewrite imap_app. simpl. rewrite Nat.add_0_r.
    rewrite list_to_map_snoc.
    + destruct (decide (i = Z.of_nat (length L))) as [->|Hne].
      * rewrite lookup_insert_eq. rewrite decide_True by lia.
        rewrite Nat2Z.id, lookup_app_r by done.
        by rewrite Nat.sub_diag.
      * rewrite lookup_insert_ne by done. rewrite IH.
        case_decide; [|done].
        destruct (decide (Z.to_nat i < length L)%nat).
        -- by rewrite lookup_app_l.
        -- rewrite (lookup_ge_None_2 L) by lia.
           rewrite lookup_ge_None_2; [done|].
           rewrite length_app. simpl. lia.
    + rewrite fmap_imap. intros Hin.
      apply elem_of_lookup_imap in Hin as (j & pl' & E & Hj).
      simpl in E. apply lookup_lt_Some in Hj. lia.
Qed.

Lemma row_map_of_snoc L pl :
  row_map_of (L ++ [pl])
  = <[Z.of_nat (length L) := pl.1]> (row_map_of L).
Proof.
  apply map_eq. intros i. rewrite row_map_of_lookup.
  destruct (decide (i = Z.of_nat (length L))) as [->|Hne].
  - rewrite lookup_insert_eq, decide_True by lia.
    rewrite Nat2Z.id, lookup_app_r by done. by rewrite Nat.sub_diag.
  - rewrite lookup_insert_ne by done. rewrite row_map_of_lookup.
    case_decide; [|done].
    destruct (decide (Z.to_nat i < length L)%nat).
    + by rewrite lookup_app_l.
    + rewrite (lookup_ge_None_2 L) by lia.
      rewrite lookup_ge_None_2; [done|].
      rewrite length_app. simpl. lia.
Qed.

(* ================================================================= *)
(** ** [create_polyomino_matrix] *)

Section Poly.
Context (g : Z) (pieces : list (list (Z * Z))).
Let len := Z.of_nat (length pieces).
Let N := g * g + len.

(** The locals and the matrix after the placements [L] are in. *)
Definition entered (L : list placement) (acc : gmap Z (Z * Z * Z) * Z)
    (m : DancingLinksMatrix) : Prop :=
  acc = (row_map_of L, Z.of_nat (length L)) /\
  build N (number_rows L) = Ret tt m.

Lemma place_piece_ok L acc m p piece y x :
  entered L acc m -> 0 <= p < len ->
  exists acc' m',
    place_piece g (g * g) p piece y acc x m = Ret acc' m' /\
    entered (L ++ try_place g p piece y x) acc' m'.
Proof.
  intros [-> Hb] Hp. rewrite try_place_spec.
  unfold place_piece. rewrite place_cells_spec.
  destruct (decide (fits g x y piece)) as [Hf|Hf].
  - simpl app.
    destruct (decide (NoDup (piece_cells g x y piece))) as [Hnd|Hnd].
    + rewrite bool_decide_eq_true_2 by (by apply remove_dups_length).
      rewrite decide_True by done. cbn [andb fst snd app].
      destruct (build_snoc N (number_rows L) m (Z.of_nat (length L))
                  (piece_cells g x y piece ++ [g * g + p]) Hb)
        as (m' & Hrun & Hb').
      { apply Forall_app. split.
        - apply Forall_forall. intros c Hc.
          pose proof (piece_cells_range g x y piece c Hf Hc).
          unfold N. lia.
        - apply Forall_singleton. unfold N. nia. }
      rewrite (bind_Ret _ _ _ _ _ Hrun). cbv beta.
      eexists _, _. split; [reflexivity|]. split.
      * rewrite row_map_of_snoc, length_app. simpl. f_equal. lia.
      * by rewrite number_rows_snoc.
    + rewrite bool_decide_eq_false_2 by (by rewrite remove_dups_length).
      rewrite decide_False by tauto. cbn [andb fst snd].
      rewrite app_nil_r. eexists _, _. split; [reflexivity|]. done.
  - rewrite decide_False by tauto. cbn [andb fst snd].
    rewrite app_nil_r. eexists _, _. split; [reflexivity|]. done.
Qed.

Lemma loop_x_ok p piece y : 0 <= p < len -> forall xs L acc m,
  entered L acc m ->
  exists acc' m',
    for_fold xs (place_piece g (g * g) p piece y) acc m = Ret acc' m' /\
    entered (L ++ concat (map (fun x => try_place g p piece y x) xs))
            acc' m'.
Proof.
  intros Hp. induction xs as [|x xs IH]; intros L acc m He.
  - simpl. rewrite app_nil_r. eauto.
  - destruct (place_piece_ok L acc m p piece y x He Hp)
      as (acc1 & m1 & Hrun1 & He1).
    destruct (IH _ _ _ He1) as (acc' & m' & Hrun & He').
    exists acc', m'. split.
    + simpl. by rewrite (bind_Ret _ _ _ _ _ Hrun1).
    + simpl. by rewrite app_assoc.
Qed.

Lemma loop_y_ok p piece : 0 <= p < len -> forall ys L acc m,
  entered L acc m ->
  exists acc' m',
    for_fold ys
      (fun acc y =>
         for_fold (seqZ 0 g) (place_piece g (g * g) p piece y) acc)
      acc m = Ret acc' m' /\
    entered (L ++ concat (map (fun y =>
               concat (map (fun x => try_place g p piece y x) (seqZ 0 g)))
               ys)) acc' m'.
Proof.
  intros Hp. induction ys as [|y ys IH]; intros L acc m He.
  - simpl. rewrite app_nil_r. eauto.
  - destruct (loop_x_ok p piece y Hp (seqZ 0 g) L acc m He)
      as (acc1 & m1 & Hrun1 & He1).
    destruct (IH _ _ _ He1) as (acc' & m' & Hrun & He').
    exists acc', m'. split.
    + simpl. by rewrite (bind_Ret _ _ _ _ _ Hrun1).
    + simpl. by rewrite app_assoc.
Qed.

Lemma loop_p_ok : forall pps L acc m,
  Forall (fun pp => 0 <= pp.1 < len) pps ->
  entered L acc m ->
  exists acc' m',
    for_fold pps
      (fun acc pp =>
         for_fold (seqZ 0 g)
           (fun acc y =>
              for_fold (seqZ 0 g)
                (place_piece g (g * g) pp.1 pp.2 y) acc)
           acc)
      acc m = Ret acc' m' /\
    entered (L ++ placements_of g pps) acc' m'.
Proof.
  induction pps as [|[p piece] pps IH]; intros L acc m Hr He.
  - simpl. unfold placements_of. simpl. rewrite app_nil_r. eauto.
  - apply Forall_cons in Hr as [Hp Hr]. simpl in Hp.
    destruct (loop_y_ok p piece Hp (seqZ 0 g) L acc m He)
      as (acc1 & m1 & Hrun1 & He1).
    destruct (IH _ _ _ Hr He1) as (acc' & m' & Hrun & He').
    exists acc', m'. split.
    + simpl. by rewrite (bind_Ret _ _ _ _ _ Hrun1).
    + unfold placements_of in *. simpl. by rewrite app_assoc.
Qed.

Lemma numbered_pieces_range :
  Forall (fun pp : Z * list (Z * Z) => 0 <= pp.1 < len)
         (zip (seqZ 0 len) pieces).
Proof.
  apply Forall_forall. intros [p piece] Hin.
  apply elem_of_zip_l in Hin. apply elem_of_seqZ in Hin. simpl. lia.
Qed.

(** The computation returns exactly when there is a column, and then
    the matrix is the one [build] makes of the rows of the
    placements, numbered from 0. *)
Lemma create_polyomino_matrix_ok :
  1 <= N ->
  exists m,
    create_polyomino_matrix g pieces blank
    = Ret (row_map_of (placements g pieces)) m /\
    build N (poly_rows g pieces) = Ret tt m.
Proof.
  intros HN. destruct (init_ok N HN) as (m0 & Hrun0 & _).
  assert (He0 : entered [] (∅, 0) m0).
  { split; [done|]. unfold build, number_rows. simpl.
    unfold create in Hrun0. by rewrite (bind_Ret _ _ _ _ _ Hrun0). }
  destruct (loop_p_ok (zip (seqZ 0 len) pieces) [] (∅, 0) m0
              numbered_pieces_range He0)
    as (acc' & m' & Hrun & -> & Hb).
  exists m'. split; [|exact Hb].
  unfold create_polyomino_matrix. fold len. fold N.
  unfold create in Hrun0. rewrite (bind_Ret _ _ _ _ _ Hrun0). cbv beta.
  rewrite (bind_Ret _ _ _ _ _ Hrun). reflexivity.
Qed.

Lemma create_polyomino_matrix_raises :
  N <= 0 ->
  exists m, create_polyomino_matrix g pieces blank = Raise IndexError m.
Proof.
  intros HN. destruct (create_nonpos N HN) as (m & Hrun).
  exists m. unfold create_polyomino_matrix. fold len. fold N.
  unfold create in Hrun. by rewrite (bind_Raise _ _ _ _ _ Hrun).
Qed.
End Poly.

Lemma elem_numbered {A} (pieces : list A) p piece :
  (p, piece) ∈ zip (seqZ 0 (Z.of_nat (length pieces))) pieces <->
  0 <= p /\ pieces !! Z.to_nat p = Some piece.
Proof.
  rewrite list_elem_of_lookup. split.
  - intros (i & Hi). apply lookup_zip_with_Some in Hi as (a & b & E & Ha & Hb).
    inversion E; subst. apply lookup_seqZ in Ha as [-> Hlt].
    split; [lia|]. by rewrite Z.add_0_l, Nat2Z.id.
  - intros [Hp Hl]. exists (Z.to_nat p). apply lookup_zip_with_Some.
    exists p, piece. split; [done|]. split; [|done].
    apply lookup_seqZ. apply lookup_lt_Some in Hl. lia.
Qed.

(** Which placements there are: every piece at every position of the
    grid where it stays inside and occupies distinct cells. *)
Lemma elem_placements g pieces pl :
  pl ∈ placements g pieces <->
  exists p piece x y,
    pl = ((p, x, y), piece_cells g x y piece ++ [g * g + p]) /\
    0 <= p /\ pieces !! Z.to_nat p = Some piece /\
    0 <= x < g /\ 0 <= y < g /\
    fits g x y piece /\ NoDup (piece_cells g x y piece).
Proof.
  unfold placements, placements_of. split.
  - intros (l1 & Hpl & Hl1)%elem_of_concat.
    apply list_elem_of_fmap in Hl1 as ([p piece] & -> & Hpp).
    apply elem_numbered in Hpp as [Hp Hpiece].
    apply elem_of_concat in Hpl as (l2 & Hpl & Hl2).
    apply list_elem_of_fmap in Hl2 as (y & -> & Hy).
    apply elem_of_concat in Hpl as (l3 & Hpl & Hl3).
    apply list_elem_of_fmap in Hl3 as (x & -> & Hx).
    apply elem_of_seqZ in Hx, Hy. simpl in Hpl.
    rewrite try_place_spec in Hpl. case_decide as Hok; [|by apply elem_of_nil in Hpl].
    apply list_elem_of_singleton in Hpl as ->.
    exists p, piece, x, y. split_and!; try done; try lia; tauto.
  - intros (p & piece & x & y & -> & Hp & Hpiece & Hx & Hy & Hf & Hnd).
    apply elem_of_concat. eexists. split; [|apply list_elem_of_fmap].
    2:{ exists (p, piece). split; [reflexivity|]. by apply elem_numbered. }
    apply elem_of_concat. eexists. split; [|apply list_elem_of_fmap].
    2:{ exists y. split; [reflexivity|]. apply elem_of_seqZ. lia. }
    apply elem_of_concat. eexists. split; [|apply list_elem_of_fmap].
    2:{ exists x. split; [reflexivity|]. apply elem_of_seqZ. lia. }
    simpl. rewrite try_place_spec, decide_True by done. set_solver.
Qed.

Lemma poly_rows_valid g pieces :
  valid_rows (g * g + Z.of_nat (length pieces)) (poly_rows g pieces).
Proof.
  unfold valid_rows, poly_rows, number_rows. apply Forall_forall.
  intros r Hr. apply elem_of_lookup_imap in Hr as (i & pl & -> & Hpl).
  apply list_elem_of_lookup_2 in Hpl.
  apply elem_placements in Hpl
    as (p & piece & x & y & -> & Hp & Hpiece & Hx & Hy & Hf & Hnd).
  apply lookup_lt_Some in Hpiece. simpl. split.
  - apply NoDup_app. split_and!; [done| |apply NoDup_singleton].
    intros c Hc ->%list_elem_of_singleton.
    pose proof (piece_cells_range g x y piece _ Hf Hc). lia.
  - apply Forall_app. split.
    + apply Forall_forall. intros c Hc.
      pose proof (piece_cells_range g x y piece _ Hf Hc). lia.
    + apply Forall_singleton. nia.
Qed.

(** [create_polyomino_matrix] raises [IndexError] when the grid has no
    cell and there is no piece, and otherwise returns: the matrix is
    the one [build] makes of the placements' rows, which are in range
    and free of duplicates, and [row_map] numbers the placements in the
    order of the loops. *)
Theorem create_polyomino_matrix_builds g pieces :
  (g <> 0 \/ pieces <> [] ->
   exists m,
     create_polyomino_matrix g pieces blank
     = Ret (row_map_of (placements g pieces)) m /\
     build (g * g + Z.of_nat (length pieces)) (poly_rows g pieces)
     = Ret tt m /\
     valid_rows (g * g + Z.of_nat (length pieces)) (poly_rows g pieces)) /\
  (g = 0 -> pieces = [] ->
   exists m, create_polyomino_matrix g pieces blank = Raise IndexError m).
Proof.
  split.
  - intros Hne.
    destruct (create_polyomino_matrix_ok g pieces) as (m & Hrun & Hb).
    { destruct Hne as [Hg|Hp]; [nia|]. destruct pieces; [done|]. simpl. nia. }
    exists m. split_and!; [done|done|apply poly_rows_valid].
  - intros -> ->. by apply create_polyomino_matrix_raises.
Qed.

Lemma create_polyomino_matrix_builds_witness :
  (exists m,
     create_polyomino_matrix 2 ex_pieces blank
     = Ret (row_map_of (placements 2 ex_pieces)) m /\
     build (2 * 2 + Z.of_nat (length ex_pieces)) (poly_rows 2 ex_pieces)
     = Ret tt m /\
     valid_rows (2 * 2 + Z.of_nat (length ex_pieces))
       (poly_rows 2 ex_pieces)) /\
  (exists m, create_polyomino_matrix 0 [] blank = Raise IndexError m).
Proof.
  split.
  - apply (proj1 (create_polyomino_matrix_builds 2 ex_pieces)). left. lia.
  - by apply (proj2 (create_polyomino_matrix_builds 0 [])).
Defined.

Lemma create_polyomino_matrix_Ret g pieces row_map m :
  create_polyomino_matrix g pieces blank = Ret row_map m ->
  row_map = row_map_of (placements g pieces) /\
  build (g * g + Z.of_nat (length pieces)) (poly_rows g pieces) = Ret tt m.
Proof.
  intros Hrun.
  destruct (decide (1 <= g * g + Z.of_nat (length pieces))) as [HN|HN].
  - destruct (create_polyomino_matrix_ok g pieces HN) as (m' & Hrun' & Hb).
    rewrite Hrun in Hrun'. by inversion Hrun'; subst.
  - destruct (create_polyomino_matrix_raises g pieces) as (m' & Hrun');
      [lia|]. by rewrite Hrun in Hrun'.
Qed.

(** The entries of the [row_map] that [create_polyomino_matrix] returns
    are exactly the placements that stay inside the grid on distinct
    cells: every entry is one, and each of them has an entry. *)
Theorem row_map_lists_placements g pieces row_map m :
  create_polyomino_matrix g pieces blank = Ret row_map m ->
  (forall rid p x y, row_map !! rid = Some (p, x, y) ->
     0 <= rid /\ 0 <= p /\ 0 <= x < g /\ 0 <= y < g /\
     exists piece, pieces !! Z.to_nat p = Some piece /\
       fits g x y piece /\ NoDup (piece_cells g x y piece)) /\
  (forall p piece x y,
     0 <= p -> pieces !! Z.to_nat p = Some piece ->
     0 <= x < g -> 0 <= y < g ->
     fits g x y piece -> NoDup (piece_cells g x y piece) ->
     exists rid, row_map !! rid = Some (p, x, y)).
Proof.
  intros Hrun.
  destruct (create_polyomino_matrix_Ret g pieces row_map m Hrun) as [-> _].
  split.
  - intros rid p x y Hl. rewrite row_map_of_lookup in Hl.
    case_decide as Hrid; [|done].
    destruct (placements g pieces !! Z.to_nat rid) as [pl|] eqn:E; [|done].
    simpl in Hl. inversion Hl as [E1].
    apply list_elem_of_lookup_2 in E.
    apply elem_placements in E
      as (p' & piece & x' & y' & -> & Hp & Hpiece & Hx & Hy & Hf & Hnd).
    simpl in E1. inversion E1; subst.
    split_and!; try done; try lia. eauto.
  - intros p piece x y Hp Hpiece Hx Hy Hf Hnd.
    assert (Hin : ((p, x, y), piece_cells g x y piece ++ [g * g + p])
                  ∈ placements g pieces).
    { apply elem_placements. exists p, piece, x, y. done. }
    apply list_elem_of_lookup in Hin as (i & Hi).
    exists (Z.of_nat i). rewrite row_map_of_lookup, decide_True by lia.
    rewrite Nat2Z.id. unfold placement in *. by rewrite Hi.
Qed.

Lemma row_map_lists_placements_witness :
  (forall rid p x y,
     row_map_of (placements 2 ex_pieces) !! rid = Some (p, x, y) ->
     0 <= rid /\ 0 <= p /\ 0 <= x < 2 /\ 0 <= y < 2 /\
     exists piece, ex_pieces !! Z.to_nat p = Some piece /\
       fits 2 x y piece /\ NoDup (piece_cells 2 x y piece)) /\
  (forall p piece x y,
     0 <= p -> ex_pieces !! Z.to_nat p = Some piece ->
     0 <= x < 2 -> 0 <= y < 2 ->
     fits 2 x y piece -> NoDup (piece_cells 2 x y piece) ->
     exists rid, row_map_of (placements 2 ex_pieces) !! rid = Some (p, x, y)).
Proof.
  destruct (create_polyomino_matrix_ok 2 ex_pieces) as (m & Hrun & _);
    [vm_compute; discriminate|].
  exact (row_map_lists_placements 2 ex_pieces _ m Hrun).
Defined.

(* ================================================================= *)
(** ** Solutions of a packing problem *)

Lemma picks_placements g pieces picks :
  Forall (fun r => r ∈ poly_rows g pieces) picks ->
  exists pls : list (Z * Z * Z),
    Forall2 (fun rid pl => row_map_of (placements g pieces) !! rid = Some pl)
            (map fst picks) pls /\
    map snd picks
    = map (fun pl => placed_cells g pieces pl ++ [g * g + pl.1.1]) pls /\
    Forall (fun pl => 0 <= pl.1.1 /\
              Forall (fun c => 0 <= c < g * g) (placed_cells g pieces pl))
           pls.
Proof.
  induction 1 as [|r picks Hr _ IH]; [by exists []|].
  destruct IH as (pls & H1 & H2 & H3).
  unfold poly_rows, number_rows in Hr.
  apply elem_of_lookup_imap in Hr as (i & pl & -> & Hpl).
  pose proof Hpl as Hin. apply list_elem_of_lookup_2 in Hin.
  apply elem_placements in Hin
    as (p & piece & x & y & -> & Hp & Hpiece & Hx & Hy & Hf & Hnd).
  assert (Ecells : placed_cells g pieces (p, x, y) = piece_cells g x y piece).
  { unfold placed_cells. simpl.
    by rewrite (list_lookup_total_correct _ _ _ Hpiece). }
  exists ((p, x, y) :: pls). split_and!.
  - simpl. constructor; [|done].
    rewrite row_map_of_lookup, decide_True by lia.
    rewrite Nat2Z.id. unfold placement in *. by rewrite Hpl.
  - simpl. rewrite H2, Ecells. done.
  - constructor; [|done]. rewrite Ecells. split; [done|].
    apply Forall_forall. intros c Hc.
    by apply (piece_cells_range g x y piece).
Qed.

Lemma split_cover {A} (gg len : Z) (cells : A -> list Z) (pc : A -> Z)
    (pls : list A) :
  0 <= gg -> 0 <= len ->
  Forall (fun pl => 0 <= pc pl /\ Forall (fun c => 0 <= c < gg) (cells pl))
         pls ->
  concat (map (fun pl => cells pl ++ [gg + pc pl]) pls) ≡ₚ seqZ 0 (gg + len) ->
  concat (map cells pls) ≡ₚ seqZ 0 gg /\ map pc pls ≡ₚ seqZ 0 len.
Proof.
  intros Hgg Hlen Hall Hp.
  assert (F1 : filter (fun c => c < gg)
                 (concat (map (fun pl => cells pl ++ [gg + pc pl]) pls))
               = concat (map cells pls)).
  { clear Hp. induction Hall as [|pl pls [Hpc Hc] _ IH]; [done|].
    simpl. rewrite !filter_app, IH. rewrite filter_all.
    - rewrite filter_cons, decide_False by lia.
      by rewrite filter_nil, app_nil_r.
    - intros c Hin. by apply (proj1 (Forall_forall _ _) Hc). }
  assert (F2 : filter (fun c => ~ c < gg)
                 (concat (map (fun pl => cells pl ++ [gg + pc pl]) pls))
               = map (fun pl => gg + pc pl) pls).
  { clear Hp F1. induction Hall as [|pl pls [Hpc Hc] _ IH]; [done|].
    simpl. rewrite !filter_app, IH.
    assert (E : filter (fun c => ~ c < gg) (cells pl) = []).
    { apply elem_of_nil_inv. intros c [Hn Hin]%list_elem_of_filter.
      pose proof (proj1 (Forall_forall _ _) Hc c Hin) as Hr.
      simpl in Hr, Hn. lia. }
    rewrite E, filter_cons, decide_True by lia. done. }
  rewrite seqZ_app in Hp by done. rewrite Z.add_0_l in Hp.
  assert (G1 : filter (fun c => c < gg) (seqZ 0 gg ++ seqZ gg len)
               = seqZ 0 gg).
  { rewrite filter_app, filter_all.
    - assert (E : filter (fun c => c < gg) (seqZ gg len) = []).
      { apply elem_of_nil_inv. intros c [Hn Hin%elem_of_seqZ]%list_elem_of_filter.
        lia. }
      by rewrite E, app_nil_r.
    - intros c Hin%elem_of_seqZ. lia. }
  assert (G2 : filter (fun c => ~ c < gg) (seqZ 0 gg ++ seqZ gg len)
               = seqZ gg len).
  { rewrite filter_app, (filter_all _ (seqZ gg len)).
    - assert (E : filter (fun c => ~ c < gg) (seqZ 0 gg) = []).
      { apply elem_of_nil_inv. intros c [Hn Hin%elem_of_seqZ]%list_elem_of_filter.
        lia. }
      by rewrite E.
    - intros c Hin%elem_of_seqZ. lia. }
  split.
  - rewrite <- F1, <- G1. by apply filter_Permutation.
  - assert (Hq : map (fun pl => gg + pc pl) pls ≡ₚ seqZ gg len).
    { rewrite <- F2, <- G2. by apply filter_Permutation. }
    apply (Permutation_map (Z.add (- gg))) in Hq.
    rewrite map_map in Hq.
    assert (E1 : map (fun pl => - gg + (gg + pc pl)) pls = map pc pls).
    { apply map_ext. intros. lia. }
    rewrite E1 in Hq. rewrite Hq.
    change (map (Z.add (- gg)) (seqZ gg len)) with (Z.add (- gg) <$> seqZ gg len).
    rewrite fmap_add_seqZ. by replace (- gg + gg) with 0 by lia.
Qed.

(** Every solution that [solve] returns for the matrix of
    [create_polyomino_matrix] names placements of [row_map] that use
    each piece once and between them occupy every cell of the grid
    once. *)
Theorem polyomino_solutions_pack g pieces row_map m tr lf find_all :
  create_polyomino_matrix g pieces blank = Ret row_map m ->
  nnodes m <= Z.of_nat lf ->
  exists sols s',
    solve (S (Z.to_nat (g * g + Z.of_nat (length pieces)))) lf find_all
      (new_solver m tr) = Ret sols s' /\
    forall sol, sol ∈ sols ->
      exists pls : list (Z * Z * Z),
        Forall2 (fun rid pl => row_map !! rid = Some pl) sol pls /\
        map (fun pl => pl.1.1) pls ≡ₚ seqZ 0 (Z.of_nat (length pieces)) /\
        concat (map (placed_cells g pieces) pls) ≡ₚ seqZ 0 (g * g).
Proof.
  intros Hrun Hlf.
  destruct (create_polyomino_matrix_Ret g pieces row_map m Hrun) as [-> Hb].
  pose proof (poly_rows_valid g pieces) as Hv.
  destruct (solve_ok _ _ m tr lf find_all Hv Hb Hlf)
    as (b & s' & _ & Hsolve & _ & Hex & _).
  eexists _, _. split; [exact Hsolve|].
  intros sol Hsol.
  pose proof (proj1 (Forall_forall _ _) Hex sol Hsol)
    as (picks & Hin & <- & Hp).
  destruct (picks_placements g pieces picks Hin) as (pls & H1 & H2 & H3).
  rewrite H2 in Hp.
  destruct (split_cover (g * g) (Z.of_nat (length pieces))
              (placed_cells g pieces) (fun pl => pl.1.1) pls) as [Hc Hpc];
    [nia|lia|done|done|].
  exists pls. done.
Qed.

Lemma polyomino_solutions_pack_witness :
  exists sols s',
    solve (S (Z.to_nat (2 * 2 + Z.of_nat (length ex_bars)))) 30 true
      (new_solver ex_bars_matrix false) = Ret sols s' /\
    forall sol, sol ∈ sols ->
      exists pls : list (Z * Z * Z),
        Forall2 (fun rid pl =>
                   row_map_of (placements 2 ex_bars) !! rid = Some pl)
                sol pls /\
        map (fun pl => pl.1.1) pls ≡ₚ seqZ 0 (Z.of_nat (length ex_bars)) /\
        concat (map (placed_cells 2 ex_bars) pls) ≡ₚ seqZ 0 (2 * 2).
Proof.
  apply (polyomino_solutions_pack 2 ex_bars _ ex_bars_matrix false 30 true).
  - destruct (create_polyomino_matrix_ok 2 ex_bars) as (m & Hrun & Hb);
      [vm_compute; discriminate|].
    assert (E : build (2 * 2 + Z.of_nat (length ex_bars))
                  (poly_rows 2 ex_bars) = Ret tt ex_bars_matrix)
      by (vm_compute; reflexivity).
    rewrite Hb in E. inversion E. subst m. exact Hrun.
  - vm_compute. discriminate.
Defined.

(* ================================================================= *)
(** ** [visualize_solution] *)

Lemma get_string_of_list_ascii (l : list ascii) : forall n,
  String.get n (String.string_of_list_ascii l) = l !! n.
Proof.
  induction l as [|a l IH]; intros [|n]; simpl; done.
Qed.

Lemma length_string_of_list_ascii (l : list ascii) :
  String.length (String.string_of_list_ascii l) = length l.
Proof. induction l as [|a l IH]; simpl; [done|]. by rewrite IH. Qed.

Lemma char_at_cell grid r c :
  0 <= r -> 0 <= c ->
  char_at (map String.string_of_list_ascii grid) r c
  = cell grid (Z.to_nat r) (Z.to_nat c).
Proof.
  intros Hr Hc. unfold char_at, cell.
  change (map String.string_of_list_ascii grid)
    with (String.string_of_list_ascii <$> grid).
  rewrite list_lookup_fmap.
  destruct (grid !! Z.to_nat r) as [row|]; simpl; [|done].
  apply get_string_of_list_ascii.
Qed.

Lemma subscript_item {A} (l : list A) i :
  subscript l i = match item l i with
                  | Some a => Ok a
                  | None => Err (ListExn IndexError)
                  end.
Proof.
  unfold subscript, item. case_decide as H.
  - rewrite py_index_wrap by done.
    rewrite py_index_nonneg by (by apply wrap_range).
    by destruct (l !! _).
  - rewrite py_index_out by lia. done.
Qed.

Lemma letter_ok p :
  exists ch, subscript piece_chars (p `mod` Z.of_nat (length piece_chars))
             = Ok ch /\
             piece_chars !! Z.to_nat (p `mod` 26) = Some ch.
Proof.
  change (Z.of_nat (length piece_chars)) with 26.
  pose proof (Z.mod_pos_bound p 26 eq_refl) as Hb.
  destruct (lookup_lt_is_Some_2 piece_chars (Z.to_nat (p `mod` 26)))
    as [ch Hch].
  { change (length piece_chars) with 26%nat. lia. }
  exists ch. split; [|done].
  rewrite subscript_item. unfold item.
  change (Z.of_nat (length piece_chars)) with 26.
  rewrite decide_True by lia. unfold wrap. rewrite decide_True by lia.
  by rewrite Hch.
Qed.

Lemma shaped_blank (G : nat) :
  shaped G (replicate G (replicate G "."%char)) /\
  forall r c, (r < G)%nat -> (c < G)%nat ->
    cell (replicate G (replicate G "."%char)) r c = Some "."%char.
Proof.
  split.
  - split; [by rewrite length_replicate|].
    apply Forall_replicate. by rewrite length_replicate.
  - intros r c Hr Hc. unfold cell.
    rewrite lookup_replicate_2 by done. simpl.
    by rewrite lookup_replicate_2.
Qed.

(** The position that subscript [i] denotes in a list of length [G]. *)
Lemma py_index_pos (G : nat) i :
  - Z.of_nat G <= i < Z.of_nat G ->
  py_index G i = Some (Z.to_nat (wrap (Z.of_nat G) i)) /\
  (Z.to_nat (wrap (Z.of_nat G) i) < G)%nat.
Proof.
  intros H. pose proof (wrap_range _ _ H) as Hw.
  rewrite py_index_wrap by done. rewrite py_index_nonneg by done.
  split; [done|lia].
Qed.

Lemma grid_set_in G grid i j ch :
  shaped G grid ->
  - Z.of_nat G <= i < Z.of_nat G -> - Z.of_nat G <= j < Z.of_nat G ->
  exists grid',
    grid_set grid i j ch = Ok grid' /\ shaped G grid' /\
    forall r c,
      cell grid' r c
      = if decide (r = Z.to_nat (wrap (Z.of_nat G) i) /\
                   c = Z.to_nat (wrap (Z.of_nat G) j))
        then Some ch else cell grid r c.
Proof.
  intros [Hl Hrows] Hi Hj.
  destruct (py_index_pos G i Hi) as [Ei Hri].
  destruct (py_index_pos G j Hj) as [Ej Hcj].
  set (ri := Z.to_nat (wrap (Z.of_nat G) i)) in *.
  set (cj := Z.to_nat (wrap (Z.of_nat G) j)) in *.
  destruct (lookup_lt_is_Some_2 grid ri) as [row Hrow]; [lia|].
  assert (Hlr : length row = G)
    by exact (proj1 (Forall_lookup _ _) Hrows ri row Hrow).
  unfold grid_set. rewrite Hl, Ei, Hrow, Hlr, Ej.
  eexists. split; [done|]. split.
  - split; [by rewrite length_insert|].
    apply Forall_insert; [done|]. by rewrite length_insert.
  - intros r c. unfold cell.
    destruct (decide (r = ri)) as [->|Hne].
    + rewrite list_lookup_insert_eq by lia. simpl.
      rewrite Hrow. simpl.
      destruct (decide (c = cj)) as [->|Hnc].
      * rewrite decide_True by done.
        by rewrite list_lookup_insert_eq by lia.
      * rewrite decide_False by (intros [_ ?]; done).
        by rewrite list_lookup_insert_ne.
    + rewrite decide_False by (intros [? _]; done).
      by rewrite list_lookup_insert_ne.
Qed.

Lemma grid_set_out G grid i j ch :
  shaped G grid ->
  ~ ((- Z.of_nat G <= i < Z.of_nat G) /\ (- Z.of_nat G <= j < Z.of_nat G)) ->
  grid_set grid i j ch = Err (ListExn IndexError).
Proof.
  intros [Hl Hrows] Hout. unfold grid_set. rewrite Hl.
  destruct (decide (- Z.of_nat G <= i < Z.of_nat G)) as [Hi|Hi].
  - destruct (py_index_pos G i Hi) as [Ei Hri]. rewrite Ei.
    destruct (grid !! _) as [row|] eqn:Hrow; [|done].
    rewrite (proj1 (Forall_lookup _ _) Hrows _ row Hrow).
    rewrite py_index_out by lia. done.
  - rewrite py_index_out by lia. done.
Qed.

Lemma draw_piece_in G x y ch piece : forall grid,
  shaped G grid -> inside G x y piece ->
  exists grid',
    draw_piece x y ch piece grid = Ok grid' /\ shaped G grid' /\
    forall r c,
      cell grid' r c
      = if decide (touches G x y piece r c) then Some ch else cell grid r c.
Proof.
  induction piece as [|[dx dy] piece IH]; intros grid Hs Hin.
  - exists grid. split_and!; [done|done|].
    intros r c. rewrite decide_False; [done|].
    intros Ht. by apply Exists_nil in Ht.
  - apply Forall_cons in Hin as [[Hy Hx] Hin]. simpl in Hy, Hx.
    destruct (grid_set_in G grid (y + dy) (x + dx) ch Hs Hy Hx)
      as (grid1 & E1 & Hs1 & Hc1).
    destruct (IH grid1 Hs1 Hin) as (grid' & E' & Hs' & Hc').
    exists grid'. simpl. rewrite E1. split_and!; [done|done|].
    intros r c. rewrite Hc', Hc1.
    destruct (decide (touches G x y ((dx, dy) :: piece) r c)) as [Ht|Ht].
    + destruct (decide (touches G x y piece r c)) as [Ht'|Ht']; [done|].
      rewrite decide_True; [done|].
      unfold touches in *. apply Exists_cons in Ht as [Ht|Ht]; [exact Ht|done].
    + rewrite decide_False by (intros Ht'; apply Ht; by apply Exists_cons_tl).
      rewrite decide_False; [done|].
      intros Ht'. apply Ht. by apply Exists_cons_hd.
Qed.

Lemma draw_piece_out G x y ch piece : forall grid,
  shaped G grid -> ~ inside G x y piece ->
  draw_piece x y ch piece grid = Err (ListExn IndexError).
Proof.
  induction piece as [|[dx dy] piece IH]; intros grid Hs Hout.
  - destruct Hout. constructor.
  - simpl.
    destruct (decide ((- Z.of_nat G <= y + dy < Z.of_nat G) /\
                      (- Z.of_nat G <= x + dx < Z.of_nat G))) as [[Hy Hx]|Hd].
    + destruct (grid_set_in G grid (y + dy) (x + dx) ch Hs Hy Hx)
        as (grid1 & E1 & Hs1 & _).
      rewrite E1. apply IH; [done|].
      intros Hin. apply Hout. by constructor.
    + by rewrite (grid_set_out G grid _ _ ch Hs Hd).
Qed.

Section Draw.
Context (G : nat) (pieces : list (list (Z * Z)))
        (row_map : gmap Z (Z * Z * Z)).

Lemma drawable_or rid : drawable (Z.of_nat G) pieces row_map rid \/ ~ drawable (Z.of_nat G) pieces row_map rid.
Proof.
  destruct (row_map !! rid) as [[[p x] y]|] eqn:Hl.
  - destruct (item pieces p) as [piece|] eqn:Hp.
    + destruct (decide (inside G x y piece)) as [Hin|Hin].
      * left. by exists p, x, y, piece.
      * right. intros (p' & x' & y' & piece' & Hl' & Hp' & Hin').
        simplify_eq. by apply Hin.
    + right. intros (p' & x' & y' & piece' & Hl' & Hp' & Hin').
      simplify_eq.
  - right. intros (p' & x' & y' & piece' & Hl' & Hp' & Hin').
    simplify_eq.
Qed.

Lemma touches_paints rid p x y piece ch r c :
  row_map !! rid = Some (p, x, y) -> item pieces p = Some piece ->
  inside G x y piece ->
  piece_chars !! Z.to_nat (p `mod` 26) = Some ch ->
  touches G x y piece r c <-> paints (Z.of_nat G) pieces row_map rid (Z.of_nat r) (Z.of_nat c) ch.
Proof.
  intros Hl Hp Hin Hch. split.
  - intros Ht. apply Exists_exists in Ht as (d & Hd & -> & ->).
    pose proof (proj1 (Forall_forall _ _) Hin d Hd) as [Hy Hx].
    apply wrap_range in Hy, Hx.
    exists p, x, y, piece, d. split_and!; try done; lia.
  - intros (p' & x' & y' & piece' & d & Hl' & Hp' & Hd & Hr & Hc & _).
    simplify_eq. apply Exists_exists. exists d. split; [done|].
    rewrite Hr, Hc. by rewrite !Nat2Z.id.
Qed.

(** One turn of the loop over [solution]. *)
Lemma draw_rows_cons_ok rid sol grid :
  shaped G grid -> drawable (Z.of_nat G) pieces row_map rid ->
  exists grid1,
    draw_rows pieces row_map (rid :: sol) grid
    = draw_rows pieces row_map sol grid1 /\
    shaped G grid1 /\
    forall r c,
      (forall ch, paints (Z.of_nat G) pieces row_map rid (Z.of_nat r) (Z.of_nat c) ch ->
         cell grid1 r c = Some ch) /\
      ((forall ch, ~ paints (Z.of_nat G) pieces row_map rid (Z.of_nat r) (Z.of_nat c) ch) ->
         cell grid1 r c = cell grid r c).
Proof.
  intros Hs (p & x & y & piece & Hl & Hp & Hin).
  destruct (letter_ok p) as (ch & Ech & Hch).
  destruct (draw_piece_in G x y ch piece grid Hs Hin)
    as (grid1 & E1 & Hs1 & Hc1).
  exists grid1. split_and!; [|done|].
  - cbn [draw_rows]. rewrite Hl, (subscript_item pieces p), Hp, Ech, E1.
    done.
  - intros r c. rewrite Hc1. split.
    + intros ch' Hpt.
      assert (ch' = ch) as ->.
      { destruct Hpt
          as (p' & x' & y' & piece' & d & Hl' & _ & _ & _ & _ & E).
        by simplify_eq. }
      rewrite decide_True; [done|].
      by eapply (touches_paints rid p x y piece ch).
    + intros Hno. rewrite decide_False; [done|].
      intros Ht. apply (Hno ch). by eapply touches_paints.
Qed.

Lemma draw_rows_cons_err rid sol grid :
  shaped G grid -> ~ drawable (Z.of_nat G) pieces row_map rid ->
  draw_rows pieces row_map (rid :: sol) grid
  = Err (match row_map !! rid with
         | None => KeyError
         | Some _ => ListExn IndexError
         end).
Proof.
  intros Hs Hnd. cbn [draw_rows].
  destruct (row_map !! rid) as [[[p x] y]|] eqn:Hl; [|done].
  rewrite (subscript_item pieces p).
  destruct (item pieces p) as [piece|] eqn:Hp; [|done].
  destruct (letter_ok p) as (ch & -> & _).
  rewrite (draw_piece_out G x y ch piece grid Hs); [done|].
  intros Hin. apply Hnd. by exists p, x, y, piece.
Qed.

Lemma draw_rows_ok : forall sol grid,
  shaped G grid -> Forall (drawable (Z.of_nat G) pieces row_map) sol ->
  exists grid', draw_rows pieces row_map sol grid = Ok grid' /\
                shaped G grid'.
Proof.
  induction sol as [|rid sol IH]; intros grid Hs Hall.
  - by exists grid.
  - apply Forall_cons in Hall as [Hd Hall].
    destruct (draw_rows_cons_ok rid sol grid Hs Hd) as (grid1 & -> & Hs1 & _).
    by apply IH.
Qed.

Lemma draw_rows_err rid post : forall pre grid,
  shaped G grid -> Forall (drawable (Z.of_nat G) pieces row_map) pre -> ~ drawable (Z.of_nat G) pieces row_map rid ->
  draw_rows pieces row_map (pre ++ rid :: post) grid
  = Err (match row_map !! rid with
         | None => KeyError
         | Some _ => ListExn IndexError
         end).
Proof.
  induction pre as [|r0 pre IH]; intros grid Hs Hall Hnd.
  - by apply draw_rows_cons_err.
  - apply Forall_cons in Hall as [Hd Hall].
    destruct (draw_rows_cons_ok r0 (pre ++ rid :: post) grid Hs Hd)
      as (grid1 & E & Hs1 & _).
    change ((r0 :: pre) ++ rid :: post) with (r0 :: pre ++ rid :: post).
    rewrite E. by apply IH.
Qed.

Lemma draw_rows_inv : forall sol grid grid',
  shaped G grid -> draw_rows pieces row_map sol grid = Ok grid' ->
  Forall (drawable (Z.of_nat G) pieces row_map) sol.
Proof.
  induction sol as [|rid sol IH]; intros grid grid' Hs Hrun; [done|].
  destruct (drawable_or rid) as [Hd|Hd].
  - constructor; [done|].
    destruct (draw_rows_cons_ok rid sol grid Hs Hd) as (grid1 & E & Hs1 & _).
    rewrite E in Hrun. by eapply IH.
  - by rewrite (draw_rows_cons_err rid sol grid Hs Hd) in Hrun.
Qed.

Lemma draw_rows_keep r c : forall sol grid grid',
  shaped G grid -> draw_rows pieces row_map sol grid = Ok grid' ->
  (forall rid ch, rid ∈ sol ->
     ~ paints (Z.of_nat G) pieces row_map rid (Z.of_nat r) (Z.of_nat c) ch) ->
  cell grid' r c = cell grid r c.
Proof.
  induction sol as [|rid sol IH]; intros grid grid' Hs Hrun Hno.
  - simpl in Hrun. by simplify_eq.
  - pose proof (draw_rows_inv _ _ _ Hs Hrun) as Hall.
    apply Forall_cons in Hall as [Hd _].
    destruct (draw_rows_cons_ok rid sol grid Hs Hd)
      as (grid1 & E & Hs1 & Hc1).
    rewrite E in Hrun.
    rewrite (IH grid1 grid' Hs1 Hrun).
    + apply Hc1. intros ch. apply Hno. left.
    + intros rid' ch Hin. apply Hno. by right.
Qed.

Lemma draw_rows_last r c rid post ch : forall pre grid grid',
  shaped G grid ->
  draw_rows pieces row_map (pre ++ rid :: post) grid = Ok grid' ->
  paints (Z.of_nat G) pieces row_map rid (Z.of_nat r) (Z.of_nat c) ch ->
  (forall rid' ch', rid' ∈ post ->
     ~ paints (Z.of_nat G) pieces row_map rid' (Z.of_nat r) (Z.of_nat c) ch') ->
  cell grid' r c = Some ch.
Proof.
  induction pre as [|r0 pre IH]; intros grid grid' Hs Hrun Hp Hno.
  - pose proof (draw_rows_inv _ _ _ Hs Hrun) as Hall.
    apply Forall_cons in Hall as [Hd _].
    destruct (draw_rows_cons_ok rid post grid Hs Hd)
      as (grid1 & E & Hs1 & Hc1).
    simpl app in Hrun. rewrite E in Hrun.
    rewrite (draw_rows_keep r c post grid1 grid' Hs1 Hrun Hno).
    by apply Hc1.
  - pose proof (draw_rows_inv _ _ _ Hs Hrun) as Hall.
    apply Forall_cons in Hall as [Hd _].
    destruct (draw_rows_cons_ok r0 (pre ++ rid :: post) grid Hs Hd)
      as (grid1 & E & Hs1 & _).
    change ((r0 :: pre) ++ rid :: post) with (r0 :: pre ++ rid :: post)
      in Hrun.
    rewrite E in Hrun. by eapply IH.
Qed.
End Draw.

Lemma drawable_nat g pieces row_map rid :
  drawable g pieces row_map rid
  <-> drawable (Z.of_nat (Z.to_nat g)) pieces row_map rid.
Proof.
  split; intros (p & x & y & piece & Hl & Hp & Hin);
    exists p, x, y, piece; (split_and!; [done|done|]);
    (eapply Forall_impl; [exact Hin|]); simpl; intros d ?; lia.
Qed.

Lemma Forall_drawable_nat g pieces row_map sol :
  Forall (drawable g pieces row_map) sol
  <-> Forall (drawable (Z.of_nat (Z.to_nat g)) pieces row_map) sol.
Proof.
  split; intros H; (eapply Forall_impl; [exact H|]);
    intros rid; apply drawable_nat.
Qed.

(** [visualize_solution] returns a picture exactly when every row id of
    [solution] is a key of [row_map] whose piece index is a subscript
    of [pieces] and whose cells are subscripts of the grid, negative
    subscripts included. *)
Theorem visualize_solution_returns_iff g pieces sol row_map :
  (exists out, visualize_solution g pieces sol row_map = Ok out)
  <-> Forall (drawable g pieces row_map) sol.
Proof.
  rewrite Forall_drawable_nat. unfold visualize_solution.
  destruct (shaped_blank (Z.to_nat g)) as [Hs _]. split.
  - intros [out Hrun].
    destruct (draw_rows pieces row_map sol _) as [grid'|e] eqn:E; [|done].
    by eapply draw_rows_inv.
  - intros Hall.
    destruct (draw_rows_ok _ pieces row_map sol _ Hs Hall) as (grid' & -> & _).
    by eexists.
Qed.

(** A picture that [visualize_solution] returns has [grid_size] lines
    of [grid_size] characters each (none when [grid_size] is
    negative). *)
Theorem visualize_solution_shape g pieces sol row_map out :
  visualize_solution g pieces sol row_map = Ok out ->
  length out = Z.to_nat g /\
  Forall (fun line => String.length line = Z.to_nat g) out.
Proof.
  unfold visualize_solution. intros Hrun.
  destruct (shaped_blank (Z.to_nat g)) as [Hs _].
  destruct (draw_rows pieces row_map sol _) as [grid'|e] eqn:E; [|done].
  pose proof (draw_rows_inv _ _ _ _ _ _ Hs E) as Hall.
  destruct (draw_rows_ok _ pieces row_map sol _ Hs Hall)
    as (grid2 & E2 & [Hl Hrows]).
  rewrite E in E2. simplify_eq. split.
  - by rewrite length_map.
  - change (map String.string_of_list_ascii grid2)
      with (String.string_of_list_ascii <$> grid2).
    apply Forall_fmap. eapply Forall_impl; [exact Hrows|].
    intros row Hrow. simpl. by rewrite length_string_of_list_ascii.
Qed.

Lemma visualize_solution_shape_witness :
  length ["AB"; ".B"] = Z.to_nat 2 /\
  Forall (fun line => String.length line = Z.to_nat 2) ["AB"; ".B"].
Proof.
  apply (visualize_solution_shape 2 ex_pieces [0; 3]
           (row_map_of (placements 2 ex_pieces))).
  vm_compute. reflexivity.
Defined.

(** The first row id of [solution] that cannot be drawn decides the
    exception: [KeyError] when it is not a key of [row_map], otherwise
    [IndexError] (from [pieces] or from the grid). *)
Theorem visualize_solution_raises g pieces row_map pre rid post :
  Forall (drawable g pieces row_map) pre ->
  ~ drawable g pieces row_map rid ->
  (row_map !! rid = None ->
     visualize_solution g pieces (pre ++ rid :: post) row_map
     = Err KeyError) /\
  (is_Some (row_map !! rid) ->
     visualize_solution g pieces (pre ++ rid :: post) row_map
     = Err (ListExn IndexError)).
Proof.
  rewrite Forall_drawable_nat, drawable_nat. intros Hall Hnd.
  destruct (shaped_blank (Z.to_nat g)) as [Hs _].
  unfold visualize_solution.
  rewrite (draw_rows_err _ pieces row_map rid post pre _ Hs Hall Hnd).
  split.
  - by intros ->.
  - by intros [pl ->].
Qed.

Lemma visualize_solution_raises_witness :
  (row_map_of (placements 2 ex_pieces) !! 4 = None ->
     visualize_solution 2 ex_pieces ([0] ++ 4 :: [1])
       (row_map_of (placements 2 ex_pieces))
     = Err KeyError) /\
  (is_Some (row_map_of (placements 2 ex_pieces) !! 4) ->
     visualize_solution 2 ex_pieces ([0] ++ 4 :: [1])
       (row_map_of (placements 2 ex_pieces))
     = Err (ListExn IndexError)).
Proof.
  apply (visualize_solution_raises 2 ex_pieces
           (row_map_of (placements 2 ex_pieces)) [0] 4 [1]).
  - constructor; [|constructor].
    exists 0, 0, 0, [(0, 0); (1, 0)]. split_and!; [done|done|].
    repeat constructor; simpl; lia.
  - intros (p & x & y & piece & Hl & _). vm_compute in Hl. discriminate.
Defined.

(** What a returned picture shows at line [r], column [c]: a dot when no
    row id of [solution] writes there, otherwise the letter of the last
    one that does. *)
Theorem visualize_solution_cells g pieces sol row_map out r c :
  visualize_solution g pieces sol row_map = Ok out ->
  0 <= r < g -> 0 <= c < g ->
  ((forall rid ch, rid ∈ sol -> ~ paints g pieces row_map rid r c ch) ->
     char_at out r c = Some "."%char) /\
  (forall pre rid post ch,
     sol = pre ++ rid :: post ->
     paints g pieces row_map rid r c ch ->
     (forall rid' ch', rid' ∈ post ->
        ~ paints g pieces row_map rid' r c ch') ->
     char_at out r c = Some ch).
Proof.
  unfold visualize_solution. intros Hrun Hr Hc.
  destruct (shaped_blank (Z.to_nat g)) as [Hs Hdot].
  destruct (draw_rows pieces row_map sol _) as [grid'|e] eqn:E; [|done].
  simplify_eq. rewrite char_at_cell by lia.
  assert (Eg : Z.of_nat (Z.to_nat g) = g) by lia.
  assert (Er : Z.of_nat (Z.to_nat r) = r) by lia.
  assert (Ec : Z.of_nat (Z.to_nat c) = c) by lia.
  split.
  - intros Hno.
    rewrite (draw_rows_keep (Z.to_nat g) pieces row_map _ _ sol _ grid' Hs E).
    + apply Hdot; lia.
    + rewrite Eg, Er, Ec. exact Hno.
  - intros pre rid post ch -> Hp Hno.
    apply (draw_rows_last (Z.to_nat g) pieces row_map _ _ rid post ch pre
             _ grid' Hs E).
    + by rewrite Eg, Er, Ec.
    + rewrite Eg, Er, Ec. exact Hno.
Qed.

Lemma visualize_solution_cells_witness :
  ((forall rid ch, rid ∈ [0; 3] ->
      ~ paints 2 ex_pieces (row_map_of (placements 2 ex_pieces)) rid 0 1 ch) ->
     char_at ["AB"; ".B"] 0 1 = Some "."%char) /\
  (forall pre rid post ch,
     [0; 3] = pre ++ rid :: post ->
     paints 2 ex_pieces (row_map_of (placements 2 ex_pieces)) rid 0 1 ch ->
     (forall rid' ch', rid' ∈ post ->
        ~ paints 2 ex_pieces (row_map_of (placements 2 ex_pieces))
            rid' 0 1 ch') ->
     char_at ["AB"; ".B"] 0 1 = Some ch).
Proof.
  apply (visualize_solution_cells 2 ex_pieces [0; 3]
           (row_map_of (placements 2 ex_pieces))).
  - vm_compute. reflexivity.
  - lia.
  - lia.
Defined.

(* ================================================================= *)
(** ** The picture of a packing found by the solver *)

Lemma row_map_of_entry g pieces rid p x y :
  row_map_of (placements g pieces) !! rid = Some (p, x, y) ->
  0 <= p /\ exists piece,
    pieces !! Z.to_nat p = Some piece /\ fits g x y piece.
Proof.
  intros Hl. rewrite row_map_of_lookup in Hl.
  case_decide as Hrid; [|done].
  destruct (placements g pieces !! Z.to_nat rid) as [pl|] eqn:E; [|done].
  simpl in Hl. inversion Hl as [E1].
  apply list_elem_of_lookup_2 in E.
  apply elem_placements in E
    as (p' & piece & x' & y' & -> & Hp & Hpiece & Hx & Hy & Hf & Hnd).
  simpl in E1. inversion E1; subst. eauto.
Qed.

Lemma item_nonneg {A} (l : list A) (i : Z) a :
  0 <= i -> l !! Z.to_nat i = Some a -> item l i = Some a.
Proof.
  intros Hi Hl. pose proof (lookup_lt_Some _ _ _ Hl) as Hlt.
  unfold item, wrap. rewrite !decide_True by lia. done.
Qed.

Lemma poly_entry_drawable g pieces rid pl :
  row_map_of (placements g pieces) !! rid = Some pl ->
  drawable g pieces (row_map_of (placements g pieces)) rid.
Proof.
  destruct pl as [[p x] y]. intros Hl.
  destruct (row_map_of_entry g pieces rid p x y Hl)
    as (Hp & piece & Hpiece & Hf).
  exists p, x, y, piece. split_and!; [done|by apply item_nonneg|].
  eapply Forall_impl; [exact Hf|]. simpl. intros d ?. lia.
Qed.

(** In the [row_map] of [create_polyomino_matrix], drawing a row id
    writes exactly into the cells of its placement. *)
Lemma poly_paints_cell g pieces rid pl r c ch :
  row_map_of (placements g pieces) !! rid = Some pl ->
  0 <= r < g -> 0 <= c < g ->
  paints g pieces (row_map_of (placements g pieces)) rid r c ch
  <-> r * g + c ∈ placed_cells g pieces pl /\
      piece_chars !! Z.to_nat (pl.1.1 `mod` 26) = Some ch.
Proof.
  destruct pl as [[p x] y]. intros Hl Hr Hc.
  destruct (row_map_of_entry g pieces rid p x y Hl)
    as (Hp & piece & Hpiece & Hf).
  assert (Ecells : placed_cells g pieces (p, x, y) = piece_cells g x y piece).
  { unfold placed_cells. simpl.
    by rewrite (list_lookup_total_correct _ _ _ Hpiece). }
  rewrite Ecells. unfold piece_cells. simpl. split.
  - intros (p' & x' & y' & piece' & d & Hl' & Hp' & Hd & Hwr & Hwc & Hch).
    rewrite Hl in Hl'. inversion Hl'; subst p' x' y'.
    rewrite (item_nonneg _ _ _ Hp Hpiece) in Hp'. inversion Hp'; subst piece'.
    pose proof (proj1 (Forall_forall _ _) Hf d Hd) as [Hx Hy].
    unfold wrap in Hwr, Hwc.
    rewrite decide_True in Hwr by lia. rewrite decide_True in Hwc by lia.
    split; [|done]. apply list_elem_of_In, in_map_iff.
    exists d. split; [by subst|by apply list_elem_of_In].
  - intros [Hin Hch].
    apply list_elem_of_In, in_map_iff in Hin as (d & Hd & Hin).
    apply list_elem_of_In in Hin.
    pose proof (proj1 (Forall_forall _ _) Hf d Hin) as [Hx Hy].
    assert (Ey : y + d.2 = r).
    { generalize dependent (y + d.2). generalize dependent (x + d.1).
      intros b ? a ? ?.
      destruct (Z.lt_trichotomy a r) as [?|[?|?]]; [|done|]; exfalso; nia. }
    assert (Ex : x + d.1 = c) by (rewrite Ey in Hd; lia).
    exists p, x, y, piece, d. unfold wrap.
    rewrite !decide_True by lia.
    split_and!; try done. by apply item_nonneg.
Qed.

(** Every solution that [solve] returns for the matrix of
    [create_polyomino_matrix] is drawn by [visualize_solution] without
    an error, and every cell of the picture shows the letter of a
    piece that the solution places on that cell: no dot is left. *)
Theorem polyomino_solutions_display g pieces row_map m tr lf find_all :
  create_polyomino_matrix g pieces blank = Ret row_map m ->
  nnodes m <= Z.of_nat lf ->
  exists sols s',
    solve (S (Z.to_nat (g * g + Z.of_nat (length pieces)))) lf find_all
      (new_solver m tr) = Ret sols s' /\
    forall sol, sol ∈ sols ->
      exists out,
        visualize_solution g pieces sol row_map = Ok out /\
        forall cx cy, 0 <= cx < g -> 0 <= cy < g ->
          exists rid pl ch,
            rid ∈ sol /\ row_map !! rid = Some pl /\
            cy * g + cx ∈ placed_cells g pieces pl /\
            piece_chars !! Z.to_nat (pl.1.1 `mod` 26) = Some ch /\
            char_at out cy cx = Some ch.
Proof.
  intros Hrun Hlf.
  destruct (create_polyomino_matrix_Ret g pieces row_map m Hrun) as [-> Hb].
  pose proof (poly_rows_valid g pieces) as Hv.
  destruct (solve_ok _ _ m tr lf find_all Hv Hb Hlf)
    as (b & s' & _ & Hsolve & _ & Hex & _).
  eexists _, _. split; [exact Hsolve|].
  intros sol Hsol.
  pose proof (proj1 (Forall_forall _ _) Hex sol Hsol)
    as (picks & Hin & <- & Hp).
  destruct (picks_placements g pieces picks Hin) as (pls & H1 & H2 & H3).
  rewrite H2 in Hp.
  assert (Hgg : 0 <= g * g) by nia.
  destruct (split_cover (g * g) (Z.of_nat (length pieces))
              (placed_cells g pieces) (fun pl => pl.1.1) pls) as [Hc _];
    [done|lia|done|done|].
  set (rm := row_map_of (placements g pieces)) in *.
  set (sol := map fst picks) in *.
  assert (Hall : Forall (drawable g pieces rm) sol).
  { apply Forall_forall. intros rid Hrid.
    apply list_elem_of_lookup in Hrid as (i & Hi).
    destruct (Forall2_lookup_l _ _ _ _ _ H1 Hi) as (pl & _ & Hpl).
    by eapply poly_entry_drawable. }
  destruct (shaped_blank (Z.to_nat g)) as [Hs _].
  pose proof (proj1 (Forall_drawable_nat _ _ _ _) Hall) as Hall'.
  destruct (draw_rows_ok _ pieces rm sol _ Hs Hall') as (grid' & E & Hs').
  exists (map String.string_of_list_ascii grid'). split.
  { unfold visualize_solution. by rewrite E. }
  intros cx cy Hcx Hcy.
  assert (Hcell : cy * g + cx ∈ concat (map (placed_cells g pieces) pls)).
  { rewrite Hc. apply elem_of_seqZ. nia. }
  assert (Hnd : NoDup (concat (map (placed_cells g pieces) pls))).
  { rewrite Hc. apply NoDup_seqZ. }
  apply list_elem_of_In, in_concat in Hcell as (cells & Hcells & Hcell).
  apply in_map_iff in Hcells as (pl & <- & Hpl).
  apply list_elem_of_In in Hpl, Hcell.
  apply list_elem_of_split in Hpl as (pls1 & pls2 & ->).
  apply Forall2_app_inv_r in H1 as (pre & rest & Hpre & Hrest & Esol).
  apply Forall2_cons_inv_r in Hrest as (rid & post & Hrid & Hpost & ->).
  destruct (letter_ok pl.1.1) as (ch & _ & Hch).
  exists rid, pl, ch. split_and!; try done.
  { rewrite Esol. apply elem_of_app. right. left. }
  rewrite char_at_cell by lia.
  assert (Eg : Z.of_nat (Z.to_nat g) = g) by lia.
  rewrite Esol in E.
  apply (draw_rows_last (Z.to_nat g) pieces rm _ _ rid post ch pre
           _ grid' Hs E).
  - rewrite Eg, !Z2Nat.id by lia.
    by apply (poly_paints_cell g pieces rid pl).
  - intros rid' ch' Hrid' Hpt.
    rewrite Eg, !Z2Nat.id in Hpt by lia.
    apply list_elem_of_lookup in Hrid' as (i & Hi).
    destruct (Forall2_lookup_l _ _ _ _ _ Hpost Hi) as (pl' & Hpl' & Hl').
    pose proof (proj1 (poly_paints_cell g pieces rid' pl' cy cx ch'
                         Hl' Hcy Hcx) Hpt) as [Hin' _].
    rewrite map_app, concat_app in Hnd. simpl in Hnd.
    apply NoDup_app in Hnd as (_ & _ & Hnd).
    apply NoDup_app in Hnd as (_ & Hnd & _).
    apply (Hnd _ Hcell).
    apply list_elem_of_In, in_concat.
    exists (placed_cells g pieces pl'). split; [|by apply list_elem_of_In].
    apply in_map. apply list_elem_of_In. by eapply list_elem_of_lookup_2.
Qed.

Lemma polyomino_solutions_display_witness :
  exists sols s',
    solve (S (Z.to_nat (2 * 2 + Z.of_nat (length ex_bars)))) 30 true
      (new_solver ex_bars_matrix false) = Ret sols s' /\
    forall sol, sol ∈ sols ->
      exists out,
        visualize_solution 2 ex_bars sol (row_map_of (placements 2 ex_bars))
        = Ok out /\
        forall cx cy, 0 <= cx < 2 -> 0 <= cy < 2 ->
          exists rid pl ch,
            rid ∈ sol /\
            row_map_of (placements 2 ex_bars) !! rid = Some pl /\
            cy * 2 + cx ∈ placed_cells 2 ex_bars pl /\
            piece_chars !! Z.to_nat (pl.1.1 `mod` 26) = Some ch /\
            char_at out cy cx = Some ch.
Proof.
  apply (polyomino_solutions_display 2 ex_bars _ ex_bars_matrix false 30 true).
  - destruct (create_polyomino_matrix_ok 2 ex_bars) as (m & Hrun & Hb);
      [vm_compute; discriminate|].
    assert (E : build (2 * 2 + Z.of_nat (length ex_bars))
                  (poly_rows 2 ex_bars) = Ret tt ex_bars_matrix)
      by (vm_compute; reflexivity).
    rewrite Hb in E. inversion E. subst m. exact Hrun.
  - vm_compute. discriminate.
Defined.
